(** * Audio-reactive snowflake visualizer: spectrum analysis, beat detection,
      particle emission and the render loop

    The development embeds the TypeScript sources ([utils/audioUtils.ts],
    [constants.ts], the neon component [PsychedelicVisualizer] and the classic
    component [Visualizer]) as Rocq functions.

    Numbers.  A JavaScript [number] is modelled by a rational ([Q]); the
    operations [+ - * /] are the exact ones and comparisons are decided by
    [Qle_bool].  Byte buffers ([Uint8Array]) are lists of integers and the
    integer sums of the analyser stay in [Z] until the final division.
    Rounding is left out: [Math.floor (length * 0.06)] is the floor of the
    exact product (the two floors agree for every buffer length an analyser
    can have).  The divisions whose divisor can vanish are
    [totalEnergy / length] on an empty buffer, which the statements below
    exclude, and the perspective divide of the neon component at depth
    [-800], whose value [Infinity] is a value of its own ([Quotient]).

    Host.  [Math.random], [Date.now], the trigonometric functions and the
    window size are taken from a [Host] record: successive calls read
    successive entries of a stream, the number of calls made so far being
    part of the state.

    Effects.  The refs of a component, the host counters and a trace of what
    the component does (spawn calls, painting, callbacks) form the state of
    a state monad; [render] is one frame, [run] a sequence of frames.

    The first part holds the embedding, the second the properties: the
    analyser's band means, the spawn decision, the adaptive thresholds and
    running averages, the particle limit, particle lifetime, the blueprint
    ribs, freeze, recognizer exceptions and the projection of the classic
    component.  The further properties cover the rest of the analyser and
    of the two components (shards, line sampling, rib shapes, flight,
    gesture reports, panning, what a spawn call adds, the level bars, what
    is painted), and three pieces of asynchronous code modelled as
    transition systems: the recognizer service of [utils/gestureService.ts],
    the transport controls of [App] and the camera effect of the neon
    component. *)

From Stdlib Require Import ZArith QArith Qround Qpower List Lia Lqa Bool String.
Import ListNotations.

Open Scope Q_scope.

(** ** Elementary number helpers *)

(** [a > b] and [a < b] on JavaScript numbers, as booleans. *)
Definition gtb (a b : Q) : bool := negb (Qle_bool a b).
Definition ltb (a b : Q) : bool := negb (Qle_bool b a).

Definition Math_min (a b : Q) : Q := if Qle_bool a b then a else b.
Definition Math_max (a b : Q) : Q := if Qle_bool a b then b else a.
Definition Math_floor (a : Q) : Z := Qfloor a.

(** The value of [a / b] for a positive [a]: JavaScript divides by zero
    without complaint, and the quotient is then [Infinity]. *)
Inductive Quotient := Finite (q : Q) | Infinity.

Definition quotient (a b : Q) : Quotient :=
  if Qeq_bool b 0 then Infinity else Finite (a / b).

(** [n || 1] for an integer-valued [n]: [0] is falsy. *)
Definition or_one (n : Z) : Z := if (n =? 0)%Z then 1%Z else n.

(** ** constants.ts *)

Definition GRAVITY : Q := 0.03.
Definition FRICTION : Q := 0.95.
Definition BASE_PARTICLE_SIZE : Q := 0.4.
Definition SIZE_VARIATION : Q := 2.4.
Definition BEAT_THRESHOLD_INIT : Q := 1.35.
Definition BEAT_DECAY_RATE : Q := 0.98.
Definition MAX_PARTICLES_PER_FIREWORK : Q := 1200.
Definition MIN_PARTICLES_PER_FIREWORK : Q := 300.
Definition ENERGY_MULTIPLIER : Q := 4.5.
Definition FADE_SPEED_BASE : Q := 0.008.
Definition FADE_SPEED_VAR : Q := 0.005.

(** ** utils/audioUtils.ts *)

Record AudioData := {
  frequencyData : list Z;
  energy : Q;
  bassEnergy : Q;
  midEnergy : Q;
  trebleEnergy : Q
}.

(** The four accumulators of the analyser loop. *)
Record Sums := {
  totalSum : Z;
  bassSum : Z;
  midSum : Z;
  trebleSum : Z
}.

(** One pass of [for (let i = 0; i < length; i++)], started at index [i] on
    the remaining samples. *)
Fixpoint analyzeLoop (bassEnd midEnd i : Z) (rest : list Z) (acc : Sums) : Sums :=
  match rest with
  | [] => acc
  | val :: rest' =>
      let acc' :=
        if (i <? bassEnd)%Z then
          {| totalSum := totalSum acc + val; bassSum := bassSum acc + val;
             midSum := midSum acc; trebleSum := trebleSum acc |}
        else if (i <? midEnd)%Z then
          {| totalSum := totalSum acc + val; bassSum := bassSum acc;
             midSum := midSum acc + val; trebleSum := trebleSum acc |}
        else
          {| totalSum := totalSum acc + val; bassSum := bassSum acc;
             midSum := midSum acc; trebleSum := trebleSum acc + val |} in
      analyzeLoop bassEnd midEnd (i + 1) rest' acc'
  end.

Definition bassEndOf (length : Z) : Z := Math_floor (inject_Z length * 0.06).
Definition midEndOf (length : Z) : Z := Math_floor (inject_Z length * 0.40).

(** [analyzeAudio], applied to the buffer as filled by
    [getByteFrequencyData]. *)
Definition analyzeAudio (dataArray : list Z) : AudioData :=
  let length := Z.of_nat (List.length dataArray) in
  let bassEnd := bassEndOf length in
  let midEnd := midEndOf length in
  let s := analyzeLoop bassEnd midEnd 0 dataArray
             {| totalSum := 0; bassSum := 0; midSum := 0; trebleSum := 0 |} in
  {| frequencyData := dataArray;
     energy := inject_Z (totalSum s) / inject_Z length;
     bassEnergy := inject_Z (bassSum s) / inject_Z (or_one bassEnd);
     midEnergy := inject_Z (midSum s) / inject_Z (or_one (midEnd - bassEnd));
     trebleEnergy := inject_Z (trebleSum s) / inject_Z (or_one (length - midEnd)) |}.

(** [detectBeat] of audioUtils.ts. *)
Definition detectBeat (energy averageEnergy threshold : Q) : bool :=
  gtb energy (averageEnergy * threshold).

(** *** Slices and sums used to state the analyser's result *)

Definition is_uint8 (v : Z) : Prop := (0 <= v <= 255)%Z.

Definition sumZ (l : list Z) : Z := fold_right Z.add 0%Z l.

(** The samples at indices [lo <= i < hi]. *)
Definition slice (lo hi : Z) (l : list Z) : list Z :=
  firstn (Z.to_nat (hi - lo)) (skipn (Z.to_nat lo) l).

Definition lengthZ (l : list Z) : Z := Z.of_nat (List.length l).

(** Arithmetic mean of a non-empty list of samples. *)
Definition mean (l : list Z) : Q := inject_Z (sumZ l) / inject_Z (lengthZ l).

(** ** types.ts and the geometry types of the components *)

Module Point.
Record t := mk { x : Q; y : Q }.
End Point.

Module Particle.
Record t := mk {
  x : Q; y : Q; z : Q;
  vx : Q; vy : Q; vz : Q;
  alpha : Q;
  size : Q;
  color : string;
  life : Q;
  decayRate : Q;
  shimmerOffset : Q
}.
End Particle.

Inductive FrequencyBand := bass | mid | treble.

Module Rib.
Record t := mk { pos : Q; length : Q; angle : Q; subRibs : Z }.
End Rib.

Inductive TipShape := point | fork | star.

Module SnowflakeBlueprint.
Record t := mk {
  armLength : Q;
  centerPlateSize : Q;
  ribs : list Rib.t;
  tipShape : TipShape
}.
End SnowflakeBlueprint.

(** ** The host: browser functions the components call *)

Record Host := {
  random : nat -> Q;        (* the successive results of [Math.random()] *)
  clock : nat -> Z;         (* the successive results of [Date.now()] *)
  cos : Q -> Q;
  sin : Q -> Q;
  sqrt : Q -> Q;
  hypot : Q -> Q -> Q;
  PI : Q;
  innerWidth : Q;
  innerHeight : Q
}.

(** [Math.random()] returns a number of [[0, 1)]. *)
Definition random_unit (h : Host) : Prop := forall n, 0 <= random h n < 1.

(** [a % b] on numbers: the remainder has the sign of the dividend. *)
Definition js_mod (a b : Q) : Q :=
  let q := a / b in
  let t := if Qle_bool 0 q then Qfloor q else Qceiling q in
  a - b * inject_Z t.

(** ** Observable effects of a frame

    [SpawnCall] records a call of the component's spawn function with its
    arguments, at entry and before its guard; the other events are what is
    painted on the canvas and what is reported to the parent component. *)

Inductive Event :=
| SpawnCall (type : FrequencyBand) (intensity : Q)
| FillRect
| DrawShard (x y scale angle alpha hue shadowBlur : Q) (vertices : list Point.t)
| DrawShardAtInfinity (angle hue : Q) (vertices : list Point.t)
| DrawArc (x2d y2d size2d finalOpacity : Q) (color : string)
| GestureChange (gesture : string).

(** ** The refs of a component and the state monad over them

    Both components declare the same seven refs for the beat detector. *)

Record BeatRefs := {
  avgBassRef : Q;
  avgMidRef : Q;
  avgTrebleRef : Q;
  bassThresholdRef : Q;
  midThresholdRef : Q;
  trebleThresholdRef : Q;
  lastSpawnTimeRef : Z
}.

Definition initialBeatRefs : BeatRefs :=
  {| avgBassRef := 0; avgMidRef := 0; avgTrebleRef := 0;
     bassThresholdRef := BEAT_THRESHOLD_INIT;
     midThresholdRef := BEAT_THRESHOLD_INIT;
     trebleThresholdRef := BEAT_THRESHOLD_INIT;
     lastSpawnTimeRef := 0 |}.

(** [P] is the particle type of the component, [X] its remaining refs. *)
Record World (P X : Type) := mkWorld {
  beatRefs : BeatRefs;
  particlesRef : list P;
  ownRefs : X;
  randomCalls : nat;
  clockCalls : nat;
  trace : list Event
}.

Arguments mkWorld {P X}.
Arguments beatRefs {P X}.
Arguments particlesRef {P X}.
Arguments ownRefs {P X}.
Arguments randomCalls {P X}.
Arguments clockCalls {P X}.
Arguments trace {P X}.

Definition M (W A : Type) : Type := W -> A * W.

Definition ret {W A} (a : A) : M W A := fun w => (a, w).

Definition bind {W A B} (m : M W A) (f : A -> M W B) : M W B :=
  fun w => let (a, w') := m w in f a w'.

Declare Scope monad_scope.
Delimit Scope monad_scope with monad.
Notation "x <- c1 ;; c2" := (bind c1 (fun x => c2))
  (at level 61, c1 at next level, right associativity) : monad_scope.
Notation "c1 ;; c2" := (bind c1 (fun _ => c2))
  (at level 61, right associativity) : monad_scope.
Open Scope monad_scope.

Definition exec {W A} (m : M W A) (w : W) : W := snd (m w).
Definition eval {W A} (m : M W A) (w : W) : A := fst (m w).

(** [for (let i = lo; i < lo + n; i++) acc = body(i, acc)]. *)
Fixpoint for_loop {W A} (n : nat) (i : Z) (body : Z -> A -> M W A) (acc : A) : M W A :=
  match n with
  | O => ret acc
  | S n' => acc' <- body i acc ;; for_loop n' (i + 1)%Z body acc'
  end.

(** [for (const a of l) body(a)]. *)
Fixpoint for_of {W A} (l : list A) (body : A -> M W unit) : M W unit :=
  match l with
  | [] => ret tt
  | a :: l' => body a ;; for_of l' body
  end.

(** The same counting loop without effects. *)
Fixpoint loop {A} (n : nat) (i : Z) (body : Z -> A -> A) (acc : A) : A :=
  match n with
  | O => acc
  | S n' => loop n' (i + 1)%Z body (body i acc)
  end.

Section Primitives.
Context {P X : Type} (h : Host).
Local Notation "'W'" := (World P X).

Definition Math_random : M W Q := fun w =>
  (random h (randomCalls w),
   mkWorld (beatRefs w) (particlesRef w) (ownRefs w)
           (S (randomCalls w)) (clockCalls w) (trace w)).

Definition Date_now : M W Z := fun w =>
  (clock h (clockCalls w),
   mkWorld (beatRefs w) (particlesRef w) (ownRefs w)
           (randomCalls w) (S (clockCalls w)) (trace w)).

Definition emit (e : Event) : M W unit := fun w =>
  (tt, mkWorld (beatRefs w) (particlesRef w) (ownRefs w)
               (randomCalls w) (clockCalls w) (trace w ++ [e])).

Definition getBeat : M W BeatRefs := fun w => (beatRefs w, w).

Definition setBeat (b : BeatRefs) : M W unit := fun w =>
  (tt, mkWorld b (particlesRef w) (ownRefs w)
               (randomCalls w) (clockCalls w) (trace w)).

Definition getParticles : M W (list P) := fun w => (particlesRef w, w).

Definition setParticles (ps : list P) : M W unit := fun w =>
  (tt, mkWorld (beatRefs w) ps (ownRefs w)
               (randomCalls w) (clockCalls w) (trace w)).

(** [particlesRef.current.push(p)]. *)
Definition push (p : P) : M W unit :=
  ps <- getParticles ;; setParticles (ps ++ [p]).

Definition getOwn : M W X := fun w => (ownRefs w, w).

Definition setOwn (x : X) : M W unit := fun w =>
  (tt, mkWorld (beatRefs w) (particlesRef w) x
               (randomCalls w) (clockCalls w) (trace w)).

Definition setLastSpawnTime (t : Z) : M W unit :=
  b <- getBeat ;;
  setBeat {| avgBassRef := avgBassRef b; avgMidRef := avgMidRef b;
             avgTrebleRef := avgTrebleRef b;
             bassThresholdRef := bassThresholdRef b;
             midThresholdRef := midThresholdRef b;
             trebleThresholdRef := trebleThresholdRef b;
             lastSpawnTimeRef := t |}.

Definition setBassThreshold (v : Q) : M W unit :=
  b <- getBeat ;;
  setBeat {| avgBassRef := avgBassRef b; avgMidRef := avgMidRef b;
             avgTrebleRef := avgTrebleRef b;
             bassThresholdRef := v;
             midThresholdRef := midThresholdRef b;
             trebleThresholdRef := trebleThresholdRef b;
             lastSpawnTimeRef := lastSpawnTimeRef b |}.

Definition setMidThreshold (v : Q) : M W unit :=
  b <- getBeat ;;
  setBeat {| avgBassRef := avgBassRef b; avgMidRef := avgMidRef b;
             avgTrebleRef := avgTrebleRef b;
             bassThresholdRef := bassThresholdRef b;
             midThresholdRef := v;
             trebleThresholdRef := trebleThresholdRef b;
             lastSpawnTimeRef := lastSpawnTimeRef b |}.

Definition setTrebleThreshold (v : Q) : M W unit :=
  b <- getBeat ;;
  setBeat {| avgBassRef := avgBassRef b; avgMidRef := avgMidRef b;
             avgTrebleRef := avgTrebleRef b;
             bassThresholdRef := bassThresholdRef b;
             midThresholdRef := midThresholdRef b;
             trebleThresholdRef := v;
             lastSpawnTimeRef := lastSpawnTimeRef b |}.

Definition setAverages (vb vm vt : Q) : M W unit :=
  b <- getBeat ;;
  setBeat {| avgBassRef := vb; avgMidRef := vm; avgTrebleRef := vt;
             bassThresholdRef := bassThresholdRef b;
             midThresholdRef := midThresholdRef b;
             trebleThresholdRef := trebleThresholdRef b;
             lastSpawnTimeRef := lastSpawnTimeRef b |}.

(** *** The beat-detection block of [render]

    The two components contain this block verbatim, up to the name of the
    spawn function ([spawnNeonSnowflake], [spawnSnowflake]) and of the
    variable holding [analysis.energy].  Each function below is one
    statement of the block; the local flag [spawned] is passed along. *)

Variable spawn : FrequencyBand -> Q -> M W unit.

Definition detectBass (analysis : AudioData) : M W bool :=
  b <- getBeat ;;
  if gtb (bassEnergy analysis) (avgBassRef b * bassThresholdRef b)
     && gtb (bassEnergy analysis) 25
  then
    spawn bass (Math_min (bassEnergy analysis / 255) 1) ;;
    setBassThreshold (BEAT_THRESHOLD_INIT * 1.5) ;;
    ret true
  else
    b' <- getBeat ;;
    setBassThreshold (Math_max BEAT_THRESHOLD_INIT (bassThresholdRef b' * BEAT_DECAY_RATE)) ;;
    ret false.

Definition detectMid (analysis : AudioData) (spawned : bool) : M W bool :=
  b <- getBeat ;;
  if negb spawned
     && gtb (midEnergy analysis) (avgMidRef b * midThresholdRef b)
     && gtb (midEnergy analysis) 20
  then
    spawn mid (Math_min (midEnergy analysis / 255) 1) ;;
    setMidThreshold (BEAT_THRESHOLD_INIT * 1.5) ;;
    ret true
  else
    b' <- getBeat ;;
    setMidThreshold (Math_max BEAT_THRESHOLD_INIT (midThresholdRef b' * BEAT_DECAY_RATE)) ;;
    ret spawned.

Definition detectTreble (analysis : AudioData) (spawned : bool) : M W bool :=
  b <- getBeat ;;
  if negb spawned
     && gtb (trebleEnergy analysis) (avgTrebleRef b * trebleThresholdRef b)
     && gtb (trebleEnergy analysis) 15
  then
    spawn treble (Math_min (trebleEnergy analysis / 255) 1) ;;
    setTrebleThreshold (BEAT_THRESHOLD_INIT * 1.4) ;;
    ret true
  else
    b' <- getBeat ;;
    setTrebleThreshold (Math_max BEAT_THRESHOLD_INIT (trebleThresholdRef b' * BEAT_DECAY_RATE)) ;;
    ret spawned.

Definition fallbackSpawn (analysis : AudioData) (timeSinceLast : Z) (spawned : bool)
  : M W unit :=
  if negb spawned && (timeSinceLast >? 600)%Z && gtb (energy analysis) 10 then
    if gtb (bassEnergy analysis) (midEnergy analysis)
       && gtb (bassEnergy analysis) (trebleEnergy analysis)
    then spawn bass 0.4
    else if gtb (midEnergy analysis) (trebleEnergy analysis)
    then spawn mid 0.4
    else spawn treble 0.4
  else ret tt.

Definition updateAverages (analysis : AudioData) : M W unit :=
  b <- getBeat ;;
  setAverages (avgBassRef b * 0.92 + bassEnergy analysis * 0.08)
              (avgMidRef b * 0.92 + midEnergy analysis * 0.08)
              (avgTrebleRef b * 0.92 + trebleEnergy analysis * 0.08).

Definition beatDetection (analysis : AudioData) : M W unit :=
  now <- Date_now ;;
  b <- getBeat ;;
  let timeSinceLast := (now - lastSpawnTimeRef b)%Z in
  spawned <- detectBass analysis ;;
  spawned <- detectMid analysis spawned ;;
  spawned <- detectTreble analysis spawned ;;
  fallbackSpawn analysis timeSinceLast spawned ;;
  updateAverages analysis.

(** *** The rib loop of the blueprint (the same in both components) *)

(** The body of [for (let r = 0; r < numRibs; r++)]. *)
Definition ribStep (numRibs : Z) (r : Z) (ribs : list Rib.t) : M W (list Rib.t) :=
  let pos := 0.2 + (inject_Z r / inject_Z numRibs) * 0.6 in
  let maxLen := (1 - pos) * 0.6 in
  r1 <- Math_random ;;
  let len := maxLen * (0.4 + r1 * 0.6) in
  sub <- (if gtb len 0.3
          then r2 <- Math_random ;; ret (Math_floor (r2 * 3))
          else ret 0%Z) ;;
  ret (ribs ++ [Rib.mk pos len (PI h / 3) sub]).

Definition ribLoop (numRibs : Z) : M W (list Rib.t) :=
  for_loop (Z.to_nat numRibs) 0 (ribStep numRibs) [].

Definition generateRibs : M W (list Rib.t) :=
  r0 <- Math_random ;;
  let numRibs := (Math_floor (r0 * 4) + 2)%Z in
  ribLoop numRibs.

End Primitives.

(** [for (let i = n - 1; i >= 0; i--) body(i)]. *)
Fixpoint down_loop {W} (n : nat) (body : nat -> M W unit) : M W unit :=
  match n with
  | O => ret tt
  | S i => body i ;; down_loop i body
  end.

(** [l[i] = a] and [l.splice(i, 1)] for an index inside the array. *)
Definition replace_nth {A} (i : nat) (a : A) (l : list A) : list A :=
  firstn i l ++ a :: skipn (S i) l.

Definition splice1 {A} (i : nat) (l : list A) : list A :=
  firstn i l ++ skipn (S i) l.

(** ** The neon component ([PsychedelicVisualizer]) *)

Module Neon.

(** [interface NeonParticle extends Particle]. *)
Record NeonParticle := mkNeonParticle {
  base : Particle.t;
  hue : Q;
  vertices : list Point.t;
  spinSpeed : Q;
  angle : Q
}.

Record GestureRefs := mkGestureRefs {
  lastVideoTimeRef : Q;
  lastDetectedGestureRef : string;
  isFrozenRef : bool;
  cameraOffsetRef : Point.t;
  targetOffsetRef : Point.t
}.

Definition State : Type := World NeonParticle GestureRefs.

Definition initialState : State :=
  mkWorld initialBeatRefs []
    (mkGestureRefs (-1) "None" false (Point.mk 0 0) (Point.mk 0 0))
    0 0 [].

(** *** What a frame receives from outside

    [available] is [gestureRecognizerRef.current && videoRef.current &&
    isCameraReadyRef.current]; [recognition] is what [recognizeForVideo]
    does when called on this frame; [audio] is [Some data] when
    [analyserRef.current && dataArrayRef.current && isPlayingRef.current &&
    audioContextRef.current?.state === 'running'], [data] being the buffer
    as [getByteFrequencyData] fills it. *)

Record Category := { categoryName : string }.

Record GestureRecognizerResult := {
  gestures : list (list Category);
  landmarks : list (list Point.t)
}.

Inductive Recognition :=
| Throws
| Returns (result : GestureRecognizerResult).

Record Video := {
  available : bool;
  currentTime : Q;
  recognition : Recognition
}.

Record FrameInput := {
  video : Video;
  audio : option (list Z)
}.

Section Component.
Context (h : Host).

Definition createShard (size : Q) : M State (list Point.t) :=
  r0 <- Math_random h ;;
  let sides := (Math_floor (r0 * 3) + 3)%Z in
  for_loop (Z.to_nat sides) 0
    (fun i points =>
       let angle := (inject_Z i / inject_Z sides) * PI h * 2 in
       r1 <- Math_random h ;;
       let r := size * (0.5 + r1 * 0.5) in
       ret (points ++ [Point.mk (cos h angle * r) (sin h angle * r)]))
    [].

Definition blueprint : M State SnowflakeBlueprint.t :=
  r1 <- Math_random h ;;
  plate <- (if ltb r1 0.3
            then r2 <- Math_random h ;; ret (0.15 + r2 * 0.1)
            else ret 0) ;;
  r3 <- Math_random h ;;
  let tip := if gtb r3 0.5 then point else fork in
  ribs <- generateRibs h ;;
  ret (SnowflakeBlueprint.mk 1.0 plate ribs tip).

Definition addLine (points : list Point.t) (x1 y1 x2 y2 : Q) : list Point.t :=
  let dist := hypot h (x2 - x1) (y2 - y1) in
  let count := Z.max 2 (Math_floor (dist * 60)) in
  loop (Z.to_nat (count + 1)) 0
    (fun i points =>
       let t := inject_Z i / inject_Z count in
       points ++ [Point.mk (x1 + (x2 - x1) * t) (y1 + (y2 - y1) * t)])
    points.

(** The sub-rib loop [for (let sr = 1; sr <= rib.subRibs; sr++)] along the
    branch ending at [(ex, ey)]. *)
Definition subRibLines (rib : Rib.t) (ex ey : Q) (points : list Point.t) : list Point.t :=
  if (Rib.subRibs rib =? 0)%Z then points else
  loop (Z.to_nat (Rib.subRibs rib)) 1
    (fun sr points =>
       let t := inject_Z sr / inject_Z (Rib.subRibs rib + 1) in
       let sx := Rib.pos rib + (ex - Rib.pos rib) * t in
       let sy := 0 + (ey - 0) * t in
       addLine points sx sy (sx + Rib.length rib * 0.3) sy)
    points.

Definition ribLines (points : list Point.t) (rib : Rib.t) : list Point.t :=
  let rx := Rib.pos rib + Rib.length rib * cos h (Rib.angle rib) in
  let ry := Rib.length rib * sin h (Rib.angle rib) in
  let points := addLine points (Rib.pos rib) 0 rx ry in
  let points := subRibLines rib rx ry points in
  let lx := Rib.pos rib + Rib.length rib * cos h (- Rib.angle rib) in
  let ly := Rib.length rib * sin h (- Rib.angle rib) in
  let points := addLine points (Rib.pos rib) 0 lx ly in
  subRibLines rib lx ly points.

(** The array [points] after the center plate, the spine and the ribs. *)
Definition blueprintPoints (bp : SnowflakeBlueprint.t) : list Point.t :=
  let points := [] in
  let points :=
    if gtb (SnowflakeBlueprint.centerPlateSize bp) 0 then
      let s := SnowflakeBlueprint.centerPlateSize bp in
      let plateAngle := PI h / 6 in
      addLine points (s * cos h plateAngle) (s * sin h plateAngle)
                     (s * cos h (- plateAngle)) (s * sin h (- plateAngle))
    else points in
  let points := addLine points 0 0 (SnowflakeBlueprint.armLength bp) 0 in
  fold_left ribLines (SnowflakeBlueprint.ribs bp) points.

(** The body of [for (const pt of points)] for one arm. *)
Definition emitPoint (startX startY startZ baseHue scale speedBase skipRatio cosA sinA : Q)
  (pt : Point.t) : M State unit :=
  skip <- (if gtb skipRatio 0
           then r <- Math_random h ;; ret (ltb r skipRatio)
           else ret false) ;;
  if skip then ret tt else
  let fx := (Point.x pt * cosA - Point.y pt * sinA) * scale in
  let fy := (Point.x pt * sinA + Point.y pt * cosA) * scale in
  let fz := 0 in
  let vx := fx * speedBase in
  let vy := fy * speedBase in
  let vz := fz * speedBase in
  r1 <- Math_random h ;;
  let size := (r1 * 4 + 1) * scale in
  r2 <- Math_random h ;;
  r3 <- Math_random h ;;
  r4 <- Math_random h ;;
  shard <- createShard size ;;
  r5 <- Math_random h ;;
  r6 <- Math_random h ;;
  push (mkNeonParticle
          (Particle.mk startX startY startZ vx vy vz 1 size EmptyString
             1.0 (FADE_SPEED_BASE + r3 * FADE_SPEED_VAR) (r4 * PI h * 2))
          (js_mod (baseHue + r2 * 40 - 20) 360)
          shard
          ((r5 - 0.5) * 0.2)
          (r6 * PI h * 2)).

Definition spawnNeonSnowflake (type : FrequencyBand) (intensity : Q) : M State unit :=
  emit (SpawnCall type intensity) ;;
  ps <- getParticles ;;
  if (Z.of_nat (List.length ps) >? 2000)%Z then ret tt else
  t <- Date_now h ;;
  setLastSpawnTime t ;;
  let spreadX := innerWidth h * 0.7 in
  let spreadY := innerHeight h * 0.5 in
  r1 <- Math_random h ;;
  let startX := (r1 - 0.5) * spreadX in
  r2 <- Math_random h ;;
  let startY := (r2 - 0.5) * spreadY in
  r3 <- Math_random h ;;
  let startZ := (r3 - 0.5) * 400 in
  let baseHue := match type with bass => 280 | mid => 180 | treble => 320 end in
  t' <- Date_now h ;;
  let baseHue := js_mod (baseHue + inject_Z t' * 0.05) 360 in
  r4 <- Math_random h ;;
  let randomScale := 0.3 + r4 * 2.2 in
  let scale := randomScale * (0.8 + intensity * 0.4) in
  let speedBase := ENERGY_MULTIPLIER * (0.5 + intensity * 0.5) in
  bp <- blueprint ;;
  let arms := 6%Z in
  let particleBudgetBase :=
    MIN_PARTICLES_PER_FIREWORK
    + (MAX_PARTICLES_PER_FIREWORK - MIN_PARTICLES_PER_FIREWORK) * intensity in
  let totalParticles := particleBudgetBase * sqrt h scale in
  let points := blueprintPoints bp in
  let totalPointsNeeded := inject_Z (Z.of_nat (List.length points) * arms) in
  let skipRatio :=
    if gtb totalPointsNeeded totalParticles
    then 1 - totalParticles / totalPointsNeeded else 0 in
  for_loop (Z.to_nat arms) 0
    (fun i _ =>
       let armRotation := (inject_Z i / inject_Z arms) * PI h * 2 in
       let cosA := cos h armRotation in
       let sinA := sin h armRotation in
       for_of points
         (emitPoint startX startY startZ baseHue scale speedBase skipRatio cosA sinA))
    tt.

(** *** [detectGestures]

    Inside the [try] block an exception ends the block at once and keeps the
    writes made so far.  A computation of the block returns [None] when it
    has thrown. *)

Definition Try (A : Type) : Type := M State (option A).

Definition retT {A} (a : A) : Try A := ret (Some a).
Definition throw {A} : Try A := ret None.
Definition liftT {A} (m : M State A) : Try A := a <- m ;; ret (Some a).
Definition bindT {A B} (m : Try A) (f : A -> Try B) : Try B :=
  o <- m ;; match o with Some a => f a | None => ret None end.

(** [catch (e) { }]: the exception is dropped. *)
Definition catch_ignore (m : Try unit) : M State unit := _ <- m ;; ret tt.

(** [l[i].field]: reading a property of [undefined] throws a [TypeError]. *)
Definition member {A} (l : list A) (i : nat) : Try A :=
  match nth_error l i with
  | Some a => retT a
  | None => throw
  end.

(** [recognizeForVideo(video, Date.now())]. *)
Definition recognizeForVideo (v : Video) : Try GestureRecognizerResult :=
  bindT (liftT (Date_now h)) (fun _ =>
  match recognition v with
  | Throws => throw
  | Returns result => retT result
  end).

Definition setLastVideoTime (t : Q) : M State unit :=
  g <- getOwn ;;
  setOwn (mkGestureRefs t (lastDetectedGestureRef g) (isFrozenRef g)
            (cameraOffsetRef g) (targetOffsetRef g)).

Definition setLastDetectedGesture (s : string) : M State unit :=
  g <- getOwn ;;
  setOwn (mkGestureRefs (lastVideoTimeRef g) s (isFrozenRef g)
            (cameraOffsetRef g) (targetOffsetRef g)).

Definition setIsFrozen (b : bool) : M State unit :=
  g <- getOwn ;;
  setOwn (mkGestureRefs (lastVideoTimeRef g) (lastDetectedGestureRef g) b
            (cameraOffsetRef g) (targetOffsetRef g)).

Definition setCameraOffset (p : Point.t) : M State unit :=
  g <- getOwn ;;
  setOwn (mkGestureRefs (lastVideoTimeRef g) (lastDetectedGestureRef g) (isFrozenRef g)
            p (targetOffsetRef g)).

Definition setTargetOffset (p : Point.t) : M State unit :=
  g <- getOwn ;;
  setOwn (mkGestureRefs (lastVideoTimeRef g) (lastDetectedGestureRef g) (isFrozenRef g)
            (cameraOffsetRef g) p).

Definition openPalm (result : GestureRecognizerResult) : Try unit :=
  bindT (liftT (setIsFrozen true)) (fun _ =>
  match nth_error (landmarks result) 0 with
  | Some lms =>
      if (0 <? List.length lms)%nat then
        bindT (member lms 9) (fun lm9 =>
        let hx := Point.x lm9 in
        let hy := Point.y lm9 in
        let maxOffset := 300 in
        liftT (setTargetOffset
                 (Point.mk ((0.5 - hx) * maxOffset * 2) ((0.5 - hy) * maxOffset * 2))))
      else retT tt
  | None => retT tt
  end).

Definition release : M State unit :=
  setIsFrozen false ;; setTargetOffset (Point.mk 0 0).

Definition tryBlock (v : Video) : Try unit :=
  bindT (recognizeForVideo v) (fun result =>
  bindT (match gestures result with
         | first :: _ =>
             bindT (member first 0) (fun top =>
             let gesture := categoryName top in
             bindT (if String.eqb gesture "Open_Palm"
                    then openPalm result
                    else liftT release) (fun _ =>
             retT gesture))
         | [] => bindT (liftT release) (fun _ => retT "None"%string)
         end) (fun gesture =>
  liftT (g <- getOwn ;;
         if negb (String.eqb gesture (lastDetectedGestureRef g)) then
           setLastDetectedGesture gesture ;;
           emit (GestureChange gesture)
         else ret tt))).

Definition detectGestures (v : Video) : M State unit :=
  if negb (available v) then ret tt else
  g <- getOwn ;;
  if Qeq_bool (currentTime v) (lastVideoTimeRef g) then ret tt else
  setLastVideoTime (currentTime v) ;;
  catch_ignore (tryBlock v).

(** *** The particle pass of [render] *)

Definition physics (energy : Q) (p : NeonParticle) : NeonParticle :=
  let b := base p in
  let x := Particle.x b + Particle.vx b in
  let y := Particle.y b + Particle.vy b in
  let z := Particle.z b + Particle.vz b in
  let vy := Particle.vy b + GRAVITY in
  let vx := Particle.vx b * FRICTION in
  let vy := vy * FRICTION in
  let vz := Particle.vz b * FRICTION in
  let angle := angle p + spinSpeed p in
  let dynamicDecay :=
    if gtb energy 0
    then Particle.decayRate b + (energy / 255) * FADE_SPEED_VAR
    else Particle.decayRate b in
  mkNeonParticle
    (Particle.mk x y z vx vy vz (Particle.alpha b) (Particle.size b)
       (Particle.color b) (Particle.life b - dynamicDecay)
       (Particle.decayRate b) (Particle.shimmerOffset b))
    (hue p) (vertices p) (spinSpeed p) angle.

(** The perspective divide [800 / (800 + p.z)].  For [p.z = -800] the
    quotient is [Infinity].  (The particles of the component never get
    there, their depth staying where they were spawned, within 200 of the
    origin.) *)
Definition perspective (p : NeonParticle) : Quotient :=
  quotient 800 (800 + Particle.z (base p)).

(** One iteration of [for (let i = particles.length - 1; i >= 0; i--)]; the
    drawing origin is the one set by [ctx.translate] before the loop. *)
Definition renderParticle (energy originX originY : Q) (i : nat) : M State unit :=
  ps <- getParticles ;;
  match nth_error ps i with
  | None => ret tt
  | Some p0 =>
      g <- getOwn ;;
      let p := if negb (isFrozenRef g) then physics energy p0 else p0 in
      setParticles (replace_nth i p ps) ;;
      if gtb (Particle.life (base p)) 0 then
        match perspective p with
        | Finite scale =>
            let alpha := Particle.life (base p) * scale in
            if gtb scale 0 then
              r <- Math_random h ;;
              let flicker := if gtb r 0.9 then 1.5 else 1 in
              emit (DrawShard (originX + Particle.x (base p) * scale)
                              (originY + Particle.y (base p) * scale)
                              scale (angle p) alpha (hue p)
                              (10 * scale * flicker) (vertices p))
            else ret tt
        | Infinity =>
            (* [scale > 0] holds and the block runs; every argument computed
               from the scale is infinite or [NaN] *)
            _ <- Math_random h ;;
            emit (DrawShardAtInfinity (angle p) (hue p) (vertices p))
        end
      else
        ps' <- getParticles ;;
        setParticles (splice1 i ps')
  end.

Definition particlePass (energy originX originY : Q) : M State unit :=
  ps <- getParticles ;;
  down_loop (List.length ps) (renderParticle energy originX originY).

Definition panCamera : M State unit :=
  g <- getOwn ;;
  let cx := Point.x (cameraOffsetRef g)
            + (Point.x (targetOffsetRef g) - Point.x (cameraOffsetRef g)) * 0.1 in
  let cy := Point.y (cameraOffsetRef g)
            + (Point.y (targetOffsetRef g) - Point.y (cameraOffsetRef g)) * 0.1 in
  setCameraOffset (Point.mk cx cy).

(** The block guarded by the audio graph being ready; its value is the local
    variable [energy]. *)
Definition audioBlock (audio : option (list Z)) : M State Q :=
  match audio with
  | Some dataArray =>
      let analysis := analyzeAudio dataArray in
      g <- getOwn ;;
      (if negb (isFrozenRef g)
       then beatDetection h spawnNeonSnowflake analysis
       else ret tt) ;;
      ret (energy analysis)
  | None => ret 0
  end.

(** The statements of [render] that precede the audio block. *)
Definition beforeAudio (input : FrameInput) : M State unit :=
  detectGestures (video input) ;;
  panCamera ;;
  emit FillRect.

Definition render (input : FrameInput) : M State unit :=
  beforeAudio input ;;
  energy <- audioBlock (audio input) ;;
  g <- getOwn ;;
  particlePass energy
    (innerWidth h / 2 + Point.x (cameraOffsetRef g))
    (innerHeight h / 2 + Point.y (cameraOffsetRef g)).

(** The frames that [requestAnimationFrame] runs one after the other. *)
Definition run (inputs : list FrameInput) : M State unit :=
  for_of inputs render.

End Component.

End Neon.

(** ** The classic component ([Visualizer])

    The writes to the level bars and their labels touch only DOM elements
    of the parent and are left out. *)

Module Classic.

Definition COLOR_BASE : string := "255, 255, 255".
Definition COLOR_MID_FREQ : string := "215, 245, 255".
Definition COLOR_HIGH_FREQ : string := "165, 243, 252".

(** The only ref of the component besides the shared ones is
    [rotationRef]. *)
Definition State : Type := World Particle.t Point.t.

Definition initialState : State :=
  mkWorld initialBeatRefs [] (Point.mk 0 0) 0 0 [].

Definition rotationRef (w : State) : Point.t := ownRefs w.

Record Rotated := { rx : Q; ry : Q; rz : Q }.

Section Component.
Context (h : Host).

Definition rotate3D (x y z angleX angleY : Q) : Rotated :=
  let cosY := cos h angleY in
  let sinY := sin h angleY in
  let x1 := x * cosY - z * sinY in
  let z1 := z * cosY + x * sinY in
  let cosX := cos h angleX in
  let sinX := sin h angleX in
  let y2 := y * cosX - z1 * sinX in
  let z2 := z1 * cosX + y * sinX in
  {| rx := x1; ry := y2; rz := z2 |}.

Definition addParticle (x y z vx vy vz : Q) (color : string) (lifeMult sizeMult : Q)
  : M State unit :=
  ps <- getParticles ;;
  if (Z.of_nat (List.length ps) >? 4000)%Z then ret tt else
  r1 <- Math_random h ;;
  r2 <- Math_random h ;;
  r3 <- Math_random h ;;
  push (Particle.mk x y z vx vy vz 1
          ((r1 * SIZE_VARIATION * 0.6 + BASE_PARTICLE_SIZE) * sizeMult)
          color
          (1.0 * lifeMult)
          (FADE_SPEED_BASE + r2 * FADE_SPEED_VAR)
          (r3 * PI h * 2)).

Definition blueprint : M State SnowflakeBlueprint.t :=
  r1 <- Math_random h ;;
  plate <- (if ltb r1 0.3
            then r2 <- Math_random h ;; ret (0.15 + r2 * 0.1)
            else ret 0) ;;
  r3 <- Math_random h ;;
  tip <- (if gtb r3 0.5 then ret point
          else r4 <- Math_random h ;; ret (if gtb r4 0.5 then fork else star)) ;;
  ribs <- generateRibs h ;;
  ret (SnowflakeBlueprint.mk 1.0 plate ribs tip).

Definition addLine (x1 y1 x2 y2 density : Q) (points : list Point.t)
  : M State (list Point.t) :=
  let dist := hypot h (x2 - x1) (y2 - y1) in
  let count := Z.max 3 (Math_floor (dist * 100 * density)) in
  for_loop (Z.to_nat (count + 1)) 0
    (fun i points =>
       let t := inject_Z i / inject_Z count in
       let jitter := 0.015 in
       r1 <- Math_random h ;;
       r2 <- Math_random h ;;
       ret (points ++ [Point.mk (x1 + (x2 - x1) * t + (r1 - 0.5) * jitter)
                                (y1 + (y2 - y1) * t + (r2 - 0.5) * jitter)]))
    points.

Definition subRibLines (rib : Rib.t) (ex ey : Q) (points : list Point.t)
  : M State (list Point.t) :=
  if negb (Rib.subRibs rib =? 0)%Z && (Rib.subRibs rib >? 0)%Z then
    for_loop (Z.to_nat (Rib.subRibs rib)) 1
      (fun sr points =>
         let t := inject_Z sr / inject_Z (Rib.subRibs rib + 1) in
         let sx := Rib.pos rib + (ex - Rib.pos rib) * t in
         let sy := 0 + (ey - 0) * t in
         let subLen := Rib.length rib * 0.3 in
         addLine sx sy (sx + subLen) sy 1.0 points)
      points
  else ret points.

Definition ribLines (rib : Rib.t) (points : list Point.t) : M State (list Point.t) :=
  let rx := Rib.pos rib + Rib.length rib * cos h (Rib.angle rib) in
  let ry := Rib.length rib * sin h (Rib.angle rib) in
  points <- addLine (Rib.pos rib) 0 rx ry 1.2 points ;;
  points <- subRibLines rib rx ry points ;;
  let lx := Rib.pos rib + Rib.length rib * cos h (- Rib.angle rib) in
  let ly := Rib.length rib * sin h (- Rib.angle rib) in
  points <- addLine (Rib.pos rib) 0 lx ly 1.2 points ;;
  subRibLines rib lx ly points.

(** [blueprint.ribs.forEach(rib => ...)]. *)
Fixpoint forEachRib (ribs : list Rib.t) (points : list Point.t) : M State (list Point.t) :=
  match ribs with
  | [] => ret points
  | rib :: ribs' => points <- ribLines rib points ;; forEachRib ribs' points
  end.

Definition blueprintPoints (bp : SnowflakeBlueprint.t) : M State (list Point.t) :=
  let points := [] in
  points <- (if gtb (SnowflakeBlueprint.centerPlateSize bp) 0 then
               let s := SnowflakeBlueprint.centerPlateSize bp in
               let plateAngle := PI h / 6 in
               addLine (s * cos h plateAngle) (s * sin h plateAngle)
                       (s * cos h (- plateAngle)) (s * sin h (- plateAngle))
                       2.0 points
             else ret points) ;;
  points <- addLine 0 0 (SnowflakeBlueprint.armLength bp) 0 1.5 points ;;
  points <- forEachRib (SnowflakeBlueprint.ribs bp) points ;;
  match SnowflakeBlueprint.tipShape bp with
  | fork =>
      let tipLen := 0.15 in
      let tipAngle := PI h / 4 in
      let arm := SnowflakeBlueprint.armLength bp in
      points <- addLine arm 0 (arm + tipLen * cos h tipAngle) (tipLen * sin h tipAngle)
                        1.5 points ;;
      addLine arm 0 (arm + tipLen * cos h (- tipAngle)) (tipLen * sin h (- tipAngle))
              1.5 points
  | _ => ret points
  end.

(** The body of [for (const pt of points)] for one arm. *)
Definition emitPoint (startX startY startZ : Q) (color : string)
  (scale speedBase skipRatio cosA sinA : Q) (pt : Point.t) : M State unit :=
  skip <- (if gtb skipRatio 0
           then r <- Math_random h ;; ret (ltb r skipRatio)
           else ret false) ;;
  if skip then ret tt else
  let fx := (Point.x pt * cosA - Point.y pt * sinA) * scale in
  let fy := (Point.x pt * sinA + Point.y pt * cosA) * scale in
  let fz := 0 in
  let vx := fx * speedBase in
  let vy := fy * speedBase in
  let vz := fz * speedBase in
  addParticle startX startY startZ vx vy vz color 1.0 scale.

Definition spawnSnowflake (type : FrequencyBand) (intensity : Q) : M State unit :=
  emit (SpawnCall type intensity) ;;
  t <- Date_now h ;;
  setLastSpawnTime t ;;
  let color :=
    match type with
    | bass => COLOR_BASE
    | mid => COLOR_MID_FREQ
    | treble => COLOR_HIGH_FREQ
    end in
  let spreadX := innerWidth h * 0.7 in
  let spreadY := innerHeight h * 0.5 in
  r1 <- Math_random h ;;
  let startX := (r1 - 0.5) * spreadX in
  r2 <- Math_random h ;;
  let startY := (r2 - 0.5) * spreadY in
  r3 <- Math_random h ;;
  let startZ := (r3 - 0.5) * 300 in
  r4 <- Math_random h ;;
  let randomScale := 0.3 + r4 * 2.2 in
  let scale := randomScale * (0.8 + intensity * 0.4) in
  let speedBase := ENERGY_MULTIPLIER * (0.3 + intensity * 0.5) in
  bp <- blueprint ;;
  let arms := 6%Z in
  let particleBudgetBase :=
    MIN_PARTICLES_PER_FIREWORK
    + (MAX_PARTICLES_PER_FIREWORK - MIN_PARTICLES_PER_FIREWORK) * intensity in
  let totalParticles := particleBudgetBase * sqrt h scale in
  points <- blueprintPoints bp ;;
  let totalPointsNeeded := inject_Z (Z.of_nat (List.length points) * arms) in
  let skipRatio :=
    if gtb totalPointsNeeded totalParticles
    then 1 - totalParticles / totalPointsNeeded else 0 in
  for_loop (Z.to_nat arms) 0
    (fun i _ =>
       let armRotation := (inject_Z i / inject_Z arms) * PI h * 2 in
       let cosA := cos h armRotation in
       let sinA := sin h armRotation in
       for_of points
         (emitPoint startX startY startZ color scale speedBase skipRatio cosA sinA))
    tt.

(** *** The particle pass of [render] *)

Definition physics (globalEnergy : Q) (p : Particle.t) : Particle.t :=
  let x := Particle.x p + Particle.vx p in
  let y := Particle.y p + Particle.vy p in
  let z := Particle.z p + Particle.vz p in
  let vy := Particle.vy p + GRAVITY in
  let vx := Particle.vx p * FRICTION in
  let vy := vy * FRICTION in
  let vz := Particle.vz p * FRICTION in
  let dynamicDecay :=
    if gtb globalEnergy 0
    then Particle.decayRate p + (globalEnergy / 255) * FADE_SPEED_VAR
    else Particle.decayRate p in
  let life := Particle.life p - dynamicDecay in
  Particle.mk x y z vx vy vz life (Particle.size p) (Particle.color p) life
    (Particle.decayRate p) (Particle.shimmerOffset p).

Definition fov : Q := 800.

(** One iteration of [for (let i = particles.length - 1; i >= 0; i--)]. *)
Definition renderParticle (globalEnergy centerX centerY : Q) (i : nat) : M State unit :=
  ps <- getParticles ;;
  match nth_error ps i with
  | None => ret tt
  | Some p0 =>
      let p := physics globalEnergy p0 in
      setParticles (replace_nth i p ps) ;;
      if gtb (Particle.life p) 0 then
        rot <- getOwn ;;
        let rotated := rotate3D (Particle.x p) (Particle.y p) (Particle.z p)
                         (Point.x rot) (Point.y rot) in
        let depth := rz rotated + fov in
        if gtb depth 0 then
          let scale := fov / depth in
          let x2d := rx rotated * scale + centerX in
          let y2d := ry rotated * scale + centerY in
          let size2d := Math_max 0.1 (Particle.size p * scale) in
          let opacity := Particle.alpha p * Math_min 1 scale in
          now <- Date_now h ;;
          let shimmer := cos h (inject_Z now * 0.02 + Particle.shimmerOffset p * 10) in
          let finalOpacity := opacity * (0.6 + shimmer * 0.4) in
          emit (DrawArc x2d y2d size2d finalOpacity (Particle.color p))
        else ret tt
      else
        ps' <- getParticles ;;
        setParticles (splice1 i ps')
  end.

Definition particlePass (globalEnergy centerX centerY : Q) : M State unit :=
  ps <- getParticles ;;
  down_loop (List.length ps) (renderParticle globalEnergy centerX centerY).

(** The block guarded by the audio graph being ready; its value is the local
    variable [globalEnergy]. *)
Definition audioBlock (audio : option (list Z)) : M State Q :=
  match audio with
  | Some dataArray =>
      let analysis := analyzeAudio dataArray in
      beatDetection h spawnSnowflake analysis ;;
      ret (energy analysis)
  | None => ret 0
  end.

Definition render (audio : option (list Z)) : M State unit :=
  emit FillRect ;;
  globalEnergy <- audioBlock audio ;;
  particlePass globalEnergy (innerWidth h / 2) (innerHeight h / 2).

(** The frames that [requestAnimationFrame] runs one after the other. *)
Definition run (inputs : list (option (list Z))) : M State unit :=
  for_of inputs render.

End Component.

End Classic.

(** ** utils/gestureService.ts

    The module keeps the recognizer and the promise of its initialization in
    two module variables.  [getGestureRecognizer] runs up to its first
    [await] when it is called; the two awaited calls
    ([FilesetResolver.forVisionTasks], [GestureRecognizer.createFromOptions])
    are settled later by the browser.  A state of the module is the two
    variables, with the stage the initialization has reached in place of
    the promise object, and the number of calls made of each of the two
    functions. *)

Module GestureService.

Section Service.
Context {Recognizer : Type}.

(** The stages of [initializationPromise]. *)
Inductive Promise :=
| AwaitingFileset
| AwaitingRecognizer
| Fulfilled (recognizer : Recognizer)
| Rejected.

Record State := mkState {
  gestureRecognizerInstance : option Recognizer;
  initializationPromise : option Promise;
  filesetCalls : nat;
  createCalls : nat
}.

Definition initialState : State := mkState None None 0 0.

(** What a call returns: the instance itself, or [initializationPromise]. *)
Inductive Answer :=
| Instance (recognizer : Recognizer)
| Shared.

Definition getGestureRecognizer (s : State) : Answer * State :=
  match gestureRecognizerInstance s with
  | Some recognizer => (Instance recognizer, s)
  | None =>
      match initializationPromise s with
      | None =>
          (Shared,
           mkState (gestureRecognizerInstance s) (Some AwaitingFileset)
                   (S (filesetCalls s)) (createCalls s))
      | Some _ => (Shared, s)
      end
  end.

(** How the browser settles an awaited call. *)
Inductive Settlement :=
| FilesetLoaded
| FilesetFailed
| RecognizerCreated (recognizer : Recognizer)
| RecognizerFailed.

(** The continuation of the initialization after an [await]; a settlement
    nothing waits for does not occur. *)
Definition settle (e : Settlement) (s : State) : State :=
  match initializationPromise s, e with
  | Some AwaitingFileset, FilesetLoaded =>
      mkState (gestureRecognizerInstance s) (Some AwaitingRecognizer)
              (filesetCalls s) (S (createCalls s))
  | Some AwaitingFileset, FilesetFailed =>
      mkState (gestureRecognizerInstance s) (Some Rejected)
              (filesetCalls s) (createCalls s)
  | Some AwaitingRecognizer, RecognizerCreated recognizer =>
      mkState (Some recognizer) (Some (Fulfilled recognizer))
              (filesetCalls s) (createCalls s)
  | Some AwaitingRecognizer, RecognizerFailed =>
      mkState (gestureRecognizerInstance s) (Some Rejected)
              (filesetCalls s) (createCalls s)
  | _, _ => s
  end.

Inductive Step :=
| Call
| Settle (e : Settlement).

Definition step (s : State) (st : Step) : State :=
  match st with
  | Call => snd (getGestureRecognizer s)
  | Settle e => settle e s
  end.

(** Calls and settlements in any order. *)
Definition run (steps : list Step) (s : State) : State := fold_left step steps s.

(** What the promise a call returned settles to in state [s]: [Some (Some
    r)] resolved with [r], [Some None] rejected, [None] still pending. *)
Definition outcome (a : Answer) (s : State) : option (option Recognizer) :=
  match a with
  | Instance recognizer => Some (Some recognizer)
  | Shared =>
      match initializationPromise s with
      | Some (Fulfilled recognizer) => Some (Some recognizer)
      | Some Rejected => Some None
      | _ => None
      end
  end.

(** The module variables and the call counts agree. *)
Definition consistent (s : State) : Prop :=
  match initializationPromise s with
  | None => gestureRecognizerInstance s = None /\ filesetCalls s = 0%nat /\ createCalls s = 0%nat
  | Some AwaitingFileset =>
      gestureRecognizerInstance s = None /\ filesetCalls s = 1%nat /\ createCalls s = 0%nat
  | Some AwaitingRecognizer =>
      gestureRecognizerInstance s = None /\ filesetCalls s = 1%nat /\ createCalls s = 1%nat
  | Some (Fulfilled recognizer) =>
      gestureRecognizerInstance s = Some recognizer /\
      filesetCalls s = 1%nat /\ createCalls s = 1%nat
  | Some Rejected =>
      gestureRecognizerInstance s = None /\ filesetCalls s = 1%nat /\ (createCalls s <= 1)%nat
  end.

End Service.

Arguments State : clear implicits.
Arguments Step : clear implicits.
Arguments Answer : clear implicits.
Arguments Promise : clear implicits.
Arguments Settlement : clear implicits.

End GestureService.

(** ** App.tsx: the transport controls

    The handlers of [App] read the React state of the render they belong to
    and the two refs, call the audio graph and ask React for new state.
    None of them reads a state variable after setting it, so a handler is a
    function from the state (state variables and refs together) to the
    state of the next render.  [now] is [audioContext.currentTime] at the
    time of the call; what the handlers ask of the audio graph is logged. *)

Module App.

Inductive ContextState := running | suspended.

Inductive Effect :=
| Resume
| Start (source : nat) (offset : Q)
| Stop (source : nat)
| SetTimeout (ms : Z).

Record State := mkState {
  audioContext : option ContextState;
  analyser : bool;
  audioBuffer : option Q;          (* the duration of the decoded buffer *)
  sourceNode : option nat;
  isPlaying : bool;
  fileName : string;
  error : string;
  startTimeRef : Q;
  pauseTimeRef : Q;
  sources : nat;                   (* buffer sources created so far *)
  log : list Effect
}.

Definition initialState : State :=
  mkState None false None None false EmptyString EmptyString 0 0 0 [].

(** [initAudio]: the context and the analyser are created on first use;
    [created] is the state the browser creates the context in. *)
Definition initAudio (created : ContextState) (s : State) : State :=
  match audioContext s with
  | None =>
      mkState (Some created) true (audioBuffer s) (sourceNode s) (isPlaying s)
              (fileName s) (error s) (startTimeRef s) (pauseTimeRef s) (sources s) (log s)
  | Some _ => s
  end.

Definition stopSource (s : State) : list Effect :=
  match sourceNode s with
  | Some source => [Stop source]
  | None => []
  end.

(** [handleFileUpload] up to its first [await]; [file] is
    [e.target.files?.[0]]. *)
Definition handleFileUpload (created : ContextState) (file : option string) (s : State)
  : State :=
  match file with
  | None => s
  | Some name =>
      initAudio created
        (mkState (audioContext s) (analyser s) (audioBuffer s) (sourceNode s) false
                 name EmptyString (startTimeRef s) (pauseTimeRef s) (sources s)
                 (log s ++ stopSource s))
  end.

(** The rest of [handleFileUpload]: the file decoded to a buffer of the
    given duration, or the [catch] branch. *)
Definition uploadSettled (decoded : option Q) (s : State) : State :=
  match decoded with
  | Some duration =>
      mkState (audioContext s) (analyser s) (Some duration) (sourceNode s) (isPlaying s)
              (fileName s) (error s) 0 0 (sources s) (log s)
  | None =>
      mkState (audioContext s) (analyser s) (audioBuffer s) (sourceNode s) (isPlaying s)
              (fileName s) "Failed to process audio file." (startTimeRef s)
              (pauseTimeRef s) (sources s) (log s)
  end.

Definition playAudio (now : Q) (s : State) : State :=
  match audioContext s, analyser s, audioBuffer s with
  | Some state, true, Some duration =>
      let resume := match state with suspended => [Resume] | running => [] end in
      let source := sources s in
      let offset := js_mod (pauseTimeRef s) duration in
      mkState (audioContext s) (analyser s) (audioBuffer s) (Some source) true
              (fileName s) (error s) (now - offset) (pauseTimeRef s) (S (sources s))
              (log s ++ resume ++ [Start source offset])
  | _, _, _ => s
  end.

(** [source.onended] of a source started on a buffer of the given
    duration. *)
Definition onended (duration : Q) (now : Q) (s : State) : State :=
  if Qle_bool duration (now - startTimeRef s) then
    mkState (audioContext s) (analyser s) (audioBuffer s) (sourceNode s) false
            (fileName s) (error s) (startTimeRef s) 0 (sources s) (log s)
  else s.

Definition pauseAudio (now : Q) (s : State) : State :=
  match sourceNode s, audioContext s with
  | Some source, Some _ =>
      mkState (audioContext s) (analyser s) (audioBuffer s) (sourceNode s) false
              (fileName s) (error s) (startTimeRef s) (now - startTimeRef s) (sources s)
              (log s ++ [Stop source])
  | _, _ => s
  end.

(** [handleReplay]; the callback it hands to [setTimeout] is [playAudio]. *)
Definition handleReplay (s : State) : State :=
  mkState (audioContext s) (analyser s) (audioBuffer s) (sourceNode s) false
          (fileName s) (error s) 0 0 (sources s)
          (log s ++ stopSource s ++ [SetTimeout 50]).

(** The playback position at [now]. *)
Definition position (now : Q) (s : State) : Q := now - startTimeRef s.

(** The offset of the last source started. *)
Fixpoint lastStart (log : list Effect) : option Q :=
  match log with
  | [] => None
  | e :: rest =>
      match lastStart rest with
      | Some offset => Some offset
      | None => match e with Start _ offset => Some offset | _ => None end
      end
  end.

(** The audio graph is set up and a file is loaded. *)
Definition ready (duration : Q) (s : State) : Prop :=
  audioContext s <> None /\ analyser s = true /\ audioBuffer s = Some duration /\
  0 < duration.

End App.

(** ** Level bars of the classic component

    Inside the audio block [render] writes, for each band, the width of its
    bar in percent and the integer shown beside it; outside it writes 0. *)

Definition barWidth (bandEnergy : Q) : Q := Math_min 100 ((bandEnergy / 255) * 100).

Definition barText (bandEnergy : Q) : Z := Math_floor bandEnergy.

Record Levels := { bassBar : Q; midBar : Q; trebleBar : Q;
                   bassText : Z; midText : Z; trebleText : Z }.

Definition levelBars (audio : option (list Z)) : Levels :=
  match audio with
  | Some dataArray =>
      let analysis := analyzeAudio dataArray in
      {| bassBar := barWidth (bassEnergy analysis);
         midBar := barWidth (midEnergy analysis);
         trebleBar := barWidth (trebleEnergy analysis);
         bassText := barText (bassEnergy analysis);
         midText := barText (midEnergy analysis);
         trebleText := barText (trebleEnergy analysis) |}
  | None =>
      {| bassBar := 0; midBar := 0; trebleBar := 0;
         bassText := 0; midText := 0; trebleText := 0 |}
  end.

(** ** The camera effect of the neon component ([startWebcam])

    The effect starts [startWebcam], which awaits the recognizer and then
    the camera stream, and installs a handler for the first video frame;
    its cleanup runs when the component unmounts.  A state holds the local
    variables [isMounted] and [stream] of the effect, the refs it writes,
    where [startWebcam] is waiting, and what has been reported to
    [onCameraStatusChange]. *)

Module Webcam.

Inductive Stage :=
| AwaitingRecognizer      (* await getGestureRecognizer() *)
| AwaitingStream          (* await getUserMedia({ video: true }) *)
| Listening               (* returned with onloadeddata installed *)
| Finished.

Record State := mkState {
  isMounted : bool;
  stage : Stage;
  stream : bool;                 (* [stream] holds a MediaStream *)
  tracksStopped : bool;          (* its tracks have been stopped *)
  gestureRecognizerRef : bool;   (* the ref holds the recognizer *)
  isCameraReadyRef : bool;
  statuses : list (bool * string)
}.

(** [report] is [if (onCameraStatusChange) onCameraStatusChange(...)]. *)
Definition report (callback : bool) (ready : bool) (status : string) (s : State) : State :=
  if callback then
    mkState (isMounted s) (stage s) (stream s) (tracksStopped s)
            (gestureRecognizerRef s) (isCameraReadyRef s)
            (statuses s ++ [(ready, status)])
  else s.

Definition setStage (st : Stage) (s : State) : State :=
  mkState (isMounted s) st (stream s) (tracksStopped s)
          (gestureRecognizerRef s) (isCameraReadyRef s) (statuses s).

(** The effect up to the first [await] of [startWebcam]. *)
Definition mount (callback : bool) : State :=
  report callback false "Loading Neon AI..."
    (mkState true AwaitingRecognizer false false false false []).

Inductive Event :=
| RecognizerResolved
| RecognizerRejected
| StreamGranted
| StreamDenied
| LoadedData
| Unmount.

(** The [catch] block of [startWebcam]. *)
Definition cameraError (callback : bool) (s : State) : State :=
  setStage Finished
    (if isMounted s then report callback false "Camera Error" s else s).

(** [videoRef] tells whether [videoRef.current] is set when the stream
    arrives.  An event nothing waits for does not occur. *)
Definition step (callback videoRef : bool) (s : State) (e : Event) : State :=
  match e, stage s with
  | RecognizerResolved, AwaitingRecognizer =>
      if negb (isMounted s) then setStage Finished s
      else
        setStage AwaitingStream
          (report callback false "Starting Camera..."
             (mkState (isMounted s) (stage s) (stream s) (tracksStopped s)
                      true (isCameraReadyRef s) (statuses s)))
  | RecognizerRejected, AwaitingRecognizer => cameraError callback s
  | StreamGranted, AwaitingStream =>
      if negb (isMounted s) then
        mkState (isMounted s) Finished true true
                (gestureRecognizerRef s) (isCameraReadyRef s) (statuses s)
      else
        mkState (isMounted s) (if videoRef then Listening else Finished) true
                (tracksStopped s) (gestureRecognizerRef s) (isCameraReadyRef s) (statuses s)
  | StreamDenied, AwaitingStream => cameraError callback s
  | LoadedData, Listening =>
      (* the handler stays installed and runs on every [loadeddata] event *)
      if isMounted s then
        report callback true "Ready"
          (mkState (isMounted s) (stage s) (stream s) (tracksStopped s)
                   (gestureRecognizerRef s) true (statuses s))
      else s
  | Unmount, _ =>
      mkState false (stage s) (stream s) (if stream s then true else tracksStopped s)
              false (isCameraReadyRef s) (statuses s)
  | _, _ => s
  end.

Definition run (callback videoRef : bool) (events : list Event) (s : State) : State :=
  fold_left (step callback videoRef) events s.

End Webcam.

(** ** A host to run the components on

    Six-decimal rational approximations of the real functions, a constant
    random source and a 60 Hz clock.  It serves to evaluate the components
    on concrete inputs. *)

Module Demo.

Definition unit6 : Z := 1000000.

(** Fixed-point numbers: the integer [n] stands for [n / 10^6]. *)
Definition toFix (q : Q) : Z := Qfloor (q * inject_Z unit6 + 0.5).
Definition ofFix (n : Z) : Q := inject_Z n / inject_Z unit6.

Definition PI : Q := 3.141593.

(** The representative of [x] modulo [2 PI] in [[-PI, PI)]. *)
Definition reduce (x : Q) : Z :=
  let p := toFix PI in
  let n := toFix x in
  (n - 2 * p * ((n + p) / (2 * p)))%Z.

(** [n] further terms of an alternating power series: the term after [term]
    is [- term * x2 / (k * (k + 1))]. *)
Fixpoint series (n : nat) (k x2 term acc : Z) : Z :=
  match n with
  | O => acc
  | S n' =>
      let term' := (- term * x2 / (k * (k + 1) * unit6))%Z in
      series n' (k + 2)%Z x2 term' (acc + term')%Z
  end.

Definition cos (x : Q) : Q :=
  let r := reduce x in
  ofFix (series 8 1 (r * r / unit6)%Z unit6 unit6).

Definition sin (x : Q) : Q :=
  let r := reduce x in
  ofFix (series 8 2 (r * r / unit6)%Z r r).

Definition sqrt (q : Q) : Q :=
  ofFix (Z.sqrt (toFix q * unit6)).

Definition hypot (a b : Q) : Q := sqrt (a * a + b * b).

Definition host : Host :=
  Build_Host (fun _ => 0.5) (fun n => (1000 + 16 * Z.of_nat n)%Z)
             cos sin sqrt hypot PI 1280 720.

(** The buffer of the end-to-end scenario: 100 bins, bins 0-5 at 200. *)
Definition burst : list Z := repeat 200%Z 6 ++ repeat 0%Z 94.

(** A quiet but audible buffer: every bin at 12. *)
Definition hum : list Z := repeat 12%Z 100.

(** No camera yet. *)
Definition noVideo : Neon.Video :=
  {| Neon.available := false; Neon.currentTime := 0; Neon.recognition := Neon.Throws |}.

(** An open palm held at the centre of the picture. *)
Definition palm : Neon.Video :=
  {| Neon.available := true; Neon.currentTime := 1;
     Neon.recognition :=
       Neon.Returns
         {| Neon.gestures := [[ {| Neon.categoryName := "Open_Palm" |} ]];
            Neon.landmarks := [repeat (Point.mk 0.5 0.5) 21] |} |}.

(** A neon particle half way through its life. *)
Definition shard : Neon.NeonParticle :=
  Neon.mkNeonParticle
    (Particle.mk 10 20 100 1 2 0 1 3 EmptyString 0.5 0.01 0)
    280 [Point.mk 1 0; Point.mk 0 1; Point.mk (-1) 0] 0.05 0.

Definition scene : Neon.State :=
  mkWorld initialBeatRefs [shard]
    (Neon.mkGestureRefs (-1) "None" false (Point.mk 0 0) (Point.mk 0 0))
    0 0 [].

End Demo.

(** ** Predicates used in the statements *)

(** Rib positions strictly increase along the arm. *)
Definition increasing_pos (ribs : list Rib.t) : Prop :=
  forall i j a b,
    (i < j)%nat -> nth_error ribs i = Some a -> nth_error ribs j = Some b ->
    Rib.pos a < Rib.pos b.

Definition rib_count_ok (ribs : list Rib.t) : Prop :=
  (2 <= List.length ribs <= 5)%nat.

(** The position the rib loop gives to rib number [r]. *)
Definition ribPos (numRibs : Z) (r : nat) : Q :=
  0.2 + (inject_Z (Z.of_nat r) / inject_Z numRibs) * 0.6.

(** The averages and thresholds of the three band detectors. *)
Definition detectors (b : BeatRefs) : Q * Q * Q * (Q * Q * Q) :=
  (avgBassRef b, avgMidRef b, avgTrebleRef b,
   (bassThresholdRef b, midThresholdRef b, trebleThresholdRef b)).

(** A band's onset test: its energy exceeds the running average times the
    threshold, and its absolute floor. *)
Definition fires (bandEnergy runningAverage threshold floor : Q) : bool :=
  gtb bandEnergy (runningAverage * threshold) && gtb bandEnergy floor.

Definition bassTest (b : BeatRefs) (a : AudioData) : bool :=
  fires (bassEnergy a) (avgBassRef b) (bassThresholdRef b) 25.
Definition midTest (b : BeatRefs) (a : AudioData) : bool :=
  fires (midEnergy a) (avgMidRef b) (midThresholdRef b) 20.
Definition trebleTest (b : BeatRefs) (a : AudioData) : bool :=
  fires (trebleEnergy a) (avgTrebleRef b) (trebleThresholdRef b) 15.

(** Which band fires on a frame, given the priority order. *)
Definition bassFires (b : BeatRefs) (a : AudioData) : bool := bassTest b a.
Definition midFires (b : BeatRefs) (a : AudioData) : bool :=
  negb (bassTest b a) && midTest b a.
Definition trebleFires (b : BeatRefs) (a : AudioData) : bool :=
  negb (bassTest b a) && negb (midTest b a) && trebleTest b a.

Definition bandEnergy (band : FrequencyBand) (a : AudioData) : Q :=
  match band with
  | bass => bassEnergy a
  | mid => midEnergy a
  | treble => trebleEnergy a
  end.

(** The band the fallback picks. *)
Definition highestBand (a : AudioData) : FrequencyBand :=
  if gtb (bassEnergy a) (midEnergy a) && gtb (bassEnergy a) (trebleEnergy a) then bass
  else if gtb (midEnergy a) (trebleEnergy a) then mid
  else treble.

(** The spawn calls of a frame in the words of the specification: the first
    band, in the order bass, mid, treble, whose onset test succeeds is
    spawned with intensity [min (energy / 255) 1]; failing that, when enough
    time has passed since the last spawn ([elapsed]) and the total energy
    exceeds 10, the band of highest energy is spawned with intensity 0.4. *)
Definition specSpawnDecision (elapsed : Z -> bool)
  (b : BeatRefs) (a : AudioData) (timeSinceLast : Z) : list Event :=
  if bassTest b a then [SpawnCall bass (Math_min (bassEnergy a / 255) 1)]
  else if midTest b a then [SpawnCall mid (Math_min (midEnergy a / 255) 1)]
  else if trebleTest b a then [SpawnCall treble (Math_min (trebleEnergy a / 255) 1)]
  else if elapsed timeSinceLast && gtb (energy a) 10
       then [SpawnCall (highestBand a) 0.4]
       else [].

(** The spawn calls recorded in a trace, in order. *)
Fixpoint spawnCalls (events : list Event) : list (FrequencyBand * Q) :=
  match events with
  | [] => []
  | SpawnCall type intensity :: rest => (type, intensity) :: spawnCalls rest
  | _ :: rest => spawnCalls rest
  end.

Definition is_spawn (e : Event) : bool :=
  match e with SpawnCall _ _ => true | _ => false end.

(** What the statements of [render] outside the audio block leave alone: the
    beat refs and the spawn calls made so far. *)
Definition outside_audio {P X} (w w' : World P X) : Prop :=
  beatRefs w' = beatRefs w /\
  spawnCalls (trace w') = spawnCalls (trace w).

(** The thresholds lie between their initial value and the value a fire
    gives them. *)
Definition thresholds_in_range (b : BeatRefs) : Prop :=
  (BEAT_THRESHOLD_INIT <= bassThresholdRef b <= BEAT_THRESHOLD_INIT * 1.5) /\
  (BEAT_THRESHOLD_INIT <= midThresholdRef b <= BEAT_THRESHOLD_INIT * 1.5) /\
  (BEAT_THRESHOLD_INIT <= trebleThresholdRef b <= BEAT_THRESHOLD_INIT * 1.4).

(** How one band's threshold moves over a frame, from [old] to [new]. *)
Definition threshold_law (fired : bool) (boost old new : Q) : Prop :=
  (fired = true ->
   new = BEAT_THRESHOLD_INIT * boost /\
   old <= new /\
   (old < BEAT_THRESHOLD_INIT * boost -> old < new)) /\
  (fired = false ->
   new = Math_max BEAT_THRESHOLD_INIT (old * BEAT_DECAY_RATE) /\
   BEAT_THRESHOLD_INIT <= new /\
   new <= old /\
   (new == BEAT_THRESHOLD_INIT \/ new == old * BEAT_DECAY_RATE)).

(** A collection holding more than [limit] particles is left as it is. *)
Definition keeps_full {P X} (limit : nat) (w w' : World P X) : Prop :=
  (limit < List.length (particlesRef w))%nat -> particlesRef w' = particlesRef w.

(** The collection only grows. *)
Definition grows {P X} (w w' : World P X) : Prop :=
  exists new, particlesRef w' = particlesRef w ++ new.

(** The collection only grows, and not beyond [bound] unless it was larger
    already. *)
Definition grows_to {P X} (bound : nat) (w w' : World P X) : Prop :=
  grows w w' /\
  (List.length (particlesRef w') <= Nat.max (List.length (particlesRef w)) bound)%nat.

(** The recorded spawn time is left alone. *)
Definition keeps_spawn_time {P X} (w w' : World P X) : Prop :=
  lastSpawnTimeRef (beatRefs w') = lastSpawnTimeRef (beatRefs w).

(** A particle as the emitters create it, and what stays true of it while
    it ages. *)
Definition fresh (p : Particle.t) : Prop :=
  Particle.life p == 1 /\ FADE_SPEED_BASE <= Particle.decayRate p.

Definition mortal (p : Particle.t) : Prop :=
  Particle.life p <= 1 /\ FADE_SPEED_BASE <= Particle.decayRate p.

(** The test [p.life > 0] of the particle pass. *)
Definition alive (p : Particle.t) : bool := gtb (Particle.life p) 0.

(** The collection grew by particles that satisfy [Q], and only so. *)
Definition appends {P X} (Q : P -> Prop) (w w' : World P X) : Prop :=
  exists new, particlesRef w' = particlesRef w ++ new /\ Forall Q new.

(** The step a neon particle takes in a frame: none while frozen. *)
Definition neonStep (frozen : bool) (energy : Q) (p : Neon.NeonParticle) : Neon.NeonParticle :=
  if negb frozen then Neon.physics energy p else p.

(** The events a step adds to the trace. *)
Definition painted {P X} (w w' : World P X) : list Event :=
  skipn (List.length (trace w)) (trace w').

(** The component's own refs are not written. *)
Definition keeps_own {P X} (w w' : World P X) : Prop := ownRefs w' = ownRefs w.

(** The frame processes the recognition result of its video frame: the
    recognizer and the camera are ready and the video has advanced. *)
Definition processed (v : Neon.Video) (w : Neon.State) : bool :=
  Neon.available v
  && negb (Qeq_bool (Neon.currentTime v) (Neon.lastVideoTimeRef (ownRefs w))).

(** The top gesture of the result is the open palm. *)
Definition open_palm (v : Neon.Video) : bool :=
  match Neon.recognition v with
  | Neon.Returns result =>
      match Neon.gestures result with
      | (top :: _) :: _ => String.eqb (Neon.categoryName top) "Open_Palm"
      | _ => false
      end
  | Neon.Throws => false
  end.

(** The result is a non-palm or an empty detection. *)
Definition clears_freeze (v : Neon.Video) : bool :=
  match Neon.recognition v with
  | Neon.Returns result =>
      match Neon.gestures result with
      | [] => true
      | (top :: _) :: _ => negb (String.eqb (Neon.categoryName top) "Open_Palm")
      | [] :: _ => false
      end
  | Neon.Throws => false
  end.

(** The event paints particle [p] as it is, from the origin [(ox, oy)]. *)
Definition shows (ox oy : Q) (p : Neon.NeonParticle) (e : Event) : Prop :=
  match e with
  | DrawShard x y scale angle alpha hue _ vertices =>
      Neon.perspective p = Finite scale /\
      x = ox + Particle.x (Neon.base p) * scale /\
      y = oy + Particle.y (Neon.base p) * scale /\
      angle = Neon.angle p /\
      alpha = Particle.life (Neon.base p) * scale /\
      hue = Neon.hue p /\
      vertices = Neon.vertices p
  | _ => False
  end.

(** Where the emitters put a particle in depth: within 200 of the origin and
    with no velocity along the depth axis. *)
Definition in_view (p : Particle.t) : Prop :=
  -200 <= Particle.z p < 200 /\ Particle.vz p == 0.

(** A relation on states that every step of a computation respects is
    respected by the computation. *)
Definition stable {W A} (R : W -> W -> Prop) (m : M W A) : Prop :=
  forall w, R w (exec m w).

(** What the spawn functions leave alone once their call is recorded: the
    detectors, the component's own refs and the trace. *)
Definition spawn_frame {P X} (w w' : World P X) : Prop :=
  detectors (beatRefs w') = detectors (beatRefs w) /\
  ownRefs w' = ownRefs w /\
  trace w' = trace w.

(** ** Predicates used in the further statements *)

Definition at_most (c : Z) (v : Z) : Prop := (0 <= v <= c)%Z.

(** The detectors after one frame of either component whose beat detection
    runs on [dataArray]. *)
Definition detectorStep (b : BeatRefs) (a : AudioData) : Q * Q * Q * (Q * Q * Q) :=
  (avgBassRef b * 0.92 + bassEnergy a * 0.08,
   avgMidRef b * 0.92 + midEnergy a * 0.08,
   avgTrebleRef b * 0.92 + trebleEnergy a * 0.08,
   ((if bassFires b a then BEAT_THRESHOLD_INIT * 1.5
     else Math_max BEAT_THRESHOLD_INIT (bassThresholdRef b * BEAT_DECAY_RATE)),
    (if midFires b a then BEAT_THRESHOLD_INIT * 1.5
     else Math_max BEAT_THRESHOLD_INIT (midThresholdRef b * BEAT_DECAY_RATE)),
    (if trebleFires b a then BEAT_THRESHOLD_INIT * 1.4
     else Math_max BEAT_THRESHOLD_INIT (trebleThresholdRef b * BEAT_DECAY_RATE)))).

Definition steadyNeon (v : Neon.Video) (dataArray : list Z) (n : nat) : list Neon.FrameInput :=
  repeat {| Neon.video := v; Neon.audio := Some dataArray |} n.

Definition steadyClassic (dataArray : list Z) (n : nat) : list (option (list Z)) :=
  repeat (Some dataArray) n.

Definition closing (k : nat) (e avg0 avg : Q) : Prop :=
  avg - e == 0.92 ^ Z.of_nat k * (avg0 - e).

Definition averagesClosing (k : nat) (a : AudioData) (b0 b : BeatRefs) : Prop :=
  closing k (bassEnergy a) (avgBassRef b0) (avgBassRef b) /\
  closing k (midEnergy a) (avgMidRef b0) (avgMidRef b) /\
  closing k (trebleEnergy a) (avgTrebleRef b0) (avgTrebleRef b).

Definition quiet (audio : option (list Z)) : Prop :=
  match audio with
  | Some dataArray => dataArray <> [] /\ Forall (at_most 10) dataArray
  | None => False
  end.

Definition quietNeon (input : Neon.FrameInput) : Prop :=
  Neon.available (Neon.video input) = false /\ quiet (Neon.audio input).

(** A threshold [t] reached from [t0] by [k] decays. *)
Definition relaxed (k : nat) (t0 t : Q) : Prop :=
  BEAT_THRESHOLD_INIT <= t /\
  (t <= BEAT_THRESHOLD_INIT \/ t <= 0.98 ^ Z.of_nat k * t0) /\
  0.98 ^ Z.of_nat k * t0 <= t.

Definition thresholdsRelaxed (k : nat) (b0 b : BeatRefs) : Prop :=
  relaxed k (bassThresholdRef b0) (bassThresholdRef b) /\
  relaxed k (midThresholdRef b0) (midThresholdRef b) /\
  relaxed k (trebleThresholdRef b0) (trebleThresholdRef b).

(** The three thresholds are back at their initial value. *)
Definition thresholds_settled (b : BeatRefs) : Prop :=
  bassThresholdRef b == BEAT_THRESHOLD_INIT /\
  midThresholdRef b == BEAT_THRESHOLD_INIT /\
  trebleThresholdRef b == BEAT_THRESHOLD_INIT.

(** Vertex number [i] of a shard with [sides] vertices, drawn with the
    random number [r1]. *)
Definition shardVertex (h : Host) (size : Q) (sides : Z) (i : nat) (r1 : Q) : Point.t :=
  let angle := (inject_Z (Z.of_nat i) / inject_Z sides) * PI h * 2 in
  let r := size * (0.5 + r1 * 0.5) in
  Point.mk (cos h angle * r) (sin h angle * r).

(** The state after [n] more calls of [Math.random]. *)
Definition afterRandom {P X} (n : nat) (w : World P X) : World P X :=
  mkWorld (beatRefs w) (particlesRef w) (ownRefs w)
          (randomCalls w + n) (clockCalls w) (trace w).

(** The point at parameter [t] of the segment from [(x1, y1)] to
    [(x2, y2)]. *)
Definition segmentPoint (x1 y1 x2 y2 t : Q) : Point.t :=
  Point.mk (x1 + (x2 - x1) * t) (y1 + (y2 - y1) * t).

(** The number of steps [addLine] of the neon component divides a segment
    into. *)
Definition neonCount (h : Host) (x1 y1 x2 y2 : Q) : Z :=
  Z.max 2 (Math_floor (hypot h (x2 - x1) (y2 - y1) * 60)).

(** The number of steps [addLine] of the classic component divides a
    segment into. *)
Definition classicCount (h : Host) (x1 y1 x2 y2 density : Q) : Z :=
  Z.max 3 (Math_floor (hypot h (x2 - x1) (y2 - y1) * 100 * density)).

(** The point the classic [addLine] pushes at parameter [t] with the random
    numbers [r1] and [r2]. *)
Definition jitterPoint (x1 y1 x2 y2 t r1 r2 : Q) : Point.t :=
  Point.mk (x1 + (x2 - x1) * t + (r1 - 0.5) * 0.015)
           (y1 + (y2 - y1) * t + (r2 - 0.5) * 0.015).

(** What the rib loop guarantees of a rib besides its position: its length
    is between 40% and 100% of [(1 - pos) * 0.6], it carries at most two
    sub-ribs, none unless it is longer than 0.3, and it leaves the arm at
    [PI / 3]. *)
Definition rib_shape (h : Host) (r : Rib.t) : Prop :=
  (1 - Rib.pos r) * 0.6 * 0.4 <= Rib.length r < (1 - Rib.pos r) * 0.6 /\
  (0 <= Rib.subRibs r <= 2)%Z /\
  (Rib.subRibs r <> 0%Z -> 0.3 < Rib.length r) /\
  Rib.angle r = PI h / 3.

(** The particle after the physics steps of frames with the given
    energies. *)
Definition neonFlight (energies : list Q) (p : Neon.NeonParticle) : Neon.NeonParticle :=
  fold_left (fun p e => Neon.physics e p) energies p.

Definition classicFlight (energies : list Q) (p : Particle.t) : Particle.t :=
  fold_left (fun p e => Classic.physics e p) energies p.

(** Position and velocity [p] reached from [p0] after [n] steps, [k] being
    [FRICTION ^ n]. *)
Definition moved (k : Q) (n : nat) (p0 p : Particle.t) : Prop :=
  Particle.vx p == k * Particle.vx p0 /\
  Particle.vy p - 0.57 == k * (Particle.vy p0 - 0.57) /\
  Particle.vz p == k * Particle.vz p0 /\
  Particle.x p == Particle.x p0 + 20 * (1 - k) * Particle.vx p0 /\
  Particle.y p == Particle.y p0 + 0.57 * inject_Z (Z.of_nat n)
                  + 20 * (1 - k) * (Particle.vy p0 - 0.57) /\
  Particle.z p == Particle.z p0 + 20 * (1 - k) * Particle.vz p0.

(** One step of either component on position and velocity. *)
Definition stepped (p0 p1 : Particle.t) : Prop :=
  Particle.x p1 = Particle.x p0 + Particle.vx p0 /\
  Particle.y p1 = Particle.y p0 + Particle.vy p0 /\
  Particle.z p1 = Particle.z p0 + Particle.vz p0 /\
  Particle.vx p1 = Particle.vx p0 * FRICTION /\
  Particle.vy p1 = (Particle.vy p0 + GRAVITY) * FRICTION /\
  Particle.vz p1 = Particle.vz p0 * FRICTION.

(** The gestures reported to [onGestureChange], in order. *)
Fixpoint gestureChanges (events : list Event) : list string :=
  match events with
  | [] => []
  | GestureChange gesture :: rest => gesture :: gestureChanges rest
  | _ :: rest => gestureChanges rest
  end.

(** Each gesture of the list differs from the one before it, the first from
    [previous]. *)
Fixpoint alternating (previous : string) (gestures : list string) : Prop :=
  match gestures with
  | [] => True
  | g :: rest => g <> previous /\ alternating g rest
  end.

(** What one call of [detectGestures] reports. *)
Definition notifies (w w' : World Neon.NeonParticle Neon.GestureRefs) : Prop :=
  exists reported,
    gestureChanges (trace w') = gestureChanges (trace w) ++ reported /\
    alternating (Neon.lastDetectedGestureRef (ownRefs w)) reported /\
    Neon.lastDetectedGestureRef (ownRefs w')
    = last reported (Neon.lastDetectedGestureRef (ownRefs w)).

(** No gesture is reported: the trace grows by other events only. *)
Definition unreported {P X} (w w' : World P X) : Prop :=
  gestureChanges (trace w') = gestureChanges (trace w).

(** The pan target an open palm at [(hx, hy)] asks for. *)
Definition palmTarget (lm9 : Point.t) : Point.t :=
  Point.mk ((0.5 - Point.x lm9) * 300 * 2) ((0.5 - Point.y lm9) * 300 * 2).

(** Landmark 9 of the first hand of the result, when the landmark list of
    that hand is not empty. *)
Definition palmLandmark (v : Neon.Video) : option Point.t :=
  match Neon.recognition v with
  | Neon.Returns result =>
      match Neon.landmarks result with
      | lms :: _ => nth_error lms 9
      | [] => None
      end
  | Neon.Throws => None
  end.

(** Both coordinates of [p] are within [r] of the origin. *)
Definition within (r : Q) (p : Point.t) : Prop :=
  - r <= Point.x p <= r /\ - r <= Point.y p <= r.

(** The hand landmark the pan reads lies in the picture. *)
Definition in_picture (input : Neon.FrameInput) : Prop :=
  forall lm9, palmLandmark (Neon.video input) = Some lm9 ->
    0 <= Point.x lm9 <= 1 /\ 0 <= Point.y lm9 <= 1.

(** The camera offset is a factor [k] closer to the target in both
    coordinates. *)
Definition closer (k : Q) (target camera0 camera : Point.t) : Prop :=
  Point.x target - Point.x camera == k * (Point.x target - Point.x camera0) /\
  Point.y target - Point.y camera == k * (Point.y target - Point.y camera0).

(** A neon particle of a burst that starts at [(sx, sy, sz)] with the
    snowflake scaled by [scale]. *)
Definition neonBurst (sx sy sz scale : Q) (p : Neon.NeonParticle) : Prop :=
  Particle.x (Neon.base p) = sx /\
  Particle.y (Neon.base p) = sy /\
  Particle.z (Neon.base p) = sz /\
  Particle.vz (Neon.base p) == 0 /\
  Particle.alpha (Neon.base p) = 1 /\
  Particle.life (Neon.base p) = 1.0 /\
  FADE_SPEED_BASE <= Particle.decayRate (Neon.base p) <= FADE_SPEED_BASE + FADE_SPEED_VAR /\
  scale <= Particle.size (Neon.base p) <= 5 * scale /\
  -0.1 <= Neon.spinSpeed p <= 0.1 /\
  (3 <= List.length (Neon.vertices p) <= 5)%nat /\
  -20 <= Neon.hue p <= 360.

(** The colour of the particles of a band in the classic component. *)
Definition bandColor (type : FrequencyBand) : string :=
  match type with
  | bass => Classic.COLOR_BASE
  | mid => Classic.COLOR_MID_FREQ
  | treble => Classic.COLOR_HIGH_FREQ
  end.

(** A classic particle of a burst of band [type] that starts at
    [(sx, sy, sz)] with the snowflake scaled by [scale]. *)
Definition classicBurst (type : FrequencyBand) (sx sy sz scale : Q) (p : Particle.t) : Prop :=
  Particle.x p = sx /\
  Particle.y p = sy /\
  Particle.z p = sz /\
  Particle.vz p == 0 /\
  Particle.alpha p = 1 /\
  Particle.life p == 1 /\
  FADE_SPEED_BASE <= Particle.decayRate p <= FADE_SPEED_BASE + FADE_SPEED_VAR /\
  BASE_PARTICLE_SIZE * scale <= Particle.size p <= 1.84 * scale /\
  Particle.color p = bandColor type.

(** A state with a track of three minutes playing since time 10. *)
Definition demoPlaying : App.State :=
  App.playAudio 10
    (App.uploadSettled (Some 180)
       (App.handleFileUpload App.suspended (Some "song.mp3"%string) App.initialState)).

(** A disc as [ctx.arc] and [fillStyle] can take it: a radius of at least
    0.1 and an opacity in [(0, 1]]. *)
Definition valid_disc (e : Event) : Prop :=
  match e with
  | DrawArc _ _ size2d finalOpacity _ => 0.1 <= size2d /\ 0 < finalOpacity <= 1
  | _ => True
  end.

(** The particles can only fade and everything painted so far is valid. *)
Definition paintable (w : World Particle.t Point.t) : Prop :=
  Forall mortal (particlesRef w) /\ Forall valid_disc (trace w).

(** The demo host with its cosine clamped to [[-1, 1]]. *)
Definition clampedHost : Host :=
  Build_Host (random Demo.host) (clock Demo.host)
             (fun x => Math_max (-1) (Math_min 1 (Demo.cos x)))
             Demo.sin Demo.sqrt Demo.hypot Demo.PI 1280 720.

(** The number of [loadeddata] events among the events. *)
Definition loadedData (events : list Webcam.Event) : nat :=
  List.length (filter (fun e => match e with Webcam.LoadedData => true | _ => false end)
                      events).

(** The statuses that can have been reported when [startWebcam] is at a
    given stage, and what the camera-ready flag says about them; [bound] is
    the number of [loadeddata] events so far. *)
Definition status_log_ok (bound : nat) (s : Webcam.State) : Prop :=
  let loading := (false, "Loading Neon AI..."%string) in
  let starting := (false, "Starting Camera..."%string) in
  let ready := (true, "Ready"%string) in
  let failed := (false, "Camera Error"%string) in
  match Webcam.stage s with
  | Webcam.AwaitingRecognizer =>
      Webcam.statuses s = [loading] /\ Webcam.isCameraReadyRef s = false
  | Webcam.AwaitingStream =>
      Webcam.statuses s = [loading; starting] /\ Webcam.isCameraReadyRef s = false
  | Webcam.Listening =>
      exists n, (n <= bound)%nat /\
        Webcam.statuses s = loading :: starting :: repeat ready n /\
        Webcam.isCameraReadyRef s = negb (n =? 0)%nat
  | Webcam.Finished =>
      In (Webcam.statuses s)
         [[loading]; [loading; starting]; [loading; failed]; [loading; starting; failed]] /\
      Webcam.isCameraReadyRef s = false
  end.






(** * Properties *)

(** ** Comparisons, minimum and maximum *)

Lemma gtb_true (a b : Q) : gtb a b = true <-> b < a.
Proof.
  unfold gtb. rewrite negb_true_iff.
  destruct (Qle_bool a b) eqn:E.
  - apply Qle_bool_iff in E. split; [discriminate | intro; lra].
  - split; [intros _ | reflexivity].
    destruct (Qlt_le_dec b a) as [H | H]; [exact H |].
    apply Qle_bool_iff in H. congruence.
Qed.

Lemma gtb_false (a b : Q) : gtb a b = false <-> a <= b.
Proof.
  unfold gtb. rewrite negb_false_iff. apply Qle_bool_iff.
Qed.

Lemma ltb_true (a b : Q) : ltb a b = true <-> a < b.
Proof. unfold ltb. apply (gtb_true b a). Qed.

Lemma ltb_false (a b : Q) : ltb a b = false <-> b <= a.
Proof. unfold ltb. apply (gtb_false b a). Qed.

Lemma Math_max_lub (a b : Q) : a <= Math_max a b /\ b <= Math_max a b.
Proof.
  unfold Math_max. destruct (Qle_bool a b) eqn:E.
  - apply Qle_bool_iff in E. lra.
  - assert (H : gtb a b = true) by (unfold gtb; rewrite E; reflexivity).
    apply gtb_true in H. lra.
Qed.

Lemma Math_min_glb (a b : Q) : Math_min a b <= a /\ Math_min a b <= b.
Proof.
  unfold Math_min. destruct (Qle_bool a b) eqn:E.
  - apply Qle_bool_iff in E. lra.
  - assert (H : gtb a b = true) by (unfold gtb; rewrite E; reflexivity).
    apply gtb_true in H. lra.
Qed.

(** ** Spectrum analyser *)

Lemma or_one_length (l : list Z) :
  or_one (lengthZ l) = match l with [] => 1%Z | _ => lengthZ l end.
Proof.
  destruct l as [| v l]; [reflexivity |].
  unfold or_one, lengthZ. cbn [List.length].
  destruct (Z.eqb_spec (Z.of_nat (S (List.length l))) 0); [lia | reflexivity].
Qed.

Lemma sumZ_app (l1 l2 : list Z) : sumZ (l1 ++ l2) = (sumZ l1 + sumZ l2)%Z.
Proof.
  unfold sumZ.
  induction l1 as [| v l1 IH]; cbn [app fold_right]; [reflexivity | rewrite IH; lia].
Qed.

Lemma analyzeLoop_app bassEnd midEnd (l1 l2 : list Z) :
  forall i acc,
    analyzeLoop bassEnd midEnd i (l1 ++ l2) acc =
    analyzeLoop bassEnd midEnd (i + lengthZ l1) l2
      (analyzeLoop bassEnd midEnd i l1 acc).
Proof.
  unfold lengthZ.
  induction l1 as [| v l1 IH]; intros i acc.
  - cbn. rewrite Z.add_0_r. reflexivity.
  - cbn [app analyzeLoop List.length]. rewrite IH. f_equal. lia.
Qed.

(** Indices below [bassEnd] feed the bass accumulator. *)
Lemma analyzeLoop_bass bassEnd midEnd (l : list Z) :
  forall i acc,
    (i + lengthZ l <= bassEnd)%Z ->
    analyzeLoop bassEnd midEnd i l acc =
    {| totalSum := totalSum acc + sumZ l; bassSum := bassSum acc + sumZ l;
       midSum := midSum acc; trebleSum := trebleSum acc |}.
Proof.
  unfold lengthZ.
  induction l as [| v l IH]; intros i acc H.
  - cbn. destruct acc; cbn. f_equal; lia.
  - cbn [analyzeLoop List.length sumZ fold_right] in *.
    destruct (Z.ltb_spec i bassEnd); [| lia].
    rewrite IH by lia. cbn. f_equal; fold (sumZ l); lia.
Qed.

(** Indices in [[bassEnd, midEnd)] feed the mid accumulator. *)
Lemma analyzeLoop_mid bassEnd midEnd (l : list Z) :
  forall i acc,
    (bassEnd <= i)%Z -> (i + lengthZ l <= midEnd)%Z ->
    analyzeLoop bassEnd midEnd i l acc =
    {| totalSum := totalSum acc + sumZ l; bassSum := bassSum acc;
       midSum := midSum acc + sumZ l; trebleSum := trebleSum acc |}.
Proof.
  unfold lengthZ.
  induction l as [| v l IH]; intros i acc Hlo H.
  - cbn. destruct acc; cbn. f_equal; lia.
  - cbn [analyzeLoop List.length sumZ fold_right] in *.
    destruct (Z.ltb_spec i bassEnd); [lia |].
    destruct (Z.ltb_spec i midEnd); [| lia].
    rewrite IH by lia. cbn. f_equal; fold (sumZ l); lia.
Qed.

(** Indices from [midEnd] on feed the treble accumulator. *)
Lemma analyzeLoop_treble bassEnd midEnd (l : list Z) :
  forall i acc,
    (bassEnd <= midEnd)%Z -> (midEnd <= i)%Z ->
    analyzeLoop bassEnd midEnd i l acc =
    {| totalSum := totalSum acc + sumZ l; bassSum := bassSum acc;
       midSum := midSum acc; trebleSum := trebleSum acc + sumZ l |}.
Proof.
  induction l as [| v l IH]; intros i acc Hle Hlo.
  - cbn. destruct acc; cbn. f_equal; lia.
  - cbn [analyzeLoop sumZ fold_right] in *.
    destruct (Z.ltb_spec i bassEnd); [lia |].
    destruct (Z.ltb_spec i midEnd); [lia |].
    rewrite IH by lia. cbn. f_equal; fold (sumZ l); lia.
Qed.

Lemma band_ends (n : Z) :
  (1 <= n)%Z ->
  (0 <= bassEndOf n <= midEndOf n)%Z /\ (midEndOf n < n)%Z.
Proof.
  intro Hn. unfold bassEndOf, midEndOf, Math_floor.
  assert (Hq : 1 <= inject_Z n).
  { change 1 with (inject_Z 1). rewrite <- Zle_Qle. exact Hn. }
  repeat split.
  - change 0%Z with (Qfloor (inject_Z 0)). apply Qfloor_resp_le.
    change (inject_Z 0) with 0. lra.
  - apply Qfloor_resp_le. lra.
  - destruct (Z.lt_ge_cases (Qfloor (inject_Z n * 0.40)) n) as [H | H]; [exact H |].
    exfalso. rewrite Zle_Qle in H.
    pose proof (Qfloor_le (inject_Z n * 0.40)). lra.
Qed.

Lemma slice_partition (a b : Z) (l : list Z) :
  (0 <= a <= b)%Z -> (b <= lengthZ l)%Z ->
  slice 0 a l ++ slice a b l ++ slice b (lengthZ l) l = l /\
  lengthZ (slice 0 a l) = a /\
  lengthZ (slice a b l) = (b - a)%Z /\
  lengthZ (slice b (lengthZ l) l) = (lengthZ l - b)%Z.
Proof.
  unfold slice, lengthZ. intros Ha Hb.
  rewrite Z.sub_0_r. change (Z.to_nat 0) with 0%nat. cbn [skipn].
  assert (E1 : Z.to_nat b = (Z.to_nat a + Z.to_nat (b - a))%nat) by lia.
  repeat split.
  - assert (E2 : firstn (Z.to_nat (Z.of_nat (List.length l) - b)) (skipn (Z.to_nat b) l)
                 = skipn (Z.to_nat (b - a)) (skipn (Z.to_nat a) l)).
    { rewrite skipn_skipn.
      replace (Z.to_nat (b - a) + Z.to_nat a)%nat with (Z.to_nat b) by lia.
      apply firstn_all2. rewrite length_skipn. lia. }
    rewrite E2, firstn_skipn, firstn_skipn. reflexivity.
  - rewrite length_firstn. lia.
  - rewrite length_firstn, length_skipn. lia.
  - rewrite length_firstn, length_skipn. lia.
Qed.

Lemma sumZ_bounds (l : list Z) :
  Forall is_uint8 l -> (0 <= sumZ l <= 255 * lengthZ l)%Z.
Proof.
  unfold lengthZ, is_uint8.
  induction 1 as [| v l Hv _ IH]; cbn [sumZ fold_right List.length]; [lia |].
  fold (sumZ l). lia.
Qed.

(** A sum of bytes divided by [or_one] of their number lies in [[0, 255]]. *)
Lemma byte_average_range (l : list Z) :
  Forall is_uint8 l ->
  0 <= inject_Z (sumZ l) / inject_Z (or_one (lengthZ l)) <= 255.
Proof.
  intro Hl. pose proof (sumZ_bounds l Hl) as [Hlo Hhi].
  assert (Hd : (1 <= or_one (lengthZ l))%Z).
  { rewrite or_one_length. destruct l; [lia |]. unfold lengthZ. cbn [List.length]. lia. }
  assert (Hs : (sumZ l <= 255 * or_one (lengthZ l))%Z).
  { rewrite or_one_length. destruct l; [cbn in *; lia | exact Hhi]. }
  assert (Hdq : 0 < inject_Z (or_one (lengthZ l))).
  { change 0 with (inject_Z 0). rewrite <- Zlt_Qlt. lia. }
  split.
  - apply Qle_shift_div_l; [exact Hdq |].
    rewrite Qmult_0_l. change 0 with (inject_Z 0). rewrite <- Zle_Qle. exact Hlo.
  - apply Qle_shift_div_r; [exact Hdq |].
    change 255 with (inject_Z 255). rewrite <- inject_Z_mult, <- Zle_Qle. exact Hs.
Qed.

Lemma Forall_slice (P : Z -> Prop) (a b : Z) (l : list Z) :
  Forall P l -> Forall P (slice a b l).
Proof.
  intro H. unfold slice.
  rewrite <- (firstn_skipn (Z.to_nat a) l) in H.
  apply Forall_app in H. destruct H as [_ H].
  rewrite <- (firstn_skipn (Z.to_nat (b - a)) (skipn (Z.to_nat a) l)) in H.
  apply Forall_app in H. exact (proj1 H).
Qed.

(** The accumulators after the whole loop are the sums of the three slices. *)
Lemma analyzeLoop_slices (l : list Z) (a b : Z) :
  (0 <= a <= b)%Z -> (b <= lengthZ l)%Z ->
  analyzeLoop a b 0 l {| totalSum := 0; bassSum := 0; midSum := 0; trebleSum := 0 |} =
  {| totalSum := sumZ l;
     bassSum := sumZ (slice 0 a l);
     midSum := sumZ (slice a b l);
     trebleSum := sumZ (slice b (lengthZ l) l) |}.
Proof.
  intros Ha Hb.
  destruct (slice_partition a b l Ha Hb) as (Hp & L1 & L2 & L3).
  pose proof (f_equal sumZ Hp) as Hs. rewrite !sumZ_app in Hs.
  rewrite <- Hp at 1.
  rewrite !analyzeLoop_app.
  rewrite (analyzeLoop_bass a b (slice 0 a l)) by lia.
  rewrite (analyzeLoop_mid a b (slice a b l)) by lia.
  rewrite (analyzeLoop_treble a b (slice b (lengthZ l) l)) by lia.
  cbn [totalSum bassSum midSum trebleSum].
  f_equal; lia.
Qed.

(** C1. For a non-empty byte buffer the three band ranges
    [[0, bassEnd)], [[bassEnd, midEnd)] and [[midEnd, length)], with
    [bassEnd = floor (0.06 * length)] and [midEnd = floor (0.40 * length)],
    partition the buffer; each band energy of [analyzeAudio] is the sum of its
    range divided by the size of the range, the divisor being [1] when the
    range is empty, so that the value is the arithmetic mean of a non-empty
    range and [0] for an empty one; [energy] is the mean of the whole buffer;
    and every band energy lies in [[0, 255]]. *)
Theorem analyzeAudio_band_means (dataArray : list Z) :
  dataArray <> [] ->
  Forall is_uint8 dataArray ->
  let length := lengthZ dataArray in
  let bassEnd := Math_floor (inject_Z length * 0.06) in
  let midEnd := Math_floor (inject_Z length * 0.40) in
  let bass := slice 0 bassEnd dataArray in
  let mid := slice bassEnd midEnd dataArray in
  let treble := slice midEnd length dataArray in
  let a := analyzeAudio dataArray in
  (* the ranges are contiguous, ordered and exhaustive *)
  ((0 <= bassEnd <= midEnd)%Z /\ (midEnd <= length)%Z /\
   bass ++ mid ++ treble = dataArray /\
   lengthZ bass = bassEnd /\
   lengthZ mid = (midEnd - bassEnd)%Z /\
   lengthZ treble = (length - midEnd)%Z) /\
  (* the values returned *)
  (energy a == mean dataArray /\
   bassEnergy a == inject_Z (sumZ bass) / inject_Z (or_one (lengthZ bass)) /\
   midEnergy a == inject_Z (sumZ mid) / inject_Z (or_one (lengthZ mid)) /\
   trebleEnergy a == inject_Z (sumZ treble) / inject_Z (or_one (lengthZ treble))) /\
  (* a non-empty range is averaged *)
  ((bass <> [] -> bassEnergy a == mean bass) /\
   (mid <> [] -> midEnergy a == mean mid) /\
   (treble <> [] -> trebleEnergy a == mean treble)) /\
  (* an empty range has divisor 1 and value 0 *)
  ((bass = [] -> or_one (lengthZ bass) = 1%Z /\ bassEnergy a == 0) /\
   (mid = [] -> or_one (lengthZ mid) = 1%Z /\ midEnergy a == 0) /\
   (treble = [] -> or_one (lengthZ treble) = 1%Z /\ trebleEnergy a == 0)) /\
  (* byte inputs give byte-range energies *)
  (0 <= bassEnergy a <= 255 /\ 0 <= midEnergy a <= 255 /\
   0 <= trebleEnergy a <= 255 /\ 0 <= energy a <= 255).
Proof.
  intros Hne Hbytes length bassEnd midEnd bass mid treble a.
  assert (Hlen : (1 <= length)%Z).
  { subst length. unfold lengthZ. destruct dataArray; [congruence | cbn [List.length]; lia]. }
  destruct (band_ends length Hlen) as [Hab Hb].
  fold bassEnd in Hab. fold midEnd in Hab, Hb.
  change (bassEndOf length) with bassEnd in *.
  change (midEndOf length) with midEnd in *.
  destruct (slice_partition bassEnd midEnd dataArray Hab ltac:(fold length; lia))
    as (Hp & L1 & L2 & L3).
  fold length in Hp, L3. fold bass in Hp, L1. fold mid in Hp, L2. fold treble in Hp, L3.
  assert (Ha : a = {| frequencyData := dataArray;
                      energy := inject_Z (sumZ dataArray) / inject_Z length;
                      bassEnergy := inject_Z (sumZ bass) / inject_Z (or_one bassEnd);
                      midEnergy := inject_Z (sumZ mid) / inject_Z (or_one (midEnd - bassEnd));
                      trebleEnergy := inject_Z (sumZ treble) / inject_Z (or_one (length - midEnd)) |}).
  { subst a. unfold analyzeAudio.
    change (bassEndOf (Z.of_nat (List.length dataArray))) with bassEnd.
    change (midEndOf (Z.of_nat (List.length dataArray))) with midEnd.
    rewrite (analyzeLoop_slices dataArray bassEnd midEnd Hab ltac:(fold length; lia)).
    reflexivity. }
  assert (Hvals :
    energy a == mean dataArray /\
    bassEnergy a == inject_Z (sumZ bass) / inject_Z (or_one (lengthZ bass)) /\
    midEnergy a == inject_Z (sumZ mid) / inject_Z (or_one (lengthZ mid)) /\
    trebleEnergy a == inject_Z (sumZ treble) / inject_Z (or_one (lengthZ treble))).
  { rewrite Ha, L1, L2, L3. cbn [energy bassEnergy midEnergy trebleEnergy].
    repeat split; reflexivity. }
  destruct Hvals as (He & Hb1 & Hm1 & Ht1).
  assert (Hmean : forall l, l <> [] ->
            inject_Z (sumZ l) / inject_Z (or_one (lengthZ l)) == mean l).
  { intros l Hl. rewrite or_one_length. destruct l; [congruence | reflexivity]. }
  assert (Hzero : forall l, l = [] ->
            or_one (lengthZ l) = 1%Z /\
            inject_Z (sumZ l) / inject_Z (or_one (lengthZ l)) == 0).
  { intros l ->. split; reflexivity. }
  split; [repeat split; try assumption; lia |].
  split; [repeat split; assumption |].
  split.
  { split; [| split]; intro Hn;
      [rewrite Hb1 | rewrite Hm1 | rewrite Ht1]; apply Hmean; exact Hn. }
  split.
  { split; [| split]; intro Hn; (split; [apply Hzero; exact Hn |]);
      [rewrite Hb1 | rewrite Hm1 | rewrite Ht1]; apply Hzero; exact Hn. }
  rewrite Hb1, Hm1, Ht1, He.
  pose proof (byte_average_range bass (Forall_slice _ _ _ _ Hbytes)).
  pose proof (byte_average_range mid (Forall_slice _ _ _ _ Hbytes)).
  pose proof (byte_average_range treble (Forall_slice _ _ _ _ Hbytes)).
  pose proof (byte_average_range dataArray Hbytes) as Hall.
  rewrite (Hmean dataArray Hne) in Hall.
  repeat split; tauto.
Qed.

(** The scenario of a 100-bin buffer whose bins 0-5 hold 200 and the others
    0: the bass band is bins 0-5 and its energy is 200. *)
Lemma analyzeAudio_band_means_witness :
  let dataArray := repeat 200%Z 6 ++ repeat 0%Z 94 in
  bassEnergy (analyzeAudio dataArray) == 200 /\
  midEnergy (analyzeAudio dataArray) == 0 /\
  0 <= trebleEnergy (analyzeAudio dataArray) <= 255.
Proof.
  intro dataArray.
  assert (Hne : dataArray <> []) by (vm_compute; discriminate).
  assert (Hb : Forall is_uint8 dataArray).
  { apply Forall_app. split; apply Forall_forall; intros x Hx;
      apply repeat_spec in Hx; subst x; unfold is_uint8; lia. }
  pose proof (analyzeAudio_band_means dataArray Hne Hb) as H.
  cbv zeta in H.
  destruct H as (_ & _ & (Hbm & Hmm & _) & _ & (_ & _ & Ht & _)).
  split; [| split].
  - rewrite Hbm by (vm_compute; discriminate). vm_compute. reflexivity.
  - rewrite Hmm by (vm_compute; discriminate). vm_compute. reflexivity.
  - exact Ht.
Defined.

(** ** The state monad *)

Lemma eval_bind {W A B} (m : M W A) (f : A -> M W B) (w : W) :
  eval (bind m f) w = eval (f (eval m w)) (exec m w).
Proof. unfold eval, exec, bind. destruct (m w). reflexivity. Qed.

Lemma exec_bind {W A B} (m : M W A) (f : A -> M W B) (w : W) :
  exec (bind m f) w = exec (f (eval m w)) (exec m w).
Proof. unfold eval, exec, bind. destruct (m w). reflexivity. Qed.

Lemma eval_ret {W A} (a : A) (w : W) : eval (ret a) w = a.
Proof. reflexivity. Qed.

Lemma exec_ret {W A} (a : A) (w : W) : exec (ret a) w = w.
Proof. reflexivity. Qed.

Lemma exec_if {W A} (c : bool) (m1 m2 : M W A) (w : W) :
  exec (if c then m1 else m2) w = if c then exec m1 w else exec m2 w.
Proof. destruct c; reflexivity. Qed.

Lemma eval_if {W A} (c : bool) (m1 m2 : M W A) (w : W) :
  eval (if c then m1 else m2) w = if c then eval m1 w else eval m2 w.
Proof. destruct c; reflexivity. Qed.

(** ** Blueprint ribs *)

Lemma ribStep_pos {P X} (h : Host) (numRibs : Z) (s : nat) (acc : list Rib.t)
      (w : World P X) :
  map Rib.pos (eval (ribStep h numRibs (Z.of_nat s) acc) w)
  = map Rib.pos acc ++ [ribPos numRibs s].
Proof.
  unfold ribStep. cbv zeta.
  rewrite eval_bind, eval_bind, eval_ret, map_app. reflexivity.
Qed.

Lemma ribLoop_pos {P X} (h : Host) (numRibs : Z) :
  forall (n s : nat) (acc : list Rib.t) (w : World P X),
    map Rib.pos (eval (for_loop n (Z.of_nat s) (ribStep h numRibs) acc) w)
    = map Rib.pos acc ++ map (ribPos numRibs) (seq s n).
Proof.
  induction n as [| n IH]; intros s acc w.
  - cbn. rewrite app_nil_r. reflexivity.
  - cbn [for_loop seq map]. rewrite eval_bind.
    replace (Z.of_nat s + 1)%Z with (Z.of_nat (S s)) by lia.
    rewrite IH, ribStep_pos, <- app_assoc. reflexivity.
Qed.

Lemma generateRibs_pos {P X} (h : Host) (w : World P X) :
  let numRibs := (Math_floor (random h (randomCalls w) * 4) + 2)%Z in
  map Rib.pos (eval (generateRibs h) w)
  = map (ribPos numRibs) (seq 0 (Z.to_nat numRibs)).
Proof.
  intro numRibs. unfold generateRibs, ribLoop.
  rewrite eval_bind.
  change (eval (Math_random h) w) with (random h (randomCalls w)).
  fold numRibs.
  apply (ribLoop_pos h numRibs (Z.to_nat numRibs) 0 []).
Qed.

Lemma floor_unit_scaled (r : Q) (k : Z) :
  (0 < k)%Z -> 0 <= r < 1 -> (0 <= Math_floor (r * inject_Z k) < k)%Z.
Proof.
  intros Hk [H0 H1]. unfold Math_floor.
  assert (Hkq : 0 < inject_Z k).
  { change 0 with (inject_Z 0). rewrite <- Zlt_Qlt. exact Hk. }
  pose proof (Qfloor_le (r * inject_Z k)) as Hlo.
  pose proof (Qlt_floor (r * inject_Z k)) as Hhi.
  assert (Hm0 : 0 <= r * inject_Z k) by (apply Qmult_le_0_compat; lra).
  assert (Hm1 : r * inject_Z k < inject_Z k).
  { rewrite <- (Qmult_1_l (inject_Z k)) at 2.
    apply Qmult_lt_compat_r; assumption. }
  split.
  - assert (H : inject_Z 0 < inject_Z (Qfloor (r * inject_Z k) + 1)).
    { change (inject_Z 0) with 0. lra. }
    rewrite <- Zlt_Qlt in H. lia.
  - rewrite Zlt_Qlt. lra.
Qed.

Lemma ribPos_range (numRibs : Z) (r : nat) :
  (Z.of_nat r < numRibs)%Z -> 0.2 <= ribPos numRibs r < 0.8.
Proof.
  intro Hr. unfold ribPos.
  assert (Hn : 0 < inject_Z numRibs).
  { change 0 with (inject_Z 0). rewrite <- Zlt_Qlt. lia. }
  assert (H0 : 0 <= inject_Z (Z.of_nat r) / inject_Z numRibs).
  { apply Qle_shift_div_l; [exact Hn |]. rewrite Qmult_0_l.
    change 0 with (inject_Z 0). rewrite <- Zle_Qle. lia. }
  assert (H1 : inject_Z (Z.of_nat r) / inject_Z numRibs < 1).
  { apply Qlt_shift_div_r; [exact Hn |]. rewrite Qmult_1_l.
    rewrite <- Zlt_Qlt. exact Hr. }
  lra.
Qed.

Lemma ribPos_increasing (numRibs : Z) (i j : nat) :
  (0 < numRibs)%Z -> (i < j)%nat -> ribPos numRibs i < ribPos numRibs j.
Proof.
  intros Hn Hij. unfold ribPos.
  assert (Hq : 0 < inject_Z numRibs).
  { change 0 with (inject_Z 0). rewrite <- Zlt_Qlt. exact Hn. }
  assert (H : inject_Z (Z.of_nat i) / inject_Z numRibs
              < inject_Z (Z.of_nat j) / inject_Z numRibs).
  { unfold Qdiv. apply Qmult_lt_compat_r.
    - apply Qinv_lt_0_compat. exact Hq.
    - rewrite <- Zlt_Qlt. lia. }
  lra.
Qed.

(** What [generateRibs] guarantees about the ribs it returns. *)
Lemma generateRibs_placed {P X} (h : Host) (w : World P X) :
  random_unit h ->
  let ribs := eval (generateRibs h) w in
  rib_count_ok ribs /\ increasing_pos ribs /\
  Forall (fun r => 0.2 <= Rib.pos r < 0.8) ribs /\
  (exists r0, nth_error ribs 0 = Some r0 /\ Rib.pos r0 == 0.2).
Proof.
  intros Hu ribs.
  pose proof (generateRibs_pos h w) as Hpos. cbv zeta in Hpos. fold ribs in Hpos.
  set (numRibs := (Math_floor (random h (randomCalls w) * 4) + 2)%Z) in *.
  assert (Hn : (2 <= numRibs <= 5)%Z).
  { pose proof (floor_unit_scaled (random h (randomCalls w)) 4 ltac:(lia) (Hu _)) as H.
    change (inject_Z 4) with 4 in H. subst numRibs. lia. }
  assert (Hlen : List.length ribs = Z.to_nat numRibs).
  { rewrite <- (length_map Rib.pos ribs), Hpos, length_map, length_seq. reflexivity. }
  assert (Hnth : forall i a, nth_error ribs i = Some a ->
                             (i < Z.to_nat numRibs)%nat /\ Rib.pos a = ribPos numRibs i).
  { intros i a Hi.
    assert (Hlt : (i < Z.to_nat numRibs)%nat).
    { rewrite <- Hlen. apply nth_error_Some. congruence. }
    split; [exact Hlt |].
    pose proof (map_nth_error Rib.pos i ribs Hi) as Hm.
    rewrite Hpos in Hm.
    rewrite (map_nth_error (ribPos numRibs) i (seq 0 (Z.to_nat numRibs)) (d := i)) in Hm.
    - congruence.
    - rewrite nth_error_nth' with (d := 0%nat) by (rewrite length_seq; exact Hlt).
      rewrite seq_nth by exact Hlt. reflexivity. }
  split; [unfold rib_count_ok; lia |].
  split.
  { intros i j a b Hij Ha Hb.
    destruct (Hnth i a Ha) as [_ ->]. destruct (Hnth j b Hb) as [_ ->].
    apply ribPos_increasing; lia. }
  split.
  { apply Forall_forall. intros r Hr.
    destruct (In_nth_error ribs r Hr) as [i Hi].
    destruct (Hnth i r Hi) as [Hlt ->].
    apply ribPos_range. lia. }
  destruct ribs as [| r0 rest] eqn:E; [cbn in Hlen; lia |].
  exists r0. split; [reflexivity |].
  destruct (Hnth 0%nat r0 eq_refl) as [_ ->].
  unfold ribPos. cbn [Z.of_nat]. unfold Qdiv. rewrite Qmult_0_l. lra.
Qed.

Lemma neon_blueprint_ribs (h : Host) (w : Neon.State) :
  exists w' : Neon.State,
    SnowflakeBlueprint.ribs (eval (Neon.blueprint h) w) = eval (generateRibs h) w'.
Proof.
  unfold Neon.blueprint.
  rewrite eval_bind, eval_bind, eval_bind, eval_bind, eval_ret.
  cbn [SnowflakeBlueprint.ribs]. eexists. reflexivity.
Qed.

Lemma classic_blueprint_ribs (h : Host) (w : Classic.State) :
  exists w' : Classic.State,
    SnowflakeBlueprint.ribs (eval (Classic.blueprint h) w) = eval (generateRibs h) w'.
Proof.
  unfold Classic.blueprint.
  rewrite eval_bind, eval_bind, eval_bind, eval_bind, eval_bind, eval_ret.
  cbn [SnowflakeBlueprint.ribs]. eexists. reflexivity.
Qed.

(** C7, as stated, fails on the first rib: it sits exactly at 0.2, which is
    not strictly inside (0.2, 0.8). *)
Lemma blueprint_first_rib_on_boundary :
  ~ Forall (fun r => 0.2 < Rib.pos r /\ Rib.pos r < 0.8)
      (SnowflakeBlueprint.ribs (eval (Neon.blueprint Demo.host) Neon.initialState)).
Proof.
  intro H.
  remember (SnowflakeBlueprint.ribs (eval (Neon.blueprint Demo.host) Neon.initialState))
    as ribs eqn:E.
  vm_compute in E. subst ribs.
  apply Forall_inv in H. destruct H as [H _].
  cbn [Rib.pos] in H. revert H. apply Qle_not_lt. unfold Qle. cbn. lia.
Qed.

(** C7 (amended). Every blueprint produced by the generator, in both
    variants, has between 2 and 5 ribs inclusive; the ribs' [pos] values are
    strictly increasing and lie in the half-open interval [[0.2, 0.8)], the
    first rib being placed at 0.2 itself. *)
Theorem blueprint_ribs_placed (h : Host) (wn : Neon.State) (wc : Classic.State) :
  random_unit h ->
  let neon := SnowflakeBlueprint.ribs (eval (Neon.blueprint h) wn) in
  let classic := SnowflakeBlueprint.ribs (eval (Classic.blueprint h) wc) in
  (rib_count_ok neon /\ increasing_pos neon /\
   Forall (fun r => 0.2 <= Rib.pos r < 0.8) neon /\
   (exists r0, nth_error neon 0 = Some r0 /\ Rib.pos r0 == 0.2)) /\
  (rib_count_ok classic /\ increasing_pos classic /\
   Forall (fun r => 0.2 <= Rib.pos r < 0.8) classic /\
   (exists r0, nth_error classic 0 = Some r0 /\ Rib.pos r0 == 0.2)).
Proof.
  intros Hu neon classic. subst neon classic.
  destruct (neon_blueprint_ribs h wn) as [wn' ->].
  destruct (classic_blueprint_ribs h wc) as [wc' ->].
  split; apply generateRibs_placed; exact Hu.
Qed.

Lemma demo_random_unit : random_unit Demo.host.
Proof. intro n. cbn. lra. Qed.

Lemma blueprint_ribs_placed_witness :
  rib_count_ok
    (SnowflakeBlueprint.ribs (eval (Neon.blueprint Demo.host) Neon.initialState)) /\
  rib_count_ok
    (SnowflakeBlueprint.ribs (eval (Classic.blueprint Demo.host) Classic.initialState)).
Proof.
  pose proof (blueprint_ribs_placed Demo.host Neon.initialState Classic.initialState
                demo_random_unit) as H.
  cbv zeta in H. split; [exact (proj1 (proj1 H)) | exact (proj1 (proj2 H))].
Defined.

(** ** Stability of a relation under the monad operations *)

Section Stable.
Context {W : Type} (R : W -> W -> Prop).
Hypothesis R_refl : forall w, R w w.
Hypothesis R_trans : forall a b c, R a b -> R b c -> R a c.

Lemma stable_ret {A} (a : A) : stable R (ret a).
Proof. intro w. apply R_refl. Qed.

Lemma stable_bind {A B} (m : M W A) (f : A -> M W B) :
  stable R m -> (forall a, stable R (f a)) -> stable R (bind m f).
Proof.
  intros Hm Hf w. rewrite exec_bind.
  eapply R_trans; [apply Hm | apply Hf].
Qed.

Lemma stable_for_loop {A} (body : Z -> A -> M W A) :
  (forall i acc, stable R (body i acc)) ->
  forall n i acc, stable R (for_loop n i body acc).
Proof.
  intros Hb. induction n as [| n IH]; intros i acc; cbn [for_loop].
  - apply stable_ret.
  - apply stable_bind; [apply Hb | intro; apply IH].
Qed.

Lemma stable_for_of {A} (body : A -> M W unit) :
  (forall a, stable R (body a)) ->
  forall l, stable R (for_of l body).
Proof.
  intros Hb. induction l as [| a l IH]; cbn [for_of].
  - apply stable_ret.
  - apply stable_bind; [apply Hb | intro; apply IH].
Qed.

Lemma stable_down_loop (body : nat -> M W unit) :
  (forall i, stable R (body i)) ->
  forall n, stable R (down_loop n body).
Proof.
  intros Hb. induction n as [| n IH]; cbn [down_loop].
  - apply stable_ret.
  - apply stable_bind; [apply Hb | intro; apply IH].
Qed.

End Stable.

(** Decomposes a stability goal along the structure of the computation. *)
Ltac stable_step Hr Ht :=
  lazymatch goal with
  | |- stable _ (bind _ _) => apply (stable_bind _ Ht); [| intro]
  | |- stable _ (ret _) => apply (stable_ret _ Hr)
  | |- stable _ (for_loop _ _ _ _) => apply (stable_for_loop _ Hr Ht); intros
  | |- stable _ (for_of _ _) => apply (stable_for_of _ Hr Ht); intros
  | |- stable _ (down_loop _ _) => apply (stable_down_loop _ Hr Ht); intros
  | |- stable _ (if ?c then _ else _) => destruct c
  | |- stable _ (match ?x with _ => _ end) => destruct x
  | |- stable _ _ => progress cbv zeta
  end.

(** ** Relations that the spawn functions respect

    The body of each spawn function, after its call is recorded, respects
    every reflexive and transitive relation that the host calls, the write
    of the spawn time and the insertion of a particle respect. *)

Ltac stable_auto Hr Ht :=
  repeat (first [ solve [eauto 2] | stable_step Hr Ht ]).

Section SpawnStable.
Context {P X : Type} (h : Host) (R : World P X -> World P X -> Prop).
Hypothesis R_refl : forall w, R w w.
Hypothesis R_trans : forall a b c, R a b -> R b c -> R a c.
Hypothesis R_random : stable R (Math_random h).

Lemma generateRibs_stable : stable R (generateRibs h).
Proof. unfold generateRibs, ribLoop, ribStep. stable_auto R_refl R_trans. Qed.

End SpawnStable.

Section NeonEmitPointStable.
Context (h : Host) (R : Neon.State -> Neon.State -> Prop).
Hypothesis R_refl : forall w, R w w.
Hypothesis R_trans : forall a b c, R a b -> R b c -> R a c.
Hypothesis R_random : stable R (Math_random h).
Hypothesis R_push : forall p, stable R (push p).

Lemma neon_createShard_stable size : stable R (Neon.createShard h size).
Proof. unfold Neon.createShard. stable_auto R_refl R_trans. Qed.

Lemma neon_emitPoint_stable sx sy sz hue scale speed skip cosA sinA pt :
  stable R (Neon.emitPoint h sx sy sz hue scale speed skip cosA sinA pt).
Proof.
  pose proof neon_createShard_stable.
  unfold Neon.emitPoint. stable_auto R_refl R_trans.
Qed.

End NeonEmitPointStable.

Section NeonSpawnStable.
Context (h : Host) (R : Neon.State -> Neon.State -> Prop).
Hypothesis R_refl : forall w, R w w.
Hypothesis R_trans : forall a b c, R a b -> R b c -> R a c.
Hypothesis R_random : stable R (Math_random h).
Hypothesis R_now : stable R (Date_now h).
Hypothesis R_getParticles : stable R getParticles.
Hypothesis R_setLastSpawnTime : forall t, stable R (setLastSpawnTime t).
Hypothesis R_emitPoint : forall sx sy sz hue scale speed skip cosA sinA pt,
  stable R (Neon.emitPoint h sx sy sz hue scale speed skip cosA sinA pt).

Lemma neon_blueprint_stable : stable R (Neon.blueprint h).
Proof.
  pose proof (generateRibs_stable h R R_refl R_trans R_random).
  unfold Neon.blueprint. stable_auto R_refl R_trans.
Qed.

(** [spawnNeonSnowflake] records its call and then runs a body that
    respects [R]. *)
Lemma neon_spawn_stable type intensity :
  exists body : unit -> M Neon.State unit,
    Neon.spawnNeonSnowflake h type intensity = bind (emit (SpawnCall type intensity)) body /\
    forall u, stable R (body u).
Proof.
  eexists. split; [reflexivity |]. intro u. cbv beta.
  pose proof neon_blueprint_stable.
  stable_auto R_refl R_trans.
Qed.

End NeonSpawnStable.

Section ClassicEmitPointStable.
Context (h : Host) (R : Classic.State -> Classic.State -> Prop).
Hypothesis R_refl : forall w, R w w.
Hypothesis R_trans : forall a b c, R a b -> R b c -> R a c.
Hypothesis R_random : stable R (Math_random h).
Hypothesis R_addParticle : forall x y z vx vy vz color sizeMult,
  stable R (Classic.addParticle h x y z vx vy vz color 1.0 sizeMult).

Lemma classic_emitPoint_stable sx sy sz color scale speed skip cosA sinA pt :
  stable R (Classic.emitPoint h sx sy sz color scale speed skip cosA sinA pt).
Proof. unfold Classic.emitPoint. stable_auto R_refl R_trans. Qed.

End ClassicEmitPointStable.

Section ClassicSpawnStable.
Context (h : Host) (R : Classic.State -> Classic.State -> Prop).
Hypothesis R_refl : forall w, R w w.
Hypothesis R_trans : forall a b c, R a b -> R b c -> R a c.
Hypothesis R_random : stable R (Math_random h).
Hypothesis R_now : stable R (Date_now h).
Hypothesis R_setLastSpawnTime : forall t, stable R (setLastSpawnTime t).
Hypothesis R_emitPoint : forall sx sy sz color scale speed skip cosA sinA pt,
  stable R (Classic.emitPoint h sx sy sz color scale speed skip cosA sinA pt).

Lemma classic_blueprint_stable : stable R (Classic.blueprint h).
Proof.
  pose proof (generateRibs_stable h R R_refl R_trans R_random).
  unfold Classic.blueprint. stable_auto R_refl R_trans.
Qed.

Lemma classic_addLine_stable x1 y1 x2 y2 density points :
  stable R (Classic.addLine h x1 y1 x2 y2 density points).
Proof. unfold Classic.addLine. stable_auto R_refl R_trans. Qed.

Lemma classic_subRibLines_stable rib ex ey points :
  stable R (Classic.subRibLines h rib ex ey points).
Proof.
  pose proof classic_addLine_stable.
  unfold Classic.subRibLines. stable_auto R_refl R_trans.
Qed.

Lemma classic_ribLines_stable rib points : stable R (Classic.ribLines h rib points).
Proof.
  pose proof classic_addLine_stable. pose proof classic_subRibLines_stable.
  unfold Classic.ribLines. stable_auto R_refl R_trans.
Qed.

Lemma classic_forEachRib_stable ribs :
  forall points, stable R (Classic.forEachRib h ribs points).
Proof.
  induction ribs as [| rib ribs IH]; intro points; cbn [Classic.forEachRib].
  - apply (stable_ret _ R_refl).
  - apply (stable_bind _ R_trans); [apply classic_ribLines_stable | intro; apply IH].
Qed.

Lemma classic_blueprintPoints_stable bp : stable R (Classic.blueprintPoints h bp).
Proof.
  pose proof classic_addLine_stable. pose proof classic_forEachRib_stable.
  unfold Classic.blueprintPoints. stable_auto R_refl R_trans.
Qed.

(** [spawnSnowflake] records its call and then runs a body that respects
    [R]. *)
Lemma classic_spawn_stable type intensity :
  exists body : unit -> M Classic.State unit,
    Classic.spawnSnowflake h type intensity = bind (emit (SpawnCall type intensity)) body /\
    forall u, stable R (body u).
Proof.
  eexists. split; [reflexivity |]. intro u. cbv beta.
  pose proof classic_blueprint_stable. pose proof classic_blueprintPoints_stable.
  stable_auto R_refl R_trans.
Qed.

End ClassicSpawnStable.

(** ** What the spawn functions leave alone *)

Lemma spawn_frame_refl {P X} (w : World P X) : spawn_frame w w.
Proof. repeat split. Qed.

Lemma spawn_frame_trans {P X} (a b c : World P X) :
  spawn_frame a b -> spawn_frame b c -> spawn_frame a c.
Proof.
  unfold spawn_frame. intros (H1 & H2 & H3) (H4 & H5 & H6).
  repeat split; congruence.
Qed.

Lemma frame_random {P X} h : stable (@spawn_frame P X) (Math_random h).
Proof. intro w. repeat split. Qed.

Lemma frame_now {P X} h : stable (@spawn_frame P X) (Date_now h).
Proof. intro w. repeat split. Qed.

Lemma frame_getParticles {P X} : stable (@spawn_frame P X) getParticles.
Proof. intro w. repeat split. Qed.

Lemma frame_push {P X} p : stable (@spawn_frame P X) (push p).
Proof. intro w. repeat split. Qed.

Lemma frame_setLastSpawnTime {P X} t : stable (@spawn_frame P X) (setLastSpawnTime t).
Proof. intro w. repeat split. Qed.

Lemma emit_then_frame {P X} (e : Event) (f : unit -> M (World P X) unit) (w : World P X) :
  (forall u, stable spawn_frame (f u)) ->
  let w' := exec (bind (emit e) f) w in
  detectors (beatRefs w') = detectors (beatRefs w) /\
  ownRefs w' = ownRefs w /\
  trace w' = trace w ++ [e].
Proof.
  intros Hf w'. subst w'. rewrite exec_bind.
  destruct (Hf (eval (emit e) w) (exec (emit e) w)) as (H1 & H2 & H3).
  rewrite H1, H2, H3. repeat split.
Qed.

(** A call of [spawnNeonSnowflake] is recorded in the trace and touches
    neither the detectors nor the gesture refs. *)
Lemma neon_spawn_frame h type intensity (w : Neon.State) :
  let w' := exec (Neon.spawnNeonSnowflake h type intensity) w in
  detectors (beatRefs w') = detectors (beatRefs w) /\
  ownRefs w' = ownRefs w /\
  trace w' = trace w ++ [SpawnCall type intensity].
Proof.
  destruct (neon_spawn_stable h spawn_frame spawn_frame_refl spawn_frame_trans
              (frame_random h) (frame_now h) frame_getParticles
              frame_setLastSpawnTime
              (neon_emitPoint_stable h spawn_frame spawn_frame_refl spawn_frame_trans
                 (frame_random h) frame_push)
              type intensity) as (body & -> & Hb).
  apply emit_then_frame. exact Hb.
Qed.

(** The insertion guard of the classic component. *)
Lemma addParticle_cases h x y z vx vy vz color lifeMult sizeMult
      (w : World Particle.t Point.t) :
  let w' := exec (Classic.addParticle h x y z vx vy vz color lifeMult sizeMult) w in
  ((4000 < List.length (particlesRef w))%nat /\ w' = w) \/
  ((List.length (particlesRef w) <= 4000)%nat /\
   beatRefs w' = beatRefs w /\ ownRefs w' = ownRefs w /\ trace w' = trace w /\
   exists p, particlesRef w' = particlesRef w ++ [p]).
Proof.
  intro w'. subst w'. unfold Classic.addParticle.
  rewrite exec_bind.
  change (eval getParticles w) with (particlesRef w). change (exec getParticles w) with w.
  destruct (Z.gtb_spec (Z.of_nat (List.length (particlesRef w))) 4000) as [Hgt | Hle].
  - left. split; [lia | reflexivity].
  - right. split; [lia |]. rewrite !exec_bind.
    repeat split. eexists. reflexivity.
Qed.

(** A call of [spawnSnowflake] is recorded in the trace and touches neither
    the detectors nor [rotationRef]. *)
Lemma classic_spawn_frame h type intensity (w : Classic.State) :
  let w' := exec (Classic.spawnSnowflake h type intensity) w in
  detectors (beatRefs w') = detectors (beatRefs w) /\
  ownRefs w' = ownRefs w /\
  trace w' = trace w ++ [SpawnCall type intensity].
Proof.
  assert (Ha : forall x y z vx vy vz color sizeMult,
            stable spawn_frame
              (Classic.addParticle h x y z vx vy vz color 1.0 sizeMult)).
  { intros x y z vx vy vz color sizeMult w0. set (lifeMult := 1.0).
    pose proof (addParticle_cases h x y z vx vy vz color lifeMult sizeMult w0) as Hc.
    cbv zeta in Hc. unfold Classic.State in Hc.
    destruct Hc as [[_ E] | (_ & B & O & T & _)];
      [rewrite E; apply spawn_frame_refl |].
    unfold spawn_frame. rewrite B, O, T. repeat split. }
  destruct (classic_spawn_stable h spawn_frame spawn_frame_refl spawn_frame_trans
              (frame_random h) (frame_now h) frame_setLastSpawnTime
              (classic_emitPoint_stable h spawn_frame spawn_frame_refl spawn_frame_trans
                 (frame_random h) Ha)
              type intensity)
    as (body & -> & Hb).
  apply emit_then_frame. exact Hb.
Qed.

(** ** The beat-detection block *)

Lemma detectors_setBassThreshold {P X} (v : Q) (w : World P X) :
  let w' := exec (setBassThreshold v) w in
  detectors (beatRefs w') =
    (avgBassRef (beatRefs w), avgMidRef (beatRefs w), avgTrebleRef (beatRefs w),
     (v, midThresholdRef (beatRefs w), trebleThresholdRef (beatRefs w))) /\
  lastSpawnTimeRef (beatRefs w') = lastSpawnTimeRef (beatRefs w) /\
  ownRefs w' = ownRefs w /\ trace w' = trace w /\ particlesRef w' = particlesRef w.
Proof. repeat split. Qed.

Lemma detectors_setMidThreshold {P X} (v : Q) (w : World P X) :
  let w' := exec (setMidThreshold v) w in
  detectors (beatRefs w') =
    (avgBassRef (beatRefs w), avgMidRef (beatRefs w), avgTrebleRef (beatRefs w),
     (bassThresholdRef (beatRefs w), v, trebleThresholdRef (beatRefs w))) /\
  lastSpawnTimeRef (beatRefs w') = lastSpawnTimeRef (beatRefs w) /\
  ownRefs w' = ownRefs w /\ trace w' = trace w /\ particlesRef w' = particlesRef w.
Proof. repeat split. Qed.

Lemma detectors_setTrebleThreshold {P X} (v : Q) (w : World P X) :
  let w' := exec (setTrebleThreshold v) w in
  detectors (beatRefs w') =
    (avgBassRef (beatRefs w), avgMidRef (beatRefs w), avgTrebleRef (beatRefs w),
     (bassThresholdRef (beatRefs w), midThresholdRef (beatRefs w), v)) /\
  lastSpawnTimeRef (beatRefs w') = lastSpawnTimeRef (beatRefs w) /\
  ownRefs w' = ownRefs w /\ trace w' = trace w /\ particlesRef w' = particlesRef w.
Proof. repeat split. Qed.

Lemma detectors_fields (b b' : BeatRefs) :
  detectors b' = detectors b ->
  avgBassRef b' = avgBassRef b /\ avgMidRef b' = avgMidRef b /\
  avgTrebleRef b' = avgTrebleRef b /\ bassThresholdRef b' = bassThresholdRef b /\
  midThresholdRef b' = midThresholdRef b /\ trebleThresholdRef b' = trebleThresholdRef b.
Proof. unfold detectors. intro H. injection H as -> -> -> -> -> ->. repeat split. Qed.

Section BeatDetectionFacts.
Context {P X : Type} (h : Host) (spawn : FrequencyBand -> Q -> M (World P X) unit).

Hypothesis spawn_ok : forall type intensity w,
  let w' := exec (spawn type intensity) w in
  detectors (beatRefs w') = detectors (beatRefs w) /\
  ownRefs w' = ownRefs w /\
  trace w' = trace w ++ [SpawnCall type intensity].

Lemma detectBass_run (a : AudioData) (w : World P X) :
  let b := beatRefs w in
  let w' := exec (detectBass spawn a) w in
  eval (detectBass spawn a) w = bassTest b a /\
  detectors (beatRefs w') =
    (avgBassRef b, avgMidRef b, avgTrebleRef b,
     (if bassTest b a then BEAT_THRESHOLD_INIT * 1.5
      else Math_max BEAT_THRESHOLD_INIT (bassThresholdRef b * BEAT_DECAY_RATE),
      midThresholdRef b, trebleThresholdRef b)) /\
  ownRefs w' = ownRefs w /\
  trace w' = trace w ++
    (if bassTest b a then [SpawnCall bass (Math_min (bassEnergy a / 255) 1)] else []).
Proof.
  intros b w'. subst w'. unfold detectBass.
  rewrite eval_bind, exec_bind.
  change (eval getBeat w) with b. change (exec getBeat w) with w.
  unfold bassTest, fires.
  destruct (gtb (bassEnergy a) (avgBassRef b * bassThresholdRef b)
            && gtb (bassEnergy a) 25) eqn:E.
  - rewrite !eval_bind, !exec_bind, eval_ret, exec_ret.
    destruct (spawn_ok bass (Math_min (bassEnergy a / 255) 1) w) as (H1 & H2 & H3).
    set (w1 := exec (spawn bass (Math_min (bassEnergy a / 255) 1)) w) in *.
    destruct (detectors_setBassThreshold (BEAT_THRESHOLD_INIT * 1.5) w1)
      as (D1 & _ & D2 & D3 & _).
    destruct (detectors_fields _ _ H1) as (F1 & F2 & F3 & F4 & F5 & F6).
    rewrite D1, D2, D3, F1, F2, F3, F5, F6, H2, H3. repeat split.
  - rewrite !eval_bind, !exec_bind, eval_ret, exec_ret.
    change (exec getBeat w) with w. change (eval getBeat w) with b.
    destruct (detectors_setBassThreshold
                (Math_max BEAT_THRESHOLD_INIT (bassThresholdRef b * BEAT_DECAY_RATE)) w)
      as (D1 & _ & D2 & D3 & _).
    rewrite D1, D2, D3, app_nil_r. repeat split.
Qed.

Lemma detectMid_run (a : AudioData) (spawned : bool) (w : World P X) :
  let b := beatRefs w in
  let fired := negb spawned && midTest b a in
  let w' := exec (detectMid spawn a spawned) w in
  eval (detectMid spawn a spawned) w = (spawned || fired) /\
  detectors (beatRefs w') =
    (avgBassRef b, avgMidRef b, avgTrebleRef b,
     (bassThresholdRef b,
      (if fired then BEAT_THRESHOLD_INIT * 1.5
       else Math_max BEAT_THRESHOLD_INIT (midThresholdRef b * BEAT_DECAY_RATE)),
      trebleThresholdRef b)) /\
  ownRefs w' = ownRefs w /\
  trace w' = trace w ++
    (if fired then [SpawnCall mid (Math_min (midEnergy a / 255) 1)] else []).
Proof.
  intros b fired w'. subst w' fired. unfold detectMid.
  rewrite eval_bind, exec_bind.
  change (eval getBeat w) with b. change (exec getBeat w) with w.
  unfold midTest, fires. rewrite <- andb_assoc.
  destruct (negb spawned
            && (gtb (midEnergy a) (avgMidRef b * midThresholdRef b)
                && gtb (midEnergy a) 20)) eqn:E.
  - rewrite !eval_bind, !exec_bind, eval_ret, exec_ret.
    destruct (spawn_ok mid (Math_min (midEnergy a / 255) 1) w) as (H1 & H2 & H3).
    set (w1 := exec (spawn mid (Math_min (midEnergy a / 255) 1)) w) in *.
    destruct (detectors_setMidThreshold (BEAT_THRESHOLD_INIT * 1.5) w1)
      as (D1 & _ & D2 & D3 & _).
    destruct (detectors_fields _ _ H1) as (F1 & F2 & F3 & F4 & F5 & F6).
    rewrite D1, D2, D3, F1, F2, F3, F4, F6, H2, H3, orb_true_r. repeat split.
  - rewrite !eval_bind, !exec_bind, eval_ret, exec_ret.
    change (exec getBeat w) with w. change (eval getBeat w) with b.
    destruct (detectors_setMidThreshold
                (Math_max BEAT_THRESHOLD_INIT (midThresholdRef b * BEAT_DECAY_RATE)) w)
      as (D1 & _ & D2 & D3 & _).
    rewrite D1, D2, D3, app_nil_r, orb_false_r. repeat split.
Qed.

Lemma detectTreble_run (a : AudioData) (spawned : bool) (w : World P X) :
  let b := beatRefs w in
  let fired := negb spawned && trebleTest b a in
  let w' := exec (detectTreble spawn a spawned) w in
  eval (detectTreble spawn a spawned) w = (spawned || fired) /\
  detectors (beatRefs w') =
    (avgBassRef b, avgMidRef b, avgTrebleRef b,
     (bassThresholdRef b, midThresholdRef b,
      (if fired then BEAT_THRESHOLD_INIT * 1.4
       else Math_max BEAT_THRESHOLD_INIT (trebleThresholdRef b * BEAT_DECAY_RATE)))) /\
  ownRefs w' = ownRefs w /\
  trace w' = trace w ++
    (if fired then [SpawnCall treble (Math_min (trebleEnergy a / 255) 1)] else []).
Proof.
  intros b fired w'. subst w' fired. unfold detectTreble.
  rewrite eval_bind, exec_bind.
  change (eval getBeat w) with b. change (exec getBeat w) with w.
  unfold trebleTest, fires. rewrite <- andb_assoc.
  destruct (negb spawned
            && (gtb (trebleEnergy a) (avgTrebleRef b * trebleThresholdRef b)
                && gtb (trebleEnergy a) 15)) eqn:E.
  - rewrite !eval_bind, !exec_bind, eval_ret, exec_ret.
    destruct (spawn_ok treble (Math_min (trebleEnergy a / 255) 1) w) as (H1 & H2 & H3).
    set (w1 := exec (spawn treble (Math_min (trebleEnergy a / 255) 1)) w) in *.
    destruct (detectors_setTrebleThreshold (BEAT_THRESHOLD_INIT * 1.4) w1)
      as (D1 & _ & D2 & D3 & _).
    destruct (detectors_fields _ _ H1) as (F1 & F2 & F3 & F4 & F5 & F6).
    rewrite D1, D2, D3, F1, F2, F3, F4, F5, H2, H3, orb_true_r. repeat split.
  - rewrite !eval_bind, !exec_bind, eval_ret, exec_ret.
    change (exec getBeat w) with w. change (eval getBeat w) with b.
    destruct (detectors_setTrebleThreshold
                (Math_max BEAT_THRESHOLD_INIT (trebleThresholdRef b * BEAT_DECAY_RATE)) w)
      as (D1 & _ & D2 & D3 & _).
    rewrite D1, D2, D3, app_nil_r, orb_false_r. repeat split.
Qed.

Lemma fallbackSpawn_run (a : AudioData) (timeSinceLast : Z) (spawned : bool) (w : World P X) :
  let w' := exec (fallbackSpawn spawn a timeSinceLast spawned) w in
  detectors (beatRefs w') = detectors (beatRefs w) /\
  ownRefs w' = ownRefs w /\
  trace w' = trace w ++
    (if negb spawned && (timeSinceLast >? 600)%Z && gtb (energy a) 10
     then [SpawnCall (highestBand a) 0.4] else []).
Proof.
  intro w'. subst w'. unfold fallbackSpawn, highestBand.
  destruct (negb spawned && (timeSinceLast >? 600)%Z && gtb (energy a) 10).
  - destruct (gtb (bassEnergy a) (midEnergy a) && gtb (bassEnergy a) (trebleEnergy a));
      [apply spawn_ok |].
    destruct (gtb (midEnergy a) (trebleEnergy a)); apply spawn_ok.
  - rewrite exec_ret, app_nil_r. repeat split.
Qed.

Lemma updateAverages_run (a : AudioData) (w : World P X) :
  let b := beatRefs w in
  let w' := exec (updateAverages a) w in
  detectors (beatRefs w') =
    (avgBassRef b * 0.92 + bassEnergy a * 0.08,
     avgMidRef b * 0.92 + midEnergy a * 0.08,
     avgTrebleRef b * 0.92 + trebleEnergy a * 0.08,
     (bassThresholdRef b, midThresholdRef b, trebleThresholdRef b)) /\
  ownRefs w' = ownRefs w /\ trace w' = trace w.
Proof. repeat split. Qed.

(** The whole block: the detectors after it and the spawn calls it makes,
    in terms of the refs and the clock at its start. *)
Lemma beatDetection_run (a : AudioData) (w : World P X) :
  let b := beatRefs w in
  let timeSinceLast := (clock h (clockCalls w) - lastSpawnTimeRef b)%Z in
  let w' := exec (beatDetection h spawn a) w in
  detectors (beatRefs w') =
    (avgBassRef b * 0.92 + bassEnergy a * 0.08,
     avgMidRef b * 0.92 + midEnergy a * 0.08,
     avgTrebleRef b * 0.92 + trebleEnergy a * 0.08,
     ((if bassFires b a then BEAT_THRESHOLD_INIT * 1.5
       else Math_max BEAT_THRESHOLD_INIT (bassThresholdRef b * BEAT_DECAY_RATE)),
      (if midFires b a then BEAT_THRESHOLD_INIT * 1.5
       else Math_max BEAT_THRESHOLD_INIT (midThresholdRef b * BEAT_DECAY_RATE)),
      (if trebleFires b a then BEAT_THRESHOLD_INIT * 1.4
       else Math_max BEAT_THRESHOLD_INIT (trebleThresholdRef b * BEAT_DECAY_RATE)))) /\
  ownRefs w' = ownRefs w /\
  trace w' = trace w ++ specSpawnDecision (fun t => (t >? 600)%Z) b a timeSinceLast.
Proof.
  intros b timeSinceLast w'. subst w'. unfold beatDetection.
  rewrite exec_bind.
  change (eval (Date_now h) w) with (clock h (clockCalls w)).
  set (w0 := exec (Date_now h) w).
  assert (Hb0 : beatRefs w0 = b) by reflexivity.
  assert (Ho0 : ownRefs w0 = ownRefs w) by reflexivity.
  assert (Ht0 : trace w0 = trace w) by reflexivity.
  rewrite exec_bind.
  change (exec getBeat w0) with w0. change (eval getBeat w0) with (beatRefs w0).
  rewrite Hb0. fold timeSinceLast.
  rewrite exec_bind.
  destruct (detectBass_run a w0) as (E1 & D1 & O1 & T1). rewrite Hb0 in *.
  rewrite E1.
  set (w1 := exec (detectBass spawn a) w0) in *.
  rewrite exec_bind.
  destruct (detectMid_run a (bassTest b a) w1) as (E2 & D2 & O2 & T2).
  rewrite E2.
  set (w2 := exec (detectMid spawn a (bassTest b a)) w1) in *.
  rewrite exec_bind.
  destruct (detectTreble_run a (bassTest b a || negb (bassTest b a) && midTest (beatRefs w1) a) w2)
    as (E3 & D3 & O3 & T3).
  rewrite E3.
  set (w3 := exec (detectTreble spawn a
                     (bassTest b a || negb (bassTest b a) && midTest (beatRefs w1) a)) w2) in *.
  rewrite exec_bind.
  match goal with
  | |- context [fallbackSpawn spawn a timeSinceLast ?s] =>
      destruct (fallbackSpawn_run a timeSinceLast s w3) as (D4 & O4 & T4);
      set (w4 := exec (fallbackSpawn spawn a timeSinceLast s) w3) in *
  end.
  destruct (updateAverages_run a w4) as (D5 & O5 & T5).
  rewrite D5, O5, T5, O4, T4, O3, T3, O2, T2, O1, T1, Ho0, Ht0.
  (* the detectors seen by each step in terms of those at the start *)
  assert (F1 : detectors (beatRefs w1) =
               (avgBassRef b, avgMidRef b, avgTrebleRef b,
                (if bassTest b a then BEAT_THRESHOLD_INIT * 1.5
                 else Math_max BEAT_THRESHOLD_INIT (bassThresholdRef b * BEAT_DECAY_RATE),
                 midThresholdRef b, trebleThresholdRef b))) by exact D1.
  unfold detectors in F1. injection F1 as A1 A2 A3 A4 A5 A6.
  assert (M1 : midTest (beatRefs w1) a = midTest b a).
  { unfold midTest. rewrite A2, A5. reflexivity. }
  rewrite M1 in *.
  rewrite A1, A2, A3, A4, A5, A6 in D2.
  unfold detectors in D2. injection D2 as B1 B2 B3 B4 B5 B6.
  assert (M2 : trebleTest (beatRefs w2) a = trebleTest b a).
  { unfold trebleTest. rewrite B3, B6. reflexivity. }
  rewrite M2 in *.
  rewrite B1, B2, B3, B4, B5, B6 in D3.
  destruct (detectors_fields _ _ D4) as (C1 & C2 & C3 & C4 & C5 & C6).
  rewrite C1, C2, C3, C4, C5, C6.
  unfold detectors in D3. injection D3 as -> -> -> -> -> ->.
  split; [| split; [reflexivity |]].
  - unfold bassFires, midFires, trebleFires.
    destruct (bassTest b a), (midTest b a), (trebleTest b a); reflexivity.
  - unfold specSpawnDecision. rewrite <- !app_assoc. f_equal.
    destruct (bassTest b a), (midTest b a), (trebleTest b a); cbn [negb andb orb app];
      reflexivity.
Qed.

End BeatDetectionFacts.

(** ** The statements of [render] outside the audio block *)

Lemma spawnCalls_app (l1 l2 : list Event) :
  spawnCalls (l1 ++ l2) = spawnCalls l1 ++ spawnCalls l2.
Proof.
  induction l1 as [| e l1 IH]; [reflexivity |].
  destruct e; cbn [app spawnCalls]; rewrite IH; reflexivity.
Qed.

Lemma outside_refl {P X} (w : World P X) : outside_audio w w.
Proof. split; reflexivity. Qed.

Lemma outside_trans {P X} (a b c : World P X) :
  outside_audio a b -> outside_audio b c -> outside_audio a c.
Proof. unfold outside_audio. intros [H1 H2] [H3 H4]. split; congruence. Qed.

Lemma outside_random {P X} h : stable (@outside_audio P X) (Math_random h).
Proof. intro w. split; reflexivity. Qed.

Lemma outside_now {P X} h : stable (@outside_audio P X) (Date_now h).
Proof. intro w. split; reflexivity. Qed.

Lemma outside_getParticles {P X} : stable (@outside_audio P X) getParticles.
Proof. intro w. split; reflexivity. Qed.

Lemma outside_setParticles {P X} ps : stable (@outside_audio P X) (setParticles ps).
Proof. intro w. split; reflexivity. Qed.

Lemma outside_getOwn {P X} : stable (@outside_audio P X) getOwn.
Proof. intro w. split; reflexivity. Qed.

Lemma outside_setOwn {P X} x : stable (@outside_audio P X) (setOwn x).
Proof. intro w. split; reflexivity. Qed.

Lemma outside_emit {P X} (e : Event) :
  is_spawn e = false -> stable (@outside_audio P X) (emit e).
Proof.
  intros He w. split; [reflexivity |].
  change (trace (exec (emit e) w)) with (trace w ++ [e]).
  rewrite spawnCalls_app. destruct e; try discriminate; cbn; apply app_nil_r.
Qed.

Create HintDb outside discriminated.

#[export] Hint Resolve outside_random outside_now outside_getParticles outside_setParticles
  outside_getOwn outside_setOwn : outside.
#[export] Hint Extern 1 (stable outside_audio (emit _)) =>
  apply outside_emit; reflexivity : outside.

Ltac outside_auto :=
  let Hr := fresh "Hr" in
  let Ht := fresh "Ht" in
  lazymatch goal with
  | |- stable (@outside_audio ?P ?X) _ =>
      pose proof (@outside_refl P X) as Hr;
      pose proof (@outside_trans P X) as Ht
  end;
  repeat (first [ solve [auto with outside] | stable_step Hr Ht ]).

Lemma outside_detectGestures h v :
  stable (@outside_audio Neon.NeonParticle Neon.GestureRefs) (Neon.detectGestures h v).
Proof.
  unfold Neon.detectGestures, Neon.catch_ignore, Neon.tryBlock, Neon.recognizeForVideo,
    Neon.openPalm, Neon.release, Neon.member, Neon.bindT, Neon.liftT, Neon.retT, Neon.throw,
    Neon.setLastVideoTime, Neon.setLastDetectedGesture, Neon.setIsFrozen,
    Neon.setTargetOffset.
  outside_auto.
Qed.

Lemma outside_neon_beforeAudio h input :
  stable (@outside_audio Neon.NeonParticle Neon.GestureRefs) (Neon.beforeAudio h input).
Proof.
  unfold Neon.beforeAudio, Neon.panCamera, Neon.setCameraOffset.
  pose proof (outside_detectGestures h (Neon.video input)).
  outside_auto.
Qed.

Lemma outside_neon_particlePass h energy ox oy :
  stable (@outside_audio Neon.NeonParticle Neon.GestureRefs)
         (Neon.particlePass h energy ox oy).
Proof. unfold Neon.particlePass, Neon.renderParticle. outside_auto. Qed.

Lemma outside_classic_particlePass h energy cx cy :
  stable (@outside_audio Particle.t Point.t) (Classic.particlePass h energy cx cy).
Proof. unfold Classic.particlePass, Classic.renderParticle. outside_auto. Qed.

(** ** The audio block and the whole frame *)

Lemma neon_audioBlock_active h dataArray (w : Neon.State) :
  Neon.isFrozenRef (ownRefs w) = false ->
  exec (Neon.audioBlock h (Some dataArray)) w
  = exec (beatDetection h (Neon.spawnNeonSnowflake h) (analyzeAudio dataArray)) w /\
  eval (Neon.audioBlock h (Some dataArray)) w = energy (analyzeAudio dataArray).
Proof.
  intro Hf. unfold Neon.audioBlock. cbv zeta.
  rewrite !exec_bind, !eval_bind, exec_ret, eval_ret.
  change (eval getOwn w) with (ownRefs w). change (exec getOwn w) with w.
  rewrite Hf. split; reflexivity.
Qed.

Lemma neon_audioBlock_idle h audio (w : Neon.State) :
  audio = None \/ Neon.isFrozenRef (ownRefs w) = true ->
  exec (Neon.audioBlock h audio) w = w.
Proof.
  intros [-> | Hf]; [reflexivity |].
  destruct audio as [dataArray |]; [| reflexivity].
  unfold Neon.audioBlock. cbv zeta.
  rewrite !exec_bind, exec_ret.
  change (eval getOwn w) with (ownRefs w). change (exec getOwn w) with w.
  rewrite Hf. reflexivity.
Qed.

Lemma classic_audioBlock_active h dataArray (w : Classic.State) :
  exec (Classic.audioBlock h (Some dataArray)) w
  = exec (beatDetection h (Classic.spawnSnowflake h) (analyzeAudio dataArray)) w /\
  eval (Classic.audioBlock h (Some dataArray)) w = energy (analyzeAudio dataArray).
Proof.
  unfold Classic.audioBlock. cbv zeta.
  rewrite !exec_bind, !eval_bind, exec_ret, eval_ret. split; reflexivity.
Qed.

(** A neon frame is its audio block, run in the state the statements before
    it produce, up to what those statements and the particle pass leave
    alone. *)
Lemma neon_render_split h input (w : Neon.State) :
  let w1 := exec (Neon.beforeAudio h input) w in
  let w2 := exec (Neon.audioBlock h (Neon.audio input)) w1 in
  outside_audio w w1 /\ outside_audio w2 (exec (Neon.render h input) w).
Proof.
  intros w1 w2. split; [apply outside_neon_beforeAudio |].
  unfold Neon.render. rewrite exec_bind, exec_bind. fold w1. fold w2.
  assert (H : forall e, stable (@outside_audio Neon.NeonParticle Neon.GestureRefs)
                (g <- getOwn ;;
                 Neon.particlePass h e
                   (innerWidth h / 2 + Point.x (Neon.cameraOffsetRef g))
                   (innerHeight h / 2 + Point.y (Neon.cameraOffsetRef g)))).
  { intro e. pose proof (outside_neon_particlePass h e). outside_auto. }
  apply H.
Qed.

Lemma classic_render_split h audio (w : Classic.State) :
  let w1 := exec (emit FillRect) w in
  let w2 := exec (Classic.audioBlock h audio) w1 in
  outside_audio w w1 /\ outside_audio w2 (exec (Classic.render h audio) w) /\
  clockCalls w1 = clockCalls w.
Proof.
  intros w1 w2. split; [apply outside_emit; reflexivity |].
  split; [| reflexivity].
  unfold Classic.render. rewrite exec_bind, exec_bind. fold w1. fold w2.
  apply outside_classic_particlePass.
Qed.

(** The detectors and the spawn calls after a neon frame that reaches its
    audio block with the audio graph running and the freeze flag clear. *)
Lemma neon_render_active h video dataArray (w : Neon.State) :
  let input := {| Neon.video := video; Neon.audio := Some dataArray |} in
  let a := analyzeAudio dataArray in
  let b := beatRefs w in
  let w1 := exec (Neon.beforeAudio h input) w in
  let timeSinceLast := (clock h (clockCalls w1) - lastSpawnTimeRef b)%Z in
  let w' := exec (Neon.render h input) w in
  Neon.isFrozenRef (ownRefs w1) = false ->
  detectors (beatRefs w') =
    (avgBassRef b * 0.92 + bassEnergy a * 0.08,
     avgMidRef b * 0.92 + midEnergy a * 0.08,
     avgTrebleRef b * 0.92 + trebleEnergy a * 0.08,
     ((if bassFires b a then BEAT_THRESHOLD_INIT * 1.5
       else Math_max BEAT_THRESHOLD_INIT (bassThresholdRef b * BEAT_DECAY_RATE)),
      (if midFires b a then BEAT_THRESHOLD_INIT * 1.5
       else Math_max BEAT_THRESHOLD_INIT (midThresholdRef b * BEAT_DECAY_RATE)),
      (if trebleFires b a then BEAT_THRESHOLD_INIT * 1.4
       else Math_max BEAT_THRESHOLD_INIT (trebleThresholdRef b * BEAT_DECAY_RATE)))) /\
  spawnCalls (trace w') =
    spawnCalls (trace w)
    ++ spawnCalls (specSpawnDecision (fun t => (t >? 600)%Z) b a timeSinceLast).
Proof.
  intros input a b w1 timeSinceLast w' Hf.
  destruct (neon_render_split h input w) as [[B1 S1] [B2 S2]].
  fold w1 in B1, S1, B2, S2. fold w' in B2, S2.
  change (Neon.audio input) with (Some dataArray) in B2, S2.
  destruct (neon_audioBlock_active h dataArray w1 Hf) as [E _].
  rewrite E in B2, S2.
  destruct (beatDetection_run h (Neon.spawnNeonSnowflake h) (neon_spawn_frame h)
              (analyzeAudio dataArray) w1) as (D & _ & T).
  rewrite B1 in D, T. subst a b timeSinceLast.
  rewrite B2, S2, D, T, spawnCalls_app, S1. split; reflexivity.
Qed.

(** A neon frame that reaches its audio block without a running audio
    graph, or with the freeze flag set, changes no beat ref and spawns
    nothing. *)
Lemma neon_render_idle h input (w : Neon.State) :
  let w1 := exec (Neon.beforeAudio h input) w in
  let w' := exec (Neon.render h input) w in
  Neon.audio input = None \/ Neon.isFrozenRef (ownRefs w1) = true ->
  beatRefs w' = beatRefs w /\ spawnCalls (trace w') = spawnCalls (trace w).
Proof.
  intros w1 w' Hidle.
  destruct (neon_render_split h input w) as [[B1 S1] [B2 S2]].
  fold w1 in B1, S1, B2, S2. fold w' in B2, S2.
  rewrite (neon_audioBlock_idle h (Neon.audio input) w1 Hidle) in B2, S2.
  split; congruence.
Qed.

Lemma classic_render_active h dataArray (w : Classic.State) :
  let a := analyzeAudio dataArray in
  let b := beatRefs w in
  let timeSinceLast := (clock h (clockCalls w) - lastSpawnTimeRef b)%Z in
  let w' := exec (Classic.render h (Some dataArray)) w in
  detectors (beatRefs w') =
    (avgBassRef b * 0.92 + bassEnergy a * 0.08,
     avgMidRef b * 0.92 + midEnergy a * 0.08,
     avgTrebleRef b * 0.92 + trebleEnergy a * 0.08,
     ((if bassFires b a then BEAT_THRESHOLD_INIT * 1.5
       else Math_max BEAT_THRESHOLD_INIT (bassThresholdRef b * BEAT_DECAY_RATE)),
      (if midFires b a then BEAT_THRESHOLD_INIT * 1.5
       else Math_max BEAT_THRESHOLD_INIT (midThresholdRef b * BEAT_DECAY_RATE)),
      (if trebleFires b a then BEAT_THRESHOLD_INIT * 1.4
       else Math_max BEAT_THRESHOLD_INIT (trebleThresholdRef b * BEAT_DECAY_RATE)))) /\
  spawnCalls (trace w') =
    spawnCalls (trace w)
    ++ spawnCalls (specSpawnDecision (fun t => (t >? 600)%Z) b a timeSinceLast).
Proof.
  intros a b timeSinceLast w'.
  destruct (classic_render_split h (Some dataArray) w) as ([B1 S1] & [B2 S2] & C1).
  fold w' in B2, S2.
  destruct (classic_audioBlock_active h dataArray (exec (emit FillRect) w)) as [E _].
  rewrite E in B2, S2.
  destruct (beatDetection_run h (Classic.spawnSnowflake h) (classic_spawn_frame h)
              (analyzeAudio dataArray) (exec (emit FillRect) w)) as (D & _ & T).
  rewrite B1 in D, T. rewrite C1 in T. subst a b timeSinceLast.
  rewrite B2, S2, D, T, spawnCalls_app, S1. split; reflexivity.
Qed.

Lemma classic_render_idle h (w : Classic.State) :
  let w' := exec (Classic.render h None) w in
  beatRefs w' = beatRefs w /\ spawnCalls (trace w') = spawnCalls (trace w).
Proof.
  intro w'.
  destruct (classic_render_split h None w) as ([B1 S1] & [B2 S2] & _).
  fold w' in B2, S2.
  change (exec (Classic.audioBlock h None) (exec (emit FillRect) w))
    with (exec (emit FillRect) w) in B2, S2.
  split; congruence.
Qed.

(** ** Spawn decision, thresholds and running averages *)

Lemma fires_iff (e avg thr floor : Q) :
  fires e avg thr floor = true <-> avg * thr < e /\ floor < e.
Proof. unfold fires. rewrite andb_true_iff, !gtb_true. tauto. Qed.

Lemma highestBand_max (a : AudioData) (band : FrequencyBand) :
  bandEnergy band a <= bandEnergy (highestBand a) a.
Proof.
  unfold highestBand.
  destruct (gtb (bassEnergy a) (midEnergy a)) eqn:E1;
    destruct (gtb (bassEnergy a) (trebleEnergy a)) eqn:E2;
    destruct (gtb (midEnergy a) (trebleEnergy a)) eqn:E3;
    cbn [andb];
    repeat match goal with
           | H : gtb _ _ = true |- _ => apply gtb_true in H
           | H : gtb _ _ = false |- _ => apply gtb_false in H
           end;
    destruct band; cbn [bandEnergy]; lra.
Qed.

Lemma specSpawnDecision_length elapsed b a t :
  (List.length (specSpawnDecision elapsed b a t) <= 1)%nat.
Proof.
  unfold specSpawnDecision.
  destruct (bassTest b a), (midTest b a), (trebleTest b a),
    (elapsed t && gtb (energy a) 10); cbn; lia.
Qed.

(** C2, as stated, fails at exactly 600 ms: with every bin at 12 no band
    passes its floor, the total energy 12 exceeds 10 and 600 ms have elapsed
    since the last spawn, yet the frame spawns nothing, the test being
    [timeSinceLast > 600]. *)
Lemma no_fallback_at_600ms :
  let w : Classic.State :=
    mkWorld {| avgBassRef := 0; avgMidRef := 0; avgTrebleRef := 0;
               bassThresholdRef := BEAT_THRESHOLD_INIT;
               midThresholdRef := BEAT_THRESHOLD_INIT;
               trebleThresholdRef := BEAT_THRESHOLD_INIT;
               lastSpawnTimeRef := 400 |}
            [] (Point.mk 0 0) 0 0 [] in
  let timeSinceLast := (clock Demo.host (clockCalls w) - lastSpawnTimeRef (beatRefs w))%Z in
  let made := spawnCalls (trace (exec (Classic.render Demo.host (Some Demo.hum)) w)) in
  let claimed :=
    spawnCalls (specSpawnDecision (fun t => (t >=? 600)%Z) (beatRefs w)
                  (analyzeAudio Demo.hum) timeSinceLast) in
  timeSinceLast = 600%Z /\ made = [] /\ claimed = [(treble, 0.4)] /\ made <> claimed.
Proof.
  cbv zeta.
  split; [reflexivity |].
  split; [vm_compute; reflexivity |].
  split; [vm_compute; reflexivity |].
  vm_compute. discriminate.
Qed.

(** C2 (amended). On every frame that reaches the audio block with the audio
    graph running (and, in the neon variant, the freeze flag clear) the spawn
    calls of the frame are those of the decision: the bands are tried in the
    order bass, mid, treble, a band firing when its energy exceeds its
    running average times its threshold and its floor (25, 20, 15) and no
    earlier band fired, with intensity [min (energy / 255) 1]; if none fires,
    more than 600 ms have elapsed since the last spawn and the total energy
    exceeds 10, the band of highest energy is spawned once with intensity
    0.4.  At most one spawn call is made per frame. *)
Theorem spawn_decision_per_frame (h : Host) (video : Neon.Video) (dataArray : list Z)
    (wn : Neon.State) (wc : Classic.State) :
  let input := {| Neon.video := video; Neon.audio := Some dataArray |} in
  let a := analyzeAudio dataArray in
  let moreThan600 := fun t => (t >? 600)%Z in
  let wn1 := exec (Neon.beforeAudio h input) wn in
  Neon.isFrozenRef (ownRefs wn1) = false ->
  spawnCalls (trace (exec (Neon.render h input) wn)) =
    spawnCalls (trace wn)
    ++ spawnCalls (specSpawnDecision moreThan600 (beatRefs wn) a
                     (clock h (clockCalls wn1) - lastSpawnTimeRef (beatRefs wn))) /\
  spawnCalls (trace (exec (Classic.render h (Some dataArray)) wc)) =
    spawnCalls (trace wc)
    ++ spawnCalls (specSpawnDecision moreThan600 (beatRefs wc) a
                     (clock h (clockCalls wc) - lastSpawnTimeRef (beatRefs wc))) /\
  (forall b t, (List.length (specSpawnDecision moreThan600 b a t) <= 1)%nat) /\
  (forall e avg thr floor, fires e avg thr floor = true <-> avg * thr < e /\ floor < e) /\
  (forall band, bandEnergy band a <= bandEnergy (highestBand a) a).
Proof.
  intros input a moreThan600 wn1 Hf.
  split; [exact (proj2 (neon_render_active h video dataArray wn Hf)) |].
  split; [exact (proj2 (classic_render_active h dataArray wc)) |].
  split; [intros; apply specSpawnDecision_length |].
  split; [apply fires_iff | apply highestBand_max].
Qed.

(** The end-to-end scenario: from the initial state the burst buffer makes
    both components spawn once, for the bass band. *)
Lemma spawn_decision_per_frame_witness :
  let input := {| Neon.video := Demo.noVideo; Neon.audio := Some Demo.burst |} in
  spawnCalls (trace (exec (Neon.render Demo.host input) Neon.initialState))
  = spawnCalls (specSpawnDecision (fun t => (t >? 600)%Z) initialBeatRefs
                  (analyzeAudio Demo.burst) 1000) /\
  List.map fst (spawnCalls (specSpawnDecision (fun t => (t >? 600)%Z) initialBeatRefs
                              (analyzeAudio Demo.burst) 1000)) = [bass].
Proof.
  intro input. subst input.
  pose proof (spawn_decision_per_frame Demo.host Demo.noVideo Demo.burst
                Neon.initialState Classic.initialState) as H.
  cbv zeta in H. specialize (H eq_refl). destruct H as [H _].
  split.
  - rewrite H. vm_compute. reflexivity.
  - vm_compute. reflexivity.
Defined.

Lemma Math_max_case (a b : Q) : Math_max a b = a \/ Math_max a b = b.
Proof. unfold Math_max. destruct (Qle_bool a b); auto. Qed.

Lemma threshold_law_holds (fired : bool) (boost old : Q) :
  1 <= boost ->
  BEAT_THRESHOLD_INIT <= old <= BEAT_THRESHOLD_INIT * boost ->
  let new := if fired then BEAT_THRESHOLD_INIT * boost
             else Math_max BEAT_THRESHOLD_INIT (old * BEAT_DECAY_RATE) in
  threshold_law fired boost old new /\
  BEAT_THRESHOLD_INIT <= new <= BEAT_THRESHOLD_INIT * boost.
Proof.
  intros Hb [Hlo Hhi] new. subst new. unfold threshold_law.
  unfold BEAT_THRESHOLD_INIT, BEAT_DECAY_RATE in *.
  destruct fired.
  - split; [split; [intros _ | discriminate] | lra].
    repeat split; lra.
  - pose proof (Math_max_lub 1.35 (old * 0.98)) as [L1 L2].
    assert (Hle : Math_max 1.35 (old * 0.98) <= old).
    { destruct (Math_max_case 1.35 (old * 0.98)) as [-> | ->]; lra. }
    split; [split; [discriminate | intros _] | lra].
    repeat split; try assumption.
    destruct (Math_max_case 1.35 (old * 0.98)) as [-> | ->]; [left | right]; reflexivity.
Qed.

(** The three thresholds obey the law once the detectors after the frame
    are known. *)
Lemma thresholds_after (b b' : BeatRefs) (a : AudioData) :
  thresholds_in_range b ->
  detectors b' =
    (avgBassRef b * 0.92 + bassEnergy a * 0.08,
     avgMidRef b * 0.92 + midEnergy a * 0.08,
     avgTrebleRef b * 0.92 + trebleEnergy a * 0.08,
     ((if bassFires b a then BEAT_THRESHOLD_INIT * 1.5
       else Math_max BEAT_THRESHOLD_INIT (bassThresholdRef b * BEAT_DECAY_RATE)),
      (if midFires b a then BEAT_THRESHOLD_INIT * 1.5
       else Math_max BEAT_THRESHOLD_INIT (midThresholdRef b * BEAT_DECAY_RATE)),
      (if trebleFires b a then BEAT_THRESHOLD_INIT * 1.4
       else Math_max BEAT_THRESHOLD_INIT (trebleThresholdRef b * BEAT_DECAY_RATE)))) ->
  threshold_law (bassFires b a) 1.5 (bassThresholdRef b) (bassThresholdRef b') /\
  threshold_law (midFires b a) 1.5 (midThresholdRef b) (midThresholdRef b') /\
  threshold_law (trebleFires b a) 1.4 (trebleThresholdRef b) (trebleThresholdRef b') /\
  thresholds_in_range b'.
Proof.
  intros (Rb & Rm & Rt) D. unfold detectors in D.
  injection D as _ _ _ E1 E2 E3.
  unfold thresholds_in_range. rewrite E1, E2, E3.
  destruct (threshold_law_holds (bassFires b a) 1.5 _ ltac:(lra) Rb) as [L1 R1].
  destruct (threshold_law_holds (midFires b a) 1.5 _ ltac:(lra) Rm) as [L2 R2].
  destruct (threshold_law_holds (trebleFires b a) 1.4 _ ltac:(lra) Rt) as [L3 R3].
  split; [exact L1 | split; [exact L2 | split; [exact L3 |]]].
  exact (conj R1 (conj R2 R3)).
Qed.

Lemma initial_thresholds_in_range : thresholds_in_range initialBeatRefs.
Proof. unfold thresholds_in_range, initialBeatRefs, BEAT_THRESHOLD_INIT. cbn. lra. Qed.

Lemma detectors_proj (b : BeatRefs) (d : Q * Q * Q * (Q * Q * Q)) :
  detectors b = d ->
  avgBassRef b = fst (fst (fst d)) /\
  avgMidRef b = snd (fst (fst d)) /\
  avgTrebleRef b = snd (fst d) /\
  bassThresholdRef b = fst (fst (snd d)) /\
  midThresholdRef b = snd (fst (snd d)) /\
  trebleThresholdRef b = snd (snd d).
Proof. intros <-. repeat split. Qed.

(** C3, as stated, fails when a band fires on two frames in a row.  One
    frame of the burst buffer takes the initial state to a bass average of
    16 and a bass threshold of 2.025; on a second such frame the bass band
    fires again and its threshold is set to 2.025 again: it is neither
    multiplied by 1.5 nor increased. *)
Lemma refire_keeps_threshold :
  let w0 := exec (Classic.render Demo.host (Some Demo.burst)) Classic.initialState in
  let w1 : Classic.State :=
    mkWorld {| avgBassRef := 16; avgMidRef := 0; avgTrebleRef := 0;
               bassThresholdRef := 2.025;
               midThresholdRef := BEAT_THRESHOLD_INIT;
               trebleThresholdRef := BEAT_THRESHOLD_INIT;
               lastSpawnTimeRef := 1016 |}
            [] (Point.mk 0 0) 0 0 [] in
  let w2 := exec (Classic.render Demo.host (Some Demo.burst)) w1 in
  (avgBassRef (beatRefs w0) == 16 /\ bassThresholdRef (beatRefs w0) == 2.025) /\
  bassFires (beatRefs w1) (analyzeAudio Demo.burst) = true /\
  bassThresholdRef (beatRefs w2) == 2.025 /\
  ~ bassThresholdRef (beatRefs w2) == bassThresholdRef (beatRefs w1) * 1.5 /\
  ~ bassThresholdRef (beatRefs w1) < bassThresholdRef (beatRefs w2).
Proof.
  intros w0 w1 w2.
  destruct (classic_render_active Demo.host Demo.burst Classic.initialState) as [D0 _].
  apply detectors_proj in D0. destruct D0 as (A0 & _ & _ & T0 & _).
  destruct (classic_render_active Demo.host Demo.burst w1) as [D2 _].
  apply detectors_proj in D2. destruct D2 as (_ & _ & _ & T2 & _).
  fold w0 in A0, T0. fold w2 in T2.
  rewrite A0, T0, T2.
  split; [split; vm_compute; reflexivity |].
  split; [vm_compute; reflexivity |].
  split; [vm_compute; reflexivity |].
  split; vm_compute; intro H; discriminate H.
Qed.

(** C3 (amended). On every frame that reaches the audio block with the audio
    graph running (and, in the neon variant, the freeze flag clear), for each
    band: when the band fires its threshold is set to 1.35 times its boost
    factor (1.5 for bass and mid, 1.4 for treble), which is never below the
    previous value and strictly above it unless the threshold was already
    there; when it does not fire the threshold becomes
    [max 1.35 (0.98 * threshold)], never below 1.35 and never above the
    previous value.  The thresholds stay between 1.35 and the boosted
    value. *)
Theorem threshold_update_per_frame (h : Host) (video : Neon.Video) (dataArray : list Z)
    (wn : Neon.State) (wc : Classic.State) :
  let input := {| Neon.video := video; Neon.audio := Some dataArray |} in
  let a := analyzeAudio dataArray in
  let bn := beatRefs wn in
  let bn' := beatRefs (exec (Neon.render h input) wn) in
  let bc := beatRefs wc in
  let bc' := beatRefs (exec (Classic.render h (Some dataArray)) wc) in
  Neon.isFrozenRef (ownRefs (exec (Neon.beforeAudio h input) wn)) = false ->
  thresholds_in_range bn ->
  thresholds_in_range bc ->
  (threshold_law (bassFires bn a) 1.5 (bassThresholdRef bn) (bassThresholdRef bn') /\
   threshold_law (midFires bn a) 1.5 (midThresholdRef bn) (midThresholdRef bn') /\
   threshold_law (trebleFires bn a) 1.4 (trebleThresholdRef bn) (trebleThresholdRef bn') /\
   thresholds_in_range bn') /\
  (threshold_law (bassFires bc a) 1.5 (bassThresholdRef bc) (bassThresholdRef bc') /\
   threshold_law (midFires bc a) 1.5 (midThresholdRef bc) (midThresholdRef bc') /\
   threshold_law (trebleFires bc a) 1.4 (trebleThresholdRef bc) (trebleThresholdRef bc') /\
   thresholds_in_range bc').
Proof.
  intros input a bn bn' bc bc' Hf Rn Rc. split.
  - apply (thresholds_after bn bn' a Rn).
    exact (proj1 (neon_render_active h video dataArray wn Hf)).
  - apply (thresholds_after bc bc' a Rc).
    exact (proj1 (classic_render_active h dataArray wc)).
Qed.

Lemma threshold_update_per_frame_witness :
  let input := {| Neon.video := Demo.noVideo; Neon.audio := Some Demo.burst |} in
  thresholds_in_range (beatRefs (exec (Neon.render Demo.host input) Neon.initialState)) /\
  thresholds_in_range
    (beatRefs (exec (Classic.render Demo.host (Some Demo.burst)) Classic.initialState)).
Proof.
  intro input.
  pose proof (threshold_update_per_frame Demo.host Demo.noVideo Demo.burst
                Neon.initialState Classic.initialState eq_refl
                initial_thresholds_in_range initial_thresholds_in_range) as H.
  cbv zeta in H.
  split; [exact (proj2 (proj2 (proj2 (proj1 H)))) | exact (proj2 (proj2 (proj2 (proj2 H))))].
Defined.

(** ** Running averages *)

(** C5, as stated, fails on a frame without a running audio graph: after one
    frame of the burst buffer the bass average is 16; a following frame with
    no audio leaves it at 16, where a zero-energy update would give
    14.72. *)
Lemma idle_frame_keeps_average :
  let w1 := exec (Classic.render Demo.host (Some Demo.burst)) Classic.initialState in
  let w2 := exec (Classic.render Demo.host None) w1 in
  avgBassRef (beatRefs w1) == 16 /\
  avgBassRef (beatRefs w2) == 16 /\
  ~ avgBassRef (beatRefs w2) == avgBassRef (beatRefs w1) * 0.92 + 0 * 0.08.
Proof.
  intros w1 w2.
  destruct (classic_render_active Demo.host Demo.burst Classic.initialState) as [D1 _].
  apply detectors_proj in D1. destruct D1 as (A1 & _).
  fold w1 in A1.
  destruct (classic_render_idle Demo.host w1) as [B2 _]. fold w2 in B2.
  rewrite B2, A1.
  split; [vm_compute; reflexivity |].
  split; [vm_compute; reflexivity |].
  vm_compute. intro H; discriminate H.
Qed.

(** C5 (amended). On every frame that reaches the audio block with the audio
    graph running (and, in the neon variant, the freeze flag clear), whatever
    fires, each band's running average becomes
    [0.92 * average + 0.08 * bandEnergy].  On every other frame (no
    analyser, not playing, context suspended, or freeze active in the neon
    variant) the running averages, like all the beat refs, are left as they
    were. *)
Theorem running_average_per_frame (h : Host) (video : Neon.Video) (audio : option (list Z))
    (wn : Neon.State) (wc : Classic.State) :
  let input := {| Neon.video := video; Neon.audio := audio |} in
  let frozen := Neon.isFrozenRef (ownRefs (exec (Neon.beforeAudio h input) wn)) in
  let bn := beatRefs wn in
  let bn' := beatRefs (exec (Neon.render h input) wn) in
  let bc := beatRefs wc in
  let bc' := beatRefs (exec (Classic.render h audio) wc) in
  (forall dataArray, audio = Some dataArray ->
     let a := analyzeAudio dataArray in
     (frozen = false ->
      avgBassRef bn' = avgBassRef bn * 0.92 + bassEnergy a * 0.08 /\
      avgMidRef bn' = avgMidRef bn * 0.92 + midEnergy a * 0.08 /\
      avgTrebleRef bn' = avgTrebleRef bn * 0.92 + trebleEnergy a * 0.08) /\
     (avgBassRef bc' = avgBassRef bc * 0.92 + bassEnergy a * 0.08 /\
      avgMidRef bc' = avgMidRef bc * 0.92 + midEnergy a * 0.08 /\
      avgTrebleRef bc' = avgTrebleRef bc * 0.92 + trebleEnergy a * 0.08)) /\
  (audio = None \/ frozen = true -> bn' = bn) /\
  (audio = None -> bc' = bc).
Proof.
  intros input frozen bn bn' bc bc'. split; [| split].
  - intros dataArray -> a. split.
    + intro Hf.
      destruct (neon_render_active h video dataArray wn Hf) as [D _].
      apply detectors_proj in D. destruct D as (A1 & A2 & A3 & _).
      repeat split; assumption.
    + destruct (classic_render_active h dataArray wc) as [D _].
      apply detectors_proj in D. destruct D as (A1 & A2 & A3 & _).
      repeat split; assumption.
  - intro Hidle. exact (proj1 (neon_render_idle h input wn Hidle)).
  - intros ->. exact (proj1 (classic_render_idle h wc)).
Qed.

Lemma running_average_per_frame_witness :
  avgBassRef (beatRefs (exec (Classic.render Demo.host (Some Demo.burst))
                          Classic.initialState)) == 16 /\
  beatRefs (exec (Classic.render Demo.host None) Classic.initialState) = initialBeatRefs.
Proof.
  pose proof (running_average_per_frame Demo.host Demo.noVideo (Some Demo.burst)
                Neon.initialState Classic.initialState) as H1.
  pose proof (running_average_per_frame Demo.host Demo.noVideo None
                Neon.initialState Classic.initialState) as H2.
  cbv zeta in H1, H2.
  destruct H1 as (H1 & _). destruct (H1 Demo.burst eq_refl) as (_ & A & _).
  destruct H2 as (_ & _ & H2).
  split; [rewrite A; vm_compute; reflexivity | exact (H2 eq_refl)].
Defined.

(** ** The particle limit *)

Lemma keeps_full_refl {P X} (limit : nat) (w : World P X) : keeps_full limit w w.
Proof. intros _. reflexivity. Qed.

Lemma keeps_full_trans {P X} (limit : nat) (a b c : World P X) :
  keeps_full limit a b -> keeps_full limit b c -> keeps_full limit a c.
Proof.
  unfold keeps_full. intros H1 H2 Ha.
  specialize (H1 Ha). rewrite <- H1 in Ha. rewrite (H2 Ha). exact H1.
Qed.

Lemma classic_spawn_keeps_full h type intensity (w : Classic.State) :
  (4000 < List.length (particlesRef w))%nat ->
  particlesRef (exec (Classic.spawnSnowflake h type intensity) w) = particlesRef w.
Proof.
  assert (Ha : forall x y z vx vy vz color sizeMult,
            stable (keeps_full 4000)
              (Classic.addParticle h x y z vx vy vz color 1.0 sizeMult)).
  { intros x y z vx vy vz color sizeMult w0 Hfull. set (lifeMult := 1.0).
    pose proof (addParticle_cases h x y z vx vy vz color lifeMult sizeMult w0) as Hc.
    cbv zeta in Hc. unfold Classic.State in Hc.
    destruct Hc as [[_ E] | (Hle & _)]; [rewrite E; reflexivity | lia]. }
  destruct (classic_spawn_stable h (keeps_full 4000)
              (keeps_full_refl 4000) (keeps_full_trans 4000)
              ltac:(intros w0 _; reflexivity) ltac:(intros w0 _; reflexivity)
              ltac:(intros t w0 _; reflexivity)
              (classic_emitPoint_stable h (keeps_full 4000)
                 (keeps_full_refl 4000) (keeps_full_trans 4000)
                 ltac:(intros w0 _; reflexivity) Ha)
              type intensity)
    as (body & -> & Hb).
  intro Hfull. rewrite exec_bind.
  exact (Hb (eval (emit (SpawnCall type intensity)) w)
            (exec (emit (SpawnCall type intensity)) w) Hfull).
Qed.

Lemma neon_spawn_when_full h type intensity (w : Neon.State) :
  (2000 < List.length (particlesRef w))%nat ->
  exec (Neon.spawnNeonSnowflake h type intensity) w
  = exec (emit (SpawnCall type intensity)) w.
Proof.
  intro Hfull. unfold Neon.spawnNeonSnowflake.
  rewrite exec_bind, exec_bind. unfold Neon.State in *.
  set (w1 := exec (emit (SpawnCall type intensity)) w).
  assert (E : eval getParticles w1 = particlesRef w) by reflexivity.
  rewrite E. change (exec getParticles w1) with w1.
  destruct (Z.gtb_spec (Z.of_nat (List.length (particlesRef w))) 2000); [reflexivity | lia].
Qed.

Lemma grows_refl {P X} (w : World P X) : grows w w.
Proof. exists []. symmetry. apply app_nil_r. Qed.

Lemma grows_trans {P X} (a b c : World P X) : grows a b -> grows b c -> grows a c.
Proof.
  intros [n1 E1] [n2 E2]. exists (n1 ++ n2). rewrite E2, E1, app_assoc. reflexivity.
Qed.

Lemma grows_to_refl {P X} (bound : nat) (w : World P X) : grows_to bound w w.
Proof. split; [apply grows_refl | lia]. Qed.

Lemma grows_to_trans {P X} (bound : nat) (a b c : World P X) :
  grows_to bound a b -> grows_to bound b c -> grows_to bound a c.
Proof.
  intros [G1 L1] [G2 L2]. split; [exact (grows_trans a b c G1 G2) | lia].
Qed.

(** The classic collection only grows, and never beyond 4001 unless it was
    larger already: [addParticle] tests the limit before every insertion. *)
Lemma classic_spawn_grows_to h type intensity (w : Classic.State) :
  grows_to 4001 w (exec (Classic.spawnSnowflake h type intensity) w).
Proof.
  set (R := @grows_to Particle.t Point.t 4001).
  assert (Hsame : forall A (m : M Classic.State A),
            (forall w0, particlesRef (exec m w0) = particlesRef w0) -> stable R m).
  { intros A m H w0. split; [exists []; rewrite H, app_nil_r; reflexivity | rewrite H; lia]. }
  assert (Ha : forall x y z vx vy vz color sizeMult,
            stable R (Classic.addParticle h x y z vx vy vz color 1.0 sizeMult)).
  { intros x y z vx vy vz color sizeMult w0. set (lifeMult := 1.0).
    pose proof (addParticle_cases h x y z vx vy vz color lifeMult sizeMult w0) as Hc.
    cbv zeta in Hc. unfold Classic.State in Hc.
    destruct Hc as [[_ E] | (Hle & _ & _ & _ & p & E)].
    - rewrite E. apply grows_to_refl.
    - split; [exists [p]; exact E |]. rewrite E, length_app. cbn [List.length]. lia. }
  assert (Hrand : stable R (Math_random h)) by (apply Hsame; intro; reflexivity).
  assert (Hnow : stable R (Date_now h)) by (apply Hsame; intro; reflexivity).
  assert (Hset : forall t, stable R (setLastSpawnTime t))
    by (intro t; apply Hsame; intro; reflexivity).
  destruct (classic_spawn_stable h R (grows_to_refl 4001) (grows_to_trans 4001)
              Hrand Hnow Hset
              (classic_emitPoint_stable h R (grows_to_refl 4001) (grows_to_trans 4001)
                 Hrand Ha)
              type intensity)
    as (body & -> & Hb).
  rewrite exec_bind.
  exact (Hb (eval (emit (SpawnCall type intensity)) w)
            (exec (emit (SpawnCall type intensity)) w)).
Qed.

(** The neon collection only grows in a spawn call. *)
Lemma neon_spawn_grows h type intensity (w : Neon.State) :
  grows w (exec (Neon.spawnNeonSnowflake h type intensity) w).
Proof.
  set (R := @grows Neon.NeonParticle Neon.GestureRefs).
  assert (Hsame : forall A (m : M Neon.State A),
            (forall w0, particlesRef (exec m w0) = particlesRef w0) -> stable R m).
  { intros A m H w0. exists []. rewrite H, app_nil_r. reflexivity. }
  assert (Hpush : forall p, stable R (push p)).
  { intros p w0. exists [p]. reflexivity. }
  assert (Hrand : stable R (Math_random h)) by (apply Hsame; intro; reflexivity).
  assert (Hnow : stable R (Date_now h)) by (apply Hsame; intro; reflexivity).
  assert (Hget : stable R getParticles) by (apply Hsame; intro; reflexivity).
  assert (Hset : forall t, stable R (setLastSpawnTime t))
    by (intro t; apply Hsame; intro; reflexivity).
  destruct (neon_spawn_stable h R grows_refl grows_trans Hrand Hnow Hget Hset
              (neon_emitPoint_stable h R grows_refl grows_trans Hrand Hpush)
              type intensity)
    as (body & -> & Hb).
  rewrite exec_bind.
  exact (Hb (eval (emit (SpawnCall type intensity)) w)
            (exec (emit (SpawnCall type intensity)) w)).
Qed.

Lemma keeps_spawn_time_refl {P X} (w : World P X) : keeps_spawn_time w w.
Proof. reflexivity. Qed.

Lemma keeps_spawn_time_trans {P X} (a b c : World P X) :
  keeps_spawn_time a b -> keeps_spawn_time b c -> keeps_spawn_time a c.
Proof. unfold keeps_spawn_time. congruence. Qed.

(** The classic spawn call records the time of the call, whether or not it
    can add a particle. *)
Lemma classic_spawn_time h type intensity (w : Classic.State) :
  lastSpawnTimeRef (beatRefs (exec (Classic.spawnSnowflake h type intensity) w))
  = clock h (clockCalls w).
Proof.
  set (R := @keeps_spawn_time Particle.t Point.t).
  pose proof (@keeps_spawn_time_refl Particle.t Point.t) as Hr.
  pose proof (@keeps_spawn_time_trans Particle.t Point.t) as Ht.
  assert (Hrand : stable R (Math_random h)) by (intro; reflexivity).
  assert (Ha : forall x y z vx vy vz color sizeMult,
            stable R (Classic.addParticle h x y z vx vy vz color 1.0 sizeMult)).
  { intros x y z vx vy vz color sizeMult w0. set (lifeMult := 1.0).
    pose proof (addParticle_cases h x y z vx vy vz color lifeMult sizeMult w0) as Hc.
    cbv zeta in Hc. unfold Classic.State in Hc. unfold R, keeps_spawn_time.
    destruct Hc as [[_ E] | (_ & E & _)]; rewrite E; reflexivity. }
  pose proof (classic_emitPoint_stable h R Hr Ht Hrand Ha) as Hpoint.
  pose proof (classic_blueprint_stable h R Hr Ht Hrand) as Hbp.
  pose proof (classic_blueprintPoints_stable h R Hr Ht Hrand) as Hpts.
  unfold Classic.spawnSnowflake. unfold Classic.State.
  rewrite exec_bind; cbv beta. set (w0 := exec (emit (SpawnCall type intensity)) w).
  rewrite exec_bind; cbv beta.
  change (eval (Date_now h) w0) with (clock h (clockCalls w)).
  set (w1 := exec (Date_now h) w0).
  rewrite exec_bind; cbv beta. set (w2 := exec (setLastSpawnTime _) w1). cbv zeta.
  transitivity (lastSpawnTimeRef (beatRefs w2)); [| reflexivity].
  generalize w2.
  match goal with
  | |- forall w, lastSpawnTimeRef (beatRefs (exec ?m w)) = _ => change (stable R m)
  end.
  stable_auto Hr Ht.
Qed.

(** The neon spawn call, when it is admitted, records the time of the
    call. *)
Lemma neon_spawn_time h type intensity (w : Neon.State) :
  (List.length (particlesRef w) <= 2000)%nat ->
  lastSpawnTimeRef (beatRefs (exec (Neon.spawnNeonSnowflake h type intensity) w))
  = clock h (clockCalls w).
Proof.
  intro Hle.
  set (R := @keeps_spawn_time Neon.NeonParticle Neon.GestureRefs).
  pose proof (@keeps_spawn_time_refl Neon.NeonParticle Neon.GestureRefs) as Hr.
  pose proof (@keeps_spawn_time_trans Neon.NeonParticle Neon.GestureRefs) as Ht.
  assert (Hrand : stable R (Math_random h)) by (intro; reflexivity).
  assert (Hnow : stable R (Date_now h)) by (intro; reflexivity).
  assert (Hpush : forall p, stable R (push p)) by (intros p w0; reflexivity).
  pose proof (neon_emitPoint_stable h R Hr Ht Hrand Hpush) as Hpoint.
  pose proof (generateRibs_stable h R Hr Ht Hrand) as Hribs.
  assert (Hbp : stable R (Neon.blueprint h)).
  { unfold Neon.blueprint. stable_auto Hr Ht. }
  unfold Neon.spawnNeonSnowflake. unfold Neon.State.
  rewrite exec_bind; cbv beta. set (w0 := exec (emit (SpawnCall type intensity)) w).
  rewrite exec_bind; cbv beta. change (exec getParticles w0) with w0.
  change (eval getParticles w0) with (particlesRef w).
  destruct (Z.gtb_spec (Z.of_nat (List.length (particlesRef w))) 2000) as [Hgt | _]; [lia |].
  rewrite exec_bind; cbv beta.
  change (eval (Date_now h) w0) with (clock h (clockCalls w)).
  set (w1 := exec (Date_now h) w0).
  rewrite exec_bind; cbv beta. set (w2 := exec (setLastSpawnTime _) w1). cbv zeta.
  transitivity (lastSpawnTimeRef (beatRefs w2)); [| reflexivity].
  generalize w2.
  match goal with
  | |- forall w, lastSpawnTimeRef (beatRefs (exec ?m w)) = _ => change (stable R m)
  end.
  stable_auto Hr Ht.
Qed.

(** C4, as stated, fails in both variants.  With the demo host two spawn
    calls from the initial state leave 2340 particles in the neon component:
    its guard is evaluated once per call, and the second call, admitted at
    1170, appends its whole burst.  In the classic component they leave
    4001: a particle is still admitted at exactly 4000. *)
Lemma spawn_exceeds_limit :
  List.length (particlesRef
    (exec (Neon.spawnNeonSnowflake Demo.host bass 1 ;;
           Neon.spawnNeonSnowflake Demo.host bass 1) Neon.initialState)) = 2340%nat /\
  List.length (particlesRef
    (exec (Classic.spawnSnowflake Demo.host bass 1 ;;
           Classic.spawnSnowflake Demo.host bass 1) Classic.initialState)) = 4001%nat.
Proof. split; vm_compute; reflexivity. Qed.

(** C4 (amended). Neon: a spawn call made while the collection holds more
    than 2000 particles returns at once, its only trace being the record of
    the call; a call made at 2000 or fewer is admitted whatever it is about
    to add: it records the time of the call and only appends, so nothing
    holds the collection at 2000.  Classic: every spawn call records the
    time of the call and only appends; made while the collection holds more
    than 4000 particles it leaves the collection as it is; and after the
    call the collection holds at most 4001 particles, unless it held more
    before, in which case it holds as many as before. *)
Theorem spawn_when_full (h : Host) (type : FrequencyBand) (intensity : Q)
    (wn : Neon.State) (wc : Classic.State) :
  let wn' := exec (Neon.spawnNeonSnowflake h type intensity) wn in
  let wc' := exec (Classic.spawnSnowflake h type intensity) wc in
  ((2000 < List.length (particlesRef wn))%nat ->
   wn' = exec (emit (SpawnCall type intensity)) wn) /\
  ((List.length (particlesRef wn) <= 2000)%nat ->
   lastSpawnTimeRef (beatRefs wn') = clock h (clockCalls wn) /\
   exists new, particlesRef wn' = particlesRef wn ++ new) /\
  ((4000 < List.length (particlesRef wc))%nat -> particlesRef wc' = particlesRef wc) /\
  lastSpawnTimeRef (beatRefs wc') = clock h (clockCalls wc) /\
  (exists new, particlesRef wc' = particlesRef wc ++ new) /\
  (List.length (particlesRef wc') <= Nat.max (List.length (particlesRef wc)) 4001)%nat.
Proof.
  intros wn' wc'.
  split; [apply neon_spawn_when_full |].
  split; [intro Hle; split; [apply neon_spawn_time; exact Hle | apply neon_spawn_grows] |].
  split; [apply classic_spawn_keeps_full |].
  split; [apply classic_spawn_time |].
  exact (classic_spawn_grows_to h type intensity wc).
Qed.

(** ** Particles are spawned fresh *)

Lemma stable_bind_post {W A B} (R : W -> W -> Prop) (Post : A -> Prop)
      (m : M W A) (f : A -> M W B) :
  (forall a b c, R a b -> R b c -> R a c) ->
  stable R m -> (forall w, Post (eval m w)) ->
  (forall a, Post a -> stable R (f a)) ->
  stable R (bind m f).
Proof.
  intros Ht Hm Hp Hf w. rewrite exec_bind.
  eapply Ht; [apply Hm | apply Hf, Hp].
Qed.

Lemma appends_refl {P X} (Q : P -> Prop) (w : World P X) : appends Q w w.
Proof. exists []. split; [symmetry; apply app_nil_r | constructor]. Qed.

Lemma appends_trans {P X} (Q : P -> Prop) (a b c : World P X) :
  appends Q a b -> appends Q b c -> appends Q a c.
Proof.
  intros (n1 & E1 & F1) (n2 & E2 & F2). exists (n1 ++ n2). split.
  - rewrite E2, E1, app_assoc. reflexivity.
  - apply Forall_app. split; assumption.
Qed.

(** Steps that leave the collection alone. *)
Lemma appends_same {P X A} (Q : P -> Prop) (m : M (World P X) A) :
  (forall w, particlesRef (exec m w) = particlesRef w) -> stable (appends Q) m.
Proof.
  intros H w. exists []. split; [rewrite H, app_nil_r; reflexivity | constructor].
Qed.

Lemma appends_push {P X} (Q : P -> Prop) (p : P) :
  Q p -> stable (@appends P X Q) (push p).
Proof.
  intros Hp w. exists [p]. split; [reflexivity | repeat constructor; exact Hp].
Qed.

Section SpawnsFresh.
Context (h : Host).
Hypothesis Hrandom : random_unit h.

Lemma fresh_decay (r : Q) : 0 <= r -> FADE_SPEED_BASE <= FADE_SPEED_BASE + r * FADE_SPEED_VAR.
Proof. unfold FADE_SPEED_BASE, FADE_SPEED_VAR. intro Hr. lra. Qed.


Lemma classic_emitPoint_fresh sx sy sz color scale speed skip cosA sinA pt :
  stable (appends fresh)
         (Classic.emitPoint h sx sy sz color scale speed skip cosA sinA pt).
Proof.
  set (R := @appends Particle.t Point.t fresh).
  assert (Hr : forall w, R w w) by (intro; apply appends_refl).
  assert (Ht : forall a b c, R a b -> R b c -> R a c) by (intros a b c; apply appends_trans).
  assert (Hrand : stable R (Math_random h)) by (apply appends_same; reflexivity).
  unfold Classic.emitPoint.
  apply (stable_bind _ Ht); [destruct (gtb skip 0); stable_auto Hr Ht | intro skipped].
  destruct skipped; [apply (stable_ret _ Hr) |]. cbv zeta.
  unfold Classic.addParticle.
  apply (stable_bind _ Ht); [apply appends_same; reflexivity | intro ps].
  destruct (Z.of_nat (List.length ps) >? 4000)%Z; [apply (stable_ret _ Hr) |].
  apply (stable_bind _ Ht); [exact Hrand | intro r1].
  apply (stable_bind_post R (fun r => 0 <= r)); [exact Ht | exact Hrand | |].
  { intro w. exact (proj1 (Hrandom (randomCalls w))). }
  intros r2 Hr2.
  apply (stable_bind _ Ht); [exact Hrand | intro r3].
  apply appends_push. split; cbn [Particle.life Particle.decayRate].
  - lra.
  - apply fresh_decay. exact Hr2.
Qed.


Lemma classic_spawn_fresh type intensity (w : Classic.State) :
  appends fresh w (exec (Classic.spawnSnowflake h type intensity) w).
Proof.
  set (R := @appends Particle.t Point.t fresh).
  assert (Hr : forall w, R w w) by (intro; apply appends_refl).
  assert (Ht : forall a b c, R a b -> R b c -> R a c) by (intros a b c; apply appends_trans).
  destruct (classic_spawn_stable h R Hr Ht
              ltac:(apply appends_same; reflexivity)
              ltac:(apply appends_same; reflexivity)
              ltac:(intro; apply appends_same; reflexivity)
              classic_emitPoint_fresh type intensity) as (body & -> & Hb).
  apply (stable_bind _ Ht); [apply appends_same; reflexivity | exact Hb].
Qed.

End SpawnsFresh.

(** ** The particle pass *)

Lemma nth_error_middle {A} (pre suf : list A) (a : A) :
  nth_error (pre ++ a :: suf) (List.length pre) = Some a.
Proof. induction pre as [| b pre IH]; [reflexivity | exact IH]. Qed.

Lemma replace_nth_middle {A} (pre suf : list A) (a b : A) :
  replace_nth (List.length pre) b (pre ++ a :: suf) = pre ++ b :: suf.
Proof.
  unfold replace_nth. induction pre as [| c pre IH]; [reflexivity |].
  cbn [List.length app firstn skipn] in *. rewrite IH. reflexivity.
Qed.

Lemma splice1_middle {A} (pre suf : list A) (a : A) :
  splice1 (List.length pre) (pre ++ a :: suf) = pre ++ suf.
Proof.
  unfold splice1. induction pre as [| c pre IH]; [reflexivity |].
  cbn [List.length app firstn skipn] in *. rewrite IH. reflexivity.
Qed.

Lemma list_last_split {A} (l : list A) (n : nat) :
  List.length l = S n -> exists pre a, l = pre ++ [a] /\ List.length pre = n.
Proof.
  intro H. destruct (exists_last (l := l)) as (pre & a & ->).
  - intros ->. discriminate.
  - exists pre, a. split; [reflexivity |].
    rewrite length_app in H. cbn in H. lia.
Qed.

(** A descending loop whose iteration [i] rewrites particle [i] with [step]
    and splices it out unless [keep] holds maps and filters the
    collection. *)
Lemma down_loop_pass {P X} (body : nat -> M (World P X) unit)
      (step : P -> P) (keep : P -> bool) (Inv : World P X -> Prop) :
  (forall w pre p0 suf,
      Inv w -> particlesRef w = pre ++ p0 :: suf ->
      Inv (exec (body (List.length pre)) w) /\
      particlesRef (exec (body (List.length pre)) w)
      = pre ++ (if keep (step p0) then [step p0] else []) ++ suf) ->
  forall n w pre suf,
    Inv w -> particlesRef w = pre ++ suf -> List.length pre = n ->
    Inv (exec (down_loop n body) w) /\
    particlesRef (exec (down_loop n body) w) = filter keep (map step pre) ++ suf.
Proof.
  intros Hbody. induction n as [| n IH]; intros w pre suf Hinv Hps Hlen.
  - destruct pre; [| discriminate]. split; [exact Hinv | exact Hps].
  - destruct (list_last_split pre n Hlen) as (pre' & p0 & -> & Hlen').
    cbn [down_loop]. rewrite exec_bind.
    rewrite <- app_assoc in Hps. cbn [app] in Hps.
    destruct (Hbody w pre' p0 suf Hinv Hps) as [Hinv1 Hps1].
    rewrite Hlen' in Hinv1, Hps1.
    destruct (IH _ pre' _ Hinv1 Hps1 Hlen') as [Hinv2 Hps2].
    split; [exact Hinv2 |].
    rewrite Hps2, map_app, filter_app, <- app_assoc. cbn [map filter].
    destruct (keep (step p0)); reflexivity.
Qed.

Lemma neon_renderParticle_pass h energy ox oy (frozen : bool)
      (w : World Neon.NeonParticle Neon.GestureRefs) pre p0 suf :
  Neon.isFrozenRef (ownRefs w) = frozen ->
  particlesRef w = pre ++ p0 :: suf ->
  let w' := exec (Neon.renderParticle h energy ox oy (List.length pre)) w in
  Neon.isFrozenRef (ownRefs w') = frozen /\
  particlesRef w' =
    pre ++ (if alive (Neon.base (neonStep frozen energy p0))
            then [neonStep frozen energy p0] else []) ++ suf.
Proof.
  intros Hf Hps w'. subst w'. unfold Neon.renderParticle.
  rewrite exec_bind.
  change (eval getParticles w) with (particlesRef w). change (exec getParticles w) with w.
  rewrite Hps, nth_error_middle, exec_bind.
  change (eval getOwn w) with (ownRefs w). change (exec getOwn w) with w.
  rewrite Hf. fold (neonStep frozen energy p0).
  set (p := neonStep frozen energy p0).
  rewrite exec_bind, replace_nth_middle.
  unfold alive.
  destruct (gtb (Particle.life (Neon.base p)) 0).
  - destruct (Neon.perspective p) as [scale |]; cbv zeta;
      [destruct (gtb scale 0) |]; split; first [exact Hf | reflexivity].
  - rewrite exec_bind.
    match goal with
    | |- context [eval getParticles ?w1] =>
        change (eval getParticles w1) with (pre ++ p :: suf)
    end.
    rewrite splice1_middle. split; [exact Hf | reflexivity].
Qed.

Lemma neon_particlePass_particles h energy ox oy (frozen : bool)
      (w : World Neon.NeonParticle Neon.GestureRefs) :
  Neon.isFrozenRef (ownRefs w) = frozen ->
  particlesRef (exec (Neon.particlePass h energy ox oy) w)
  = filter (fun p => alive (Neon.base p)) (map (neonStep frozen energy) (particlesRef w)).
Proof.
  intro Hf. unfold Neon.particlePass. rewrite exec_bind.
  change (eval getParticles w) with (particlesRef w). change (exec getParticles w) with w.
  destruct (down_loop_pass (Neon.renderParticle h energy ox oy)
              (neonStep frozen energy) (fun p => alive (Neon.base p))
              (fun w => Neon.isFrozenRef (ownRefs w) = frozen)
              (fun w0 pre p0 suf => neon_renderParticle_pass h energy ox oy frozen w0 pre p0 suf)
              (List.length (particlesRef w)) w (particlesRef w) [] Hf
              (eq_sym (app_nil_r _)) eq_refl) as [_ H].
  rewrite app_nil_r in H. exact H.
Qed.

Lemma classic_renderParticle_pass h energy cx cy
      (w : World Particle.t Point.t) pre p0 suf :
  True ->
  particlesRef w = pre ++ p0 :: suf ->
  let w' := exec (Classic.renderParticle h energy cx cy (List.length pre)) w in
  True /\
  particlesRef w' =
    pre ++ (if alive (Classic.physics energy p0)
            then [Classic.physics energy p0] else []) ++ suf.
Proof.
  intros _ Hps w'. subst w'. unfold Classic.renderParticle.
  rewrite exec_bind.
  change (eval getParticles w) with (particlesRef w). change (exec getParticles w) with w.
  rewrite Hps, nth_error_middle. cbv zeta.
  set (p := Classic.physics energy p0).
  rewrite exec_bind, replace_nth_middle.
  unfold alive.
  destruct (gtb (Particle.life p) 0).
  - rewrite exec_bind.
    match goal with
    | |- context [if ?c then _ else _] => destruct c
    end; split; first [exact I | reflexivity].
  - rewrite exec_bind.
    match goal with
    | |- context [eval getParticles ?w1] =>
        change (eval getParticles w1) with (pre ++ p :: suf)
    end.
    rewrite splice1_middle. split; [exact I | reflexivity].
Qed.


(** ** Particle lifetime *)

Lemma dynamicDecay_lower (energy decayRate : Q) :
  decayRate <= (if gtb energy 0
                then decayRate + (energy / 255) * FADE_SPEED_VAR
                else decayRate).
Proof.
  destruct (gtb energy 0) eqn:E; [| lra].
  apply gtb_true in E. unfold FADE_SPEED_VAR.
  assert (0 <= energy / 255).
  { apply Qle_shift_div_l; lra. }
  nra.
Qed.


Lemma classic_physics_life (energy : Q) (p : Particle.t) :
  let p' := Classic.physics energy p in
  Particle.life p' <= Particle.life p - Particle.decayRate p /\
  Particle.decayRate p' = Particle.decayRate p.
Proof.
  cbv zeta. unfold Classic.physics. cbn [Particle.life Particle.decayRate].
  pose proof (dynamicDecay_lower energy (Particle.decayRate p)).
  split; [lra | reflexivity].
Qed.


(** ** Exceptions of the gesture recognizer *)

(** C9. When the recognizer call of a frame throws, [detectGestures]
    returns normally and the frozen flag, the target pan offset and the last
    detected gesture label (as well as the camera offset, the particles, the
    beat refs and the trace: no callback is made) are what they were before
    the call. *)
Theorem recognizer_exception_is_dropped (h : Host) (v : Neon.Video) (w : Neon.State) :
  Neon.recognition v = Neon.Throws ->
  let w' := exec (Neon.detectGestures h v) w in
  Neon.isFrozenRef (ownRefs w') = Neon.isFrozenRef (ownRefs w) /\
  Neon.targetOffsetRef (ownRefs w') = Neon.targetOffsetRef (ownRefs w) /\
  Neon.lastDetectedGestureRef (ownRefs w') = Neon.lastDetectedGestureRef (ownRefs w) /\
  Neon.cameraOffsetRef (ownRefs w') = Neon.cameraOffsetRef (ownRefs w) /\
  particlesRef w' = particlesRef w /\
  beatRefs w' = beatRefs w /\
  trace w' = trace w.
Proof.
  intros Hthrow w'. subst w'. unfold Neon.detectGestures.
  destruct (Neon.available v); cbn [negb]; [| repeat split].
  rewrite exec_bind.
  change (eval getOwn w) with (ownRefs w). change (exec getOwn w) with w.
  destruct (Qeq_bool (Neon.currentTime v) (Neon.lastVideoTimeRef (ownRefs w)));
    [repeat split |].
  unfold Neon.catch_ignore, Neon.tryBlock, Neon.recognizeForVideo.
  rewrite Hthrow. repeat split.
Qed.

Lemma recognizer_exception_is_dropped_witness :
  let v := {| Neon.available := true; Neon.currentTime := 1;
              Neon.recognition := Neon.Throws |} in
  Neon.isFrozenRef (ownRefs (exec (Neon.detectGestures Demo.host v) Neon.initialState))
  = false.
Proof.
  intro v.
  exact (proj1 (recognizer_exception_is_dropped Demo.host v Neon.initialState eq_refl)).
Defined.

(** An exception raised later in the same [try] block is also dropped but
    keeps the writes made before it: an open-palm result whose landmark
    list has fewer than ten points sets the frozen flag and then fails on
    [landmarks[9].x]. *)
Remark short_landmark_list_sets_flag :
  let result := {| Neon.gestures := [[ {| Neon.categoryName := "Open_Palm" |} ]];
                   Neon.landmarks := [[ Point.mk 0.5 0.5 ]] |} in
  let v := {| Neon.available := true; Neon.currentTime := 1;
              Neon.recognition := Neon.Returns result |} in
  let w' := exec (Neon.detectGestures Demo.host v) Neon.initialState in
  Neon.isFrozenRef (ownRefs w') = true /\
  Neon.lastDetectedGestureRef (ownRefs w') = "None"%string /\
  trace w' = [].
Proof. repeat split. Qed.

(** ** The rotation of the classic component *)

Lemma keeps_own_refl {P X} (w : World P X) : keeps_own w w.
Proof. reflexivity. Qed.

Lemma keeps_own_trans {P X} (a b c : World P X) :
  keeps_own a b -> keeps_own b c -> keeps_own a c.
Proof. unfold keeps_own. congruence. Qed.

Lemma classic_particlePass_keeps_own h energy cx cy :
  stable (@keeps_own Particle.t Point.t) (Classic.particlePass h energy cx cy).
Proof.
  pose proof (@keeps_own_refl Particle.t Point.t) as Hr.
  pose proof (@keeps_own_trans Particle.t Point.t) as Ht.
  assert (Hg : stable (@keeps_own Particle.t Point.t) getParticles) by (intro; reflexivity).
  assert (Hs : forall ps, stable (@keeps_own Particle.t Point.t) (setParticles ps))
    by (intros ps w; reflexivity).
  assert (Ho : stable (@keeps_own Particle.t Point.t) getOwn) by (intro; reflexivity).
  assert (Hn : stable (@keeps_own Particle.t Point.t) (Date_now h)) by (intro; reflexivity).
  assert (He : forall e, stable (@keeps_own Particle.t Point.t) (emit e))
    by (intros e w; reflexivity).
  unfold Classic.particlePass, Classic.renderParticle.
  stable_auto Hr Ht.
Qed.

(** No frame of the classic component writes [rotationRef]. *)
Lemma classic_render_keeps_rotation h audio (w : Classic.State) :
  Classic.rotationRef (exec (Classic.render h audio) w) = Classic.rotationRef w.
Proof.
  unfold Classic.rotationRef, Classic.render.
  rewrite exec_bind, exec_bind.
  etransitivity; [apply (classic_particlePass_keeps_own h) |].
  etransitivity; [| exact (eq_refl : ownRefs (exec (emit FillRect) w) = ownRefs w)].
  destruct audio as [dataArray |]; [| reflexivity].
  etransitivity;
    [exact (f_equal ownRefs (proj1 (classic_audioBlock_active h dataArray _))) |].
  exact (proj1 (proj2 (beatDetection_run h (Classic.spawnSnowflake h)
                         (classic_spawn_frame h) (analyzeAudio dataArray) _))).
Qed.

Lemma classic_run_keeps_rotation h inputs :
  forall w : Classic.State,
    Classic.rotationRef (exec (Classic.run h inputs) w) = Classic.rotationRef w.
Proof.
  unfold Classic.run.
  induction inputs as [| audio inputs IH]; intro w; [reflexivity |].
  cbn [for_of]. rewrite exec_bind, IH. apply classic_render_keeps_rotation.
Qed.

Lemma rotate3D_zero h (x y z : Q) :
  cos h 0 == 1 -> sin h 0 == 0 ->
  let r := Classic.rotate3D h x y z 0 0 in
  Classic.rx r == x /\ Classic.ry r == y /\ Classic.rz r == z.
Proof.
  intros Hc Hs r. subst r. unfold Classic.rotate3D.
  cbn [Classic.rx Classic.ry Classic.rz].
  rewrite Hc, Hs. repeat split; ring.
Qed.

(** C10, as stated, fails at depth [-800].  There the classic loop tests
    [depth > 0] with [depth = 0] and paints nothing, while the neon loop
    computes [800 / 0 = Infinity], passes [scale > 0] and paints the
    shard. *)
Lemma projections_differ_at_the_eye :
  let b := Particle.mk 0 0 (-800) 0 0 0 1 1 EmptyString 1 0.01 0 in
  let wc : Classic.State := mkWorld initialBeatRefs [b] (Point.mk 0 0) 0 0 [] in
  let wn : Neon.State :=
    mkWorld initialBeatRefs [Neon.mkNeonParticle b 0 [] 0 0]
      (Neon.mkGestureRefs (-1) "None" false (Point.mk 0 0) (Point.mk 0 0)) 0 0 [] in
  Classic.rotationRef wc = Point.mk 0 0 /\
  trace (exec (Classic.render Demo.host None) wc) = [FillRect] /\
  trace (exec (Neon.render Demo.host {| Neon.video := Demo.noVideo; Neon.audio := None |}) wn)
  = [FillRect; DrawShardAtInfinity 0 0 []].
Proof. split; [reflexivity | split; vm_compute; reflexivity]. Qed.

Lemma painted_app {P X} (w w' : World P X) (events : list Event) :
  trace w' = trace w ++ events -> painted w w' = events.
Proof.
  intro E. unfold painted. rewrite E, skipn_app, skipn_all, Nat.sub_diag. reflexivity.
Qed.

Lemma Math_max_Qeq (a b b' : Q) : b == b' -> Math_max a b == Math_max a b'.
Proof.
  intro E. unfold Math_max.
  destruct (Qle_bool a b) eqn:H1, (Qle_bool a b') eqn:H2; try exact E; try reflexivity.
  - apply Qle_bool_iff in H1. rewrite E in H1. apply Qle_bool_iff in H1. congruence.
  - apply Qle_bool_iff in H2. rewrite <- E in H2. apply Qle_bool_iff in H2. congruence.
Qed.

(** What one iteration of the classic loop adds to the trace. *)
Lemma classic_renderParticle_trace h energy cx cy (w : Classic.State) pre p0 suf :
  particlesRef w = pre ++ p0 :: suf ->
  let p := Classic.physics energy p0 in
  let rotated := Classic.rotate3D h (Particle.x p) (Particle.y p) (Particle.z p)
                   (Point.x (Classic.rotationRef w)) (Point.y (Classic.rotationRef w)) in
  let depth := Classic.rz rotated + Classic.fov in
  let scale := Classic.fov / depth in
  trace (exec (Classic.renderParticle h energy cx cy (List.length pre)) w)
  = trace w ++
    (if alive p && gtb depth 0 then
       [DrawArc (Classic.rx rotated * scale + cx) (Classic.ry rotated * scale + cy)
          (Math_max 0.1 (Particle.size p * scale))
          (Particle.alpha p * Math_min 1 scale
           * (0.6 + cos h (inject_Z (clock h (clockCalls w)) * 0.02
                           + Particle.shimmerOffset p * 10) * 0.4))
          (Particle.color p)]
     else []).
Proof.
  intros Hps p rotated depth scale. unfold Classic.renderParticle.
  rewrite exec_bind.
  change (eval getParticles w) with (particlesRef w). change (exec getParticles w) with w.
  rewrite Hps, nth_error_middle. cbv zeta. fold p.
  rewrite exec_bind. unfold alive.
  destruct (gtb (Particle.life p) 0).
  - rewrite exec_bind. cbn [andb].
    change (eval getOwn (exec (setParticles (replace_nth (List.length pre) p (pre ++ p0 :: suf))) w))
      with (Classic.rotationRef w).
    fold rotated. fold depth.
    destruct (gtb depth 0); [reflexivity | symmetry; apply app_nil_r].
  - cbn [andb]. symmetry. apply app_nil_r.
Qed.

(** What one iteration of the neon loop adds to the trace. *)
Lemma neon_renderParticle_trace h energy ox oy (w : Neon.State) pre q0 suf :
  particlesRef w = pre ++ q0 :: suf ->
  let q := neonStep (Neon.isFrozenRef (ownRefs w)) energy q0 in
  trace (exec (Neon.renderParticle h energy ox oy (List.length pre)) w)
  = trace w ++
    (if alive (Neon.base q) then
       match Neon.perspective q with
       | Finite scale =>
           if gtb scale 0 then
             [DrawShard (ox + Particle.x (Neon.base q) * scale)
                        (oy + Particle.y (Neon.base q) * scale)
                        scale (Neon.angle q) (Particle.life (Neon.base q) * scale)
                        (Neon.hue q)
                        (10 * scale * (if gtb (random h (randomCalls w)) 0.9 then 1.5 else 1))
                        (Neon.vertices q)]
           else []
       | Infinity => [DrawShardAtInfinity (Neon.angle q) (Neon.hue q) (Neon.vertices q)]
       end
     else []).
Proof.
  intros Hps q. unfold Neon.renderParticle.
  rewrite exec_bind.
  change (eval getParticles w) with (particlesRef w). change (exec getParticles w) with w.
  rewrite Hps, nth_error_middle, exec_bind.
  change (eval getOwn w) with (ownRefs w). change (exec getOwn w) with w.
  fold (neonStep (Neon.isFrozenRef (ownRefs w)) energy q0). fold q.
  rewrite exec_bind. unfold alive.
  destruct (gtb (Particle.life (Neon.base q)) 0).
  - destruct (Neon.perspective q) as [scale |]; cbv zeta.
    + destruct (gtb scale 0); [reflexivity | symmetry; apply app_nil_r].
    + reflexivity.
  - rewrite exec_bind. symmetry. apply app_nil_r.
Qed.

(** The perspective divide by cases of the depth. *)
Lemma perspective_cases (q : Neon.NeonParticle) :
  let z := Particle.z (Neon.base q) in
  (-800 < z -> Neon.perspective q = Finite (800 / (800 + z)) /\ gtb (800 / (800 + z)) 0 = true) /\
  (z < -800 -> Neon.perspective q = Finite (800 / (800 + z)) /\ gtb (800 / (800 + z)) 0 = false) /\
  (z == -800 -> Neon.perspective q = Infinity).
Proof.
  intro z. unfold Neon.perspective, quotient. fold z.
  split; [| split].
  - intro Hz. destruct (Qeq_bool (800 + z) 0) eqn:E.
    + apply Qeq_bool_eq in E. lra.
    + split; [reflexivity |]. apply gtb_true. apply Qlt_shift_div_l; lra.
  - intro Hz. destruct (Qeq_bool (800 + z) 0) eqn:E.
    + apply Qeq_bool_eq in E. lra.
    + split; [reflexivity |]. apply gtb_false.
      assert (Hinv : / (800 + z) < 0).
      { setoid_replace (/ (800 + z)) with (- / (- (800 + z))).
        - assert (0 < / (- (800 + z))) by (apply Qinv_lt_0_compat; lra). lra.
        - field. lra. }
      unfold Qdiv. nra.
  - intro Hz. destruct (Qeq_bool (800 + z) 0) eqn:E; [reflexivity |].
    apply Qeq_bool_neq in E. exfalso. apply E. rewrite Hz. reflexivity.
Qed.

(** C10 (amended). In the classic variant [rotationRef] is [(0, 0)] in every
    state the frames reach from the initial one, and for that rotation
    [rotate3D] is the identity.  An iteration of the classic particle loop
    then paints a particle with life at [(x, y, z)] exactly when [z > -800],
    at [(x, y)] scaled by [800 / (800 + z)] from the centre, with its size
    scaled alike.  An iteration of the neon loop paints a particle with life
    at any depth other than [-800] in the same cases, with the same scale and
    at the same offset from its origin.  At depth [-800] the two differ: the
    classic loop paints nothing, the neon loop paints the shard with an
    infinite scale. *)
Theorem classic_projection_is_perspective (h : Host)
    (inputs : list (option (list Z))) (energy cx cy ox oy : Q)
    (wc : Classic.State) (pre suf : list Particle.t) (p0 : Particle.t)
    (wn : Neon.State) (pre' suf' : list Neon.NeonParticle) (q0 : Neon.NeonParticle) :
  cos h 0 == 1 -> sin h 0 == 0 ->
  Classic.rotationRef (exec (Classic.run h inputs) Classic.initialState) = Point.mk 0 0 /\
  (Classic.rotationRef wc = Point.mk 0 0 ->
   particlesRef wc = pre ++ p0 :: suf ->
   let p := Classic.physics energy p0 in
   let s := 800 / (800 + Particle.z p) in
   let events :=
     painted wc (exec (Classic.renderParticle h energy cx cy (List.length pre)) wc) in
   alive p = true ->
   (-800 < Particle.z p ->
    exists x2d y2d size2d finalOpacity,
      events = [DrawArc x2d y2d size2d finalOpacity (Particle.color p)] /\
      x2d == cx + Particle.x p * s /\
      y2d == cy + Particle.y p * s /\
      size2d == Math_max 0.1 (Particle.size p * s)) /\
   (Particle.z p <= -800 -> events = [])) /\
  (particlesRef wn = pre' ++ q0 :: suf' ->
   let q := neonStep (Neon.isFrozenRef (ownRefs wn)) energy q0 in
   let b := Neon.base q in
   let s := 800 / (800 + Particle.z b) in
   let events :=
     painted wn (exec (Neon.renderParticle h energy ox oy (List.length pre')) wn) in
   alive b = true ->
   (-800 < Particle.z b ->
    exists shadowBlur,
      events = [DrawShard (ox + Particle.x b * s) (oy + Particle.y b * s) s
                          (Neon.angle q) (Particle.life b * s) (Neon.hue q)
                          shadowBlur (Neon.vertices q)]) /\
   (Particle.z b < -800 -> events = []) /\
   (Particle.z b == -800 ->
    events = [DrawShardAtInfinity (Neon.angle q) (Neon.hue q) (Neon.vertices q)])).
Proof.
  intros Hc Hs.
  split; [rewrite classic_run_keeps_rotation; reflexivity |].
  split.
  - intros Hrot Hps p s events Ha.
    pose proof (classic_renderParticle_trace h energy cx cy wc pre p0 suf Hps) as T.
    cbv zeta in T. fold p in T. rewrite Hrot in T. cbn [Point.x Point.y] in T.
    destruct (rotate3D_zero h (Particle.x p) (Particle.y p) (Particle.z p) Hc Hs)
      as (Hx & Hy & Hz).
    cbv zeta in Hx, Hy, Hz.
    set (rotated := Classic.rotate3D h (Particle.x p) (Particle.y p) (Particle.z p) 0 0) in *.
    rewrite Ha in T. cbn [andb] in T.
    assert (Hd : Classic.rz rotated + Classic.fov == 800 + Particle.z p).
    { unfold Classic.fov. rewrite Hz. ring. }
    split.
    + intro Hin.
      assert (G : gtb (Classic.rz rotated + Classic.fov) 0 = true)
        by (apply gtb_true; rewrite Hd; lra).
      rewrite G in T. apply painted_app in T. fold events in T.
      assert (Hsc : Classic.fov / (Classic.rz rotated + Classic.fov) == s).
      { subst s. unfold Classic.fov at 1. rewrite Hd. reflexivity. }
      do 4 eexists. split; [exact T |].
      split; [rewrite Hx, Hsc; ring |].
      split; [rewrite Hy, Hsc; ring |].
      apply Math_max_Qeq. rewrite Hsc. reflexivity.
    + intro Hout.
      assert (G : gtb (Classic.rz rotated + Classic.fov) 0 = false)
        by (apply gtb_false; rewrite Hd; lra).
      rewrite G in T. apply painted_app in T. exact T.
  - intros Hps q b s events Ha.
    pose proof (neon_renderParticle_trace h energy ox oy wn pre' q0 suf' Hps) as T.
    cbv zeta in T. fold q in T. fold b in T. rewrite Ha in T.
    destruct (perspective_cases q) as (Hfront & Hbehind & Heye).
    fold b in Hfront, Hbehind, Heye.
    split; [| split].
    + intro Hz. destruct (Hfront Hz) as [E G]. rewrite E, G in T.
      apply painted_app in T. eexists. exact T.
    + intro Hz. destruct (Hbehind Hz) as [E G]. rewrite E, G in T.
      apply painted_app in T. exact T.
    + intro Hz. rewrite (Heye Hz) in T. apply painted_app in T. exact T.
Qed.

Lemma demo_trig_at_zero : cos Demo.host 0 == 1 /\ sin Demo.host 0 == 0.
Proof. split; vm_compute; reflexivity. Qed.

(** The shard of the demo scene, painted by the classic loop and by the neon
    loop: both draw it 11 to the right of their origin. *)
Lemma classic_projection_is_perspective_witness :
  let wc : Classic.State :=
    mkWorld initialBeatRefs [Neon.base Demo.shard] (Point.mk 0 0) 0 0 [] in
  (exists x2d y2d size2d finalOpacity,
     painted wc (exec (Classic.renderParticle Demo.host 0 640 360 0) wc)
     = [DrawArc x2d y2d size2d finalOpacity EmptyString] /\
     x2d == 640 + 11 * (800 / 900)) /\
  (exists x y scale angle alpha hue shadowBlur vertices,
     painted Demo.scene (exec (Neon.renderParticle Demo.host 0 640 360 0) Demo.scene)
     = [DrawShard x y scale angle alpha hue shadowBlur vertices] /\
     scale == 800 / 900 /\ x == 640 + 11 * scale).
Proof.
  intro wc.
  destruct (classic_projection_is_perspective Demo.host [] 0 640 360 640 360
              wc [] [] (Neon.base Demo.shard) Demo.scene [] [] Demo.shard
              (proj1 demo_trig_at_zero) (proj2 demo_trig_at_zero)) as (_ & C & N).
  split.
  - destruct (C eq_refl eq_refl eq_refl) as [Hfront _].
    destruct Hfront as (x2d & y2d & size2d & op & E & Hx & _).
    { vm_compute. reflexivity. }
    exists x2d, y2d, size2d, op. split; [exact E |].
    rewrite Hx. vm_compute. reflexivity.
  - destruct (N eq_refl eq_refl) as [Hfront _].
    destruct Hfront as (blur & E).
    { vm_compute. reflexivity. }
    do 8 eexists. split; [exact E |].
    split; vm_compute; reflexivity.
Defined.

(** ** Freeze *)

(** Runs [detectGestures] on a state as far as the tests allow. *)
Ltac run_gestures :=
  cbv beta iota zeta delta
    [exec eval bind ret Neon.detectGestures Neon.catch_ignore Neon.tryBlock
     Neon.recognizeForVideo Neon.openPalm Neon.release Neon.member Neon.bindT
     Neon.liftT Neon.retT Neon.throw Neon.setLastVideoTime
     Neon.setLastDetectedGesture Neon.setIsFrozen Neon.setTargetOffset
     getOwn setOwn emit Date_now];
  cbn [fst snd negb andb nth_error ownRefs trace beatRefs particlesRef randomCalls
       clockCalls Neon.isFrozenRef Neon.lastVideoTimeRef Neon.lastDetectedGestureRef
       Neon.cameraOffsetRef Neon.targetOffsetRef Neon.available Neon.currentTime
       Neon.recognition Neon.gestures Neon.landmarks].

Ltac split_tests :=
  repeat (match goal with
          | |- context [if ?c then _ else _] => destruct c eqn:?
          | |- context [match ?x with Some _ => _ | None => _ end] => destruct x eqn:?
          end; run_gestures).

Lemma detectGestures_flag h (v : Neon.Video) (w : World Neon.NeonParticle Neon.GestureRefs) :
  let w' := exec (Neon.detectGestures h v) w in
  (processed v w = true -> open_palm v = true -> Neon.isFrozenRef (ownRefs w') = true) /\
  (processed v w = true -> clears_freeze v = true -> Neon.isFrozenRef (ownRefs w') = false) /\
  (clears_freeze v = false -> Neon.isFrozenRef (ownRefs w) = true ->
   Neon.isFrozenRef (ownRefs w') = true) /\
  particlesRef w' = particlesRef w /\
  beatRefs w' = beatRefs w /\
  spawnCalls (trace w') = spawnCalls (trace w).
Proof.
  intro w'. subst w'.
  destruct v as [av ct rc]. unfold processed, open_palm, clears_freeze.
  cbn [Neon.available Neon.currentTime Neon.recognition].
  destruct av; [| run_gestures; repeat split; intros; try discriminate; assumption].
  destruct (Qeq_bool ct (Neon.lastVideoTimeRef (ownRefs w))) eqn:Et.
  { run_gestures. rewrite Et.
    repeat split; intros; try discriminate; assumption. }
  destruct rc as [| [gs lms]].
  { run_gestures. rewrite Et. run_gestures.
    repeat split; intros; try discriminate; assumption. }
  destruct gs as [| [| top others] rest].
  - run_gestures. rewrite Et. run_gestures. split_tests.
    all: repeat split; intros; try discriminate; try reflexivity.
    all: rewrite spawnCalls_app; apply app_nil_r.
  - run_gestures. rewrite Et. run_gestures.
    repeat split; intros; try discriminate; assumption.
  - run_gestures. rewrite Et. run_gestures. split_tests.
    all: repeat split; intros; try discriminate; try reflexivity.
    all: rewrite spawnCalls_app; apply app_nil_r.
Qed.

(** One iteration of the particle pass of a frozen frame: what it paints. *)
Lemma neon_frozen_iteration h energy ox oy
      (w : World Neon.NeonParticle Neon.GestureRefs) pre p0 suf :
  Neon.isFrozenRef (ownRefs w) = true ->
  particlesRef w = pre ++ p0 :: suf ->
  exists events,
    trace (exec (Neon.renderParticle h energy ox oy (List.length pre)) w)
    = trace w ++ events /\
    spawnCalls events = [] /\
    (alive (Neon.base p0) = true -> -800 < Particle.z (Neon.base p0) ->
     exists e, In e events /\ shows ox oy p0 e).
Proof.
  intros Hf Hps.
  pose proof (neon_renderParticle_trace h energy ox oy w pre p0 suf Hps) as T.
  cbv zeta in T. rewrite Hf in T. change (neonStep true energy p0) with p0 in T.
  eexists. split; [exact T |].
  destruct (alive (Neon.base p0)).
  - destruct (perspective_cases p0) as (Hfront & _ & _). cbv zeta in Hfront.
    destruct (Neon.perspective p0) as [scale |] eqn:E.
    + destruct (gtb scale 0) eqn:G.
      * split; [reflexivity |]. intros _ _. eexists. split; [left; reflexivity |].
        cbn [shows]. rewrite E. repeat split.
      * split; [reflexivity |]. intros _ Hz. destruct (Hfront Hz) as [E' G'].
        injection E' as E'. rewrite <- E' in G'. congruence.
    + split; [reflexivity |]. intros _ Hz. destruct (Hfront Hz) as [E' _]. discriminate E'.
  - split; [reflexivity |]. intro H; discriminate H.
Qed.

(** The particle pass of a frozen frame: the collection loses only the
    particles without life, and every particle with life in front of the
    viewer is painted. *)
Lemma neon_frozen_loop h energy ox oy :
  forall n (w : World Neon.NeonParticle Neon.GestureRefs) pre suf,
    Neon.isFrozenRef (ownRefs w) = true ->
    particlesRef w = pre ++ suf ->
    List.length pre = n ->
    exists events,
      trace (exec (down_loop n (Neon.renderParticle h energy ox oy)) w)
      = trace w ++ events /\
      spawnCalls events = [] /\
      (forall p, In p pre ->
         alive (Neon.base p) = true -> -800 < Particle.z (Neon.base p) ->
         exists e, In e events /\ shows ox oy p e).
Proof.
  induction n as [| n IH]; intros w pre suf Hf Hps Hlen.
  - destruct pre; [| discriminate].
    exists []. split; [symmetry; apply app_nil_r |]. split; [reflexivity |].
    intros p [].
  - destruct (list_last_split pre n Hlen) as (pre' & p0 & -> & Hlen').
    cbn [down_loop]. rewrite exec_bind.
    rewrite <- app_assoc in Hps. cbn [app] in Hps.
    destruct (neon_frozen_iteration h energy ox oy w pre' p0 suf Hf Hps)
      as (ev1 & T1 & S1 & D1).
    destruct (neon_renderParticle_pass h energy ox oy true w pre' p0 suf Hf Hps)
      as [Hf1 Hps1].
    rewrite Hlen' in T1, Hf1, Hps1.
    destruct (IH _ pre' _ Hf1 Hps1 Hlen') as (ev2 & T2 & S2 & D2).
    exists (ev1 ++ ev2).
    split; [rewrite T2, T1, app_assoc; reflexivity |].
    split; [rewrite spawnCalls_app, S1, S2; reflexivity |].
    intros p Hin Ha Hv. apply in_app_or in Hin. destruct Hin as [Hin | [<- | []]].
    + destruct (D2 p Hin Ha Hv) as (e & He & Hs).
      exists e. split; [apply in_or_app; right; exact He | exact Hs].
    + destruct (D1 Ha Hv) as (e & He & Hs).
      exists e. split; [apply in_or_app; left; exact He | exact Hs].
Qed.

Lemma neon_particlePass_frozen h energy ox oy
      (w : World Neon.NeonParticle Neon.GestureRefs) :
  Neon.isFrozenRef (ownRefs w) = true ->
  let w' := exec (Neon.particlePass h energy ox oy) w in
  particlesRef w' = filter (fun p => alive (Neon.base p)) (particlesRef w) /\
  Neon.isFrozenRef (ownRefs w') = true /\
  beatRefs w' = beatRefs w /\
  exists events,
    trace w' = trace w ++ events /\
    spawnCalls events = [] /\
    (forall p, In p (particlesRef w) ->
       alive (Neon.base p) = true -> -800 < Particle.z (Neon.base p) ->
       exists e, In e events /\ shows ox oy p e).
Proof.
  intros Hf w'. subst w'.
  split.
  { rewrite (neon_particlePass_particles h energy ox oy true w Hf).
    f_equal. apply map_id. }
  unfold Neon.particlePass. rewrite exec_bind.
  change (eval getParticles w) with (particlesRef w). change (exec getParticles w) with w.
  split.
  { exact (proj1 (down_loop_pass (Neon.renderParticle h energy ox oy)
              (neonStep true energy) (fun p => alive (Neon.base p))
              (fun w => Neon.isFrozenRef (ownRefs w) = true)
              (fun w0 pre p0 suf => neon_renderParticle_pass h energy ox oy true w0 pre p0 suf)
              (List.length (particlesRef w)) w (particlesRef w) [] Hf
              (eq_sym (app_nil_r _)) eq_refl)). }
  split.
  { pose proof (outside_neon_particlePass h energy ox oy w) as [B _].
    unfold Neon.particlePass in B. rewrite exec_bind in B. exact B. }
  destruct (neon_frozen_loop h energy ox oy (List.length (particlesRef w)) w
              (particlesRef w) [] Hf (eq_sym (app_nil_r _)) eq_refl)
    as (events & T & S & D).
  exists events. split; [exact T |]. split; [exact S |].
  intros p Hin Ha Hz. exact (D p Hin Ha Hz).
Qed.

Lemma neon_beforeAudio_facts h input (w : World Neon.NeonParticle Neon.GestureRefs) :
  let w0 := exec (Neon.detectGestures h (Neon.video input)) w in
  let w1 := exec (Neon.beforeAudio h input) w in
  Neon.isFrozenRef (ownRefs w1) = Neon.isFrozenRef (ownRefs w0) /\
  particlesRef w1 = particlesRef w0 /\
  trace w1 = trace w0 ++ [FillRect].
Proof.
  intros w0 w1. subst w0 w1. unfold Neon.beforeAudio.
  rewrite exec_bind, exec_bind. repeat split.
Qed.

Lemma detectGestures_grows h (v : Neon.Video) (w : World Neon.NeonParticle Neon.GestureRefs) :
  exists events,
    trace (exec (Neon.detectGestures h v) w) = trace w ++ events /\
    spawnCalls events = [].
Proof.
  destruct v as [av ct rc].
  destruct av;
    [| run_gestures; exists []; split; [symmetry; apply app_nil_r | reflexivity]].
  destruct (Qeq_bool ct (Neon.lastVideoTimeRef (ownRefs w))) eqn:Et.
  { run_gestures. rewrite Et.
    exists []. split; [symmetry; apply app_nil_r | reflexivity]. }
  destruct rc as [| [gs lms]].
  { run_gestures. rewrite Et. run_gestures.
    exists []. split; [symmetry; apply app_nil_r | reflexivity]. }
  destruct gs as [| [| top others] rest].
  - run_gestures. rewrite Et. run_gestures. split_tests.
    all: first [ exists []; split; [symmetry; apply app_nil_r | reflexivity]
               | eexists; split; reflexivity ].
  - run_gestures. rewrite Et. run_gestures.
    exists []. split; [symmetry; apply app_nil_r | reflexivity].
  - run_gestures. rewrite Et. run_gestures. split_tests.
    all: first [ exists []; split; [symmetry; apply app_nil_r | reflexivity]
               | eexists; split; reflexivity ].
Qed.

(** A frame of the neon component whose freeze flag is set when it reaches
    the audio block. *)
Lemma neon_frozen_frame h input (w : World Neon.NeonParticle Neon.GestureRefs) :
  let w1 := exec (Neon.beforeAudio h input) w in
  let w' := exec (Neon.render h input) w in
  let ox := innerWidth h / 2 + Point.x (Neon.cameraOffsetRef (ownRefs w1)) in
  let oy := innerHeight h / 2 + Point.y (Neon.cameraOffsetRef (ownRefs w1)) in
  Neon.isFrozenRef (ownRefs w1) = true ->
  particlesRef w' = filter (fun p => alive (Neon.base p)) (particlesRef w) /\
  Neon.isFrozenRef (ownRefs w') = true /\
  beatRefs w' = beatRefs w /\
  exists events,
    trace w' = trace w ++ events /\
    spawnCalls events = [] /\
    (forall p, In p (particlesRef w) ->
       alive (Neon.base p) = true -> -800 < Particle.z (Neon.base p) ->
       exists e, In e events /\ shows ox oy p e).
Proof.
  intros w1 w' ox oy Hf.
  destruct (neon_beforeAudio_facts h input w) as (F1 & P1 & T1). fold w1 in F1, P1, T1.
  destruct (detectGestures_flag h (Neon.video input) w) as (_ & _ & _ & P0 & B0 & _).
  destruct (detectGestures_grows h (Neon.video input) w) as (ev0 & T0 & S0).
  assert (B1 : beatRefs w1 = beatRefs w).
  { exact (proj1 (outside_neon_beforeAudio h input w)). }
  assert (E : w' = exec (Neon.particlePass h (eval (Neon.audioBlock h (Neon.audio input)) w1)
                           ox oy) w1).
  { subst w'. unfold Neon.render. rewrite exec_bind. fold w1.
    rewrite exec_bind.
    rewrite (neon_audioBlock_idle h (Neon.audio input) w1 (or_intror Hf)).
    rewrite exec_bind. reflexivity. }
  destruct (neon_particlePass_frozen h (eval (Neon.audioBlock h (Neon.audio input)) w1)
              ox oy w1 Hf) as (Pp & Fp & Bp & events & Tp & Sp & Dp).
  rewrite <- E in Pp, Fp, Bp, Tp.
  split; [rewrite Pp, P1, P0; reflexivity |].
  split; [exact Fp |].
  split; [rewrite Bp; exact B1 |].
  exists (ev0 ++ [FillRect] ++ events).
  split; [rewrite Tp, T1, T0, <- !app_assoc; reflexivity |].
  split; [rewrite !spawnCalls_app, S0, Sp; reflexivity |].
  intros p Hin Ha Hz.
  rewrite <- P0, <- P1 in Hin.
  destruct (Dp p Hin Ha Hz) as (e & He & Hs).
  exists e. split; [| exact Hs].
  apply in_or_app. right. apply in_or_app. right. exact He.
Qed.

Lemma filter_idem {A} (f : A -> bool) (l : list A) : filter f (filter f l) = filter f l.
Proof.
  induction l as [| a l IH]; [reflexivity |].
  cbn [filter]. destruct (f a) eqn:E; [cbn [filter]; rewrite E, IH; reflexivity | exact IH].
Qed.

Lemma neon_flag_after_beforeAudio h input (w : World Neon.NeonParticle Neon.GestureRefs) :
  let w1 := exec (Neon.beforeAudio h input) w in
  (processed (Neon.video input) w = true -> open_palm (Neon.video input) = true ->
   Neon.isFrozenRef (ownRefs w1) = true) /\
  (processed (Neon.video input) w = true -> clears_freeze (Neon.video input) = true ->
   Neon.isFrozenRef (ownRefs w1) = false) /\
  (clears_freeze (Neon.video input) = false -> Neon.isFrozenRef (ownRefs w) = true ->
   Neon.isFrozenRef (ownRefs w1) = true).
Proof.
  intro w1.
  destruct (neon_beforeAudio_facts h input w) as (F1 & _). fold w1 in F1.
  destruct (detectGestures_flag h (Neon.video input) w) as (A & B & C & _).
  rewrite F1. repeat split; assumption.
Qed.

Lemma filter_all {A} (f : A -> bool) (l : list A) :
  Forall (fun a => f a = true) l -> filter f l = l.
Proof.
  induction 1 as [| a l Ha _ IH]; [reflexivity |].
  cbn [filter]. rewrite Ha, IH. reflexivity.
Qed.

(** Frames that bring no releasing detection keep a frozen scene frozen. *)
Lemma neon_frozen_run h inputs :
  forall w : World Neon.NeonParticle Neon.GestureRefs,
    Neon.isFrozenRef (ownRefs w) = true ->
    Forall (fun p => alive (Neon.base p) = true) (particlesRef w) ->
    (forall input, In input inputs -> clears_freeze (Neon.video input) = false) ->
    Neon.isFrozenRef (ownRefs (exec (Neon.run h inputs) w)) = true /\
    particlesRef (exec (Neon.run h inputs) w) = particlesRef w /\
    beatRefs (exec (Neon.run h inputs) w) = beatRefs w /\
    spawnCalls (trace (exec (Neon.run h inputs) w)) = spawnCalls (trace w).
Proof.
  unfold Neon.run.
  induction inputs as [| input inputs IH]; intros w Hf Hlive Hin.
  - cbn [for_of]. rewrite exec_ret. split; [exact Hf | repeat split].
  - cbn [for_of]. rewrite exec_bind.
    assert (Hf1 : Neon.isFrozenRef (ownRefs (exec (Neon.beforeAudio h input) w)) = true).
    { apply (neon_flag_after_beforeAudio h input w); [| exact Hf].
      apply Hin. left. reflexivity. }
    destruct (neon_frozen_frame h input w Hf1) as (P1 & F1 & B1 & events & T1 & S1 & _).
    rewrite (filter_all _ _ Hlive) in P1.
    assert (Hlive1 : Forall (fun p => alive (Neon.base p) = true)
                       (particlesRef (exec (Neon.render h input) w))).
    { rewrite P1. exact Hlive. }
    destruct (IH _ F1 Hlive1 (fun i Hi => Hin i (or_intror Hi))) as (F2 & P2 & B2 & S2).
    split; [exact F2 |].
    split; [rewrite P2; exact P1 |].
    split; [rewrite B2; exact B1 |].
    rewrite S2, T1, spawnCalls_app, S1. apply app_nil_r.
Qed.

(** *** Depth of the neon particles *)

Lemma in_view_in_front (p : Particle.t) : in_view p -> -800 < Particle.z p.
Proof. intros [Hz _]. lra. Qed.

Lemma neon_physics_in_view (energy : Q) (p : Neon.NeonParticle) :
  in_view (Neon.base p) -> in_view (Neon.base (Neon.physics energy p)).
Proof.
  unfold in_view, Neon.physics. cbn [Neon.base Particle.z Particle.vz].
  intros [Hz Hv]. rewrite Hv. unfold FRICTION. split; [lra | ring].
Qed.

Lemma neon_emitPoint_in_view h sx sy sz hue scale speed skip cosA sinA pt :
  -200 <= sz < 200 ->
  stable (appends (fun p => in_view (Neon.base p)))
         (Neon.emitPoint h sx sy sz hue scale speed skip cosA sinA pt).
Proof.
  intro Hsz.
  set (R := @appends Neon.NeonParticle Neon.GestureRefs (fun p => in_view (Neon.base p))).
  assert (Hr : forall w, R w w) by (intro; apply appends_refl).
  assert (Ht : forall a b c, R a b -> R b c -> R a c) by (intros a b c; apply appends_trans).
  assert (Hrand : stable R (Math_random h)) by (apply appends_same; reflexivity).
  assert (Hshard : forall size, stable R (Neon.createShard h size)).
  { intro size. apply (neon_createShard_stable h R Hr Ht Hrand). }
  assert (Hpush : forall p, in_view (Neon.base p) -> stable R (push p)).
  { intros p Hp. apply appends_push. exact Hp. }
  unfold Neon.emitPoint.
  apply (stable_bind _ Ht); [destruct (gtb skip 0); stable_auto Hr Ht | intro skipped].
  destruct skipped; [apply (stable_ret _ Hr) |].
  repeat (first [ apply Hpush | exact Hrand | apply Hshard | stable_step Hr Ht ]).
  split; cbn [Neon.base Particle.z Particle.vz]; [exact Hsz | ring].
Qed.

(** Every particle [spawnNeonSnowflake] adds is within 200 of the origin in
    depth and does not move in depth. *)
Lemma neon_spawn_in_view h type intensity (w : Neon.State) :
  random_unit h ->
  appends (fun p => in_view (Neon.base p)) w
          (exec (Neon.spawnNeonSnowflake h type intensity) w).
Proof.
  intro Hu.
  set (R := @appends Neon.NeonParticle Neon.GestureRefs (fun p => in_view (Neon.base p))).
  assert (Hr : forall w, R w w) by (intro; apply appends_refl).
  assert (Ht : forall a b c, R a b -> R b c -> R a c) by (intros a b c; apply appends_trans).
  assert (Hrand : stable R (Math_random h)) by (apply appends_same; reflexivity).
  assert (Hnow : stable R (Date_now h)) by (apply appends_same; reflexivity).
  assert (Hget : stable R getParticles) by (apply appends_same; reflexivity).
  assert (Hset : forall t, stable R (setLastSpawnTime t))
    by (intro; apply appends_same; reflexivity).
  assert (Hemit : forall e, stable R (emit e)) by (intro; apply appends_same; reflexivity).
  revert w. change (stable R (Neon.spawnNeonSnowflake h type intensity)).
  unfold Neon.spawnNeonSnowflake.
  apply (stable_bind _ Ht); [apply Hemit | intros _].
  apply (stable_bind _ Ht); [exact Hget | intro ps].
  destruct (Z.of_nat (List.length ps) >? 2000)%Z; [apply (stable_ret _ Hr) |].
  apply (stable_bind _ Ht); [exact Hnow | intro t].
  apply (stable_bind _ Ht); [apply Hset | intros _]. cbv zeta.
  apply (stable_bind _ Ht); [exact Hrand | intro r1].
  apply (stable_bind _ Ht); [exact Hrand | intro r2].
  apply (stable_bind_post R (fun r => 0 <= r < 1)); [exact Ht | exact Hrand | |].
  { intro w. exact (Hu (randomCalls w)). }
  intros r3 Hr3.
  assert (Hz : -200 <= (r3 - 0.5) * 400 < 200) by lra.
  pose proof (fun sx sy hue scale speed skip cosA sinA pt =>
                neon_emitPoint_in_view h sx sy _ hue scale speed skip cosA sinA pt Hz)
    as Hpoint.
  pose proof (neon_blueprint_stable h R Hr Ht Hrand) as Hbp.
  stable_auto Hr Ht.
Qed.

(** C8. In the neon variant an open-palm detection that the frame processes
    sets the freeze flag, and the flag stays set on every later frame until
    a non-palm or empty detection is processed.  On every frame whose flag
    is set when it reaches the audio block, the particles with life are left
    exactly as they were (position, velocity, angle and life included), no
    spawn call is made, the beat refs are untouched, and every particle with
    life in front of the viewer is painted at its position; over any number
    of such frames the collection stays as it is.  Every particle of the
    component is in front of the viewer: it is spawned within 200 of the
    origin in depth and never moves in depth. *)
Theorem freeze_holds_the_scene (h : Host) (input : Neon.FrameInput)
    (later : list Neon.FrameInput) (w : Neon.State) :
  let w1 := exec (Neon.beforeAudio h input) w in
  let w' := exec (Neon.render h input) w in
  let ox := innerWidth h / 2 + Point.x (Neon.cameraOffsetRef (ownRefs w1)) in
  let oy := innerHeight h / 2 + Point.y (Neon.cameraOffsetRef (ownRefs w1)) in
  (* setting, keeping and clearing the flag *)
  (processed (Neon.video input) w = true -> open_palm (Neon.video input) = true ->
   Neon.isFrozenRef (ownRefs w1) = true) /\
  (Neon.isFrozenRef (ownRefs w) = true -> clears_freeze (Neon.video input) = false ->
   Neon.isFrozenRef (ownRefs w1) = true) /\
  (processed (Neon.video input) w = true -> clears_freeze (Neon.video input) = true ->
   Neon.isFrozenRef (ownRefs w1) = false) /\
  (* a frame with the flag set *)
  (Neon.isFrozenRef (ownRefs w1) = true ->
   particlesRef w' = filter (fun p => alive (Neon.base p)) (particlesRef w) /\
   Neon.isFrozenRef (ownRefs w') = true /\
   beatRefs w' = beatRefs w /\
   exists events,
     trace w' = trace w ++ events /\
     spawnCalls events = [] /\
     (forall p, In p (particlesRef w) ->
        alive (Neon.base p) = true -> -800 < Particle.z (Neon.base p) ->
        exists e, In e events /\ shows ox oy p e)) /\
  (* the frames after it *)
  (Neon.isFrozenRef (ownRefs w) = true ->
   Forall (fun p => alive (Neon.base p) = true) (particlesRef w) ->
   (forall i, In i later -> clears_freeze (Neon.video i) = false) ->
   Neon.isFrozenRef (ownRefs (exec (Neon.run h later) w)) = true /\
   particlesRef (exec (Neon.run h later) w) = particlesRef w /\
   beatRefs (exec (Neon.run h later) w) = beatRefs w /\
   spawnCalls (trace (exec (Neon.run h later) w)) = spawnCalls (trace w)) /\
  (* every particle the component holds is in front of the viewer *)
  ((random_unit h ->
    forall type intensity (w0 : Neon.State),
      appends (fun p => in_view (Neon.base p)) w0
              (exec (Neon.spawnNeonSnowflake h type intensity) w0)) /\
   (forall energy p, in_view (Neon.base p) -> in_view (Neon.base (Neon.physics energy p))) /\
   (forall p, in_view p -> -800 < Particle.z p)).
Proof.
  intros w1 w' ox oy.
  destruct (neon_flag_after_beforeAudio h input w) as (A & B & C).
  split; [exact A |].
  split; [intros Hf Hc; exact (C Hc Hf) |].
  split; [exact B |].
  split; [apply neon_frozen_frame |].
  split; [apply neon_frozen_run |].
  split; [intros Hu type intensity w0; apply neon_spawn_in_view; exact Hu |].
  split; [apply neon_physics_in_view | apply in_view_in_front].
Qed.

(** An open palm in front of the demo scene: the shard stays where it is,
    also over two further frames without a camera. *)
Lemma freeze_holds_the_scene_witness :
  let input := {| Neon.video := Demo.palm; Neon.audio := Some Demo.burst |} in
  let idle := {| Neon.video := Demo.noVideo; Neon.audio := Some Demo.burst |} in
  let w' := exec (Neon.render Demo.host input) Demo.scene in
  particlesRef w' = [Demo.shard] /\
  particlesRef (exec (Neon.run Demo.host [idle; idle]) w') = [Demo.shard].
Proof.
  intros input idle w'.
  pose proof (freeze_holds_the_scene Demo.host input [idle; idle] Demo.scene) as H.
  cbv zeta in H. destruct H as (Hset & _ & _ & Hframe & _).
  specialize (Hset eq_refl eq_refl).
  destruct (Hframe Hset) as (Hp & Hf & _).
  fold w' in Hp, Hf.
  assert (E : particlesRef w' = [Demo.shard]).
  { rewrite Hp. vm_compute. reflexivity. }
  split; [exact E |].
  pose proof (freeze_holds_the_scene Demo.host input [idle; idle] w') as H2.
  cbv zeta in H2. destruct H2 as (_ & _ & _ & _ & Hrun & _).
  assert (Hlive : Forall (fun p => alive (Neon.base p) = true) (particlesRef w')).
  { rewrite E. repeat constructor. }
  assert (Hidle : forall i, In i [idle; idle] -> clears_freeze (Neon.video i) = false).
  { intros i [<- | [<- | []]]; reflexivity. }
  destruct (Hrun Hf Hlive Hidle) as (_ & Hp2 & _).
  rewrite Hp2. exact E.
Defined.

(** A neon collection of 2001 shards and a classic one of 4001 flakes: the
    next spawn call adds nothing to either; the classic call still records
    the time. *)
Lemma spawn_when_full_witness :
  let wn : Neon.State :=
    mkWorld initialBeatRefs (repeat Demo.shard 2001)
      (Neon.mkGestureRefs (-1) "None" false (Point.mk 0 0) (Point.mk 0 0)) 0 0 [] in
  let wc : Classic.State :=
    mkWorld initialBeatRefs (repeat (Neon.base Demo.shard) 4001) (Point.mk 0 0) 0 0 [] in
  exec (Neon.spawnNeonSnowflake Demo.host bass 1) wn = exec (emit (SpawnCall bass 1)) wn /\
  particlesRef (exec (Classic.spawnSnowflake Demo.host bass 1) wc) = particlesRef wc /\
  lastSpawnTimeRef (beatRefs (exec (Classic.spawnSnowflake Demo.host bass 1) wc))
  = clock Demo.host 0.
Proof.
  intros wn wc.
  destruct (spawn_when_full Demo.host bass 1 wn wc) as (Hn & _ & Hc & Ht & _).
  split; [| split].
  - apply Hn. subst wn. cbn [particlesRef]. rewrite repeat_length. lia.
  - apply Hc. subst wc. cbn [particlesRef]. rewrite repeat_length. lia.
  - exact Ht.
Defined.

(** * Further properties *)

(** ** Further facts on the spectrum analyser *)

Lemma inject_Z_nonzero (n : Z) : n <> 0%Z -> ~ inject_Z n == 0.
Proof.
  intros Hn E. apply Hn. apply inject_Z_injective. exact E.
Qed.

(** A sum divided by [or_one] of a count, times the count, is the sum again
    when a zero count comes with a zero sum. *)
Lemma or_one_quotient (s n : Z) :
  (0 <= n)%Z -> (n = 0%Z -> s = 0%Z) ->
  inject_Z s / inject_Z (or_one n) * inject_Z n == inject_Z s.
Proof.
  intros Hn H0. unfold or_one.
  destruct (Z.eqb_spec n 0) as [-> | Hnz].
  - rewrite (H0 eq_refl). reflexivity.
  - field. apply inject_Z_nonzero. exact Hnz.
Qed.

Lemma sumZ_nil_slice (l : list Z) (a : Z) : sumZ (slice a a l) = 0%Z.
Proof. unfold slice. rewrite Z.sub_diag. reflexivity. Qed.

(** X1. The total energy is the weighted mean of the band energies.  For
    a non-empty buffer, [energy] times the number of bins is the sum of the
    three band energies, each times the number of bins of its range: the
    bands account for every bin exactly once, an empty range counting for
    nothing. *)
Theorem analyzeAudio_energy_decomposition (dataArray : list Z) :
  dataArray <> [] ->
  let length := lengthZ dataArray in
  let bassEnd := Math_floor (inject_Z length * 0.06) in
  let midEnd := Math_floor (inject_Z length * 0.40) in
  let a := analyzeAudio dataArray in
  energy a * inject_Z length ==
    bassEnergy a * inject_Z bassEnd
    + midEnergy a * inject_Z (midEnd - bassEnd)
    + trebleEnergy a * inject_Z (length - midEnd).
Proof.
  intros Hne length bassEnd midEnd a.
  assert (Hlen : (1 <= length)%Z).
  { subst length. unfold lengthZ. destruct dataArray; [congruence | cbn [List.length]; lia]. }
  destruct (band_ends length Hlen) as [[Hb Hm] Hl].
  fold (Math_floor (inject_Z length * 0.06)) in Hb, Hm. 
  change (bassEndOf length) with bassEnd in Hb, Hm.
  change (midEndOf length) with midEnd in Hm, Hl.
  assert (Hloop := analyzeLoop_slices dataArray bassEnd midEnd (conj Hb Hm)
                     (Z.lt_le_incl _ _ Hl)).
  fold length in Hloop.
  destruct (slice_partition bassEnd midEnd dataArray (conj Hb Hm) (Z.lt_le_incl _ _ Hl))
    as (Hp & L1 & L2 & L3).
  fold length in Hp, L3.
  pose proof (f_equal sumZ Hp) as Hs. rewrite !sumZ_app in Hs.
  subst a. unfold analyzeAudio. cbv zeta.
  change (Z.of_nat (List.length dataArray)) with length.
  change (bassEndOf length) with bassEnd. change (midEndOf length) with midEnd.
  rewrite Hloop. cbn [energy bassEnergy midEnergy trebleEnergy totalSum bassSum midSum trebleSum].
  rewrite (or_one_quotient (sumZ (slice 0 bassEnd dataArray)) bassEnd).
  2: lia. 2: intros ->; apply sumZ_nil_slice.
  rewrite (or_one_quotient (sumZ (slice bassEnd midEnd dataArray)) (midEnd - bassEnd)).
  2: lia. 2: { intro E. replace midEnd with bassEnd by lia. apply sumZ_nil_slice. }
  rewrite (or_one_quotient (sumZ (slice midEnd length dataArray)) (length - midEnd)).
  2: lia. 2: lia.
  rewrite <- Hs, !inject_Z_plus.
  field. apply inject_Z_nonzero. lia.
Qed.

Lemma analyzeAudio_energy_decomposition_witness :
  let a := analyzeAudio Demo.burst in
  energy a * 100 == bassEnergy a * 6 + midEnergy a * 34 + trebleEnergy a * 60.
Proof.
  intro a.
  pose proof (analyzeAudio_energy_decomposition Demo.burst
                ltac:(vm_compute; discriminate)) as H.
  cbv zeta in H. exact H.
Defined.

(** The floor of [x] is [k] when [k <= x < k + 1]. *)
Lemma Qfloor_unique (x : Q) (k : Z) :
  inject_Z k <= x -> x < inject_Z k + 1 -> Qfloor x = k.
Proof.
  intros Hlo Hhi.
  pose proof (Qfloor_le x) as F1. pose proof (Qlt_floor x) as F2.
  rewrite inject_Z_plus in F2. change (inject_Z 1) with 1 in F2.
  assert (A : (Qfloor x < k + 1)%Z).
  { rewrite Zlt_Qlt, inject_Z_plus. change (inject_Z 1) with 1. lra. }
  assert (B : (k < Qfloor x + 1)%Z).
  { rewrite Zlt_Qlt, inject_Z_plus. change (inject_Z 1) with 1. lra. }
  lia.
Qed.

Lemma bassEnd_zero (n : Z) : (1 <= n)%Z -> ((n <= 16)%Z <-> bassEndOf n = 0%Z).
Proof.
  intro Hn. unfold bassEndOf, Math_floor.
  assert (Hq : 1 <= inject_Z n).
  { change 1 with (inject_Z 1). rewrite <- Zle_Qle. exact Hn. }
  split.
  - intro H. apply Qfloor_unique.
    + change (inject_Z 0) with 0. lra.
    + assert (inject_Z n <= 16).
      { change 16 with (inject_Z 16). rewrite <- Zle_Qle. exact H. }
      change (inject_Z 0) with 0. lra.
  - intro E. pose proof (Qlt_floor (inject_Z n * 0.06)) as F. rewrite E in F.
    change (inject_Z (0 + 1)) with 1 in F.
    destruct (Z.le_gt_cases n 16) as [L | G]; [exact L | exfalso].
    assert (17 <= inject_Z n).
    { change 17 with (inject_Z 17). rewrite <- Zle_Qle. lia. }
    lra.
Qed.

Lemma midEnd_bassEnd (n : Z) : (1 <= n)%Z -> ((n <= 2)%Z <-> midEndOf n = bassEndOf n).
Proof.
  intro Hn. unfold midEndOf, bassEndOf, Math_floor.
  assert (Hq : 1 <= inject_Z n).
  { change 1 with (inject_Z 1). rewrite <- Zle_Qle. exact Hn. }
  split.
  - intro H.
    assert (inject_Z n <= 2).
    { change 2 with (inject_Z 2). rewrite <- Zle_Qle. exact H. }
    rewrite (Qfloor_unique (inject_Z n * 0.40) 0), (Qfloor_unique (inject_Z n * 0.06) 0);
      change (inject_Z 0) with 0; try lra. reflexivity.
  - intro E.
    pose proof (Qlt_floor (inject_Z n * 0.40)) as F. rewrite E in F.
    pose proof (Qfloor_le (inject_Z n * 0.06)) as G.
    rewrite inject_Z_plus in F. change (inject_Z 1) with 1 in F.
    destruct (Z.le_gt_cases n 2) as [L | G']; [exact L | exfalso].
    assert (3 <= inject_Z n).
    { change 3 with (inject_Z 3). rewrite <- Zle_Qle. lia. }
    lra.
Qed.

(** X2. Edge ranges of the analyser.  For a non-empty buffer the treble
    range is never empty; the bass range is empty exactly when the buffer has
    at most 16 bins and the mid range exactly when it has at most 2; an
    empty range reports energy 0, and with both empty the treble energy is
    the total energy. *)
Theorem analyzeAudio_short_buffers (dataArray : list Z) :
  dataArray <> [] ->
  let length := lengthZ dataArray in
  let a := analyzeAudio dataArray in
  (midEndOf length < length)%Z /\
  ((length <= 16)%Z <-> bassEndOf length = 0%Z) /\
  ((length <= 2)%Z <-> midEndOf length = bassEndOf length) /\
  ((length <= 16)%Z -> bassEnergy a == 0) /\
  ((length <= 2)%Z -> midEnergy a == 0 /\ trebleEnergy a == energy a).
Proof.
  intros Hne length a.
  assert (Hlen : (1 <= length)%Z).
  { subst length. unfold lengthZ. destruct dataArray; [congruence | cbn [List.length]; lia]. }
  destruct (band_ends length Hlen) as [[Hb Hm] Hl].
  pose proof (bassEnd_zero length Hlen) as B0.
  pose proof (midEnd_bassEnd length Hlen) as M0.
  assert (Hloop := analyzeLoop_slices dataArray _ _ (conj Hb Hm) (Z.lt_le_incl _ _ Hl)).
  fold length in Hloop.
  assert (Ea : a = analyzeAudio dataArray) by reflexivity.
  unfold analyzeAudio in Ea. cbv zeta in Ea.
  change (Z.of_nat (List.length dataArray)) with length in Ea.
  rewrite Hloop in Ea. cbn [totalSum bassSum midSum trebleSum] in Ea.
  split; [exact Hl |]. split; [exact B0 |]. split; [exact M0 |].
  split.
  - intro H16. apply B0 in H16. rewrite Ea. cbn [bassEnergy].
    rewrite H16, sumZ_nil_slice. reflexivity.
  - intro H2. pose proof H2 as H2'. apply M0 in H2.
    assert (H16 : bassEndOf length = 0%Z) by (apply B0; lia).
    rewrite Ea. cbn [midEnergy trebleEnergy energy].
    rewrite H2, sumZ_nil_slice, H16. split; [reflexivity |].
    rewrite Z.sub_0_r.
    assert (Es : slice 0 length dataArray = dataArray).
    { unfold slice, length, lengthZ. rewrite Z.sub_0_r, Nat2Z.id. cbn [Z.to_nat skipn].
      apply firstn_all. }
    rewrite Es. unfold or_one.
    destruct (Z.eqb_spec length 0); [lia | reflexivity].
Qed.

Lemma analyzeAudio_short_buffers_witness :
  trebleEnergy (analyzeAudio [5; 7]%Z) == energy (analyzeAudio [5; 7]%Z).
Proof.
  pose proof (analyzeAudio_short_buffers [5; 7]%Z ltac:(discriminate)) as H.
  cbv zeta in H. destruct H as (_ & _ & _ & _ & H).
  apply H. vm_compute. discriminate.
Defined.

(** ** Quiet frames *)

Lemma sumZ_at_most (c : Z) (l : list Z) :
  Forall (at_most c) l -> (0 <= sumZ l <= c * lengthZ l)%Z.
Proof.
  unfold lengthZ, at_most.
  induction 1 as [| v l Hv _ IH]; cbn [sumZ fold_right List.length]; [lia |].
  fold (sumZ l). lia.
Qed.

Lemma average_at_most (c : Z) (l : list Z) :
  (0 <= c)%Z -> Forall (at_most c) l ->
  0 <= inject_Z (sumZ l) / inject_Z (or_one (lengthZ l)) <= inject_Z c.
Proof.
  intros Hc Hl. pose proof (sumZ_at_most c l Hl) as [Hlo Hhi].
  assert (Hd : (1 <= or_one (lengthZ l))%Z).
  { rewrite or_one_length. destruct l; [lia |]. unfold lengthZ. cbn [List.length]. lia. }
  assert (Hs : (sumZ l <= c * or_one (lengthZ l))%Z).
  { rewrite or_one_length. destruct l; [cbn in *; lia | exact Hhi]. }
  assert (Hdq : 0 < inject_Z (or_one (lengthZ l))).
  { change 0 with (inject_Z 0). rewrite <- Zlt_Qlt. lia. }
  split.
  - apply Qle_shift_div_l; [exact Hdq |].
    rewrite Qmult_0_l. change 0 with (inject_Z 0). rewrite <- Zle_Qle. exact Hlo.
  - apply Qle_shift_div_r; [exact Hdq |].
    rewrite <- inject_Z_mult, <- Zle_Qle. exact Hs.
Qed.

(** The four values of the analyser do not exceed the largest sample. *)
Lemma analyzeAudio_at_most (c : Z) (dataArray : list Z) :
  dataArray <> [] -> (0 <= c)%Z -> Forall (at_most c) dataArray ->
  let a := analyzeAudio dataArray in
  0 <= energy a <= inject_Z c /\ 0 <= bassEnergy a <= inject_Z c /\
  0 <= midEnergy a <= inject_Z c /\ 0 <= trebleEnergy a <= inject_Z c.
Proof.
  intros Hne Hc Hall a.
  set (length := lengthZ dataArray).
  assert (Hlen : (1 <= length)%Z).
  { subst length. unfold lengthZ. destruct dataArray; [congruence | cbn [List.length]; lia]. }
  destruct (band_ends length Hlen) as [[Hb Hm] Hl].
  assert (Hloop := analyzeLoop_slices dataArray _ _ (conj Hb Hm) (Z.lt_le_incl _ _ Hl)).
  fold length in Hloop.
  destruct (slice_partition _ _ dataArray (conj Hb Hm) (Z.lt_le_incl _ _ Hl))
    as (_ & L1 & L2 & L3).
  fold length in L3.
  assert (Ea : a = analyzeAudio dataArray) by reflexivity.
  unfold analyzeAudio in Ea. cbv zeta in Ea.
  change (Z.of_nat (List.length dataArray)) with length in Ea.
  rewrite Hloop in Ea. cbn [totalSum bassSum midSum trebleSum] in Ea.
  rewrite Ea. cbn [energy bassEnergy midEnergy trebleEnergy].
  pose proof (average_at_most c dataArray Hc Hall) as A0.
  pose proof (average_at_most c _ Hc (Forall_slice _ 0 (bassEndOf length) _ Hall)) as A1.
  pose proof (average_at_most c _ Hc
                (Forall_slice _ (bassEndOf length) (midEndOf length) _ Hall)) as A2.
  pose proof (average_at_most c _ Hc (Forall_slice _ (midEndOf length) length _ Hall)) as A3.
  rewrite L1 in A1. rewrite L2 in A2. rewrite L3 in A3.
  assert (E0 : or_one (lengthZ dataArray) = length).
  { fold length. unfold or_one. destruct (Z.eqb_spec length 0); [lia | reflexivity]. }
  rewrite E0 in A0.
  exact (conj A0 (conj A1 (conj A2 A3))).
Qed.

Lemma quiet_decision (dataArray : list Z) (b : BeatRefs) (t : Z) elapsed :
  dataArray <> [] -> Forall (at_most 10) dataArray ->
  specSpawnDecision elapsed b (analyzeAudio dataArray) t = [] /\
  bassFires b (analyzeAudio dataArray) = false /\
  midFires b (analyzeAudio dataArray) = false /\
  trebleFires b (analyzeAudio dataArray) = false.
Proof.
  intros Hne Hq.
  destruct (analyzeAudio_at_most 10 dataArray Hne ltac:(lia) Hq) as (He & Hb & Hm & Ht).
  cbv zeta in He, Hb, Hm, Ht. change (inject_Z 10) with 10 in *.
  assert (B : bassTest b (analyzeAudio dataArray) = false).
  { unfold bassTest, fires. apply andb_false_iff. right. apply gtb_false. lra. }
  assert (M : midTest b (analyzeAudio dataArray) = false).
  { unfold midTest, fires. apply andb_false_iff. right. apply gtb_false. lra. }
  assert (T : trebleTest b (analyzeAudio dataArray) = false).
  { unfold trebleTest, fires. apply andb_false_iff. right. apply gtb_false. lra. }
  assert (E : gtb (energy (analyzeAudio dataArray)) 10 = false).
  { apply gtb_false. lra. }
  unfold specSpawnDecision, bassFires, midFires, trebleFires.
  rewrite B, M, T, E, andb_false_r. repeat split; reflexivity.
Qed.

(** X3. A frame whose spectrum has no bin above 10 makes no spawn call, in
    either component and whatever the state of the detectors. *)
Theorem quiet_frame_spawns_nothing (h : Host) (video : Neon.Video) (dataArray : list Z)
    (wn : Neon.State) (wc : Classic.State) :
  dataArray <> [] ->
  Forall (at_most 10) dataArray ->
  spawnCalls (trace (exec (Neon.render h {| Neon.video := video;
                                             Neon.audio := Some dataArray |}) wn))
  = spawnCalls (trace wn) /\
  spawnCalls (trace (exec (Classic.render h (Some dataArray)) wc))
  = spawnCalls (trace wc).
Proof.
  intros Hne Hq. split.
  - set (input := {| Neon.video := video; Neon.audio := Some dataArray |}).
    destruct (Neon.isFrozenRef (ownRefs (exec (Neon.beforeAudio h input) wn))) eqn:Hf.
    + apply (neon_render_idle h input wn). right. exact Hf.
    + destruct (neon_render_active h video dataArray wn Hf) as [_ S].
      fold input in S. rewrite S.
      rewrite (proj1 (quiet_decision dataArray _ _ _ Hne Hq)). apply app_nil_r.
  - destruct (classic_render_active h dataArray wc) as [_ S].
    rewrite S.
    rewrite (proj1 (quiet_decision dataArray _ _ _ Hne Hq)). apply app_nil_r.
Qed.

Lemma quiet_frame_spawns_nothing_witness :
  spawnCalls (trace (exec (Classic.render Demo.host (Some [10; 3; 0; 7]%Z))
                          Classic.initialState)) = [].
Proof.
  apply (proj2 (quiet_frame_spawns_nothing Demo.host Demo.noVideo [10; 3; 0; 7]%Z
                  Neon.initialState Classic.initialState
                  ltac:(discriminate)
                  ltac:(repeat constructor; unfold at_most; lia))).
Defined.

(** ** The gesture refs over a frame *)

Lemma neon_particlePass_keeps_own h energy ox oy :
  stable (@keeps_own Neon.NeonParticle Neon.GestureRefs) (Neon.particlePass h energy ox oy).
Proof.
  pose proof (@keeps_own_refl Neon.NeonParticle Neon.GestureRefs) as Hr.
  pose proof (@keeps_own_trans Neon.NeonParticle Neon.GestureRefs) as Ht.
  assert (Hg : stable (@keeps_own Neon.NeonParticle Neon.GestureRefs) getParticles)
    by (intro; reflexivity).
  assert (Hs : forall ps, stable (@keeps_own Neon.NeonParticle Neon.GestureRefs)
                            (setParticles ps))
    by (intros ps w; reflexivity).
  assert (Ho : stable (@keeps_own Neon.NeonParticle Neon.GestureRefs) getOwn)
    by (intro; reflexivity).
  assert (Hn : stable (@keeps_own Neon.NeonParticle Neon.GestureRefs) (Math_random h))
    by (intro; reflexivity).
  assert (He : forall e, stable (@keeps_own Neon.NeonParticle Neon.GestureRefs) (emit e))
    by (intros e w; reflexivity).
  unfold Neon.particlePass, Neon.renderParticle.
  stable_auto Hr Ht.
Qed.

Lemma neon_audioBlock_keeps_own h audio (w : World Neon.NeonParticle Neon.GestureRefs) :
  ownRefs (exec (Neon.audioBlock h audio) w) = ownRefs w.
Proof.
  destruct audio as [dataArray |]; [| reflexivity].
  destruct (Neon.isFrozenRef (ownRefs w)) eqn:Hf.
  - rewrite (neon_audioBlock_idle h (Some dataArray) w (or_intror Hf)). reflexivity.
  - rewrite (proj1 (neon_audioBlock_active h dataArray w Hf)).
    exact (proj1 (proj2 (beatDetection_run h (Neon.spawnNeonSnowflake h)
                           (neon_spawn_frame h) (analyzeAudio dataArray) w))).
Qed.

(** The gesture refs at the end of a frame are those its first statements
    leave. *)
Lemma neon_render_own h input (w : World Neon.NeonParticle Neon.GestureRefs) :
  ownRefs (exec (Neon.render h input) w) = ownRefs (exec (Neon.beforeAudio h input) w).
Proof.
  unfold Neon.render. rewrite !exec_bind.
  etransitivity; [apply (neon_particlePass_keeps_own h) |].
  change (exec getOwn ?x) with x.
  apply neon_audioBlock_keeps_own.
Qed.

Lemma detectGestures_unavailable h v (w : World Neon.NeonParticle Neon.GestureRefs) :
  Neon.available v = false -> exec (Neon.detectGestures h v) w = w.
Proof. intro Ha. unfold Neon.detectGestures. rewrite Ha. reflexivity. Qed.

Lemma neon_flag_unavailable h input (w : World Neon.NeonParticle Neon.GestureRefs) :
  Neon.available (Neon.video input) = false ->
  Neon.isFrozenRef (ownRefs (exec (Neon.beforeAudio h input) w))
  = Neon.isFrozenRef (ownRefs w) /\
  Neon.isFrozenRef (ownRefs (exec (Neon.render h input) w))
  = Neon.isFrozenRef (ownRefs w).
Proof.
  intro Ha.
  destruct (neon_beforeAudio_facts h input w) as (F & _).
  rewrite (detectGestures_unavailable h _ w Ha) in F.
  split; [exact F |]. rewrite neon_render_own. exact F.
Qed.

(** ** The detectors over a run of frames *)

Lemma neon_unavailable_frame h v dataArray (w : World Neon.NeonParticle Neon.GestureRefs) :
  Neon.available v = false -> Neon.isFrozenRef (ownRefs w) = false ->
  let w' := exec (Neon.render h {| Neon.video := v; Neon.audio := Some dataArray |}) w in
  detectors (beatRefs w') = detectorStep (beatRefs w) (analyzeAudio dataArray) /\
  Neon.isFrozenRef (ownRefs w') = false.
Proof.
  intros Ha Hf w'.
  destruct (neon_flag_unavailable h {| Neon.video := v; Neon.audio := Some dataArray |} w Ha)
    as [F1 F2].
  rewrite Hf in F1, F2.
  split; [| exact F2].
  exact (proj1 (neon_render_active h v dataArray w F1)).
Qed.

Lemma classic_frame h dataArray (w : World Particle.t Point.t) :
  detectors (beatRefs (exec (Classic.render h (Some dataArray)) w))
  = detectorStep (beatRefs w) (analyzeAudio dataArray).
Proof. exact (proj1 (classic_render_active h dataArray w)). Qed.

Lemma Qpower_succ (q : Q) (n : nat) : q ^ Z.of_nat (S n) == q * q ^ Z.of_nat n.
Proof.
  rewrite Nat2Z.inj_succ. unfold Z.succ.
  destruct (Qeq_dec q 0) as [E | N].
  - rewrite E. rewrite Qmult_0_l.
    destruct (Z.of_nat n + 1)%Z eqn:Ez; try lia.
    cbn. rewrite Qpower_positive_0. reflexivity.
  - rewrite Qpower_plus by exact N. change (q ^ 1) with q. ring.
Qed.

Lemma Qpower_unit (q : Q) (n : nat) : 0 <= q <= 1 -> 0 <= q ^ Z.of_nat n <= 1.
Proof.
  intros [H0 H1]. induction n as [| n IH].
  - cbn. lra.
  - rewrite Qpower_succ. nra.
Qed.

(** An invariant indexed by the number of frames run so far. *)
Lemma for_of_invariant {W I} (render : I -> M W unit) (Pin : I -> Prop)
      (Inv : nat -> W -> Prop) :
  (forall k i w, Pin i -> Inv k w -> Inv (S k) (exec (render i) w)) ->
  forall inputs k w,
    Forall Pin inputs -> Inv k w ->
    Inv (k + List.length inputs)%nat (exec (for_of inputs render) w).
Proof.
  intros Hstep. induction inputs as [| i inputs IH]; intros k w Hin Hk.
  - cbn [for_of List.length]. rewrite exec_ret, Nat.add_0_r. exact Hk.
  - cbn [for_of List.length]. rewrite exec_bind.
    inversion Hin as [| ? ? Hi Hrest]; subst.
    replace (k + S (List.length inputs))%nat with (S k + List.length inputs)%nat by lia.
    apply IH; [exact Hrest |]. apply Hstep; assumption.
Qed.

(** *** Running averages against a steady signal *)

Lemma closing_step (k : nat) (e avg0 avg : Q) :
  closing k e avg0 avg -> closing (S k) e avg0 (avg * 0.92 + e * 0.08).
Proof.
  unfold closing. intro H. rewrite Qpower_succ.
  setoid_replace (avg * 0.92 + e * 0.08 - e) with (0.92 * (avg - e)) by ring.
  rewrite H. ring.
Qed.

Lemma closing_start (e avg0 : Q) : closing 0 e avg0 avg0.
Proof. unfold closing. cbn. ring. Qed.

Lemma averagesClosing_step (k : nat) (a : AudioData) (b0 b b' : BeatRefs) :
  detectors b' = detectorStep b a ->
  averagesClosing k a b0 b -> averagesClosing (S k) a b0 b'.
Proof.
  intros D (H1 & H2 & H3). apply detectors_proj in D.
  destruct D as (E1 & E2 & E3 & _). cbn [detectorStep fst snd] in E1, E2, E3.
  unfold averagesClosing. rewrite E1, E2, E3.
  repeat split; apply closing_step; assumption.
Qed.

(** X4. On a steady signal the running averages close in on the band
    energies geometrically: after [n] frames whose beat detection runs on
    the same buffer, each average differs from its band energy by [0.92 ^ n]
    times the initial difference, whatever fires meanwhile. *)
Theorem steady_signal_averages (h : Host) (v : Neon.Video) (dataArray : list Z) (n : nat)
    (wn : Neon.State) (wc : Classic.State) :
  Neon.available v = false ->
  Neon.isFrozenRef (ownRefs wn) = false ->
  let a := analyzeAudio dataArray in
  let k := 0.92 ^ Z.of_nat n in
  let bn := beatRefs (exec (Neon.run h (steadyNeon v dataArray n)) wn) in
  let bc := beatRefs (exec (Classic.run h (steadyClassic dataArray n)) wc) in
  (avgBassRef bn - bassEnergy a == k * (avgBassRef (beatRefs wn) - bassEnergy a) /\
   avgMidRef bn - midEnergy a == k * (avgMidRef (beatRefs wn) - midEnergy a) /\
   avgTrebleRef bn - trebleEnergy a == k * (avgTrebleRef (beatRefs wn) - trebleEnergy a)) /\
  (avgBassRef bc - bassEnergy a == k * (avgBassRef (beatRefs wc) - bassEnergy a) /\
   avgMidRef bc - midEnergy a == k * (avgMidRef (beatRefs wc) - midEnergy a) /\
   avgTrebleRef bc - trebleEnergy a == k * (avgTrebleRef (beatRefs wc) - trebleEnergy a)).
Proof.
  intros Ha Hf a k bn bc. split.
  - pose proof (for_of_invariant (Neon.render h)
                  (fun i => i = {| Neon.video := v; Neon.audio := Some dataArray |})
                  (fun k (w : World Neon.NeonParticle Neon.GestureRefs) =>
                     Neon.isFrozenRef (ownRefs w) = false /\
                     averagesClosing k a (beatRefs wn) (beatRefs w))) as H.
    assert (Hstep : forall k i (w : World Neon.NeonParticle Neon.GestureRefs),
               i = {| Neon.video := v; Neon.audio := Some dataArray |} ->
               Neon.isFrozenRef (ownRefs w) = false /\
               averagesClosing k a (beatRefs wn) (beatRefs w) ->
               Neon.isFrozenRef (ownRefs (exec (Neon.render h i) w)) = false /\
               averagesClosing (S k) a (beatRefs wn) (beatRefs (exec (Neon.render h i) w))).
    { intros k0 i w -> [F C].
      destruct (neon_unavailable_frame h v dataArray w Ha F) as [D F'].
      split; [exact F' |]. exact (averagesClosing_step k0 a _ _ _ D C). }
    specialize (H Hstep (steadyNeon v dataArray n) 0%nat wn).
    rewrite (repeat_length _ n : List.length (steadyNeon v dataArray n) = n) in H.
    cbn [Nat.add] in H.
    apply H.
    + unfold steadyNeon. apply Forall_forall. intros i Hi.
      apply repeat_spec in Hi. exact Hi.
    + split; [exact Hf |]. repeat split; apply closing_start.
  - pose proof (for_of_invariant (Classic.render h)
                  (fun i => i = Some dataArray)
                  (fun k (w : World Particle.t Point.t) =>
                     averagesClosing k a (beatRefs wc) (beatRefs w))) as H.
    assert (Hstep : forall k i (w : World Particle.t Point.t),
               i = Some dataArray ->
               averagesClosing k a (beatRefs wc) (beatRefs w) ->
               averagesClosing (S k) a (beatRefs wc)
                 (beatRefs (exec (Classic.render h i) w))).
    { intros k0 i w -> C.
      exact (averagesClosing_step k0 a _ _ _ (classic_frame h dataArray w) C). }
    specialize (H Hstep (steadyClassic dataArray n) 0%nat wc).
    rewrite (repeat_length _ n : List.length (steadyClassic dataArray n) = n) in H.
    cbn [Nat.add] in H.
    apply H.
    + unfold steadyClassic. apply Forall_forall. intros i Hi.
      apply repeat_spec in Hi. exact Hi.
    + repeat split; apply closing_start.
Qed.

Lemma steady_signal_averages_witness :
  let a := analyzeAudio Demo.hum in
  let bc := beatRefs (exec (Classic.run Demo.host (steadyClassic Demo.hum 2))
                           Classic.initialState) in
  avgBassRef bc - bassEnergy a == 0.92 ^ 2 * (0 - bassEnergy a).
Proof.
  intros a bc.
  pose proof (steady_signal_averages Demo.host Demo.noVideo Demo.hum 2
                Neon.initialState Classic.initialState eq_refl eq_refl) as H.
  cbv zeta in H. destruct H as (_ & H & _). exact H.
Defined.

(** *** Thresholds over quiet frames *)

Lemma relaxed_start (t0 : Q) : BEAT_THRESHOLD_INIT <= t0 -> relaxed 0 t0 t0.
Proof.
  intro H. unfold relaxed. cbn [Z.of_nat Qpower].
  split; [exact H | split; [right; lra | lra]].
Qed.

Lemma relaxed_step (k : nat) (t0 t : Q) :
  relaxed k t0 t ->
  relaxed (S k) t0 (Math_max BEAT_THRESHOLD_INIT (t * BEAT_DECAY_RATE)).
Proof.
  unfold relaxed, BEAT_DECAY_RATE. intros (Hlo & Hup & Hlow).
  pose proof (Math_max_lub BEAT_THRESHOLD_INIT (t * 0.98)) as [M1 M2].
  rewrite Qpower_succ.
  split; [exact M1 |]. split.
  - destruct (Math_max_case BEAT_THRESHOLD_INIT (t * 0.98)) as [E | E]; rewrite E.
    + left. lra.
    + destruct Hup as [Hup | Hup]; [left | right].
      * unfold BEAT_THRESHOLD_INIT in *. lra.
      * nra.
  - nra.
Qed.

Lemma thresholdsRelaxed_step (k : nat) (dataArray : list Z) (b0 b b' : BeatRefs) :
  dataArray <> [] -> Forall (at_most 10) dataArray ->
  detectors b' = detectorStep b (analyzeAudio dataArray) ->
  thresholdsRelaxed k b0 b -> thresholdsRelaxed (S k) b0 b'.
Proof.
  intros Hne Hq D (H1 & H2 & H3). apply detectors_proj in D.
  destruct D as (_ & _ & _ & E1 & E2 & E3). cbn [detectorStep fst snd] in E1, E2, E3.
  destruct (quiet_decision dataArray b 0%Z (fun _ => true) Hne Hq) as (_ & B & M & T).
  rewrite B in E1. rewrite M in E2. rewrite T in E3.
  unfold thresholdsRelaxed. rewrite E1, E2, E3.
  split; [| split]; apply relaxed_step; assumption.
Qed.

Lemma decay_21 (n : nat) (t0 : Q) :
  (21 <= n)%nat -> 0 <= t0 <= BEAT_THRESHOLD_INIT * 1.5 ->
  0.98 ^ Z.of_nat n * t0 < BEAT_THRESHOLD_INIT.
Proof.
  intros Hn Ht.
  replace n with (21 + (n - 21))%nat by lia.
  rewrite Nat2Z.inj_add, Qpower_plus by (intro E; discriminate E).
  pose proof (Qpower_unit 0.98 (n - 21) ltac:(lra)) as [P0 P1].
  assert (E21 : 0.98 ^ Z.of_nat 21 * (BEAT_THRESHOLD_INIT * 1.5) < BEAT_THRESHOLD_INIT)
    by (vm_compute; reflexivity).
  assert (P21 : 0 <= 0.98 ^ Z.of_nat 21) by (vm_compute; discriminate).
  set (p := 0.98 ^ Z.of_nat 21) in *. set (q := 0.98 ^ Z.of_nat (n - 21)) in *.
  unfold BEAT_THRESHOLD_INIT in *.
  assert (A1 : q * t0 <= 1.35 * 1.5) by nra.
  assert (A2 : (q * t0) * p <= (1.35 * 1.5) * p) by (apply Qmult_le_compat_r; assumption).
  setoid_replace (p * q * t0) with ((q * t0) * p) by ring.
  lra.
Qed.

Lemma relaxed_settled (n : nat) (t0 t : Q) :
  (21 <= n)%nat -> BEAT_THRESHOLD_INIT <= t0 <= BEAT_THRESHOLD_INIT * 1.5 ->
  relaxed n t0 t -> t == BEAT_THRESHOLD_INIT.
Proof.
  intros Hn Ht (Hlo & Hup & _).
  assert (D := decay_21 n t0 Hn). unfold BEAT_THRESHOLD_INIT in *.
  destruct Hup; lra.
Qed.

Lemma relaxed_pending (n : nat) (t0 t : Q) :
  (n <= 20)%nat -> t0 == BEAT_THRESHOLD_INIT * 1.5 ->
  relaxed n t0 t -> BEAT_THRESHOLD_INIT < t.
Proof.
  intros Hn Ht (_ & _ & Hlow).
  assert (E20 : BEAT_THRESHOLD_INIT < 0.98 ^ Z.of_nat 20 * (BEAT_THRESHOLD_INIT * 1.5))
    by (vm_compute; reflexivity).
  assert (P : 0.98 ^ Z.of_nat 20 <= 0.98 ^ Z.of_nat n).
  { replace 20%nat with (n + (20 - n))%nat by lia.
    rewrite Nat2Z.inj_add, Qpower_plus by (intro E; discriminate E).
    pose proof (Qpower_unit 0.98 (20 - n) ltac:(lra)) as [P0 P1].
    pose proof (Qpower_unit 0.98 n ltac:(lra)) as [P2 P3]. nra. }
  rewrite Ht in Hlow. unfold BEAT_THRESHOLD_INIT in *.
  set (p := 0.98 ^ Z.of_nat 20) in *. set (q := 0.98 ^ Z.of_nat n) in *.
  nra.
Qed.

Lemma thresholds_start (b : BeatRefs) :
  thresholds_in_range b -> thresholdsRelaxed 0 b b.
Proof.
  intros ([A _] & [B _] & [C _]).
  split; [| split]; apply relaxed_start; assumption.
Qed.

Lemma quiet_classic_run h (inputs : list (option (list Z))) (w : World Particle.t Point.t) :
  Forall quiet inputs -> thresholds_in_range (beatRefs w) ->
  thresholdsRelaxed (List.length inputs) (beatRefs w)
    (beatRefs (exec (Classic.run h inputs) w)).
Proof.
  intros Hq Hr.
  apply (for_of_invariant (Classic.render h) quiet
           (fun k (w' : World Particle.t Point.t) =>
              thresholdsRelaxed k (beatRefs w) (beatRefs w'))
           ltac:(intros k [d |] w' Hi Hk; [| destruct Hi];
                 destruct Hi as [Hne Hd];
                 exact (thresholdsRelaxed_step k d _ _ _ Hne Hd (classic_frame h d w') Hk))
           inputs 0%nat w Hq (thresholds_start _ Hr)).
Qed.

Lemma quiet_neon_run h (inputs : list Neon.FrameInput)
      (w : World Neon.NeonParticle Neon.GestureRefs) :
  Forall quietNeon inputs -> Neon.isFrozenRef (ownRefs w) = false ->
  thresholds_in_range (beatRefs w) ->
  thresholdsRelaxed (List.length inputs) (beatRefs w)
    (beatRefs (exec (Neon.run h inputs) w)).
Proof.
  intros Hq Hf Hr.
  apply (for_of_invariant (Neon.render h) quietNeon
           (fun k (w' : World Neon.NeonParticle Neon.GestureRefs) =>
              Neon.isFrozenRef (ownRefs w') = false /\
              thresholdsRelaxed k (beatRefs w) (beatRefs w'))
           ltac:(intros k [v [d |]] w' [Ha Hi] [F Hk]; [| destruct Hi];
                 destruct Hi as [Hne Hd];
                 destruct (neon_unavailable_frame h v d w' Ha F) as [D F'];
                 split; [exact F' |];
                 exact (thresholdsRelaxed_step k d _ _ _ Hne Hd D Hk))
           inputs 0%nat w Hq (conj Hf (thresholds_start _ Hr))).
Qed.

Lemma thresholdsRelaxed_settled (n : nat) (b0 b : BeatRefs) :
  (21 <= n)%nat -> thresholds_in_range b0 -> thresholdsRelaxed n b0 b ->
  thresholds_settled b.
Proof.
  intros Hn (R1 & R2 & R3) (H1 & H2 & H3).
  split; [| split]; (eapply relaxed_settled; [exact Hn | | eassumption]);
    unfold BEAT_THRESHOLD_INIT in *; lra.
Qed.

(** X5. Quiet frames let the thresholds decay.  Over frames whose beat
    detection runs on spectra with no bin above 10, 21 frames or more bring
    all three thresholds back to 1.35, wherever in their range they
    started; a bass threshold that has just been raised to 2.025 is still
    above 1.35 after 20 such frames or fewer. *)
Theorem quiet_frames_relax_thresholds (h : Host)
    (neonInputs : list Neon.FrameInput) (classicInputs : list (option (list Z)))
    (wn : Neon.State) (wc : Classic.State) :
  Forall quietNeon neonInputs -> Neon.isFrozenRef (ownRefs wn) = false ->
  thresholds_in_range (beatRefs wn) ->
  Forall quiet classicInputs ->
  thresholds_in_range (beatRefs wc) ->
  let bn := beatRefs (exec (Neon.run h neonInputs) wn) in
  let bc := beatRefs (exec (Classic.run h classicInputs) wc) in
  ((21 <= List.length neonInputs)%nat -> thresholds_settled bn) /\
  ((21 <= List.length classicInputs)%nat -> thresholds_settled bc) /\
  ((List.length neonInputs <= 20)%nat ->
   bassThresholdRef (beatRefs wn) == BEAT_THRESHOLD_INIT * 1.5 ->
   BEAT_THRESHOLD_INIT < bassThresholdRef bn) /\
  ((List.length classicInputs <= 20)%nat ->
   bassThresholdRef (beatRefs wc) == BEAT_THRESHOLD_INIT * 1.5 ->
   BEAT_THRESHOLD_INIT < bassThresholdRef bc).
Proof.
  intros Hqn Hf Hrn Hqc Hrc bn bc.
  pose proof (quiet_neon_run h neonInputs wn Hqn Hf Hrn) as Hn.
  pose proof (quiet_classic_run h classicInputs wc Hqc Hrc) as Hc.
  fold bn in Hn. fold bc in Hc.
  split; [intro L; exact (thresholdsRelaxed_settled _ _ _ L Hrn Hn) |].
  split; [intro L; exact (thresholdsRelaxed_settled _ _ _ L Hrc Hc) |].
  split; intros L E.
  - exact (relaxed_pending _ _ _ L E (proj1 Hn)).
  - exact (relaxed_pending _ _ _ L E (proj1 Hc)).
Qed.

Lemma quiet_frames_relax_thresholds_witness :
  thresholds_settled
    (beatRefs (exec (Classic.run Demo.host (repeat (Some [8; 3; 0; 7]%Z) 21))
                    Classic.initialState)).
Proof.
  assert (Hq : Forall quiet (repeat (Some [8; 3; 0; 7]%Z) 21)).
  { apply Forall_forall. intros i Hi. apply repeat_spec in Hi. subst i.
    split; [discriminate | repeat constructor; unfold at_most; lia]. }
  pose proof (quiet_frames_relax_thresholds Demo.host [] (repeat (Some [8; 3; 0; 7]%Z) 21)
                Neon.initialState Classic.initialState
                (Forall_nil _) eq_refl initial_thresholds_in_range
                Hq initial_thresholds_in_range) as H.
  cbv zeta in H. destruct H as (_ & H & _).
  apply H. rewrite repeat_length. apply Nat.le_refl.
Defined.

(** ** Geometry of a snowflake *)

(** *** Shards *)

Lemma afterRandom_0 {P X} (w : World P X) : afterRandom 0 w = w.
Proof. destruct w. unfold afterRandom. cbn. rewrite Nat.add_0_r. reflexivity. Qed.

Lemma createShard_loop (h : Host) (size : Q) (sides : Z) :
  forall (n s : nat) (acc : list Point.t) (w : World Neon.NeonParticle Neon.GestureRefs),
    for_loop n (Z.of_nat s)
      (fun (i : Z) (points : list Point.t) =>
         let angle := (inject_Z i / inject_Z sides) * PI h * 2 in
         r1 <- Math_random h ;;
         let r := size * (0.5 + r1 * 0.5) in
         ret (points ++ [Point.mk (cos h angle * r) (sin h angle * r)])) acc w
    = (acc ++ map (fun j => shardVertex h size sides (s + j) (random h (randomCalls w + j)))
                  (seq 0 n),
       afterRandom n w).
Proof.
  induction n as [| n IH]; intros s acc w.
  - cbn [for_loop seq map]. rewrite app_nil_r, afterRandom_0. reflexivity.
  - cbn [for_loop]. unfold bind at 1. cbv zeta. unfold bind at 1.
    unfold Math_random at 1. unfold ret at 1.
    replace (Z.of_nat s + 1)%Z with (Z.of_nat (S s)) by lia.
    rewrite IH. cbn [randomCalls]. f_equal.
    + rewrite <- app_assoc. f_equal. cbn [seq map app]. f_equal.
      * unfold shardVertex. rewrite !Nat.add_0_r. reflexivity.
      * rewrite <- seq_shift, map_map. apply map_ext. intro j.
        f_equal; [lia |]. f_equal. lia.
    + unfold afterRandom. cbn. f_equal. lia.
Qed.

Lemma createShard_run (h : Host) (size : Q) (w : World Neon.NeonParticle Neon.GestureRefs) :
  let sides := (Math_floor (random h (randomCalls w) * 3) + 3)%Z in
  Neon.createShard h size w
  = (map (fun i => shardVertex h size sides i (random h (randomCalls w + 1 + i)))
         (seq 0 (Z.to_nat sides)),
     afterRandom (1 + Z.to_nat sides) w).
Proof.
  intro sides. unfold Neon.createShard. unfold bind at 1. unfold Math_random at 1.
  fold sides.
  rewrite (createShard_loop h size sides (Z.to_nat sides) 0 []).
  cbn [app randomCalls Nat.add]. f_equal.
  - apply map_ext. intro j. f_equal. f_equal. lia.
  - unfold afterRandom. cbn. f_equal. lia.
Qed.

(** X6. A shard is a polygon of 3 to 5 vertices.  [createShard] draws the
    number of sides first and then one radius per vertex: vertex [i] lies in
    direction [i / sides] of a full turn at a radius between half [size] and
    [size]; nothing but the count of random numbers drawn changes in the
    state. *)
Theorem createShard_polygon (h : Host) (size : Q) (w : Neon.State) :
  random_unit h -> 0 <= size ->
  let sides := (Math_floor (random h (randomCalls w) * 3) + 3)%Z in
  let shard := eval (Neon.createShard h size) w in
  (3 <= sides <= 5)%Z /\
  List.length shard = Z.to_nat sides /\
  exec (Neon.createShard h size) w = afterRandom (1 + List.length shard) w /\
  forall i v, nth_error shard i = Some v ->
    exists r, size * 0.5 <= r <= size /\
      let angle := (inject_Z (Z.of_nat i) / inject_Z sides) * PI h * 2 in
      v = Point.mk (cos h angle * r) (sin h angle * r).
Proof.
  intros Hu Hs sides shard.
  pose proof (createShard_run h size w) as Hrun. cbv zeta in Hrun. fold sides in Hrun.
  assert (Hsides : (3 <= sides <= 5)%Z).
  { pose proof (floor_unit_scaled (random h (randomCalls w)) 3 ltac:(lia) (Hu _)) as H.
    change (inject_Z 3) with 3 in H. subst sides. lia. }
  assert (Es : shard = map (fun i => shardVertex h size sides i
                                       (random h (randomCalls w + 1 + i)))
                           (seq 0 (Z.to_nat sides))).
  { subst shard. unfold eval. unfold Neon.State in *. rewrite Hrun. reflexivity. }
  assert (El : List.length shard = Z.to_nat sides).
  { rewrite Es, length_map, length_seq. reflexivity. }
  split; [exact Hsides |]. split; [exact El |]. split.
  - unfold exec. unfold Neon.State in *. rewrite Hrun. cbn [snd]. rewrite El. reflexivity.
  - intros i v Hv.
    assert (Hi : (i < Z.to_nat sides)%nat).
    { rewrite <- El. apply nth_error_Some. congruence. }
    rewrite Es in Hv.
    rewrite (map_nth_error _ i (seq 0 (Z.to_nat sides)) (d := i)) in Hv.
    2: { rewrite nth_error_nth' with (d := 0%nat) by (rewrite length_seq; exact Hi).
         rewrite seq_nth by exact Hi. reflexivity. }
    injection Hv as <-.
    exists (size * (0.5 + random h (randomCalls w + 1 + i) * 0.5)).
    pose proof (Hu (randomCalls w + 1 + i)%nat) as [R0 R1].
    split; [nra | reflexivity].
Qed.

Lemma createShard_polygon_witness :
  List.length (eval (Neon.createShard Demo.host 2) Neon.initialState) = 4%nat.
Proof.
  pose proof (createShard_polygon Demo.host 2 Neon.initialState demo_random_unit
                ltac:(discriminate)) as H.
  cbv zeta in H. destruct H as (_ & H & _). rewrite H. vm_compute. reflexivity.
Defined.

(** *** Line segments *)

Lemma neon_addLine_loop (x1 y1 x2 y2 : Q) (count : Z) :
  forall (n s : nat) (acc : list Point.t),
    loop n (Z.of_nat s)
      (fun i points =>
         let t := inject_Z i / inject_Z count in
         points ++ [Point.mk (x1 + (x2 - x1) * t) (y1 + (y2 - y1) * t)]) acc
    = acc ++ map (fun i => segmentPoint x1 y1 x2 y2 (inject_Z (Z.of_nat i) / inject_Z count))
                 (seq s n).
Proof.
  induction n as [| n IH]; intros s acc.
  - cbn [loop seq map]. rewrite app_nil_r. reflexivity.
  - cbn [loop seq map]. cbv zeta.
    replace (Z.of_nat s + 1)%Z with (Z.of_nat (S s)) by lia.
    rewrite IH, <- app_assoc. reflexivity.
Qed.

Lemma neon_addLine_points (h : Host) (points : list Point.t) (x1 y1 x2 y2 : Q) :
  let count := neonCount h x1 y1 x2 y2 in
  Neon.addLine h points x1 y1 x2 y2
  = points ++ map (fun i => segmentPoint x1 y1 x2 y2
                              (inject_Z (Z.of_nat i) / inject_Z count))
                  (seq 0 (Z.to_nat (count + 1))).
Proof.
  intro count. unfold Neon.addLine. cbv zeta. fold (neonCount h x1 y1 x2 y2). fold count.
  apply (neon_addLine_loop x1 y1 x2 y2 count (Z.to_nat (count + 1)) 0 points).
Qed.

Lemma nth_error_map_seq {A} (f : nat -> A) (n i : nat) :
  (i < n)%nat -> nth_error (map f (seq 0 n)) i = Some (f i).
Proof.
  intro Hi. rewrite (map_nth_error f i (seq 0 n) (d := i)); [reflexivity |].
  rewrite nth_error_nth' with (d := 0%nat) by (rewrite length_seq; exact Hi).
  rewrite seq_nth by exact Hi. reflexivity.
Qed.

Lemma unit_fraction (i : nat) (count : Z) :
  (0 < count)%Z -> (Z.of_nat i <= count)%Z ->
  0 <= inject_Z (Z.of_nat i) / inject_Z count <= 1.
Proof.
  intros Hc Hi.
  assert (Hq : 0 < inject_Z count).
  { change 0 with (inject_Z 0). rewrite <- Zlt_Qlt. exact Hc. }
  split.
  - apply Qle_shift_div_l; [exact Hq |]. rewrite Qmult_0_l.
    change 0 with (inject_Z 0). rewrite <- Zle_Qle. lia.
  - apply Qle_shift_div_r; [exact Hq |]. rewrite Qmult_1_l.
    rewrite <- Zle_Qle. exact Hi.
Qed.

(** X7. [addLine] of the neon component keeps the points it is given and
    appends [count + 1] points, [count = max 2 (floor (dist * 60))], so at
    least three: the point at step [i] is the point of the segment at the
    parameter [i / count], which lies in [[0, 1]], the first being the start
    point and the last the end point. *)
Theorem neon_addLine_covers_segment (h : Host) (points : list Point.t) (x1 y1 x2 y2 : Q) :
  let count := neonCount h x1 y1 x2 y2 in
  let line := Neon.addLine h points x1 y1 x2 y2 in
  let added := skipn (List.length points) line in
  (2 <= count)%Z /\
  line = points ++ added /\
  List.length added = Z.to_nat (count + 1) /\
  (forall i p, nth_error added i = Some p ->
     let t := inject_Z (Z.of_nat i) / inject_Z count in
     0 <= t <= 1 /\ p = segmentPoint x1 y1 x2 y2 t) /\
  (exists first, nth_error added 0 = Some first /\
     Point.x first == x1 /\ Point.y first == y1) /\
  (exists last, nth_error added (Z.to_nat count) = Some last /\
     Point.x last == x2 /\ Point.y last == y2).
Proof.
  intros count line added.
  pose proof (neon_addLine_points h points x1 y1 x2 y2) as E. cbv zeta in E.
  fold count in E. fold line in E.
  assert (Hc : (2 <= count)%Z) by (unfold count, neonCount; lia).
  assert (Ea : added = map (fun i => segmentPoint x1 y1 x2 y2
                                       (inject_Z (Z.of_nat i) / inject_Z count))
                           (seq 0 (Z.to_nat (count + 1)))).
  { subst added. rewrite E. rewrite skipn_app, skipn_all, Nat.sub_diag. reflexivity. }
  assert (Hq : ~ inject_Z count == 0).
  { apply inject_Z_nonzero. lia. }
  assert (L : List.length added = Z.to_nat (count + 1)).
  { rewrite Ea, length_map, length_seq. reflexivity. }
  split; [exact Hc |].
  split; [rewrite Ea; exact E |].
  split; [exact L |].
  split; [| split].
  - intros i p Hp.
    assert (Hi : (i < Z.to_nat (count + 1))%nat).
    { rewrite <- L. apply nth_error_Some. congruence. }
    rewrite Ea, nth_error_map_seq in Hp by exact Hi. injection Hp as <-.
    split; [| reflexivity].
    apply unit_fraction; lia.
  - eexists. split; [rewrite Ea; apply nth_error_map_seq; lia |].
    unfold segmentPoint. cbn [Point.x Point.y Z.of_nat]. split; field; exact Hq.
  - eexists. split; [rewrite Ea; apply nth_error_map_seq; lia |].
    unfold segmentPoint. cbn [Point.x Point.y]. rewrite Z2Nat.id by lia.
    split; field; exact Hq.
Qed.

Lemma classic_addLine_loop (h : Host) (x1 y1 x2 y2 : Q) (count : Z) :
  forall (n s : nat) (acc : list Point.t) (w : World Particle.t Point.t),
    for_loop n (Z.of_nat s)
      (fun i points =>
         let t := inject_Z i / inject_Z count in
         let jitter := 0.015 in
         r1 <- Math_random h ;;
         r2 <- Math_random h ;;
         ret (points ++ [Point.mk (x1 + (x2 - x1) * t + (r1 - 0.5) * jitter)
                                  (y1 + (y2 - y1) * t + (r2 - 0.5) * jitter)])) acc w
    = (acc ++ map (fun j => jitterPoint x1 y1 x2 y2
                              (inject_Z (Z.of_nat (s + j)) / inject_Z count)
                              (random h (randomCalls w + 2 * j))
                              (random h (randomCalls w + 2 * j + 1)))
                  (seq 0 n),
       afterRandom (2 * n) w).
Proof.
  induction n as [| n IH]; intros s acc w.
  - cbn [for_loop seq map]. rewrite app_nil_r.
    change (2 * 0)%nat with 0%nat. rewrite afterRandom_0. reflexivity.
  - cbn [for_loop]. unfold bind at 1. cbv zeta. unfold bind at 1.
    unfold Math_random at 1. unfold bind at 1. unfold Math_random at 1.
    unfold ret at 1. cbn [randomCalls beatRefs particlesRef ownRefs clockCalls trace].
    replace (Z.of_nat s + 1)%Z with (Z.of_nat (S s)) by lia.
    rewrite IH. cbn [randomCalls]. f_equal.
    + rewrite <- app_assoc. f_equal. cbn [seq map app]. f_equal.
      * unfold jitterPoint.
        replace (s + 0)%nat with s by lia.
        replace (randomCalls w + 2 * 0)%nat with (randomCalls w) by lia.
        replace (randomCalls w + 1)%nat with (S (randomCalls w)) by lia.
        reflexivity.
      * rewrite <- seq_shift, map_map. apply map_ext. intro j.
        replace (S s + j)%nat with (s + S j)%nat by lia.
        replace (S (S (randomCalls w)) + 2 * j)%nat
          with (randomCalls w + 2 * S j)%nat by lia.
        reflexivity.
    + unfold afterRandom. cbn [beatRefs particlesRef ownRefs clockCalls trace randomCalls].
      f_equal. lia.
Qed.

Lemma classic_addLine_run (h : Host) (x1 y1 x2 y2 density : Q) (points : list Point.t)
      (w : World Particle.t Point.t) :
  let count := classicCount h x1 y1 x2 y2 density in
  Classic.addLine h x1 y1 x2 y2 density points w
  = (points ++ map (fun j => jitterPoint x1 y1 x2 y2
                               (inject_Z (Z.of_nat j) / inject_Z count)
                               (random h (randomCalls w + 2 * j))
                               (random h (randomCalls w + 2 * j + 1)))
                   (seq 0 (Z.to_nat (count + 1))),
     afterRandom (2 * Z.to_nat (count + 1)) w).
Proof.
  intro count. unfold Classic.addLine. cbv zeta.
  fold (classicCount h x1 y1 x2 y2 density). fold count.
  apply (classic_addLine_loop h x1 y1 x2 y2 count (Z.to_nat (count + 1)) 0 points w).
Qed.

(** X8. [addLine] of the classic component keeps the points it is given
    and appends [count + 1] points, [count = max 3 (floor (dist * 100 *
    density))], so at least four, drawing two random numbers for each; the
    point at step [i] is within 0.0075 in each coordinate of the point of
    the segment at parameter [i / count]. *)
Theorem classic_addLine_jitter (h : Host) (x1 y1 x2 y2 density : Q)
    (points : list Point.t) (w : Classic.State) :
  random_unit h ->
  let count := classicCount h x1 y1 x2 y2 density in
  let line := eval (Classic.addLine h x1 y1 x2 y2 density points) w in
  let added := skipn (List.length points) line in
  (3 <= count)%Z /\
  line = points ++ added /\
  List.length added = Z.to_nat (count + 1) /\
  exec (Classic.addLine h x1 y1 x2 y2 density points) w
  = afterRandom (2 * List.length added) w /\
  forall i p, nth_error added i = Some p ->
    let ideal := segmentPoint x1 y1 x2 y2 (inject_Z (Z.of_nat i) / inject_Z count) in
    -0.0075 <= Point.x p - Point.x ideal < 0.0075 /\
    -0.0075 <= Point.y p - Point.y ideal < 0.0075.
Proof.
  intros Hu count line added.
  pose proof (classic_addLine_run h x1 y1 x2 y2 density points w) as E. cbv zeta in E.
  fold count in E.
  assert (Hc : (3 <= count)%Z) by (unfold count, classicCount; lia).
  assert (El : line = points ++ map (fun j => jitterPoint x1 y1 x2 y2
                               (inject_Z (Z.of_nat j) / inject_Z count)
                               (random h (randomCalls w + 2 * j))
                               (random h (randomCalls w + 2 * j + 1)))
                   (seq 0 (Z.to_nat (count + 1)))).
  { subst line. unfold eval. unfold Classic.State in *. rewrite E. reflexivity. }
  assert (Ea : added = map (fun j => jitterPoint x1 y1 x2 y2
                               (inject_Z (Z.of_nat j) / inject_Z count)
                               (random h (randomCalls w + 2 * j))
                               (random h (randomCalls w + 2 * j + 1)))
                   (seq 0 (Z.to_nat (count + 1)))).
  { subst added. rewrite El. rewrite skipn_app, skipn_all, Nat.sub_diag. reflexivity. }
  assert (L : List.length added = Z.to_nat (count + 1)).
  { rewrite Ea, length_map, length_seq. reflexivity. }
  split; [exact Hc |].
  split; [rewrite Ea; exact El |].
  split; [exact L |].
  split.
  - unfold exec. unfold Classic.State in *. rewrite E. cbn [snd]. rewrite L. reflexivity.
  - intros i p Hp ideal.
    assert (Hi : (i < Z.to_nat (count + 1))%nat).
    { rewrite <- L. apply nth_error_Some. congruence. }
    rewrite Ea, nth_error_map_seq in Hp by exact Hi. injection Hp as <-.
    subst ideal. unfold jitterPoint, segmentPoint. cbn [Point.x Point.y].
    pose proof (Hu (randomCalls w + 2 * i)%nat) as [A0 A1].
    pose proof (Hu (randomCalls w + 2 * i + 1)%nat) as [B0 B1].
    set (t := inject_Z (Z.of_nat i) / inject_Z count).
    set (mx := (x2 - x1) * t). set (my := (y2 - y1) * t).
    change (i + (i + 0))%nat with (2 * i)%nat.
    split; split; lra.
Qed.

Lemma classic_addLine_jitter_witness :
  random_unit Demo.host /\ (3 <= classicCount Demo.host 0 0 1 0 1.5)%Z.
Proof.
  split.
  - exact demo_random_unit.
  - exact (proj1 (classic_addLine_jitter Demo.host 0 0 1 0 1.5 [] Classic.initialState
                    demo_random_unit)).
Defined.

(** *** Rib lengths and sub-ribs *)

Lemma ribStep_shape {P X} (h : Host) (numRibs : Z) (s : nat) (acc : list Rib.t)
      (w : World P X) :
  random_unit h -> (Z.of_nat s < numRibs)%Z ->
  exists rib, eval (ribStep h numRibs (Z.of_nat s) acc) w = acc ++ [rib] /\ rib_shape h rib.
Proof.
  intros Hu Hs. unfold ribStep. cbv zeta.
  rewrite eval_bind.
  change (eval (Math_random h) w) with (random h (randomCalls w)).
  set (w1 := exec (Math_random h) w).
  set (pos := 0.2 + inject_Z (Z.of_nat s) / inject_Z numRibs * 0.6).
  set (len := (1 - pos) * 0.6 * (0.4 + random h (randomCalls w) * 0.6)).
  pose proof (ribPos_range numRibs s Hs) as Hp. unfold ribPos in Hp. fold pos in Hp.
  pose proof (Hu (randomCalls w)) as [R0 R1].
  assert (Hlen : (1 - pos) * 0.6 * 0.4 <= len < (1 - pos) * 0.6).
  { subst len. set (r := random h (randomCalls w)) in *. split; nra. }
  rewrite eval_bind.
  destruct (gtb len 0.3) eqn:G.
  - rewrite eval_bind, eval_ret.
    change (eval (Math_random h) w1) with (random h (randomCalls w1)).
    rewrite eval_ret.
    eexists. split; [reflexivity |].
    unfold rib_shape. cbn [Rib.pos Rib.length Rib.subRibs Rib.angle].
    pose proof (floor_unit_scaled (random h (randomCalls w1)) 3 ltac:(lia) (Hu _)) as F.
    change (inject_Z 3) with 3 in F.
    split; [exact Hlen |]. split; [lia |].
    split; [intros _; apply gtb_true; exact G | reflexivity].
  - rewrite eval_ret, eval_ret.
    eexists. split; [reflexivity |].
    unfold rib_shape. cbn [Rib.pos Rib.length Rib.subRibs Rib.angle].
    split; [exact Hlen |]. split; [lia |].
    split; [intro N; congruence | reflexivity].
Qed.

Lemma ribLoop_shape {P X} (h : Host) (numRibs : Z) :
  random_unit h ->
  forall (n s : nat) (acc : list Rib.t) (w : World P X),
    (Z.of_nat (s + n) <= numRibs)%Z ->
    Forall (rib_shape h) acc ->
    Forall (rib_shape h) (eval (for_loop n (Z.of_nat s) (ribStep h numRibs) acc) w).
Proof.
  intro Hu. induction n as [| n IH]; intros s acc w Hn Hacc.
  - exact Hacc.
  - cbn [for_loop]. rewrite eval_bind.
    replace (Z.of_nat s + 1)%Z with (Z.of_nat (S s)) by lia.
    apply IH; [lia |].
    destruct (ribStep_shape h numRibs s acc w Hu ltac:(lia)) as (rib & -> & Hr).
    apply Forall_app. split; [exact Hacc | constructor; [exact Hr | constructor]].
Qed.

Lemma generateRibs_shape {P X} (h : Host) (w : World P X) :
  random_unit h -> Forall (rib_shape h) (eval (generateRibs h) w).
Proof.
  intro Hu. unfold generateRibs, ribLoop. rewrite eval_bind.
  change (eval (Math_random h) w) with (random h (randomCalls w)).
  pose proof (floor_unit_scaled (random h (randomCalls w)) 4 ltac:(lia) (Hu _)) as F.
  change (inject_Z 4) with 4 in F.
  apply (ribLoop_shape h _ Hu (Z.to_nat _) 0); [lia | constructor].
Qed.

(** X9. Every rib of a blueprint, in both components, is shorter than
    [(1 - pos) * 0.6] and no shorter than 40% of it, so it has a positive
    length below 0.48; it has 0, 1 or 2 sub-ribs, and none unless it is
    longer than 0.3; its angle is [PI / 3]. *)
Theorem blueprint_rib_shapes (h : Host) (wn : Neon.State) (wc : Classic.State) :
  random_unit h ->
  let shaped := fun r => rib_shape h r /\ 0 < Rib.length r < 0.48 in
  Forall shaped (SnowflakeBlueprint.ribs (eval (Neon.blueprint h) wn)) /\
  Forall shaped (SnowflakeBlueprint.ribs (eval (Classic.blueprint h) wc)).
Proof.
  intros Hu shaped.
  assert (H : forall {P X} (w : World P X), Forall shaped (eval (generateRibs h) w)).
  { intros P X w.
    pose proof (generateRibs_shape h w Hu) as S.
    pose proof (generateRibs_placed h w Hu) as G. cbv zeta in G.
    destruct G as (_ & _ & G & _).
    rewrite Forall_forall in *. intros r Hr. split; [apply S; exact Hr |].
    destruct (S r Hr) as ([L0 L1] & _). specialize (G r Hr). lra. }
  destruct (neon_blueprint_ribs h wn) as [w1 ->].
  destruct (classic_blueprint_ribs h wc) as [w2 ->].
  split; apply H.
Qed.

Lemma blueprint_rib_shapes_witness :
  Forall (fun r => 0 < Rib.length r < 0.48)
         (SnowflakeBlueprint.ribs (eval (Classic.blueprint Demo.host) Classic.initialState)).
Proof.
  pose proof (blueprint_rib_shapes Demo.host Neon.initialState Classic.initialState
                demo_random_unit) as H.
  cbv zeta in H. destruct H as [_ H].
  rewrite Forall_forall in *. intros r Hr. exact (proj2 (H r Hr)).
Defined.

(** ** Flight of a particle *)

Lemma moved_start (p : Particle.t) : moved 1 0 p p.
Proof. unfold moved. cbn [Z.of_nat]. repeat split; ring. Qed.

Lemma moved_step (k : Q) (n : nat) (p0 p1 p : Particle.t) :
  stepped p0 p1 -> moved k n p1 p -> moved (FRICTION * k) (S n) p0 p.
Proof.
  unfold stepped, moved, FRICTION, GRAVITY.
  intros (X & Y & Z & VX & VY & VZ) (A & B & C & D & E & F).
  rewrite X, Y, Z, VX, VY, VZ in *.
  rewrite Nat2Z.inj_succ. unfold Z.succ. rewrite inject_Z_plus.
  change (inject_Z 1) with 1.
  repeat split.
  - rewrite A. ring.
  - rewrite B. ring.
  - rewrite C. ring.
  - rewrite D. ring.
  - rewrite E. ring.
  - rewrite F. ring.
Qed.

Lemma neon_stepped e p : stepped (Neon.base p) (Neon.base (Neon.physics e p)).
Proof. repeat split. Qed.

Lemma classic_stepped e p : stepped p (Classic.physics e p).
Proof. repeat split. Qed.

Lemma neonFlight_moved (energies : list Q) :
  forall p, moved (FRICTION ^ Z.of_nat (List.length energies)) (List.length energies)
                  (Neon.base p) (Neon.base (neonFlight energies p)) /\
            Neon.angle (neonFlight energies p)
            == Neon.angle p + inject_Z (Z.of_nat (List.length energies)) * Neon.spinSpeed p /\
            Neon.spinSpeed (neonFlight energies p) = Neon.spinSpeed p.
Proof.
  induction energies as [| e energies IH]; intro p.
  - split; [apply moved_start |]. cbn. split; [ring | reflexivity].
  - cbn [neonFlight fold_left List.length]. fold (neonFlight energies (Neon.physics e p)).
    destruct (IH (Neon.physics e p)) as (M & A & S).
    split; [| split].
    + pose proof (moved_step _ _ _ _ _ (neon_stepped e p) M) as H.
      unfold moved in *. rewrite Qpower_succ. exact H.
    + rewrite A. cbn [Neon.physics Neon.angle Neon.spinSpeed].
      rewrite Nat2Z.inj_succ. unfold Z.succ. rewrite inject_Z_plus.
      change (inject_Z 1) with 1. ring.
    + rewrite S. reflexivity.
Qed.

Lemma classicFlight_moved (energies : list Q) :
  forall p, moved (FRICTION ^ Z.of_nat (List.length energies)) (List.length energies)
                  p (classicFlight energies p).
Proof.
  induction energies as [| e energies IH]; intro p.
  - apply moved_start.
  - cbn [classicFlight fold_left List.length].
    fold (classicFlight energies (Classic.physics e p)).
    pose proof (moved_step _ _ _ _ _ (classic_stepped e p) (IH (Classic.physics e p))) as H.
    unfold moved in *. rewrite Qpower_succ. exact H.
Qed.

(** X10. Flight in closed form.  After the physics steps of [n] frames, in
    either component and whatever the audio energies, the velocity is
    [FRICTION ^ n] times the initial one along [x] and [z] and approaches
    the terminal fall speed [0.57 = GRAVITY * FRICTION / (1 - FRICTION)]
    along [y] at the same rate; the particle has moved by
    [20 * (1 - FRICTION ^ n)] times its initial velocity, plus the terminal
    fall, [20 = 1 / (1 - FRICTION)]: no particle ever travels further
    sideways than 20 times its initial speed.  A neon particle has turned
    by [n * spinSpeed]. *)
Theorem particle_flight (energies : list Q) (pn : Neon.NeonParticle) (pc : Particle.t) :
  let n := List.length energies in
  let k := FRICTION ^ Z.of_nat n in
  0 < k <= 1 /\
  0.57 == GRAVITY * FRICTION / (1 - FRICTION) /\
  20 == 1 / (1 - FRICTION) /\
  moved k n (Neon.base pn) (Neon.base (neonFlight energies pn)) /\
  Neon.angle (neonFlight energies pn)
  == Neon.angle pn + inject_Z (Z.of_nat n) * Neon.spinSpeed pn /\
  moved k n pc (classicFlight energies pc).
Proof.
  intros n k.
  split.
  { split.
    - apply Qpower_0_lt. reflexivity.
    - apply (Qpower_unit FRICTION n). unfold FRICTION. lra. }
  split; [reflexivity |]. split; [reflexivity |].
  destruct (neonFlight_moved energies pn) as (M & A & _).
  split; [exact M |]. split; [exact A |].
  apply classicFlight_moved.
Qed.

(** ** Gestures *)

Lemma Qeq_bool_refl (q : Q) : Qeq_bool q q = true.
Proof. apply Qeq_bool_iff. reflexivity. Qed.

(** After [detectGestures] with recognizer and camera ready, the video time
    on record is the time of the video frame. *)
Lemma detectGestures_time h (v : Neon.Video) (w : World Neon.NeonParticle Neon.GestureRefs) :
  Neon.available v = true ->
  Qeq_bool (Neon.currentTime v)
           (Neon.lastVideoTimeRef (ownRefs (exec (Neon.detectGestures h v) w))) = true.
Proof.
  destruct v as [av ct rc]. cbn [Neon.available Neon.currentTime]. intros ->.
  destruct (Qeq_bool ct (Neon.lastVideoTimeRef (ownRefs w))) eqn:Et.
  { run_gestures. rewrite Et. exact Et. }
  destruct rc as [| [gs lms]].
  { run_gestures. rewrite Et. run_gestures. apply Qeq_bool_refl. }
  destruct gs as [| [| top others] rest].
  - run_gestures. rewrite Et. run_gestures. split_tests. all: apply Qeq_bool_refl.
  - run_gestures. rewrite Et. run_gestures. apply Qeq_bool_refl.
  - run_gestures. rewrite Et. run_gestures. split_tests. all: apply Qeq_bool_refl.
Qed.

(** X11. A video frame is recognised at most once: calling
    [detectGestures] again on the same video frame changes nothing (the
    recognizer is not called, no ref is written, no callback is made). *)
Theorem detectGestures_once_per_video_frame (h : Host) (v : Neon.Video) (w : Neon.State) :
  exec (Neon.detectGestures h v) (exec (Neon.detectGestures h v) w)
  = exec (Neon.detectGestures h v) w.
Proof.
  destruct (Neon.available v) eqn:Ha.
  - pose proof (detectGestures_time h v w Ha) as Ht.
    set (w1 := exec (Neon.detectGestures h v) w) in *.
    unfold Neon.detectGestures at 1. rewrite Ha. cbn [negb].
    rewrite exec_bind. change (eval getOwn w1) with (ownRefs w1).
    change (exec getOwn w1) with w1. rewrite Ht. reflexivity.
  - rewrite !(detectGestures_unavailable h v _ Ha). reflexivity.
Qed.

(** *** Gesture notifications *)

Lemma gestureChanges_app (l1 l2 : list Event) :
  gestureChanges (l1 ++ l2) = gestureChanges l1 ++ gestureChanges l2.
Proof.
  induction l1 as [| e l1 IH]; [reflexivity |].
  destruct e; cbn [app gestureChanges]; rewrite IH; reflexivity.
Qed.

Lemma last_nonempty {A} (a : A) (l : list A) (d d' : A) :
  last (a :: l) d = last (a :: l) d'.
Proof.
  revert a. induction l as [| b l IH]; intro a; [reflexivity |].
  change (last (a :: b :: l) d) with (last (b :: l) d).
  change (last (a :: b :: l) d') with (last (b :: l) d'). apply IH.
Qed.

Lemma alternating_app (previous : string) (l1 l2 : list string) :
  alternating previous l1 -> alternating (last l1 previous) l2 ->
  alternating previous (l1 ++ l2).
Proof.
  revert previous. induction l1 as [| g l1 IH]; intros previous H1 H2.
  - exact H2.
  - destruct H1 as [Hg H1]. cbn [app alternating]. split; [exact Hg |].
    apply IH; [exact H1 |].
    destruct l1 as [| g' l1']; [exact H2 |].
    change (last (g :: g' :: l1') previous) with (last (g' :: l1') previous) in H2.
    rewrite (last_nonempty g' l1' g previous). exact H2.
Qed.

Lemma last_app_default {A} (l1 l2 : list A) (d : A) :
  last (l1 ++ l2) d = last l2 (last l1 d).
Proof.
  revert d. induction l1 as [| a l1 IH]; intro d; [reflexivity |].
  destruct l1 as [| b l1'].
  - cbn [app]. destruct l2 as [| a0 l2]; [reflexivity |].
    change (last (a :: a0 :: l2) d) with (last (a0 :: l2) d).
    apply last_nonempty.
  - change ((a :: b :: l1') ++ l2) with (a :: (b :: l1') ++ l2).
    change (last (a :: (b :: l1') ++ l2) d) with (last ((b :: l1') ++ l2) d).
    rewrite IH. reflexivity.
Qed.

Lemma notifies_none (w w' : World Neon.NeonParticle Neon.GestureRefs) :
  gestureChanges (trace w') = gestureChanges (trace w) ->
  Neon.lastDetectedGestureRef (ownRefs w') = Neon.lastDetectedGestureRef (ownRefs w) ->
  notifies w w'.
Proof.
  intros T L. exists []. rewrite app_nil_r. split; [exact T |]. split; [exact I | exact L].
Qed.

Lemma notifies_trans (a b c : World Neon.NeonParticle Neon.GestureRefs) :
  notifies a b -> notifies b c -> notifies a c.
Proof.
  intros (r1 & T1 & A1 & L1) (r2 & T2 & A2 & L2).
  exists (r1 ++ r2). split; [rewrite T2, T1, app_assoc; reflexivity |].
  split.
  - apply alternating_app; [exact A1 |]. rewrite <- L1. exact A2.
  - rewrite L2, L1, last_app_default. reflexivity.
Qed.

Lemma eqb_false_neq (a b : string) : String.eqb a b = false -> a <> b.
Proof. intros H E. apply String.eqb_neq in H. contradiction. Qed.

Lemma detectGestures_notifies h (v : Neon.Video)
      (w : World Neon.NeonParticle Neon.GestureRefs) :
  notifies w (exec (Neon.detectGestures h v) w).
Proof.
  destruct v as [av ct rc].
  destruct av; [| run_gestures; apply notifies_none; reflexivity].
  destruct (Qeq_bool ct (Neon.lastVideoTimeRef (ownRefs w))) eqn:Et.
  { run_gestures. rewrite Et. apply notifies_none; reflexivity. }
  destruct rc as [| [gs lms]].
  { run_gestures. rewrite Et. run_gestures. apply notifies_none; reflexivity. }
  destruct gs as [| [| top others] rest].
  - run_gestures. rewrite Et. run_gestures. split_tests.
    + eexists [_]. unfold notifies. cbn [trace ownRefs Neon.lastDetectedGestureRef last].
      rewrite gestureChanges_app. cbn [gestureChanges].
      split; [reflexivity |]. split; [| reflexivity].
      split; [| exact I]. apply eqb_false_neq. apply negb_true_iff. assumption.
    + apply notifies_none; reflexivity.
  - run_gestures. rewrite Et. run_gestures. apply notifies_none; reflexivity.
  - run_gestures. rewrite Et. run_gestures. split_tests.
    all: try (apply notifies_none; reflexivity).
    all: eexists [_]; unfold notifies;
      cbn [trace ownRefs Neon.lastDetectedGestureRef last];
      rewrite gestureChanges_app; cbn [gestureChanges];
      (split; [reflexivity |]); (split; [| reflexivity]);
      (split; [| exact I]); apply eqb_false_neq; apply negb_true_iff; assumption.
Qed.

Lemma unreported_refl {P X} (w : World P X) : unreported w w.
Proof. reflexivity. Qed.

Lemma unreported_trans {P X} (a b c : World P X) :
  unreported a b -> unreported b c -> unreported a c.
Proof. unfold unreported. congruence. Qed.

Lemma neon_particlePass_unreported h energy ox oy :
  stable (@unreported Neon.NeonParticle Neon.GestureRefs) (Neon.particlePass h energy ox oy).
Proof.
  pose proof (@unreported_refl Neon.NeonParticle Neon.GestureRefs) as Hr.
  pose proof (@unreported_trans Neon.NeonParticle Neon.GestureRefs) as Ht.
  assert (Hg : stable (@unreported Neon.NeonParticle Neon.GestureRefs) getParticles)
    by (intro; reflexivity).
  assert (Hs : forall ps, stable (@unreported Neon.NeonParticle Neon.GestureRefs)
                            (setParticles ps))
    by (intros ps w; reflexivity).
  assert (Ho : stable (@unreported Neon.NeonParticle Neon.GestureRefs) getOwn)
    by (intro; reflexivity).
  assert (Hn : stable (@unreported Neon.NeonParticle Neon.GestureRefs) (Math_random h))
    by (intro; reflexivity).
  assert (He : forall x y s a al hu sb vs,
             stable (@unreported Neon.NeonParticle Neon.GestureRefs)
                    (emit (DrawShard x y s a al hu sb vs))).
  { intros x y s a al hu sb vs w. unfold unreported, exec, emit. cbn [snd trace].
    rewrite gestureChanges_app. apply app_nil_r. }
  assert (He' : forall a hu vs,
             stable (@unreported Neon.NeonParticle Neon.GestureRefs)
                    (emit (DrawShardAtInfinity a hu vs))).
  { intros a hu vs w. unfold unreported, exec, emit. cbn [snd trace].
    rewrite gestureChanges_app. apply app_nil_r. }
  unfold Neon.particlePass, Neon.renderParticle.
  stable_auto Hr Ht.
Qed.

Lemma specSpawnDecision_unreported elapsed b a t :
  gestureChanges (specSpawnDecision elapsed b a t) = [].
Proof.
  unfold specSpawnDecision.
  repeat match goal with |- context [if ?c then _ else _] => destruct c end; reflexivity.
Qed.

Lemma neon_audioBlock_unreported h audio (w : World Neon.NeonParticle Neon.GestureRefs) :
  unreported w (exec (Neon.audioBlock h audio) w).
Proof.
  destruct audio as [dataArray |]; [| reflexivity].
  destruct (Neon.isFrozenRef (ownRefs w)) eqn:Hf.
  - rewrite (neon_audioBlock_idle h (Some dataArray) w (or_intror Hf)). reflexivity.
  - rewrite (proj1 (neon_audioBlock_active h dataArray w Hf)).
    destruct (beatDetection_run h (Neon.spawnNeonSnowflake h)
                (neon_spawn_frame h) (analyzeAudio dataArray) w) as (_ & _ & T).
    unfold unreported. rewrite T, gestureChanges_app, specSpawnDecision_unreported.
    apply app_nil_r.
Qed.

(** A frame reports what its call of [detectGestures] reports. *)
Lemma neon_render_notifies h input (w : World Neon.NeonParticle Neon.GestureRefs) :
  notifies w (exec (Neon.render h input) w).
Proof.
  apply (notifies_trans _ _ _ (detectGestures_notifies h (Neon.video input) w)).
  apply notifies_none.
  - unfold Neon.render. rewrite !exec_bind.
    etransitivity; [apply (neon_particlePass_unreported h) |].
    change (exec getOwn ?x) with x.
    etransitivity; [apply neon_audioBlock_unreported |].
    destruct (neon_beforeAudio_facts h input w) as (_ & _ & T).
    unfold unreported in *. rewrite T, gestureChanges_app. apply app_nil_r.
  - rewrite neon_render_own. unfold Neon.beforeAudio. rewrite !exec_bind. reflexivity.
Qed.

(** X12. Gesture changes are reported once.  Over any run of frames the
    gestures passed to [onGestureChange] never repeat back to back: each
    differs from the one reported before it, the first from the gesture on
    record at the start, and the last one is the gesture on record at the
    end. *)
Theorem gesture_changes_reported_once (h : Host) (inputs : list Neon.FrameInput)
    (w : Neon.State) :
  let w' := exec (Neon.run h inputs) w in
  exists reported,
    gestureChanges (trace w') = gestureChanges (trace w) ++ reported /\
    alternating (Neon.lastDetectedGestureRef (ownRefs w)) reported /\
    Neon.lastDetectedGestureRef (ownRefs w')
    = last reported (Neon.lastDetectedGestureRef (ownRefs w)).
Proof.
  intro w'. subst w'. change (notifies w (exec (Neon.run h inputs) w)).
  unfold Neon.run. revert w.
  induction inputs as [| input inputs IH]; intro w.
  - apply notifies_none; reflexivity.
  - cbn [for_of]. rewrite exec_bind.
    exact (notifies_trans _ _ _ (neon_render_notifies h input w) (IH _)).
Qed.

(** *** Panning *)

Lemma detectGestures_pan h (v : Neon.Video) (w : World Neon.NeonParticle Neon.GestureRefs) :
  let w' := exec (Neon.detectGestures h v) w in
  Neon.cameraOffsetRef (ownRefs w') = Neon.cameraOffsetRef (ownRefs w) /\
  (processed v w = false -> Neon.targetOffsetRef (ownRefs w') = Neon.targetOffsetRef (ownRefs w)) /\
  (processed v w = true -> clears_freeze v = true ->
   Neon.targetOffsetRef (ownRefs w') = Point.mk 0 0) /\
  (processed v w = true -> open_palm v = true ->
   forall lm9, palmLandmark v = Some lm9 ->
   Neon.targetOffsetRef (ownRefs w') = palmTarget lm9) /\
  (Neon.targetOffsetRef (ownRefs w') = Neon.targetOffsetRef (ownRefs w) \/
   Neon.targetOffsetRef (ownRefs w') = Point.mk 0 0 \/
   exists lm9, palmLandmark v = Some lm9 /\
               Neon.targetOffsetRef (ownRefs w') = palmTarget lm9).
Proof.
  intro w'. subst w'.
  destruct v as [av ct rc]. unfold processed, open_palm, clears_freeze, palmLandmark.
  cbn [Neon.available Neon.currentTime Neon.recognition].
  destruct av; [| run_gestures; repeat split; intros; try discriminate; auto].
  destruct (Qeq_bool ct (Neon.lastVideoTimeRef (ownRefs w))) eqn:Et.
  { run_gestures. rewrite Et. repeat split; intros; try discriminate; auto. }
  destruct rc as [| [gs lms]].
  { run_gestures. rewrite Et. run_gestures.
    repeat split; intros; try discriminate; auto. }
  destruct gs as [| [| top others] rest].
  - run_gestures. rewrite Et. run_gestures. split_tests.
    all: repeat split; intros; try discriminate; auto.
  - run_gestures. rewrite Et. run_gestures.
    repeat split; intros; try discriminate; auto.
  - destruct lms as [| lms0 lmsrest].
    + run_gestures. rewrite Et. run_gestures. split_tests.
      all: repeat split; intros; try discriminate; auto.
    + run_gestures. rewrite Et. run_gestures. split_tests.
      all: repeat split; intros; try discriminate; auto.
      all: try congruence.
      all: try (destruct lms0; discriminate).
      all: try (match goal with H : Some _ = Some _ |- _ => injection H as <- end;
                reflexivity).
      all: right; right; eexists; split; reflexivity.
Qed.

Lemma neon_render_pan h input (w : World Neon.NeonParticle Neon.GestureRefs) :
  let w0 := exec (Neon.detectGestures h (Neon.video input)) w in
  let w' := exec (Neon.render h input) w in
  Neon.targetOffsetRef (ownRefs w') = Neon.targetOffsetRef (ownRefs w0) /\
  Neon.cameraOffsetRef (ownRefs w') =
    Point.mk
      (Point.x (Neon.cameraOffsetRef (ownRefs w))
       + (Point.x (Neon.targetOffsetRef (ownRefs w0))
          - Point.x (Neon.cameraOffsetRef (ownRefs w))) * 0.1)
      (Point.y (Neon.cameraOffsetRef (ownRefs w))
       + (Point.y (Neon.targetOffsetRef (ownRefs w0))
          - Point.y (Neon.cameraOffsetRef (ownRefs w))) * 0.1).
Proof.
  intros w0 w'. subst w'. rewrite neon_render_own.
  destruct (detectGestures_pan h (Neon.video input) w) as (C & _). fold w0 in C.
  unfold Neon.beforeAudio. rewrite !exec_bind. fold w0.
  unfold Neon.panCamera, Neon.setCameraOffset.
  cbv beta iota zeta delta [exec eval bind ret getOwn setOwn emit].
  cbn [fst snd ownRefs Neon.targetOffsetRef Neon.cameraOffsetRef].
  rewrite C. split; reflexivity.
Qed.

(** X13. Panning.  Every frame moves the camera offset one tenth of the
    way to the pan target of that frame.  The target is left alone when the
    frame does not process a recognition result, reset to the origin by a
    processed result that is not an open palm, and set by a processed open
    palm from landmark 9 of the hand at [(hx, hy)] to
    [((0.5 - hx) * 600, (0.5 - hy) * 600)]: a palm at the centre of the
    picture asks for no pan. *)
Theorem camera_pans_to_palm (h : Host) (input : Neon.FrameInput) (w : Neon.State) :
  let v := Neon.video input in
  let w' := exec (Neon.render h input) w in
  let camera := Neon.cameraOffsetRef (ownRefs w) in
  let camera' := Neon.cameraOffsetRef (ownRefs w') in
  let target' := Neon.targetOffsetRef (ownRefs w') in
  (Point.x camera' = Point.x camera + (Point.x target' - Point.x camera) * 0.1 /\
   Point.y camera' = Point.y camera + (Point.y target' - Point.y camera) * 0.1) /\
  (processed v w = false -> target' = Neon.targetOffsetRef (ownRefs w)) /\
  (processed v w = true -> clears_freeze v = true -> target' = Point.mk 0 0) /\
  (processed v w = true -> open_palm v = true ->
   forall lm9, palmLandmark v = Some lm9 ->
     target' = palmTarget lm9 /\
     Point.x target' == (0.5 - Point.x lm9) * 600 /\
     Point.y target' == (0.5 - Point.y lm9) * 600).
Proof.
  intros v w' camera camera' target'.
  destruct (neon_render_pan h input w) as [T C]. cbv zeta in T, C.
  fold w' in T, C. fold target' in T. fold camera' in C. fold camera in C.
  rewrite <- T in C.
  destruct (detectGestures_pan h v w) as (_ & P1 & P2 & P3 & _).
  fold v in T. rewrite <- T in P1, P2, P3.
  split; [rewrite C; split; reflexivity |].
  split; [exact P1 |]. split; [exact P2 |].
  intros Hp Ho lm9 Hl. specialize (P3 Hp Ho lm9 Hl).
  split; [exact P3 |]. rewrite P3. unfold palmTarget.
  cbn [Point.x Point.y]. split; ring.
Qed.

(** *** The camera over a run *)

Lemma neon_render_within h input (w : World Neon.NeonParticle Neon.GestureRefs) :
  in_picture input ->
  within 300 (Neon.targetOffsetRef (ownRefs w)) /\
  within 300 (Neon.cameraOffsetRef (ownRefs w)) ->
  within 300 (Neon.targetOffsetRef (ownRefs (exec (Neon.render h input) w))) /\
  within 300 (Neon.cameraOffsetRef (ownRefs (exec (Neon.render h input) w))).
Proof.
  intros Hin [Ht Hc].
  destruct (neon_render_pan h input w) as [T C]. cbv zeta in T, C.
  destruct (detectGestures_pan h (Neon.video input) w) as (_ & _ & _ & _ & D).
  rewrite <- T in D, C.
  set (t' := Neon.targetOffsetRef (ownRefs (exec (Neon.render h input) w))) in *.
  assert (Ht' : within 300 t').
  { destruct D as [-> | [-> | (lm9 & Hl & ->)]].
    - exact Ht.
    - unfold within. cbn [Point.x Point.y]. lra.
    - destruct (Hin lm9 Hl) as [Hx Hy]. unfold within, palmTarget.
      cbn [Point.x Point.y]. lra. }
  split; [exact Ht' |].
  rewrite C. unfold within in *. cbn [Point.x Point.y]. lra.
Qed.

Lemma neon_render_closer h input (w : World Neon.NeonParticle Neon.GestureRefs)
      (k : Q) (camera0 : Point.t) :
  Neon.available (Neon.video input) = false ->
  closer k (Neon.targetOffsetRef (ownRefs w)) camera0 (Neon.cameraOffsetRef (ownRefs w)) ->
  Neon.targetOffsetRef (ownRefs (exec (Neon.render h input) w))
  = Neon.targetOffsetRef (ownRefs w) /\
  closer (0.9 * k) (Neon.targetOffsetRef (ownRefs w)) camera0
         (Neon.cameraOffsetRef (ownRefs (exec (Neon.render h input) w))).
Proof.
  intros Ha [Cx Cy].
  destruct (neon_render_pan h input w) as [T C]. cbv zeta in T, C.
  rewrite (detectGestures_unavailable h _ w Ha) in T, C.
  split; [exact T |]. rewrite C. unfold closer. cbn [Point.x Point.y].
  split.
  - setoid_replace (0.9 * k * (Point.x (Neon.targetOffsetRef (ownRefs w)) - Point.x camera0))
      with (0.9 * (k * (Point.x (Neon.targetOffsetRef (ownRefs w)) - Point.x camera0)))
      by ring.
    rewrite <- Cx. ring.
  - setoid_replace (0.9 * k * (Point.y (Neon.targetOffsetRef (ownRefs w)) - Point.y camera0))
      with (0.9 * (k * (Point.y (Neon.targetOffsetRef (ownRefs w)) - Point.y camera0)))
      by ring.
    rewrite <- Cy. ring.
Qed.

(** X14. The camera over a run of frames.  While the hand landmark read
    by the pan lies in the picture (coordinates in [[0, 1]]), the pan target
    and the camera offset never leave the square of half-width 300 around
    the origin.  Over [n] frames without recognizer or camera the target
    stays and the distance of the camera offset to it shrinks to
    [0.9 ^ n] of what it was. *)
Theorem camera_stays_in_range (h : Host) (inputs : list Neon.FrameInput) (w : Neon.State) :
  let w' := exec (Neon.run h inputs) w in
  (Forall in_picture inputs ->
   within 300 (Neon.targetOffsetRef (ownRefs w)) ->
   within 300 (Neon.cameraOffsetRef (ownRefs w)) ->
   within 300 (Neon.targetOffsetRef (ownRefs w')) /\
   within 300 (Neon.cameraOffsetRef (ownRefs w'))) /\
  (Forall (fun input => Neon.available (Neon.video input) = false) inputs ->
   Neon.targetOffsetRef (ownRefs w') = Neon.targetOffsetRef (ownRefs w) /\
   closer (0.9 ^ Z.of_nat (List.length inputs)) (Neon.targetOffsetRef (ownRefs w))
          (Neon.cameraOffsetRef (ownRefs w)) (Neon.cameraOffsetRef (ownRefs w'))).
Proof.
  intro w'. subst w'. unfold Neon.run. split.
  - intros Hin Ht Hc.
    apply (for_of_invariant (Neon.render h) in_picture
             (fun _ (w1 : World Neon.NeonParticle Neon.GestureRefs) =>
                within 300 (Neon.targetOffsetRef (ownRefs w1)) /\
                within 300 (Neon.cameraOffsetRef (ownRefs w1)))
             (fun _ i w1 Hi Hw => neon_render_within h i w1 Hi Hw)
             inputs 0%nat w Hin (conj Ht Hc)).
  - intro Hna.
    pose proof (for_of_invariant (Neon.render h)
             (fun input => Neon.available (Neon.video input) = false)
             (fun n (w1 : World Neon.NeonParticle Neon.GestureRefs) =>
                Neon.targetOffsetRef (ownRefs w1) = Neon.targetOffsetRef (ownRefs w) /\
                closer (0.9 ^ Z.of_nat n) (Neon.targetOffsetRef (ownRefs w))
                       (Neon.cameraOffsetRef (ownRefs w))
                       (Neon.cameraOffsetRef (ownRefs w1)))) as H.
    apply (H ltac:(intros n i w1 Hi [Ht Hc];
                   rewrite <- Ht in Hc;
                   destruct (neon_render_closer h i w1 _ _ Hi Hc) as [T C];
                   rewrite Ht in T, C;
                   split; [exact T |];
                   unfold closer in *; rewrite Qpower_succ; exact C)
             inputs 0%nat w Hna).
    split; [reflexivity |]. unfold closer. cbn [Z.of_nat Qpower]. split; ring.
Qed.

Lemma camera_stays_in_range_witness :
  within 300 (Neon.cameraOffsetRef
                (ownRefs (exec (Neon.run Demo.host
                                  [{| Neon.video := Demo.palm; Neon.audio := None |}])
                               Neon.initialState))).
Proof.
  pose proof (camera_stays_in_range Demo.host
                [{| Neon.video := Demo.palm; Neon.audio := None |}] Neon.initialState) as H.
  cbv zeta in H. destruct H as [H _].
  apply H.
  - constructor; [| constructor]. intros lm9 Hl. 
    vm_compute in Hl. injection Hl as <-. cbn [Point.x Point.y]. split; lra.
  - unfold within. cbn. lra.
  - unfold within. cbn. lra.
Defined.

(** ** Remainders *)

(** [a % b] for a positive [b]: smaller than [b] in absolute value, with
    the sign of [a]. *)
Lemma js_mod_bounds (a b : Q) :
  0 < b ->
  (0 <= a -> 0 <= js_mod a b < b) /\ (a <= 0 -> - b < js_mod a b <= 0).
Proof.
  intro Hb. unfold js_mod. cbv zeta.
  assert (Hq : a == (a / b) * b) by (field; lra).
  set (q := a / b) in *.
  split; intro Ha.
  - assert (Hq0 : 0 <= q).
    { unfold q. apply Qle_shift_div_l; [exact Hb | lra]. }
    assert (E : Qle_bool 0 q = true) by (apply Qle_bool_iff; exact Hq0).
    rewrite E.
    pose proof (Qfloor_le q) as F1. pose proof (Qlt_floor q) as F2.
    rewrite inject_Z_plus in F2. change (inject_Z 1) with 1 in F2.
    set (t := inject_Z (Qfloor q)) in *. split; nra.
  - destruct (Qle_bool 0 q) eqn:E.
    + apply Qle_bool_iff in E.
      assert (Hq0 : q <= 0).
      { unfold q. apply Qle_shift_div_r; [exact Hb | lra]. }
      assert (Hqz : q == 0) by lra.
      assert (Hf : Qfloor q = 0%Z).
      { apply Qfloor_unique; change (inject_Z 0) with 0; lra. }
      rewrite Hf. change (inject_Z 0) with 0. split; nra.
    + pose proof (Qle_ceiling q) as C1. pose proof (Qceiling_lt q) as C2.
      unfold Z.sub in C2. rewrite inject_Z_plus in C2.
      change (inject_Z (- (1))) with (-1) in C2.
      assert (Hq0 : q <= 0).
      { unfold q. apply Qle_shift_div_r; [exact Hb | lra]. }
      set (t := inject_Z (Qceiling q)) in *.
      assert (P1 : 0 <= (t - q) * b) by (apply Qmult_le_0_compat; lra).
      assert (P2 : 0 < (q - t + 1) * b) by (apply Qmult_lt_0_compat; lra).
      split; nra.
Qed.

Lemma js_mod_small (a b : Q) : 0 < b -> - b < a < b -> js_mod a b == a.
Proof.
  intros Hb [Hlo Hhi]. unfold js_mod. cbv zeta.
  assert (Hq : a == (a / b) * b) by (field; lra).
  set (q := a / b) in *.
  assert (Hq1 : -1 < q < 1).
  { unfold q. split.
    - apply Qlt_shift_div_l; [exact Hb | lra].
    - apply Qlt_shift_div_r; [exact Hb | lra]. }
  destruct (Qle_bool 0 q) eqn:E.
  - apply Qle_bool_iff in E.
    rewrite (Qfloor_unique q 0); change (inject_Z 0) with 0; lra.
  - assert (Hneg : q < 0).
    { destruct (Qlt_le_dec q 0) as [L | G]; [exact L |].
      apply Qle_bool_iff in G. congruence. }
    assert (Hc : Qceiling q = 0%Z).
    { unfold Qceiling. rewrite (Qfloor_unique (- q) 0); [reflexivity | |];
        change (inject_Z 0) with 0; lra. }
    rewrite Hc. change (inject_Z 0) with 0. lra.
Qed.

(** ** What a spawn call adds *)

Lemma createShard_sides h size (w : World Neon.NeonParticle Neon.GestureRefs) :
  random_unit h ->
  (3 <= List.length (eval (Neon.createShard h size) w) <= 5)%nat.
Proof.
  intro Hu. pose proof (createShard_run h size w) as Hrun. cbv zeta in Hrun.
  unfold eval. rewrite Hrun. cbn [fst]. rewrite length_map, length_seq.
  pose proof (floor_unit_scaled (random h (randomCalls w)) 3 ltac:(lia) (Hu _)) as H.
  change (inject_Z 3) with 3 in H. lia.
Qed.

Lemma neon_emitPoint_burst h sx sy sz baseHue scale speed skip cosA sinA pt :
  random_unit h -> 0 <= baseHue < 360 -> 0 < scale ->
  stable (appends (neonBurst sx sy sz scale))
         (Neon.emitPoint h sx sy sz baseHue scale speed skip cosA sinA pt).
Proof.
  intros Hu Hhue Hscale.
  set (R := @appends Neon.NeonParticle Neon.GestureRefs (neonBurst sx sy sz scale)).
  assert (Hr : forall w, R w w) by (intro; apply appends_refl).
  assert (Ht : forall a b c, R a b -> R b c -> R a c) by (intros a b c; apply appends_trans).
  assert (Hrand : stable R (Math_random h)) by (apply appends_same; reflexivity).
  assert (Hunit : forall w : World Neon.NeonParticle Neon.GestureRefs,
             0 <= eval (Math_random h) w < 1).
  { intro w. exact (Hu (randomCalls w)). }
  assert (Hshard : forall size, stable R (Neon.createShard h size)).
  { intro size. apply (neon_createShard_stable h R Hr Ht Hrand). }
  unfold Neon.emitPoint.
  apply (stable_bind _ Ht); [destruct (gtb skip 0); stable_auto Hr Ht | intro skipped].
  destruct skipped; [apply (stable_ret _ Hr) |]. cbv zeta.
  apply (stable_bind_post R (fun r => 0 <= r < 1) _ _ Ht Hrand Hunit). intros r1 Hr1.
  apply (stable_bind_post R (fun r => 0 <= r < 1) _ _ Ht Hrand Hunit). intros r2 Hr2.
  apply (stable_bind_post R (fun r => 0 <= r < 1) _ _ Ht Hrand Hunit). intros r3 Hr3.
  apply (stable_bind _ Ht); [exact Hrand | intro r4].
  apply (stable_bind_post R (fun s => (3 <= List.length s <= 5)%nat) _ _ Ht (Hshard _)).
  { intro w. apply createShard_sides. exact Hu. }
  intros shard Hs.
  apply (stable_bind_post R (fun r => 0 <= r < 1) _ _ Ht Hrand Hunit). intros r5 Hr5.
  apply (stable_bind _ Ht); [exact Hrand | intro r6].
  apply appends_push. unfold neonBurst.
  cbn [Neon.base Neon.hue Neon.vertices Neon.spinSpeed Particle.x Particle.y Particle.z
       Particle.vz Particle.alpha Particle.life Particle.decayRate Particle.size].
  unfold FADE_SPEED_BASE, FADE_SPEED_VAR.
  repeat split; try lra; try lia; try ring; try nra.
  - destruct (Qlt_le_dec (baseHue + r2 * 40 - 20) 0) as [L | G].
    + rewrite js_mod_small; lra.
    + pose proof (proj1 (js_mod_bounds (baseHue + r2 * 40 - 20) 360 ltac:(lra)) G). lra.
  - destruct (Qlt_le_dec (baseHue + r2 * 40 - 20) 0) as [L | G].
    + rewrite js_mod_small; lra.
    + pose proof (proj1 (js_mod_bounds (baseHue + r2 * 40 - 20) 360 ltac:(lra)) G). lra.
Qed.

Lemma appends_after {P X} (Q : P -> Prop) (w w1 w' : World P X) :
  particlesRef w1 = particlesRef w -> appends Q w1 w' -> appends Q w w'.
Proof.
  intros E (new & En & F). exists new. rewrite <- E. split; assumption.
Qed.

Lemma neon_spawn_burst h type intensity (w : World Neon.NeonParticle Neon.GestureRefs) :
  random_unit h -> (forall n, 0 <= clock h n)%Z -> 0 <= intensity <= 1 ->
  0 < innerWidth h -> 0 < innerHeight h ->
  exists sx sy sz scale,
    (-0.35 * innerWidth h <= sx <= 0.35 * innerWidth h) /\
    (-0.25 * innerHeight h <= sy <= 0.25 * innerHeight h) /\
    (-200 <= sz <= 200) /\
    (0.24 <= scale <= 3) /\
    appends (neonBurst sx sy sz scale) w
            (exec (Neon.spawnNeonSnowflake h type intensity) w).
Proof.
  intros Hu Hclock Hi Hw Hh.
  set (c := randomCalls w).
  pose proof (Hu c) as R1. pose proof (Hu (S c)) as R2.
  pose proof (Hu (S (S c))) as R3. pose proof (Hu (S (S (S c)))) as R4.
  exists ((random h c - 0.5) * (innerWidth h * 0.7)),
         ((random h (S c) - 0.5) * (innerHeight h * 0.5)),
         ((random h (S (S c)) - 0.5) * 400),
         ((0.3 + random h (S (S (S c))) * 2.2) * (0.8 + intensity * 0.4)).
  split; [split; nra |]. split; [split; nra |]. split; [split; lra |].
  split; [split; nra |].
  set (sx := (random h c - 0.5) * (innerWidth h * 0.7)).
  set (sy := (random h (S c) - 0.5) * (innerHeight h * 0.5)).
  set (sz := (random h (S (S c)) - 0.5) * 400).
  set (scale := (0.3 + random h (S (S (S c))) * 2.2) * (0.8 + intensity * 0.4)).
  assert (Hscale : 0 < scale) by (subst scale; nra).
  set (R := @appends Neon.NeonParticle Neon.GestureRefs (neonBurst sx sy sz scale)).
  assert (Hr : forall w, R w w) by (intro; apply appends_refl).
  assert (Ht : forall a b c, R a b -> R b c -> R a c) by (intros a b c0; apply appends_trans).
  assert (Hrand : stable R (Math_random h)) by (apply appends_same; reflexivity).
  assert (Hnow : stable R (Date_now h)) by (apply appends_same; reflexivity).
  unfold Neon.spawnNeonSnowflake. unfold Neon.State.
  rewrite exec_bind; cbv beta. set (w0 := exec (emit (SpawnCall type intensity)) w).
  rewrite exec_bind; cbv beta. change (exec getParticles w0) with w0.
  change (eval getParticles w0) with (particlesRef w).
  destruct (Z.of_nat (List.length (particlesRef w)) >? 2000)%Z.
  { rewrite exec_ret. apply (appends_after _ w w0 w0 eq_refl). apply appends_refl. }
  rewrite exec_bind; cbv beta. set (w1 := exec (Date_now h) w0).
  rewrite exec_bind; cbv beta. set (w2 := exec (setLastSpawnTime _) w1). cbv zeta.
  rewrite exec_bind; cbv beta. change (eval (Math_random h) w2) with (random h c).
  set (w3 := exec (Math_random h) w2).
  rewrite exec_bind; cbv beta. change (eval (Math_random h) w3) with (random h (S c)).
  set (w4 := exec (Math_random h) w3).
  rewrite exec_bind; cbv beta. change (eval (Math_random h) w4) with (random h (S (S c))).
  set (w5 := exec (Math_random h) w4).
  rewrite exec_bind; cbv beta. set (t' := eval (Date_now h) w5).
  assert (Ht' : (0 <= t')%Z) by apply Hclock.
  set (w6 := exec (Date_now h) w5).
  rewrite exec_bind; cbv beta. change (eval (Math_random h) w6) with (random h (S (S (S c)))).
  set (w7 := exec (Math_random h) w6).
  fold sx sy sz scale.
  apply (appends_after _ w w7 _ eq_refl).
  set (baseHue := js_mod _ 360).
  assert (Hhue : 0 <= baseHue < 360).
  { subst baseHue. apply js_mod_bounds; [lra |].
    assert (0 <= inject_Z t').
    { change 0 with (inject_Z 0). rewrite <- Zle_Qle. exact Ht'. }
    destruct type; lra. }
  pose proof (fun speed skip cosA sinA pt =>
                neon_emitPoint_burst h sx sy sz baseHue scale speed skip cosA sinA pt
                  Hu Hhue Hscale) as Hpoint.
  pose proof (neon_blueprint_stable h R Hr Ht Hrand) as Hbp.
  generalize w7.
  match goal with |- forall w, _ w (exec ?m w) => change (stable R m) end.
  stable_auto Hr Ht.
Qed.

Lemma classic_emitPoint_burst h type sx sy sz scale speed skip cosA sinA pt :
  random_unit h -> 0 < scale ->
  stable (appends (classicBurst type sx sy sz scale))
         (Classic.emitPoint h sx sy sz (bandColor type) scale speed skip cosA sinA pt).
Proof.
  intros Hu Hscale.
  set (R := @appends Particle.t Point.t (classicBurst type sx sy sz scale)).
  assert (Hr : forall w, R w w) by (intro; apply appends_refl).
  assert (Ht : forall a b c, R a b -> R b c -> R a c) by (intros a b c; apply appends_trans).
  assert (Hrand : stable R (Math_random h)) by (apply appends_same; reflexivity).
  assert (Hunit : forall w : World Particle.t Point.t, 0 <= eval (Math_random h) w < 1).
  { intro w. exact (Hu (randomCalls w)). }
  unfold Classic.emitPoint.
  apply (stable_bind _ Ht); [destruct (gtb skip 0); stable_auto Hr Ht | intro skipped].
  destruct skipped; [apply (stable_ret _ Hr) |]. cbv zeta.
  unfold Classic.addParticle.
  apply (stable_bind _ Ht); [apply appends_same; reflexivity | intro ps].
  destruct (Z.of_nat (List.length ps) >? 4000)%Z; [apply (stable_ret _ Hr) |].
  apply (stable_bind_post R (fun r => 0 <= r < 1) _ _ Ht Hrand Hunit). intros r1 Hr1.
  apply (stable_bind_post R (fun r => 0 <= r < 1) _ _ Ht Hrand Hunit). intros r2 Hr2.
  apply (stable_bind _ Ht); [exact Hrand | intro r3].
  apply appends_push. unfold classicBurst.
  cbn [Particle.x Particle.y Particle.z Particle.vz Particle.alpha Particle.life
       Particle.decayRate Particle.size Particle.color].
  unfold FADE_SPEED_BASE, FADE_SPEED_VAR, SIZE_VARIATION, BASE_PARTICLE_SIZE.
  repeat split; try lra; try ring; try nra.
Qed.

Lemma classic_spawn_burst h type intensity (w : World Particle.t Point.t) :
  random_unit h -> 0 <= intensity <= 1 ->
  0 < innerWidth h -> 0 < innerHeight h ->
  exists sx sy sz scale,
    (-0.35 * innerWidth h <= sx <= 0.35 * innerWidth h) /\
    (-0.25 * innerHeight h <= sy <= 0.25 * innerHeight h) /\
    (-150 <= sz <= 150) /\
    (0.24 <= scale <= 3) /\
    appends (classicBurst type sx sy sz scale) w
            (exec (Classic.spawnSnowflake h type intensity) w).
Proof.
  intros Hu Hi Hw Hh.
  set (c := randomCalls w).
  pose proof (Hu c) as R1. pose proof (Hu (S c)) as R2.
  pose proof (Hu (S (S c))) as R3. pose proof (Hu (S (S (S c)))) as R4.
  exists ((random h c - 0.5) * (innerWidth h * 0.7)),
         ((random h (S c) - 0.5) * (innerHeight h * 0.5)),
         ((random h (S (S c)) - 0.5) * 300),
         ((0.3 + random h (S (S (S c))) * 2.2) * (0.8 + intensity * 0.4)).
  split; [split; nra |]. split; [split; nra |]. split; [split; lra |].
  split; [split; nra |].
  set (sx := (random h c - 0.5) * (innerWidth h * 0.7)).
  set (sy := (random h (S c) - 0.5) * (innerHeight h * 0.5)).
  set (sz := (random h (S (S c)) - 0.5) * 300).
  set (scale := (0.3 + random h (S (S (S c))) * 2.2) * (0.8 + intensity * 0.4)).
  assert (Hscale : 0 < scale) by (subst scale; nra).
  set (R := @appends Particle.t Point.t (classicBurst type sx sy sz scale)).
  assert (Hr : forall w, R w w) by (intro; apply appends_refl).
  assert (Ht : forall a b c, R a b -> R b c -> R a c) by (intros a b c0; apply appends_trans).
  assert (Hrand : stable R (Math_random h)) by (apply appends_same; reflexivity).
  unfold Classic.spawnSnowflake. unfold Classic.State.
  rewrite exec_bind; cbv beta. set (w0 := exec (emit (SpawnCall type intensity)) w).
  rewrite exec_bind; cbv beta. set (w1 := exec (Date_now h) w0).
  rewrite exec_bind; cbv beta. set (w2 := exec (setLastSpawnTime _) w1). cbv zeta.
  rewrite exec_bind; cbv beta. change (eval (Math_random h) w2) with (random h c).
  set (w3 := exec (Math_random h) w2).
  rewrite exec_bind; cbv beta. change (eval (Math_random h) w3) with (random h (S c)).
  set (w4 := exec (Math_random h) w3).
  rewrite exec_bind; cbv beta. change (eval (Math_random h) w4) with (random h (S (S c))).
  set (w5 := exec (Math_random h) w4).
  rewrite exec_bind; cbv beta.
  change (eval (Math_random h) w5) with (random h (S (S (S c)))).
  set (w6 := exec (Math_random h) w5).
  fold sx sy sz scale.
  apply (appends_after _ w w6 _ eq_refl).
  change (match type with
          | bass => Classic.COLOR_BASE
          | mid => Classic.COLOR_MID_FREQ
          | treble => Classic.COLOR_HIGH_FREQ
          end) with (bandColor type).
  pose proof (fun speed skip cosA sinA pt =>
                classic_emitPoint_burst h type sx sy sz scale speed skip cosA sinA pt
                  Hu Hscale) as Hpoint.
  pose proof (classic_blueprint_stable h R Hr Ht Hrand) as Hbp.
  pose proof (classic_blueprintPoints_stable h R Hr Ht Hrand) as Hpts.
  generalize w6.
  match goal with |- forall w, _ w (exec ?m w) => change (stable R m) end.
  stable_auto Hr Ht.
Qed.

(** X15. What a spawn call adds.  When a spawn function adds particles
    (intensity in [[0, 1]], a window of positive size), all of them start
    from one point of the central 70% by 50% of the window, at a depth
    within 200 (neon) or 150 (classic) of the origin and with no velocity in
    depth; the snowflake is scaled by a factor between 0.24 and 3; each
    particle has life 1, alpha 1 and a decay rate between 0.008 and 0.013.
    A neon particle has a size between [scale] and [5 * scale], a shard of 3
    to 5 vertices, a spin between -0.1 and 0.1 and a hue between -20 and
    360; a classic particle has a size between [0.4 * scale] and
    [1.84 * scale] and the colour of its band.  All bounds are inclusive. *)
Theorem spawn_burst (h : Host) (type : FrequencyBand) (intensity : Q)
    (wn : Neon.State) (wc : Classic.State) :
  random_unit h -> (forall n, 0 <= clock h n)%Z -> 0 <= intensity <= 1 ->
  0 < innerWidth h -> 0 < innerHeight h ->
  (exists sx sy sz scale,
     (-0.35 * innerWidth h <= sx <= 0.35 * innerWidth h) /\
     (-0.25 * innerHeight h <= sy <= 0.25 * innerHeight h) /\
     (-200 <= sz <= 200) /\
     (0.24 <= scale <= 3) /\
     appends (neonBurst sx sy sz scale) wn
             (exec (Neon.spawnNeonSnowflake h type intensity) wn)) /\
  (exists sx sy sz scale,
     (-0.35 * innerWidth h <= sx <= 0.35 * innerWidth h) /\
     (-0.25 * innerHeight h <= sy <= 0.25 * innerHeight h) /\
     (-150 <= sz <= 150) /\
     (0.24 <= scale <= 3) /\
     appends (classicBurst type sx sy sz scale) wc
             (exec (Classic.spawnSnowflake h type intensity) wc)).
Proof.
  intros Hu Hclock Hi Hw Hh. split.
  - apply neon_spawn_burst; assumption.
  - apply classic_spawn_burst; assumption.
Qed.

Lemma demo_clock_nonneg : forall n, (0 <= clock Demo.host n)%Z.
Proof. intro n. unfold Demo.host. cbn [clock]. lia. Qed.

(** A bass burst at full intensity in the demo scene: 1170 shards in the
    neon component, 2454 flakes in the classic one. *)
Lemma spawn_burst_witness :
  (exists sx sy sz scale new,
     particlesRef (exec (Neon.spawnNeonSnowflake Demo.host bass 1) Neon.initialState) = new /\
     List.length new = 1170%nat /\
     Forall (neonBurst sx sy sz scale) new /\ 0.24 <= scale <= 3) /\
  (exists sx sy sz scale new,
     particlesRef (exec (Classic.spawnSnowflake Demo.host bass 1) Classic.initialState) = new /\
     List.length new = 2454%nat /\
     Forall (classicBurst bass sx sy sz scale) new /\ 0.24 <= scale <= 3).
Proof.
  destruct (spawn_burst Demo.host bass 1 Neon.initialState Classic.initialState
              demo_random_unit demo_clock_nonneg
              ltac:(split; lra) ltac:(reflexivity) ltac:(reflexivity))
    as [(sx & sy & sz & scale & _ & _ & _ & Hs & new & E & F)
        (sx' & sy' & sz' & scale' & _ & _ & _ & Hs' & new' & E' & F')].
  split.
  - exists sx, sy, sz, scale, new.
    split; [exact E |]. split; [| split; assumption].
    assert (L : List.length (particlesRef (exec (Neon.spawnNeonSnowflake Demo.host bass 1)
                                                Neon.initialState)) = 1170%nat)
      by (vm_compute; reflexivity).
    rewrite E in L. exact L.
  - exists sx', sy', sz', scale', new'.
    split; [exact E' |]. split; [| split; assumption].
    assert (L : List.length (particlesRef (exec (Classic.spawnSnowflake Demo.host bass 1)
                                                Classic.initialState)) = 2454%nat)
      by (vm_compute; reflexivity).
    rewrite E' in L. exact L.
Defined.

(** ** The recognizer service *)

Lemma service_step_consistent {R} (s : GestureService.State R) (st : GestureService.Step R) :
  GestureService.consistent s -> GestureService.consistent (GestureService.step s st).
Proof.
  destruct s as [inst [[| | r |] |] f c]; destruct st as [| [| | r' |]];
    unfold GestureService.consistent, GestureService.step, GestureService.getGestureRecognizer,
      GestureService.settle;
    cbn; intros (H1 & H2 & H3); subst; cbn; repeat split; try lia; try reflexivity;
    try discriminate.
Qed.

Lemma service_run_consistent {R} (steps : list (GestureService.Step R)) :
  forall s, GestureService.consistent s ->
            GestureService.consistent (GestureService.run steps s).
Proof.
  induction steps as [| st steps IH]; intros s H; [exact H |].
  apply IH. apply service_step_consistent. exact H.
Qed.

(** X16. The recognizer is initialized at most once.  Whatever calls of
    [getGestureRecognizer] and settlements happen, in whatever order, the
    wasm fileset is requested at most once and a recognizer is created at
    most once, the fileset being requested exactly when there has been a
    call; a call made once the initialization has begun starts nothing: it
    leaves the module as it is. *)
Theorem recognizer_initialized_once {R} (steps : list (GestureService.Step R)) :
  let s := GestureService.run steps GestureService.initialState in
  (GestureService.filesetCalls s <= 1)%nat /\
  (GestureService.createCalls s <= GestureService.filesetCalls s)%nat /\
  (GestureService.filesetCalls s = 1%nat <-> In GestureService.Call steps) /\
  (GestureService.initializationPromise s <> None ->
   snd (GestureService.getGestureRecognizer s) = s).
Proof.
  intro s.
  assert (Hc : GestureService.consistent s).
  { apply service_run_consistent. repeat split. }
  assert (Hcall : forall (l : list (GestureService.Step R)) s0,
             GestureService.consistent s0 ->
             (GestureService.filesetCalls (GestureService.run l s0) = 1%nat <->
              GestureService.filesetCalls s0 = 1%nat \/ In GestureService.Call l)).
  { induction l as [| st l IH]; intros s0 H0.
    - cbn. tauto.
    - cbn [GestureService.run fold_left]. fold (GestureService.run l (GestureService.step s0 st)).
      rewrite (IH _ (service_step_consistent s0 st H0)). cbn [In].
      destruct s0 as [inst [[| | r |] |] f c]; destruct st as [| [| | r' |]];
        unfold GestureService.consistent in H0; cbn in H0; destruct H0 as (H1 & H2 & H3);
        subst; cbn; intuition (try discriminate; try lia; auto). }
  split; [| split; [| split]].
  - unfold GestureService.consistent in Hc.
    destruct (GestureService.initializationPromise s) as [[| | r |] |];
      destruct Hc as (_ & H & _); lia.
  - unfold GestureService.consistent in Hc.
    destruct (GestureService.initializationPromise s) as [[| | r |] |];
      destruct Hc as (_ & H & H'); lia.
  - subst s. rewrite Hcall by (repeat split). cbn. intuition discriminate.
  - intro Hp. unfold GestureService.getGestureRecognizer.
    destruct (GestureService.gestureRecognizerInstance s); [reflexivity |].
    destruct (GestureService.initializationPromise s); [reflexivity | congruence].
Qed.

Lemma service_settled_step {R} (s : GestureService.State R) (st : GestureService.Step R) :
  (forall r, GestureService.initializationPromise s = Some (GestureService.Fulfilled r) ->
             GestureService.gestureRecognizerInstance s = Some r ->
             GestureService.step s st = s) /\
  (GestureService.initializationPromise s = Some GestureService.Rejected ->
   GestureService.gestureRecognizerInstance s = None ->
   GestureService.step s st = s).
Proof.
  split.
  - intros r Hp Hi. destruct st as [| e].
    + unfold GestureService.step, GestureService.getGestureRecognizer. rewrite Hi. reflexivity.
    + unfold GestureService.step, GestureService.settle. rewrite Hp. destruct e; reflexivity.
  - intros Hp Hi. destruct st as [| e].
    + unfold GestureService.step, GestureService.getGestureRecognizer. rewrite Hi, Hp.
      reflexivity.
    + unfold GestureService.step, GestureService.settle. rewrite Hp. destruct e; reflexivity.
Qed.

(** X17. A settled initialization is final.  Once the recognizer has been
    created, every later call answers with that same instance, and the
    promise handed out to the earlier callers is resolved with it; once the
    initialization has failed, every later call answers with the rejected
    promise: the module never tries again.  In both cases nothing that
    happens later changes the module. *)
Theorem recognizer_settled_for_good {R} (before later : list (GestureService.Step R)) :
  let s := GestureService.run before GestureService.initialState in
  let s' := GestureService.run later s in
  (forall r, GestureService.gestureRecognizerInstance s = Some r ->
     s' = s /\
     fst (GestureService.getGestureRecognizer s') = GestureService.Instance r /\
     GestureService.outcome GestureService.Shared s' = Some (Some r)) /\
  (GestureService.initializationPromise s = Some GestureService.Rejected ->
     s' = s /\
     fst (GestureService.getGestureRecognizer s') = GestureService.Shared /\
     GestureService.outcome GestureService.Shared s' = Some None /\
     GestureService.gestureRecognizerInstance s' = None).
Proof.
  intros s s'.
  assert (Hc : GestureService.consistent s).
  { apply service_run_consistent. repeat split. }
  assert (Hfix : forall (l : list (GestureService.Step R)) s0,
             (forall st, GestureService.step s0 st = s0) -> GestureService.run l s0 = s0).
  { induction l as [| st l IH]; intros s0 H0; [reflexivity |].
    cbn [GestureService.run fold_left]. rewrite H0. apply IH. exact H0. }
  split.
  - intros r Hi.
    assert (Hp : GestureService.initializationPromise s
                 = Some (GestureService.Fulfilled r)).
    { unfold GestureService.consistent in Hc.
      destruct (GestureService.initializationPromise s) as [[| | r0 |] |];
        destruct Hc as (H & _); congruence. }
    assert (E : s' = s).
    { apply Hfix. intro st. apply (proj1 (service_settled_step s st) r Hp Hi). }
    split; [exact E |]. rewrite E.
    unfold GestureService.getGestureRecognizer, GestureService.outcome. rewrite Hi, Hp.
    split; reflexivity.
  - intro Hp.
    assert (Hi : GestureService.gestureRecognizerInstance s = None).
    { unfold GestureService.consistent in Hc. rewrite Hp in Hc. exact (proj1 Hc). }
    assert (E : s' = s).
    { apply Hfix. intro st. apply (proj2 (service_settled_step s st) Hp Hi). }
    split; [exact E |]. rewrite E.
    unfold GestureService.getGestureRecognizer, GestureService.outcome. rewrite Hi, Hp.
    repeat split; reflexivity.
Qed.

(** ** Transport controls *)

Lemma lastStart_app (l : list App.Effect) (source : nat) (offset : Q) :
  App.lastStart (l ++ [App.Start source offset]) = Some offset.
Proof.
  induction l as [| e l IH]; [reflexivity |].
  cbn [app App.lastStart]. rewrite IH. reflexivity.
Qed.

Lemma lastStart_app_assoc (l r : list App.Effect) (source : nat) (offset : Q) :
  App.lastStart (l ++ r ++ [App.Start source offset]) = Some offset.
Proof. rewrite app_assoc. apply lastStart_app. Qed.

Lemma playAudio_ready (now duration : Q) (s : App.State) :
  App.ready duration s ->
  let s' := App.playAudio now s in
  App.lastStart (App.log s') = Some (js_mod (App.pauseTimeRef s) duration) /\
  App.startTimeRef s' = now - js_mod (App.pauseTimeRef s) duration /\
  App.isPlaying s' = true /\
  App.sourceNode s' = Some (App.sources s) /\
  App.sources s' = S (App.sources s) /\
  App.ready duration s'.
Proof.
  intros (Hc & Ha & Hb & Hd) s'. subst s'. unfold App.playAudio.
  destruct (App.audioContext s) as [st |] eqn:Ec; [| congruence].
  rewrite Ha, Hb. cbv zeta.
  cbn [App.log App.startTimeRef App.isPlaying App.sourceNode App.sources].
  split; [apply lastStart_app_assoc |].
  repeat split; cbn; try assumption; try congruence.
Qed.

(** X18. Pause and resume keep the position.  With a file loaded and a
    source playing at a position inside the track, pausing and then calling
    [playAudio] at any later time creates a new source, starts it at the
    offset where the old one stopped, and the position read off
    [startTimeRef] continues from there. *)
Theorem pause_resume_keeps_position (duration paused resumed : Q) (s : App.State) :
  App.ready duration s ->
  App.sourceNode s <> None ->
  0 <= App.position paused s < duration ->
  let s1 := App.pauseAudio paused s in
  let s2 := App.playAudio resumed s1 in
  App.isPlaying s1 = false /\
  App.isPlaying s2 = true /\
  App.sourceNode s2 = Some (App.sources s) /\
  (exists offset, App.lastStart (App.log s2) = Some offset /\
                  offset == App.position paused s) /\
  App.position resumed s2 == App.position paused s.
Proof.
  intros Hr Hs Hp s1 s2.
  destruct Hr as (Hc & Ha & Hb & Hd).
  destruct (App.sourceNode s) as [source |] eqn:Es; [| congruence].
  destruct (App.audioContext s) as [st |] eqn:Ec; [| congruence].
  assert (E1 : s1 = App.mkState (Some st) (App.analyser s) (App.audioBuffer s) (Some source)
                      false (App.fileName s) (App.error s) (App.startTimeRef s)
                      (paused - App.startTimeRef s) (App.sources s)
                      (App.log s ++ [App.Stop source])).
  { subst s1. unfold App.pauseAudio. rewrite Es, Ec. reflexivity. }
  assert (Hr1 : App.ready duration s1).
  { rewrite E1. repeat split; cbn; try assumption; discriminate. }
  destruct (playAudio_ready resumed duration s1 Hr1) as (L & S & P & N & _).
  fold s2 in L, S, P, N.
  assert (Ep : App.pauseTimeRef s1 = App.position paused s) by (rewrite E1; reflexivity).
  rewrite Ep in L, S.
  assert (Em : js_mod (App.position paused s) duration == App.position paused s).
  { apply js_mod_small; [exact Hd | lra]. }
  split; [rewrite E1; reflexivity |].
  split; [exact P |].
  split; [rewrite N, E1; reflexivity |].
  split; [eexists; split; [exact L | exact Em] |].
  unfold App.position at 1. rewrite S, Em. ring.
Qed.

Lemma demoPlaying_ready : App.ready 180 demoPlaying.
Proof. repeat split; try discriminate. Qed.

Lemma pause_resume_keeps_position_witness :
  App.position 100 (App.playAudio 100 (App.pauseAudio 40 demoPlaying)) == 30.
Proof.
  pose proof (pause_resume_keeps_position 180 40 100 demoPlaying demoPlaying_ready
                ltac:(discriminate) ltac:(vm_compute; split; [discriminate | reflexivity]))
    as H.
  cbv zeta in H. destruct H as (_ & _ & _ & _ & H). rewrite H. vm_compute. reflexivity.
Defined.

(** X19. The end of a source.  [onended] of a source changes nothing
    while the position is short of the end of the track, as when the source
    was stopped by a pause, so the pause position survives; at or past the
    end it clears the playing flag and rewinds, and the next [playAudio]
    starts from offset 0. *)
Theorem ended_rewinds_only_at_the_end (duration now later : Q) (s : App.State) :
  App.ready duration s ->
  let s' := App.onended duration now s in
  (App.position now s < duration -> s' = s) /\
  (duration <= App.position now s ->
   App.isPlaying s' = false /\
   App.pauseTimeRef s' = 0 /\
   exists offset, App.lastStart (App.log (App.playAudio later s')) = Some offset /\
                  offset == 0).
Proof.
  intros Hr s'. subst s'. unfold App.onended, App.position. split.
  - intro Hlt.
    destruct (Qle_bool duration (now - App.startTimeRef s)) eqn:E; [| reflexivity].
    apply Qle_bool_iff in E. lra.
  - intro Hge.
    assert (E : Qle_bool duration (now - App.startTimeRef s) = true)
      by (apply Qle_bool_iff; exact Hge).
    rewrite E. split; [reflexivity |]. split; [reflexivity |].
    set (s' := App.mkState _ _ _ _ _ _ _ _ _ _ _).
    assert (Hr' : App.ready duration s').
    { destruct Hr as (Hc & Ha & Hb & Hd). repeat split; assumption. }
    destruct (playAudio_ready later duration s' Hr') as (L & _).
    eexists. split; [exact L |].
    change (App.pauseTimeRef s') with 0.
    apply js_mod_small; destruct Hr as (_ & _ & _ & Hd); [exact Hd | lra].
Qed.

Lemma ended_rewinds_only_at_the_end_witness :
  App.onended 180 40 demoPlaying = demoPlaying.
Proof.
  apply (proj1 (ended_rewinds_only_at_the_end 180 40 0 demoPlaying demoPlaying_ready)).
  vm_compute. reflexivity.
Defined.

(** X20. Rewinding and the guard of [playAudio].  [playAudio] does
    nothing at all unless the context, the analyser and a decoded buffer
    are there.  With them, [playAudio] after [handleReplay], and after a
    file has been decoded, starts from offset 0 whatever the position was;
    [handleReplay] stops the current source, if any, before it rewinds. *)
Theorem replay_and_upload_rewind (duration now : Q) (s : App.State) :
  (App.audioContext s = None \/ App.analyser s = false \/ App.audioBuffer s = None ->
   App.playAudio now s = s) /\
  (App.ready duration s ->
   exists offset,
     App.lastStart (App.log (App.playAudio now (App.handleReplay s))) = Some offset /\
     offset == 0 /\
     App.position now (App.playAudio now (App.handleReplay s)) == 0) /\
  (App.audioContext s <> None -> App.analyser s = true -> 0 < duration ->
   exists offset,
     App.lastStart (App.log (App.playAudio now (App.uploadSettled (Some duration) s)))
     = Some offset /\
     offset == 0) /\
  (forall source, App.sourceNode s = Some source ->
   App.log (App.handleReplay s) = App.log s ++ [App.Stop source; App.SetTimeout 50]).
Proof.
  split; [| split; [| split]].
  - unfold App.playAudio.
    intros [H | [H | H]]; rewrite H; [reflexivity | |].
    + destruct (App.audioContext s); reflexivity.
    + destruct (App.audioContext s); [destruct (App.analyser s) |]; reflexivity.
  - intros (Hc & Ha & Hb & Hd).
    assert (Hr' : App.ready duration (App.handleReplay s)) by (repeat split; assumption).
    destruct (playAudio_ready now duration _ Hr') as (L & S & _).
    assert (Em : js_mod 0 duration == 0) by (apply js_mod_small; [exact Hd | lra]).
    eexists. split; [exact L |]. split; [exact Em |].
    unfold App.position. rewrite S.
    change (App.pauseTimeRef (App.handleReplay s)) with 0. rewrite Em. ring.
  - intros Hc Ha Hd.
    assert (Hr' : App.ready duration (App.uploadSettled (Some duration) s))
      by (repeat split; assumption).
    destruct (playAudio_ready now duration _ Hr') as (L & _).
    eexists. split; [exact L |].
    change (App.pauseTimeRef (App.uploadSettled (Some duration) s)) with 0.
    apply js_mod_small; [exact Hd | lra].
  - intros source Hs. unfold App.handleReplay, App.stopSource. cbn [App.log].
    rewrite Hs. reflexivity.
Qed.

(** ** Level bars *)

Lemma barWidth_exact (e : Q) :
  0 <= e <= 255 -> barWidth e == e / 255 * 100 /\ 0 <= barWidth e <= 100.
Proof.
  intros [H0 H1]. unfold barWidth, Math_min.
  assert (B : 0 <= e / 255 * 100 <= 100).
  { setoid_replace (e / 255 * 100) with (e * (20 # 51)) by field. split; lra. }
  destruct (Qle_bool 100 (e / 255 * 100)) eqn:E.
  - apply Qle_bool_iff in E. split; lra.
  - split; [reflexivity | exact B].
Qed.

Lemma barText_range (e : Q) : 0 <= e <= 255 -> (0 <= barText e <= 255)%Z.
Proof.
  intros [H0 H1]. unfold barText, Math_floor. split.
  - change 0%Z with (Qfloor 0). apply Qfloor_resp_le. exact H0.
  - change 255%Z with (Qfloor 255). apply Qfloor_resp_le. exact H1.
Qed.

(** X21. The level bars never clip.  For a non-empty byte buffer every bar
    is exactly its band energy as a percentage of 255, which lies between
    0 and 100, so that the [Math.min] with 100 never takes effect, and
    every label is an integer between 0 and 255. *)
Theorem level_bars_never_clip (dataArray : list Z) :
  dataArray <> [] -> Forall is_uint8 dataArray ->
  let a := analyzeAudio dataArray in
  let l := levelBars (Some dataArray) in
  (bassBar l == bassEnergy a / 255 * 100 /\ 0 <= bassBar l <= 100) /\
  (midBar l == midEnergy a / 255 * 100 /\ 0 <= midBar l <= 100) /\
  (trebleBar l == trebleEnergy a / 255 * 100 /\ 0 <= trebleBar l <= 100) /\
  (0 <= bassText l <= 255)%Z /\ (0 <= midText l <= 255)%Z /\ (0 <= trebleText l <= 255)%Z.
Proof.
  intros Hne Hb a l.
  assert (Hm : Forall (at_most 255) dataArray).
  { rewrite Forall_forall in *. intros v Hv. exact (Hb v Hv). }
  destruct (analyzeAudio_at_most 255 dataArray Hne ltac:(lia) Hm) as (_ & B & M & T).
  cbv zeta in B, M, T. change (inject_Z 255) with 255 in *. fold a in B, M, T.
  subst l. unfold levelBars. cbv zeta. fold a.
  cbn [bassBar midBar trebleBar bassText midText trebleText].
  split; [apply barWidth_exact; exact B |].
  split; [apply barWidth_exact; exact M |].
  split; [apply barWidth_exact; exact T |].
  split; [apply barText_range; exact B |].
  split; apply barText_range; assumption.
Qed.

Lemma level_bars_never_clip_witness :
  bassBar (levelBars (Some Demo.burst)) == bassEnergy (analyzeAudio Demo.burst) / 255 * 100.
Proof.
  assert (Hb : Forall is_uint8 Demo.burst).
  { apply Forall_app. split; apply Forall_forall; intros x Hx;
      apply repeat_spec in Hx; subst x; unfold is_uint8; lia. }
  pose proof (level_bars_never_clip Demo.burst ltac:(discriminate) Hb) as H.
  cbv zeta in H. exact (proj1 (proj1 H)).
Defined.

(** ** What the classic component paints *)

Lemma classic_physics_mortal (energy : Q) (p : Particle.t) :
  mortal p -> mortal (Classic.physics energy p).
Proof.
  intros [Hl Hd]. destruct (classic_physics_life energy p) as [L D].
  split; [| rewrite D; exact Hd]. unfold FADE_SPEED_BASE in *. lra.
Qed.

Lemma fresh_mortal (p : Particle.t) : fresh p -> mortal p.
Proof. intros [Hl Hd]. split; [lra | exact Hd]. Qed.

Section ClassicPaints.
Context (h : Host).
Hypothesis cos_bounded : forall x, -1 <= cos h x <= 1.
Hypothesis Hrandom : random_unit h.

Lemma classic_renderParticle_paints energy cx cy
      (w : World Particle.t Point.t) pre p0 suf :
  paintable w ->
  particlesRef w = pre ++ p0 :: suf ->
  let w' := exec (Classic.renderParticle h energy cx cy (List.length pre)) w in
  paintable w' /\
  particlesRef w' =
    pre ++ (if alive (Classic.physics energy p0)
            then [Classic.physics energy p0] else []) ++ suf.
Proof.
  intros [Hm Hv] Hps w'.
  destruct (classic_renderParticle_pass h energy cx cy w pre p0 suf I Hps) as [_ Hp].
  fold w' in Hp. split; [| exact Hp].
  assert (Hm0 : mortal p0).
  { rewrite Hps in Hm. apply Forall_app in Hm. destruct Hm as [_ Hm].
    inversion Hm; assumption. }
  pose proof (classic_physics_mortal energy p0 Hm0) as Hm1.
  split.
  - rewrite Hp. rewrite Hps in Hm. apply Forall_app in Hm. destruct Hm as [Hpre Hsuf].
    inversion Hsuf as [| ? ? _ Hsuf']; subst.
    apply Forall_app. split; [exact Hpre |]. apply Forall_app. split; [| exact Hsuf'].
    destruct (alive (Classic.physics energy p0)); [| constructor].
    constructor; [exact Hm1 | constructor].
  - subst w'. unfold Classic.renderParticle.
    rewrite exec_bind.
    change (eval getParticles w) with (particlesRef w). change (exec getParticles w) with w.
    rewrite Hps, nth_error_middle. cbv zeta.
    set (p := Classic.physics energy p0) in *.
    rewrite exec_bind, replace_nth_middle.
    destruct (gtb (Particle.life p) 0) eqn:Hlife.
    + rewrite exec_bind.
      match goal with
      | |- context [if ?c then _ else _] => destruct c eqn:Hdepth
      end.
      * apply gtb_true in Hlife. apply gtb_true in Hdepth.
        rewrite exec_bind.
        cbv beta iota zeta delta [exec eval bind ret getOwn setParticles emit Date_now].
        cbn [fst snd trace].
        apply Forall_app. split; [exact Hv |]. repeat constructor.
        -- cbn [valid_disc]. apply (Math_max_lub 0.1).
        -- cbn [valid_disc].
           match goal with
           | |- context [cos h ?x] => pose proof (cos_bounded x) as Hc; set (c := cos h x) in *
           end.
           match goal with
           | |- context [Classic.fov / ?d] =>
               assert (Hs : 0 < Classic.fov / d)
                 by (apply Qlt_shift_div_l; [exact Hdepth | unfold Classic.fov; lra]);
               set (scale := Classic.fov / d) in *
           end.
           assert (Ha : Particle.alpha p = Particle.life p) by reflexivity.
           rewrite Ha. destruct Hm1 as [Hl1 _].
           pose proof (Math_min_glb 1 scale) as [G1 G2].
           assert (G3 : 0 < Math_min 1 scale).
           { unfold Math_min. destruct (Qle_bool 1 scale); lra. }
           set (m := Math_min 1 scale) in *. set (l := Particle.life p) in *.
           assert (P1 : 0 < l * m) by (apply Qmult_lt_0_compat; assumption).
           assert (P2 : l * m <= 1) by nra.
           set (o := l * m) in *. nra.
        -- cbn [valid_disc]. 
           match goal with
           | |- context [cos h ?x] => pose proof (cos_bounded x) as Hc; set (c := cos h x) in *
           end.
           match goal with
           | |- context [Classic.fov / ?d] =>
               assert (Hs : 0 < Classic.fov / d)
                 by (apply Qlt_shift_div_l; [exact Hdepth | unfold Classic.fov; lra]);
               set (scale := Classic.fov / d) in *
           end.
           assert (Ha : Particle.alpha p = Particle.life p) by reflexivity.
           rewrite Ha. destruct Hm1 as [Hl1 _].
           pose proof (Math_min_glb 1 scale) as [G1 G2].
           assert (G3 : 0 < Math_min 1 scale).
           { unfold Math_min. destruct (Qle_bool 1 scale); lra. }
           set (m := Math_min 1 scale) in *. set (l := Particle.life p) in *.
           assert (P1 : 0 < l * m) by (apply Qmult_lt_0_compat; assumption).
           assert (P2 : l * m <= 1) by nra.
           set (o := l * m) in *. nra.
      * rewrite exec_ret. exact Hv.
    + rewrite exec_bind. exact Hv.
Qed.

Lemma classic_beatDetection_appends (a : AudioData) :
  stable (@appends Particle.t Point.t fresh) (beatDetection h (Classic.spawnSnowflake h) a).
Proof.
  set (R := @appends Particle.t Point.t fresh).
  assert (Hr : forall w, R w w) by (intro; apply appends_refl).
  assert (Ht : forall a b c, R a b -> R b c -> R a c) by (intros x y z; apply appends_trans).
  assert (Hnow : stable R (Date_now h)) by (apply appends_same; reflexivity).
  assert (Hget : stable R getBeat) by (apply appends_same; reflexivity).
  assert (Hset : forall b, stable R (setBeat b)) by (intro; apply appends_same; reflexivity).
  assert (Hspawn : forall type intensity, stable R (Classic.spawnSnowflake h type intensity)).
  { intros type intensity w. apply classic_spawn_fresh. exact Hrandom. }
  unfold beatDetection, detectBass, detectMid, detectTreble, fallbackSpawn, updateAverages,
    setBassThreshold, setMidThreshold, setTrebleThreshold, setAverages.
  stable_auto Hr Ht.
Qed.

Lemma specSpawnDecision_valid elapsed b a t :
  Forall valid_disc (specSpawnDecision elapsed b a t).
Proof.
  unfold specSpawnDecision.
  repeat match goal with |- context [if ?c then _ else _] => destruct c end;
    repeat constructor.
Qed.

Lemma classic_render_paintable audio (w : World Particle.t Point.t) :
  paintable w -> paintable (exec (Classic.render h audio) w).
Proof.
  intros [Hm Hv]. unfold Classic.render. rewrite !exec_bind.
  set (w1 := exec (emit FillRect) w).
  assert (H1 : paintable w1).
  { split; [exact Hm |]. unfold w1, exec, emit. cbn [snd trace].
    apply Forall_app. split; [exact Hv | repeat constructor]. }
  set (w2 := exec (Classic.audioBlock h audio) w1).
  assert (H2 : paintable w2).
  { subst w2. destruct audio as [dataArray |]; [| exact H1].
    rewrite (proj1 (classic_audioBlock_active h dataArray w1)).
    destruct H1 as [Hm1 Hv1]. split.
    - destruct (classic_beatDetection_appends (analyzeAudio dataArray) w1)
        as (new & E & F).
      rewrite E. apply Forall_app. split; [exact Hm1 |].
      rewrite Forall_forall in *. intros p Hp. apply fresh_mortal. apply F. exact Hp.
    - destruct (beatDetection_run h (Classic.spawnSnowflake h) (classic_spawn_frame h)
                  (analyzeAudio dataArray) w1) as (_ & _ & T).
      rewrite T. apply Forall_app. split; [exact Hv1 | apply specSpawnDecision_valid]. }
  unfold Classic.particlePass. rewrite exec_bind.
  change (eval getParticles w2) with (particlesRef w2).
  change (exec getParticles w2) with w2.
  exact (proj1 (down_loop_pass
                  (Classic.renderParticle h (eval (Classic.audioBlock h audio) w1)
                     (innerWidth h / 2) (innerHeight h / 2))
                  (Classic.physics (eval (Classic.audioBlock h audio) w1)) alive paintable
                  (fun w0 pre p0 suf =>
                     classic_renderParticle_paints _ _ _ w0 pre p0 suf)
                  (List.length (particlesRef w2)) w2 (particlesRef w2) [] H2
                  (eq_sym (app_nil_r _)) eq_refl)).
Qed.

End ClassicPaints.

(** X22. What the classic component paints is always valid.  Starting
    from the initial state, every disc painted on any frame has a radius of
    at least 0.1 and an opacity greater than 0 and at most 1 (for a cosine
    with values in [[-1, 1]]). *)
Theorem classic_paints_valid_discs (h : Host) (inputs : list (option (list Z))) :
  (forall x, -1 <= cos h x <= 1) -> random_unit h ->
  Forall valid_disc (trace (exec (Classic.run h inputs) Classic.initialState)).
Proof.
  intros Hcos Hu.
  apply (for_of_invariant (Classic.render h) (fun _ => True)
           (fun _ w => paintable w)
           (fun _ i w _ Hw => classic_render_paintable h Hcos Hu i w Hw)
           inputs 0%nat Classic.initialState).
  - apply Forall_forall. intros; exact I.
  - split; constructor.
Qed.

Lemma classic_paints_valid_discs_witness :
  Forall valid_disc
         (trace (exec (Classic.run clampedHost [Some Demo.burst]) Classic.initialState)).
Proof.
  apply (classic_paints_valid_discs clampedHost [Some Demo.burst]).
  - intro x. unfold clampedHost. cbn [cos].
    pose proof (Math_max_lub (-1) (Math_min 1 (Demo.cos x))) as [A B].
    pose proof (Math_min_glb 1 (Demo.cos x)) as [C D].
    split; [exact A |].
    unfold Math_max. destruct (Qle_bool (-1) (Math_min 1 (Demo.cos x))); lra.
  - exact demo_random_unit.
Defined.

(** ** The camera effect *)

Lemma webcam_unmounted_step callback videoRef (s : Webcam.State) (e : Webcam.Event) :
  Webcam.isMounted s = false ->
  Webcam.gestureRecognizerRef s = false ->
  (Webcam.stream s = true -> Webcam.tracksStopped s = true) ->
  let s' := Webcam.step callback videoRef s e in
  Webcam.isMounted s' = false /\
  Webcam.statuses s' = Webcam.statuses s /\
  Webcam.isCameraReadyRef s' = Webcam.isCameraReadyRef s /\
  Webcam.gestureRecognizerRef s' = false /\
  (Webcam.stream s' = true -> Webcam.tracksStopped s' = true).
Proof.
  intros Hm Hg Hs s'. subst s'.
  destruct s as [m st str stopped rec ready sts]. cbn in Hm, Hg, Hs. subst m rec.
  destruct e, st, callback, videoRef, str; cbn in *; repeat split; auto.
Qed.

Lemma webcam_unmounted_run callback videoRef (events : list Webcam.Event) :
  forall s : Webcam.State,
    Webcam.isMounted s = false ->
    Webcam.gestureRecognizerRef s = false ->
    (Webcam.stream s = true -> Webcam.tracksStopped s = true) ->
    let s' := Webcam.run callback videoRef events s in
    Webcam.isMounted s' = false /\
    Webcam.statuses s' = Webcam.statuses s /\
    Webcam.isCameraReadyRef s' = Webcam.isCameraReadyRef s /\
    Webcam.gestureRecognizerRef s' = false /\
    (Webcam.stream s' = true -> Webcam.tracksStopped s' = true).
Proof.
  induction events as [| e events IH]; intros s Hm Hg Hs; [repeat split; auto |].
  cbn [Webcam.run fold_left].
  destruct (webcam_unmounted_step callback videoRef s e Hm Hg Hs) as (M & S & R & G & T).
  destruct (IH _ M G T) as (M' & S' & R' & G' & T').
  unfold Webcam.run in *. cbv zeta in *.
  repeat split; try congruence. exact T'.
Qed.

(** X23. Nothing outlives the component.  Whatever happens before and
    after the component unmounts, from the unmount on no status is reported
    to [onCameraStatusChange], the recognizer ref stays cleared, the
    camera-ready flag is not raised, and a camera stream, whether it was
    granted before or arrives after, has its tracks stopped. *)
Theorem camera_released_on_unmount (callback videoRef : bool)
    (before after : list Webcam.Event) :
  let s := Webcam.run callback videoRef (before ++ [Webcam.Unmount]) (Webcam.mount callback) in
  let s' := Webcam.run callback videoRef after s in
  Webcam.statuses s' = Webcam.statuses s /\
  Webcam.gestureRecognizerRef s' = false /\
  Webcam.isCameraReadyRef s' = Webcam.isCameraReadyRef s /\
  (Webcam.stream s' = true -> Webcam.tracksStopped s' = true).
Proof.
  intros s s'.
  assert (Hs : Webcam.isMounted s = false /\ Webcam.gestureRecognizerRef s = false /\
               (Webcam.stream s = true -> Webcam.tracksStopped s = true)).
  { subst s. unfold Webcam.run. rewrite fold_left_app. cbn [fold_left].
    set (s0 := fold_left _ before _).
    destruct s0 as [m st str stopped rec ready sts].
    destruct st, str; cbn; repeat split; intros; try discriminate; auto. }
  destruct Hs as (Hm & Hg & Ht).
  destruct (webcam_unmounted_run callback videoRef after s Hm Hg Ht) as (_ & S & R & G & T).
  fold s' in S, R, G, T.
  split; [exact S |]. split; [exact G |]. split; [exact R | exact T].
Qed.

Lemma webcam_step_status videoRef (bound : nat) (s : Webcam.State) (e : Webcam.Event) :
  status_log_ok bound s ->
  status_log_ok (bound + loadedData [e]) (Webcam.step true videoRef s e).
Proof.
  destruct s as [m st str stopped rec ready sts].
  unfold status_log_ok. cbn [Webcam.stage Webcam.statuses Webcam.isCameraReadyRef].
  intro H.
  destruct st.
  - destruct H as [-> ->].
    destruct e, m; cbn; auto 10.
  - destruct H as [-> ->].
    destruct e, m, videoRef; cbn; auto 10;
      exists 0%nat; repeat split; lia.
  - destruct H as (n & Hn & -> & ->).
    destruct e; cbn; try solve [exists n; repeat split; first [lia | reflexivity]].
    destruct m; cbn.
    + exists (S n). split; [lia |]. split; [| reflexivity].
      cbn. do 2 f_equal. change (repeat (true, "Ready"%string) n ++ [(true, "Ready"%string)])
        with (repeat (true, "Ready"%string) n ++ repeat (true, "Ready"%string) 1).
      rewrite <- repeat_app. replace (n + 1)%nat with (S n) by lia. reflexivity.
    + exists n. repeat split; lia.
  - destruct e; cbn; exact H.
Qed.

Lemma webcam_run_status videoRef (events : list Webcam.Event) :
  forall bound (s : Webcam.State),
    status_log_ok bound s ->
    status_log_ok (bound + loadedData events) (Webcam.run true videoRef events s).
Proof.
  induction events as [| e events IH]; intros bound s H.
  - cbn. rewrite Nat.add_0_r. exact H.
  - cbn [Webcam.run fold_left].
    replace (bound + loadedData (e :: events))%nat
      with ((bound + loadedData [e]) + loadedData events)%nat.
    + apply IH. apply webcam_step_status. exact H.
    + unfold loadedData. cbn [filter]. destruct e; cbn [List.length]; lia.
Qed.

(** X24. The camera status protocol.  With a status callback, what is
    reported is always ["Loading Neon AI..."], then possibly ["Starting
    Camera..."], then either ["Camera Error"] (which can also follow the
    first status directly), after which nothing follows, or ["Ready"] once
    or several times and nothing else: the [onloadeddata] handler stays
    installed, and while the component is mounted every [loadeddata] event
    reports ["Ready"] again, so that it is reported at most once per such
    event.  The camera-ready flag is set exactly when ["Ready"] has been
    reported. *)
Theorem camera_status_protocol (videoRef : bool) (events : list Webcam.Event) :
  let s := Webcam.run true videoRef events (Webcam.mount true) in
  let loading := (false, "Loading Neon AI..."%string) in
  let starting := (false, "Starting Camera..."%string) in
  let ready := (true, "Ready"%string) in
  let failed := (false, "Camera Error"%string) in
  (In (Webcam.statuses s)
      [[loading]; [loading; starting]; [loading; failed]; [loading; starting; failed]] /\
   Webcam.isCameraReadyRef s = false
   \/
   exists n, (1 <= n <= loadedData events)%nat /\
     Webcam.statuses s = loading :: starting :: repeat ready n /\
     Webcam.isCameraReadyRef s = true) /\
  (Webcam.stage s = Webcam.Listening -> Webcam.isMounted s = true ->
   let s' := Webcam.step true videoRef s Webcam.LoadedData in
   Webcam.statuses s' = Webcam.statuses s ++ [ready] /\
   Webcam.isCameraReadyRef s' = true).
Proof.
  intros s loading starting ready failed.
  assert (H : status_log_ok (loadedData events) s).
  { subst s. apply (webcam_run_status videoRef events 0%nat).
    unfold status_log_ok, Webcam.mount, Webcam.report. cbn. split; reflexivity. }
  split.
  - unfold status_log_ok in H. cbv zeta in H.
    destruct (Webcam.stage s).
    + destruct H as [-> ->]. left. cbn. auto.
    + destruct H as [-> ->]. left. cbn. auto.
    + destruct H as (n & Hn & Hs & Hr). destruct n as [| n].
      * left. rewrite Hs, Hr. cbn. auto.
      * right. exists (S n). split; [lia |]. split; [exact Hs | exact Hr].
    + left. exact H.
  - intros Hst Hm s'. subst s'. unfold Webcam.step. rewrite Hst, Hm.
    split; reflexivity.
Qed.

(** ** The lifetime of a particle over the frames *)




Section Lifetime.
Context {P X I : Type}.
Variable render : I -> M (World P X) unit.
Variable physics : Q -> P -> P.
Variable core : P -> Particle.t.
Variable energyOf : I -> Q.
Variable good : list I -> World P X -> Prop.

Hypothesis physics_life : forall e p,
  Particle.life (core (physics e p))
  <= Particle.life (core p) - Particle.decayRate (core p) /\
  Particle.decayRate (core (physics e p)) = Particle.decayRate (core p).

Hypothesis good_frame : forall i rest w,
  good (i :: rest) w ->
  good rest (exec (render i) w) /\
  exists new,
    Forall (fun p => fresh (core p)) new /\
    particlesRef (exec (render i) w)
    = filter (fun p => alive (core p)) (map (physics (energyOf i)) (particlesRef w ++ new)).





End Lifetime.


